(** * N x N tic-tac-toe: rules engine and search engine

    A shallow embedding of [utils/gameLogic.ts] (module [Rules]) and of
    [utils/aiEngine.ts] (module [Engine]), with the properties of the
    specification stated and proved over it.

    Modelling conventions.
    - A JavaScript [number] holding a coordinate, a size, a depth or a
      counter is a [Z]; the values [-Infinity] and [Infinity] used by the
      search are the constructors [NegInf] and [PosInf] of [Num].
    - [null] is [None] in [Cell = option Player].  Reading an array out of
      range gives [undefined]: [index] returns [None] there and [Some x]
      inside the array.  Reading an element of [undefined] throws a
      [TypeError]: [readCell] is the read of [board[r][c]] with that
      case, [cellAt] the read at the places where the row is known to
      exist.
    - [throw new Error(..)] and the [TypeError] are outcomes [Thrown].
    - [performance.now ()] and [Math.random ()] are inputs of the engine:
      [overBudget] answers whether the budget is exceeded at a given node
      count, and [random] supplies the successive random numbers, which
      are doubles; products of doubles are rounded as IEEE 754 rounds
      them. *)

From stdpp Require Import base option list list_numbers relations sorting.
From Stdlib Require Import ZArith Lia.

Local Open Scope Z_scope.

(** ** Shared data types ([types/game.ts]) *)

Inductive Player : Type := X | O.

(** [Cell], [Board] and [WinningLine] are abbreviations, as the type
    aliases of the source are. *)
Abbreviation Cell := (option Player).

Abbreviation Board := (list (list Cell)).

Abbreviation WinningLine := (list (Z * Z)%type).

(** [Move]; the optional [score] field is never written by the code
    modelled here and is left out. *)
Record Move : Type := mkMove { row : Z; col : Z }.

Inductive Difficulty : Type := Easy | Hard.

#[global] Instance Player_eq_dec : EqDecision Player.
Proof. solve_decision. Defined.

#[global] Instance Move_eq_dec : EqDecision Move.
Proof. solve_decision. Defined.

(** Outcome of a call that may throw, or (for the fuelled search) lack
    fuel. *)
Inductive Error : Type :=
  | InvalidMove (r c : Z)
  | TypeError.

Inductive outcome (A : Type) : Type :=
  | Value (a : A)
  | Thrown (e : Error)
  | NoFuel.

Arguments Value {A} a.
Arguments Thrown {A} e.
Arguments NoFuel {A}.

#[global] Instance outcome_ret : MRet outcome := fun A a => Value a.

#[global] Instance outcome_bind : MBind outcome := fun A B k m =>
  match m with
  | Value a => k a
  | Thrown e => Thrown e
  | NoFuel => NoFuel
  end.

(** A value of [Math.random ()]: a double in [0, 1), written as the
    fraction [rnum / rden] with [rnum < 2 ^ 53] and [rden] a power of two
    ([validRand] below); every double in [0, 1) is such a fraction, and
    only doubles are. *)
Record Rand : Type := mkRand { rnum : Z; rden : Z }.

(** The rounding of IEEE 754 arithmetic, on the integer [p] that holds
    the digits of an exact result: [p] is rounded to 53 significant bits,
    to the nearest value and to the even one of two nearest values. *)
Definition roundSignificand (p : Z) : Z :=
  let shift := Z.log2 p + 1 - 53 in
  if shift <=? 0 then p
  else
    let q := p `div` 2 ^ shift in
    let rest := p `mod` 2 ^ shift in
    let half := 2 ^ (shift - 1) in
    let q' :=
      if (half <? rest) || ((rest =? half) && Z.odd q) then q + 1 else q in
    q' * 2 ^ shift.

(** [Math.floor (u * len)] for the length [len] of an array, an integer
    that is a double itself.  The exact product is
    [(rnum u * len) / rden u]; the product computed is the double nearest
    to it, [roundSignificand (rnum u * len) / rden u] (dividing by a
    power of two is exact, and a product of at most 53 bits is a double,
    also among the subnormal numbers, being a multiple of [2 ^ -1074]). *)
Definition floorTimes (u : Rand) (len : Z) : Z :=
  roundSignificand (rnum u * len) `div` rden u.

(** [u < 0.7]: the double written [0.7] is [6305039478318694 / 2 ^ 53]. *)
Definition below07 (u : Rand) : bool :=
  rnum u * 2 ^ 53 <? 6305039478318694 * rden u.

Module Rules.

(** [l[i]] of JavaScript: [None] stands for [undefined]. *)
Definition index {A : Type} (l : list A) (i : Z) : option A :=
  if 0 <=? i then l !! Z.to_nat i else None.

(** [board[r][c]] at the places where the row [r] is known to exist:
    in [isValidMove] after the bounds have been tested, in the loops of
    [getAvailableMoves], and in [checkWinner] on the lines generated for
    the size of the board.  A cell missing from its row reads as
    [undefined]. *)
Definition cellAt (board : Board) (r c : Z) : option Cell :=
  match index board r with
  | Some line => index line c
  | None => None
  end.

(** [board[r][c]] for arbitrary [r]: when the row is missing, the read
    of [[c]] on [undefined] throws. *)
Definition readCell (board : Board) (r c : Z) : outcome (option Cell) :=
  match index board r with
  | Some line => Value (index line c)
  | None => Thrown TypeError
  end.

Definition sizeOf (board : Board) : Z := Z.of_nat (length board).

(** [x === null] on a value read from the board. *)
Definition isNull (v : option Cell) : bool :=
  match v with
  | Some None => true
  | _ => false
  end.

Definition Player_eqb (p q : Player) : bool :=
  match p, q with
  | X, X | O, O => true
  | _, _ => false
  end.

(** [x === p] for a value read from the board and a mark [p]. *)
Definition holds (v : option Cell) (p : Player) : bool :=
  match v with
  | Some (Some q) => Player_eqb q p
  | _ => false
  end.

Definition generateWinningCombinations (size : Z) : list WinningLine :=
  let rows :=
    (fun r => (fun c => (r, c)) <$> seqZ 0 size) <$> seqZ 0 size in
  let columns :=
    (fun c => (fun r => (r, c)) <$> seqZ 0 size) <$> seqZ 0 size in
  let mainDiagonal := (fun i => (i, i)) <$> seqZ 0 size in
  let antiDiagonal := (fun i => (i, size - 1 - i)) <$> seqZ 0 size in
  rows ++ columns ++ [mainDiagonal] ++ [antiDiagonal].

Definition createEmptyBoard (size : Z) : Board :=
  replicate (Z.to_nat size) (replicate (Z.to_nat size) None).

Definition cloneBoard (board : Board) : Board :=
  (fun line => line) <$> board.

Definition isValidMove (board : Board) (r c : Z) : bool :=
  let size := sizeOf board in
  (0 <=? r) && (r <? size) && (0 <=? c) && (c <? size)
  && isNull (cellAt board r c).

(** [newBoard[r][c] = player] on the clone; only reached for a valid
    move, so both indices are inside the arrays. *)
Definition setCell (board : Board) (r c : Z) (player : Player) : Board :=
  alter (fun line => <[Z.to_nat c := Some player]> line) (Z.to_nat r) board.

Definition makeMove (board : Board) (r c : Z) (player : Player)
  : outcome Board :=
  if negb (isValidMove board r c) then Thrown (InvalidMove r c)
  else Value (setCell (cloneBoard board) r c player).

Definition getAvailableMoves (board : Board) : list Move :=
  let size := sizeOf board in
  r ← seqZ 0 size;
  c ← seqZ 0 size;
  if isNull (cellAt board r c) then [mkMove r c] else [].

Record WinnerInfo : Type := mkWinnerInfo {
  winner : option Player;
  winningLine : option WinningLine
}.

(** [board[combination[0][0]][combination[0][1]]].  The lines generated
    for a board with at least one row are not empty and lie inside the
    board.  Only the board without rows has empty lines (its two
    diagonals), on which the source throws a [TypeError]; no caller
    passes that board on ([getBestMove] and [analyzePosition] return
    before any call of [checkWinner] when no move is available, and the
    hook calls it on the board of a legal move), and what is stated
    below about [checkWinner], [isGameOver] and [evaluateBoard]
    themselves is stated for boards with at least one row. *)
Definition firstCell (board : Board) (combination : WinningLine)
  : option Cell :=
  match combination with
  | [] => None
  | (r, c) :: _ => cellAt board r c
  end.

(** The test of the [if] in [checkWinner]: the mark of a complete line. *)
Definition lineMark (board : Board) (combination : WinningLine)
  : option Player :=
  match firstCell board combination with
  | Some (Some p) =>
      if forallb (fun rc => holds (cellAt board rc.1 rc.2) p) combination
      then Some p else None
  | _ => None
  end.

Fixpoint scanLines (board : Board) (combinations : list WinningLine)
  : WinnerInfo :=
  match combinations with
  | [] => mkWinnerInfo None None
  | combination :: rest =>
      match lineMark board combination with
      | Some p => mkWinnerInfo (Some p) (Some combination)
      | None => scanLines board rest
      end
  end.

Definition checkWinner (board : Board) : WinnerInfo :=
  scanLines board (generateWinningCombinations (sizeOf board)).

(** [cell !== null] for a cell of the board. *)
Definition notNull (cell : Cell) : bool :=
  match cell with
  | Some _ => true
  | None => false
  end.

Definition isBoardFull (board : Board) : bool :=
  forallb (fun line => forallb notNull line) board.

Definition isGameOver (board : Board) : bool :=
  match winner (checkWinner board) with
  | Some _ => true
  | None => isBoardFull board
  end.

Definition getOpponent (player : Player) : Player :=
  match player with
  | X => O
  | O => X
  end.

Definition evaluateBoard (board : Board) (maximizingPlayer : Player) : Z :=
  match winner (checkWinner board) with
  | Some w =>
      if Player_eqb w maximizingPlayer then 10
      else if Player_eqb w (getOpponent maximizingPlayer) then -10
      else 0
  | None => 0
  end.

Definition getCenterPosition (boardSize : Z) : Move :=
  let center := boardSize `div` 2 in
  mkMove center center.

Definition getCornerPositions (boardSize : Z) : list Move :=
  let lastIndex := boardSize - 1 in
  [ mkMove 0 0; mkMove 0 lastIndex; mkMove lastIndex 0;
    mkMove lastIndex lastIndex ].

(** [getRandomMove]; [u] is the value its call of [Math.random] returns. *)
Definition getRandomMove (u : Rand) (board : Board) : option Move :=
  let availableMoves := getAvailableMoves board in
  if bool_decide (length availableMoves = 0%nat) then None
  else index availableMoves (floorTimes u (Z.of_nat (length availableMoves))).

(** [isWinningPosition]: whether the cell is one of the winning line. *)
Definition isWinningPosition (r c : Z) (winningLine : option WinningLine)
  : bool :=
  match winningLine with
  | None => false
  | Some line => existsb (fun rc : Z * Z => (rc.1 =? r) && (rc.2 =? c)) line
  end.

(** The [reduce] of [countSymbolsInLine], with [count] the accumulator.
    The line is any list of coordinate pairs: a pair whose row is
    outside the board throws. *)
Fixpoint countLoop (board : Board) (player : Player) (line : WinningLine)
    (count : Z) : outcome Z :=
  match line with
  | [] => Value count
  | (r, c) :: rest =>
      v ← readCell board r c;
      countLoop board player rest (count + (if holds v player then 1 else 0))
  end.

Definition countSymbolsInLine (board : Board) (line : WinningLine)
    (player : Player) : outcome Z :=
  countLoop board player line 0.

(** [isLineEmpty]: [every] stops at the first cell that is not [null]. *)
Fixpoint isLineEmpty (board : Board) (line : WinningLine) : outcome bool :=
  match line with
  | [] => Value true
  | (r, c) :: rest =>
      v ← readCell board r c;
      if isNull v then isLineEmpty board rest else Value false
  end.

(** [getEdgePositions]: the two loops run over [1 <= i < lastIndex]. *)
Definition getEdgePositions (boardSize : Z) : list Move :=
  let lastIndex := boardSize - 1 in
  (seqZ 1 (lastIndex - 1) ≫= fun c => [mkMove 0 c; mkMove lastIndex c])
  ++ (seqZ 1 (lastIndex - 1) ≫= fun r => [mkMove r 0; mkMove r lastIndex]).

End Rules.

Module Engine.

Import Rules.

(** ** Numbers of the search: integers and the two infinities *)

Inductive Num : Type := NegInf | Fin (z : Z) | PosInf.

Definition Num_ltb (a b : Num) : bool :=
  match a, b with
  | _, NegInf => false
  | NegInf, _ => true
  | PosInf, _ => false
  | Fin _, PosInf => true
  | Fin x, Fin y => x <? y
  end.

Definition Num_leb (a b : Num) : bool := negb (Num_ltb b a).

Definition Num_max (a b : Num) : Num := if Num_ltb a b then b else a.

Definition Num_min (a b : Num) : Num := if Num_ltb b a then b else a.

(** ** Engine state *)

Record AIState : Type := mkAIState {
  positionsEvaluated : Z;
  timeoutReached : bool
}.

Record MinimaxResult : Type := mkMinimaxResult {
  score : Num;
  move : option Move;
  resPositionsEvaluated : Z
}.

Record Metrics : Type := mkMetrics {
  metricPositionsEvaluated : Z;
  lastMoveScore : Num
}.

(** Result of [getBestMove]; the [thinkingTime] metric is wall-clock time
    and is not modelled. *)
Record BestMove : Type := mkBestMove {
  bestMove : option Move;
  metrics : Metrics
}.

Definition searchFn : Type :=
  Board -> Z -> bool -> Player -> Num -> Num -> Z -> AIState ->
  outcome (MinimaxResult * AIState).

Section Search.

(** The environment of one [getBestMove] call.  [overBudget n] is the
    value of [performance.now () - this.startTime > this.maxThinkingTime]
    at the check made when [positionsEvaluated] is [n]; [random k] is the
    value returned by the [k]-th call of [Math.random]. *)
Variable overBudget : Z -> bool.
Variable random : nat -> Rand.

(** The [for] loop of the maximizing branch of [minimax]; [rec] is the
    recursive call. *)
Fixpoint maxLoop (rec : searchFn) (board : Board) (depth : Z)
    (aiPlayer : Player) (beta : Num) (maxDepth : Z) (moves : list Move)
    (alpha maxEval : Num) (best : option Move) (st : AIState)
  : outcome (Num * option Move * AIState) :=
  match moves with
  | [] => Value (maxEval, best, st)
  | mv :: rest =>
      if timeoutReached st then Value (maxEval, best, st)
      else
        newBoard ← makeMove board (row mv) (col mv) aiPlayer;
        '(eval_, st') ←
          rec newBoard (depth + 1) false aiPlayer alpha beta maxDepth st;
        let '(maxEval', best') :=
          if Num_ltb maxEval (score eval_) then (score eval_, Some mv)
          else (maxEval, best) in
        let alpha' := Num_max alpha (score eval_) in
        if Num_leb beta alpha' then Value (maxEval', best', st')
        else maxLoop rec board depth aiPlayer beta maxDepth rest
               alpha' maxEval' best' st'
  end.

(** The [for] loop of the minimizing branch. *)
Fixpoint minLoop (rec : searchFn) (board : Board) (depth : Z)
    (aiPlayer : Player) (alpha : Num) (maxDepth : Z) (moves : list Move)
    (beta minEval : Num) (best : option Move) (st : AIState)
  : outcome (Num * option Move * AIState) :=
  match moves with
  | [] => Value (minEval, best, st)
  | mv :: rest =>
      if timeoutReached st then Value (minEval, best, st)
      else
        newBoard ← makeMove board (row mv) (col mv) (getOpponent aiPlayer);
        '(eval_, st') ←
          rec newBoard (depth + 1) true aiPlayer alpha beta maxDepth st;
        let '(minEval', best') :=
          if Num_ltb (score eval_) minEval then (score eval_, Some mv)
          else (minEval, best) in
        let beta' := Num_min beta (score eval_) in
        if Num_leb beta' alpha then Value (minEval', best', st')
        else minLoop rec board depth aiPlayer alpha maxDepth rest
               beta' minEval' best' st'
  end.

Definition minimaxBody (rec : searchFn) : searchFn :=
  fun board depth isMaximizing aiPlayer alpha beta maxDepth st =>
  let n := positionsEvaluated st + 1 in
  let st1 := mkAIState n (timeoutReached st) in
  if (n `mod` 100 =? 0) && overBudget n then
    Value (mkMinimaxResult (Fin 0) None n, mkAIState n true)
  else if maxDepth <=? depth then
    Value (mkMinimaxResult (Fin (evaluateBoard board aiPlayer)) None n, st1)
  else if isGameOver board then
    let score := evaluateBoard board aiPlayer in
    let adjustedScore := if 0 <? score then score - depth else score + depth in
    Value (mkMinimaxResult (Fin adjustedScore) None n, st1)
  else
    let availableMoves := getAvailableMoves board in
    if bool_decide (length availableMoves = 0%nat) then
      Value (mkMinimaxResult (Fin 0) None n, st1)
    else if isMaximizing then
      '(maxEval, best, st') ←
        maxLoop rec board depth aiPlayer beta maxDepth availableMoves
          alpha NegInf None st1;
      Value (mkMinimaxResult maxEval best (positionsEvaluated st'), st')
    else
      '(minEval, best, st') ←
        minLoop rec board depth aiPlayer alpha maxDepth availableMoves
          beta PosInf None st1;
      Value (mkMinimaxResult minEval best (positionsEvaluated st'), st').

(** [minimax], with the recursion depth bounded by [fuel]. *)
Fixpoint minimax (fuel : nat) : searchFn :=
  match fuel with
  | 0%nat => fun _ _ _ _ _ _ _ _ => NoFuel
  | S fuel' => minimaxBody (minimax fuel')
  end.

(** Every call increases [depth] by one and stops at [maxDepth], so this
    much fuel is never used up (lemma [minimax_total]). *)
Definition fuelFor (depth maxDepth : Z) : nat :=
  S (Z.to_nat (maxDepth - depth)).

(** First loop of [getOptimizedMove]: an immediately winning move. *)
Fixpoint winningLoop (board : Board) (aiPlayer : Player)
    (moves : list Move) : outcome (option Move) :=
  match moves with
  | [] => Value None
  | mv :: rest =>
      testBoard ← makeMove board (row mv) (col mv) aiPlayer;
      if isGameOver testBoard && (0 <? evaluateBoard testBoard aiPlayer)
      then Value (Some mv)
      else winningLoop board aiPlayer rest
  end.

(** Second loop: a move with which the opponent would win. *)
Fixpoint blockingLoop (board : Board) (aiPlayer : Player)
    (moves : list Move) : outcome (option Move) :=
  match moves with
  | [] => Value None
  | mv :: rest =>
      testBoard ← makeMove board (row mv) (col mv) (getOpponent aiPlayer);
      if isGameOver testBoard && (evaluateBoard testBoard aiPlayer <? 0)
      then Value (Some mv)
      else blockingLoop board aiPlayer rest
  end.

Fixpoint countWinning (testBoard : Board) (aiPlayer : Player)
    (nextMoves : list Move) (winningOpportunities : Z) : outcome Z :=
  match nextMoves with
  | [] => Value winningOpportunities
  | nextMove :: rest =>
      nextTestBoard ← makeMove testBoard (row nextMove) (col nextMove) aiPlayer;
      countWinning testBoard aiPlayer rest
        (if isGameOver nextTestBoard
            && (0 <? evaluateBoard nextTestBoard aiPlayer)
         then winningOpportunities + 1 else winningOpportunities)
  end.

Fixpoint findStrategicMoves (board : Board) (aiPlayer : Player)
    (availableMoves : list Move) : outcome (list Move) :=
  match availableMoves with
  | [] => Value []
  | mv :: rest =>
      testBoard ← makeMove board (row mv) (col mv) aiPlayer;
      winningOpportunities ←
        countWinning testBoard aiPlayer (getAvailableMoves testBoard) 0;
      strategicMoves ← findStrategicMoves board aiPlayer rest;
      Value (if 2 <=? winningOpportunities then mv :: strategicMoves
             else strategicMoves)
  end.

Definition getOptimizedMove (board : Board) (aiPlayer : Player)
  : outcome (option Move) :=
  let boardSize := sizeOf board in
  let availableMoves := getAvailableMoves board in
  if bool_decide (length availableMoves = 0%nat) then Value None
  else if Z.of_nat (length availableMoves) =? boardSize * boardSize then
    Value (Some (getCenterPosition boardSize))
  else
    win ← winningLoop board aiPlayer availableMoves;
    match win with
    | Some mv => Value (Some mv)
    | None =>
    block ← blockingLoop board aiPlayer availableMoves;
    match block with
    | Some mv => Value (Some mv)
    | None =>
    strategicMoves ← findStrategicMoves board aiPlayer availableMoves;
    if 0 <? Z.of_nat (length strategicMoves) then
      Value (index strategicMoves
               (floorTimes (random 0%nat) (Z.of_nat (length strategicMoves))))
    else
      let center := getCenterPosition boardSize in
      if isValidMove board (row center) (col center) then Value (Some center)
      else
        let availableCorners :=
          filter (fun pos => isValidMove board (row pos) (col pos) = true)
                 (getCornerPositions boardSize) in
        if 0 <? Z.of_nat (length availableCorners) then
          Value (index availableCorners
                   (floorTimes (random 0%nat)
                      (Z.of_nat (length availableCorners))))
        else Value (getRandomMove (random 0%nat) board)
    end
    end.

(** The depth limit [getHardMove] chooses; [None] stands for its early
    return through the heuristic. *)
Definition maxDepthFor (board : Board) : option Z :=
  let boardSize := sizeOf board in
  let availableMoves := getAvailableMoves board in
  if boardSize =? 3 then Some 9
  else if boardSize =? 4 then
    Some (if 8 <? Z.of_nat (length availableMoves) then 2 else 3)
  else if boardSize =? 5 then Some 2
  else None.

Definition getHardMove (board : Board) (aiPlayer : Player) (st : AIState)
  : outcome (option Move * Num * AIState) :=
  match maxDepthFor board with
  | None =>
      mv ← getOptimizedMove board aiPlayer;
      Value (mv, Fin 0, st)
  | Some maxDepth =>
      '(result, st') ←
        minimax (fuelFor 0 maxDepth) board 0 true aiPlayer NegInf PosInf
          maxDepth st;
      Value (move result, score result, st')
  end.

(** [getEasyMove]: [random 0] is the draw compared with 0.7, [random 1]
    the draw that picks an index. *)
Definition getEasyMove (board : Board) (st : AIState)
  : option Move * AIState :=
  let st1 := mkAIState 1 (timeoutReached st) in
  let boardSize := sizeOf board in
  let availableMoves := getAvailableMoves board in
  if bool_decide (length availableMoves = 0%nat) then (None, st1)
  else if below07 (random 0%nat) then
    (getRandomMove (random 1%nat) board, st1)
  else
    let centerPos := getCenterPosition boardSize in
    if isValidMove board (row centerPos) (col centerPos)
    then (Some centerPos, st1)
    else
      let availableCorners :=
        filter (fun pos => isValidMove board (row pos) (col pos) = true)
               (getCornerPositions boardSize) in
      if 0 <? Z.of_nat (length availableCorners) then
        (index availableCorners
           (floorTimes (random 1%nat) (Z.of_nat (length availableCorners))),
         st1)
      else (getRandomMove (random 1%nat) board, st1).

(** [getBestMove]: the counters left by an earlier call ([st]) are reset
    first. *)
Definition getBestMove (board : Board) (aiPlayer : Player)
    (difficulty : Difficulty) (st : AIState)
  : outcome (BestMove * AIState) :=
  let st0 := mkAIState 0 false in
  let boardSize := sizeOf board in
  '(mv, sc, st') ←
    match difficulty with
    | Easy =>
        let '(mv, st') := getEasyMove board st0 in
        Value (mv, Fin 0, st')
    | Hard =>
        if 3 <? boardSize then
          mv ← getOptimizedMove board aiPlayer;
          Value (mv, Fin 0, st0)
        else getHardMove board aiPlayer st0
    end;
  Value (mkBestMove mv (mkMetrics (positionsEvaluated st') sc), st').

End Search.

End Engine.

(** ** Vocabulary of the specification *)

Module Props.

Import Rules Engine.

(** The board invariant of the data model: a board of [N] rows has rows
    of [N] cells. *)
Definition wf_board (b : Board) : Prop :=
  Forall (fun line => length line = length b) b.

Definition inBounds (size r c : Z) : Prop :=
  0 <= r < size /\ 0 <= c < size.

(** Every cell of the (non-empty) line [l] holds the mark [p]. *)
Definition complete (b : Board) (l : WinningLine) (p : Player) : Prop :=
  l <> [] /\ forall r c, (r, c) ∈ l -> cellAt b r c = Some (Some p).

(** The [j]-th coordinate pair of the [k]-th line. *)
Definition coordAt (lines : list WinningLine) (k j : Z) : option (Z * Z) :=
  match index lines k with
  | Some l => index l j
  | None => None
  end.

Definition isEmptyBoard (b : Board) : Prop :=
  forall r c, inBounds (sizeOf b) r c -> cellAt b r c = Some None.

(** Playing [m] with the mark [p] produces a position won by [p]. *)
Definition wins (b : Board) (p : Player) (m : Move) : Prop :=
  exists b', makeMove b (row m) (col m) p = Value b'
             /\ winner (checkWinner b') = Some p.

(** A clock that never reports the budget exceeded. *)
Definition never : Z -> bool := fun _ => false.

(** [agree f g]: whenever the search [f] returns without the abort flag
    set, the search [g] returns the same result. *)
Definition agree (f g : searchFn) : Prop :=
  forall b d isMax ai alpha beta maxD st r st',
    f b d isMax ai alpha beta maxD st = Value (r, st') ->
    timeoutReached st' = false ->
    g b d isMax ai alpha beta maxD st = Value (r, st').

(** [quiet f]: the search [f], started with the abort flag clear, leaves
    it clear and returns a finite score. *)
Definition quiet (f : searchFn) : Prop :=
  forall b d isMax ai alpha beta maxD st r st',
    f b d isMax ai alpha beta maxD st = Value (r, st') ->
    timeoutReached st = false ->
    timeoutReached st' = false /\ exists z, score r = Fin z.

(** [counts f]: every call of the search [f] is counted. *)
Definition counts (f : searchFn) : Prop :=
  forall b d isMax ai alpha beta maxD st r st',
    f b d isMax ai alpha beta maxD st = Value (r, st') ->
    positionsEvaluated st < positionsEvaluated st'.

(** The scores the maximizing loop of [minimax] obtains for the sibling
    moves, in the order in which it evaluates them (up to the first
    [break]). *)
Fixpoint maxLoopScores (rec : searchFn) (board : Board) (depth : Z)
    (aiPlayer : Player) (beta : Num) (maxDepth : Z) (moves : list Move)
    (alpha : Num) (st : AIState) : list (Move * Num) :=
  match moves with
  | [] => []
  | mv :: rest =>
      if timeoutReached st then []
      else
        match
          makeMove board (row mv) (col mv) aiPlayer ≫= fun newBoard =>
          rec newBoard (depth + 1) false aiPlayer alpha beta maxDepth st
        with
        | Value (eval_, st') =>
            (mv, score eval_)
            :: (if Num_leb beta (Num_max alpha (score eval_)) then []
                else maxLoopScores rec board depth aiPlayer beta maxDepth rest
                       (Num_max alpha (score eval_)) st')
        | _ => []
        end
  end.

(** The sibling evaluations at the root of a full-depth search of a 3 x 3
    board, as [getHardMove] starts it. *)
Definition rootScores (board : Board) (aiPlayer : Player)
  : list (Move * Num) :=
  maxLoopScores (minimax never 9%nat) board 0 aiPlayer PosInf 9
    (getAvailableMoves board) NegInf (mkAIState 1 false).

(** ** Games on the 3 x 3 board against hard mode

    A position is a board with the side to move ([true]: the mark [ai],
    played by hard mode; [false]: its opponent).  While the game is not
    over, hard mode plays the move [getBestMove] returns in a call that
    is not aborted, and the opponent plays any legal move. *)
Inductive step (ai : Player) : Board * bool -> Board * bool -> Prop :=
  | step_ai b clock rnd st r st' m b' :
      isGameOver b = false ->
      getBestMove clock rnd b ai Hard st = Value (r, st') ->
      timeoutReached st' = false ->
      bestMove r = Some m ->
      makeMove b (row m) (col m) ai = Value b' ->
      step ai (b, true) (b', false)
  | step_opponent b r c b' :
      isGameOver b = false ->
      makeMove b r c (getOpponent ai) = Value b' ->
      step ai (b, false) (b', true).

(** Exhaustive check of the positions that can follow [b]: none is won by
    the opponent of [ai], and the side to move always has a move. *)
Fixpoint safeFrom (fuel : nat) (ai : Player) (b : Board) (aiTurn : bool)
  : bool :=
  match fuel with
  | 0%nat => false
  | S fuel' =>
      (sizeOf b =? 3)
      && match winner (checkWinner b) with
         | Some w => Player_eqb w ai
         | None =>
             isBoardFull b
             || (if aiTurn then
                   match getBestMove never (fun _ => mkRand 0 1) b ai Hard
                           (mkAIState 0 false) with
                   | Value (r, st') =>
                       negb (timeoutReached st')
                       && match bestMove r with
                          | Some m =>
                              match makeMove b (row m) (col m) ai with
                              | Value b' => safeFrom fuel' ai b' false
                              | _ => false
                              end
                          | None => false
                          end
                   | _ => false
                   end
                 else
                   match getAvailableMoves b with
                   | [] => false
                   | moves =>
                       forallb
                         (fun m =>
                            safeFrom fuel' ai
                              (setCell b (row m) (col m) (getOpponent ai))
                              true)
                         moves
                   end)
         end
  end.

(** The same games when the time budget may abort a call of hard mode:
    hard mode plays the move [getBestMove] returns, aborted or not. *)
Inductive stepTimed (ai : Player) : Board * bool -> Board * bool -> Prop :=
  | stepTimed_ai b clock rnd st r st' m b' :
      isGameOver b = false ->
      getBestMove clock rnd b ai Hard st = Value (r, st') ->
      bestMove r = Some m ->
      makeMove b (row m) (col m) ai = Value b' ->
      stepTimed ai (b, true) (b', false)
  | stepTimed_opponent b r c b' :
      isGameOver b = false ->
      makeMove b r c (getOpponent ai) = Value b' ->
      stepTimed ai (b, false) (b', true).

(** ** The lines of a board, cell by cell *)

(** Every cell of row [r] holds the mark [p]; likewise for column [c]
    and for the two diagonals. *)
Definition fullRow (b : Board) (r : Z) (p : Player) : Prop :=
  forall c, 0 <= c < sizeOf b -> cellAt b r c = Some (Some p).

Definition fullColumn (b : Board) (c : Z) (p : Player) : Prop :=
  forall r, 0 <= r < sizeOf b -> cellAt b r c = Some (Some p).

Definition fullMainDiagonal (b : Board) (p : Player) : Prop :=
  forall i, 0 <= i < sizeOf b -> cellAt b i i = Some (Some p).

Definition fullAntiDiagonal (b : Board) (p : Player) : Prop :=
  forall i, 0 <= i < sizeOf b -> cellAt b i (sizeOf b - 1 - i) = Some (Some p).

(** The line [l] lists the [N] cells [cell 0], ..., [cell (N - 1)]. *)
Definition listsCells (N : Z) (cell : Z -> Z * Z) (l : WinningLine) : Prop :=
  Z.of_nat (length l) = N /\ forall j, 0 <= j < N -> index l j = Some (cell j).

(** ** Vocabulary of the further properties *)

(** Row-major order of the moves. *)
Definition moveLt (m1 m2 : Move) : Prop :=
  row m1 < row m2 \/ (row m1 = row m2 /\ col m1 < col m2).

(** The values [Math.random] can return, the doubles in [0, 1): the
    fractions [m / 2 ^ e] below 1 with [m < 2 ^ 53] and [e <= 1074]. *)
Definition validRand (u : Rand) : Prop :=
  0 <= rnum u < rden u
  /\ rnum u < 2 ^ 53
  /\ rden u = 2 ^ Z.log2 (rden u)
  /\ Z.log2 (rden u) <= 1074.

(** A cell of the border of a board of size [N]. *)
Definition onBorder (N : Z) (m : Move) : Prop :=
  row m = 0 \/ row m = N - 1 \/ col m = 0 \/ col m = N - 1.

(** Exhaustive minimax, without pruning, clock or counters: the reference
    with which the search is compared.  The leaves are scored as
    [minimax] scores them; an inner node takes the maximum, or the
    minimum, of the values of all its children. *)
Fixpoint plainScore (fuel : nat) (board : Board) (depth : Z)
    (isMaximizing : bool) (aiPlayer : Player) (maxDepth : Z) : Num :=
  match fuel with
  | 0%nat => Fin 0
  | S fuel' =>
      if maxDepth <=? depth then Fin (evaluateBoard board aiPlayer)
      else if isGameOver board then
        let score := evaluateBoard board aiPlayer in
        Fin (if 0 <? score then score - depth else score + depth)
      else if bool_decide (length (getAvailableMoves board) = 0%nat) then
        Fin 0
      else if isMaximizing then
        foldl (fun acc mv =>
                 Num_max acc
                   (plainScore fuel'
                      (setCell board (row mv) (col mv) aiPlayer)
                      (depth + 1) false aiPlayer maxDepth))
              NegInf (getAvailableMoves board)
      else
        foldl (fun acc mv =>
                 Num_min acc
                   (plainScore fuel'
                      (setCell board (row mv) (col mv)
                         (getOpponent aiPlayer))
                      (depth + 1) true aiPlayer maxDepth))
              PosInf (getAvailableMoves board)
  end.

(** The value of the reply [mv] of the searcher at the root of the
    full-depth search of a 3 x 3 board. *)
Definition replyScore (board : Board) (aiPlayer : Player) (mv : Move)
  : Num :=
  plainScore 9 (setCell board (row mv) (col mv) aiPlayer) 1 false aiPlayer 9.

(** [finite f]: started with the abort flag clear, the search [f] returns
    a finite score. *)
Definition finiteScores (f : searchFn) : Prop :=
  forall b d isMax ai alpha beta maxD st r st',
    f b d isMax ai alpha beta maxD st = Value (r, st') ->
    timeoutReached st = false ->
    exists z, score r = Fin z.

(** No check made at a node count in [(lo, hi]] finds the budget
    exceeded. *)
Definition noAbortIn (clock : Z -> bool) (lo hi : Z) : Prop :=
  forall n, lo < n <= hi -> n `mod` 100 = 0 -> clock n = false.

(** What the counters say after a call started at [st] and ended at
    [st']: without abort every check in between was negative; with an
    abort the last node counted is the first one whose check is
    positive. *)
Definition budgetTrace (clock : Z -> bool) (st st' : AIState) : Prop :=
  if timeoutReached st' then
    noAbortIn clock (positionsEvaluated st) (positionsEvaluated st' - 1)
    /\ positionsEvaluated st' `mod` 100 = 0
    /\ clock (positionsEvaluated st') = true
  else noAbortIn clock (positionsEvaluated st) (positionsEvaluated st').

(** [tracesBudget clock f]: the search [f] counts its nodes, reports the
    count, and its abort flag follows the checks of [clock]. *)
Definition tracesBudget (clock : Z -> bool) (f : searchFn) : Prop :=
  forall b d isMax ai alpha beta maxD st r st',
    f b d isMax ai alpha beta maxD st = Value (r, st') ->
    timeoutReached st = false ->
    positionsEvaluated st < positionsEvaluated st'
    /\ resPositionsEvaluated r = positionsEvaluated st'
    /\ budgetTrace clock st st'.

(** The contract of a fail-soft alpha-beta search with the window
    [(alpha, beta)]: [s] is the result and [t] the exact value. *)
Definition failSoft (alpha beta t s : Num) : Prop :=
  (Num_leb t alpha = true -> Num_leb t s = true /\ Num_leb s alpha = true)
  /\ (Num_ltb alpha t = true -> Num_ltb t beta = true -> s = t)
  /\ (Num_leb beta t = true -> Num_leb beta s = true /\ Num_leb s t = true).

(** [soundSearch fuel f]: started with the abort flag clear, the search
    [f] keeps that contract with respect to the exhaustive value. *)
Definition soundSearch (fuel : nat) (f : searchFn) : Prop :=
  forall b d isMax ai alpha beta maxD st r st',
    f b d isMax ai alpha beta maxD st = Value (r, st') ->
    timeoutReached st = false ->
    Num_ltb alpha beta = true ->
    failSoft alpha beta (plainScore fuel b d isMax ai maxD) (score r).

(** Position of a number among the infinities. *)
Definition Num_tag (x : Num) : Z :=
  match x with NegInf => -1 | Fin _ => 0 | PosInf => 1 end.

(** The finite value of a number, 0 for the infinities. *)
Definition Num_val (x : Num) : Z :=
  match x with Fin z => z | _ => 0 end.

(** The board with the two marks exchanged. *)
Definition swapMarks (b : Board) : Board :=
  (fun line : list Cell =>
     (fun cell : Cell => getOpponent <$> cell) <$> line) <$> b.

(** Playing [m] with the mark [p] makes a fork: after it [p] has two
    different moves that each win at once. *)
Definition forks (b : Board) (p : Player) (m : Move) : Prop :=
  m ∈ getAvailableMoves b
  /\ exists n1 n2,
       n1 <> n2
       /\ wins (setCell b (row m) (col m) p) p n1
       /\ wins (setCell b (row m) (col m) p) p n2.

(** The moves among which [getOptimizedMove] chooses when nobody can
    win at once, given the fork moves [forkMoves] that
    [findStrategicMoves] returns: the fork moves when there are any;
    else the center, the cell in row and column [N div 2], when it is
    free; else the free ones of the four corners when there are any;
    else all the available moves. *)
Definition lowerTierMoves (b : Board) (forkMoves : list Move) : list Move :=
  match forkMoves with
  | _ :: _ => forkMoves
  | [] =>
      if isValidMove b (sizeOf b `div` 2) (sizeOf b `div` 2)
      then [mkMove (sizeOf b `div` 2) (sizeOf b `div` 2)]
      else
        match filter (fun pos => isValidMove b (row pos) (col pos) = true)
                [mkMove 0 0; mkMove 0 (sizeOf b - 1);
                 mkMove (sizeOf b - 1) 0;
                 mkMove (sizeOf b - 1) (sizeOf b - 1)] with
        | corner :: corners => corner :: corners
        | [] => getAvailableMoves b
        end
  end.

(** The number of nodes of the game tree of a position with [e] free
    cells in which no game ends before the board is full. *)
Fixpoint searchNodes (e : nat) : Z :=
  match e with
  | 0%nat => 1
  | S e' => 1 + Z.of_nat e * searchNodes e'
  end.

End Props.

(** * The game-state hook ([hooks/useGameState.ts])

    The cells of React state the hook declares are the fields of
    [HookState].  A handler reads the state of the render that created
    it and queues its updates; each synchronous handler is a function
    from that state to the state after its updates.  [makeAIMove] is
    asynchronous: it is modelled in two parts, before and after its
    [await], and the part after the [await] still reads the render that
    made the call while its updates meet the state of 300 ms later.
    [Date.now ()] is an input of the handlers that read it.  The effect
    that loads [localStorage] is [loadSaved]; the effects that save to
    [localStorage] change no state and are not modelled, and of
    [getGameStats] only [totalGames] is. *)

Module Hook.

Import Rules Engine.

Inductive GameStatus : Type := Playing | Won | Draw.

Inductive StreakType : Type := StreakWin | StreakLoss | StreakDraw.

#[global] Instance GameStatus_eq_dec : EqDecision GameStatus.
Proof. solve_decision. Defined.

#[global] Instance StreakType_eq_dec : EqDecision StreakType.
Proof. solve_decision. Defined.

Record GameState : Type := mkGameState {
  board : Board;
  boardSize : Z;
  currentPlayer : Player;
  gameStatus : GameStatus;
  winner : option Player;
  winningLine : option WinningLine;
  isPlayerTurn : bool;
  difficulty : Difficulty
}.

(** [streakType] is [null] before the first game. *)
Record GameScore : Type := mkGameScore {
  playerWins : Z;
  aiWins : Z;
  draws : Z;
  currentStreak : Z;
  streakType : option StreakType
}.

Record GameSettings : Type := mkGameSettings {
  settingsDifficulty : Difficulty;
  playerSymbol : Player;
  aiSymbol : Player;
  settingsBoardSize : Z
}.

Record GameHistory : Type := mkGameHistory {
  moves : list Move;
  duration : Z;
  historyWinner : option Player;
  historyDifficulty : Difficulty;
  timestamp : Z
}.

Record HookState : Type := mkHookState {
  gameState : GameState;
  gameScore : GameScore;
  aiMetrics : Metrics;
  gameSettings : GameSettings;
  gameHistory : list GameHistory;
  gameStartTime : Z;
  isAIThinking : bool;
  currentMoves : list Move
}.

Definition DEFAULT_GAME_STATE : GameState :=
  mkGameState [[None; None; None]; [None; None; None]; [None; None; None]]
    3 X Playing None None true Easy.

Definition DEFAULT_SCORE : GameScore := mkGameScore 0 0 0 0 None.

Definition DEFAULT_AI_METRICS : Metrics := mkMetrics 0 (Fin 0).

Definition DEFAULT_GAME_SETTINGS : GameSettings := mkGameSettings Easy X O 3.

(** The state of the first render; [now] is the value of [Date.now ()]. *)
Definition initialState (now : Z) : HookState :=
  mkHookState DEFAULT_GAME_STATE DEFAULT_SCORE DEFAULT_AI_METRICS
    DEFAULT_GAME_SETTINGS [] now false [].

(** The effect run after the first render: the score, the settings and
    the history found in [localStorage] replace the defaults.  [None]
    stands for an item that is missing, or that is not reached because
    [JSON.parse] threw on an earlier one. *)
Definition loadSaved (savedScore : option GameScore)
    (savedSettings : option GameSettings)
    (savedHistory : option (list GameHistory)) (s : HookState) : HookState :=
  mkHookState (gameState s)
    (match savedScore with Some v => v | None => gameScore s end)
    (aiMetrics s)
    (match savedSettings with Some v => v | None => gameSettings s end)
    (match savedHistory with Some v => v | None => gameHistory s end)
    (gameStartTime s) (isAIThinking s) (currentMoves s).

(** [winner === symbol] for a winner that may be [null]. *)
Definition sameMark (winner : option Player) (symbol : Player) : bool :=
  match winner with
  | Some w => Player_eqb w symbol
  | None => false
  end.

(** The updater [updateGameScore] passes to [setGameScore]. *)
Definition updateGameScore (gameSettings : GameSettings)
    (winner : option Player) (prevScore : GameScore) : GameScore :=
  if sameMark winner (playerSymbol gameSettings) then
    mkGameScore (playerWins prevScore + 1) (aiWins prevScore)
      (draws prevScore)
      (if bool_decide (streakType prevScore = Some StreakWin)
       then currentStreak prevScore + 1 else 1)
      (Some StreakWin)
  else if sameMark winner (aiSymbol gameSettings) then
    mkGameScore (playerWins prevScore) (aiWins prevScore + 1)
      (draws prevScore)
      (if bool_decide (streakType prevScore = Some StreakLoss)
       then currentStreak prevScore + 1 else 1)
      (Some StreakLoss)
  else
    mkGameScore (playerWins prevScore) (aiWins prevScore)
      (draws prevScore + 1)
      (if bool_decide (streakType prevScore = Some StreakDraw)
       then currentStreak prevScore + 1 else 1)
      (Some StreakDraw).

(** The updater [saveGameToHistory] passes to [setGameHistory]; [now1]
    and [now2] are its two readings of [Date.now ()]. *)
Definition saveGameToHistory (gameStartTime : Z) (difficulty : Difficulty)
    (now1 now2 : Z) (moves : list Move) (winner : option Player)
    (prev : list GameHistory) : list GameHistory :=
  let gameHistoryEntry :=
    mkGameHistory moves (now1 - gameStartTime) winner difficulty now2 in
  gameHistoryEntry :: take 49 prev.

(** [makePlayerMove]: the value returned and the state after it. *)
Definition makePlayerMove (r c : Z) (now1 now2 : Z) (s : HookState)
  : bool * HookState :=
  let gs := gameState s in
  let settings := gameSettings s in
  if negb (bool_decide (gameStatus gs = Playing))
     || negb (isPlayerTurn gs) || isAIThinking s
  then (false, s)
  else
    match makeMove (board gs) r c (playerSymbol settings) with
    | Value newBoard =>
        let w := Rules.winner (checkWinner newBoard) in
        let isDraw := negb (notNull w) && isBoardFull newBoard in
        let newMoves := currentMoves s ++ [mkMove r c] in
        let newGameState :=
          mkGameState newBoard (boardSize gs) (aiSymbol settings)
            (if notNull w then Won else if isDraw then Draw else Playing)
            w (Rules.winningLine (checkWinner newBoard)) false
            (difficulty gs) in
        let ended := notNull w || isDraw in
        (true,
         mkHookState newGameState
           (if ended then updateGameScore settings w (gameScore s)
            else gameScore s)
           (aiMetrics s) settings
           (if ended
            then saveGameToHistory (gameStartTime s)
                   (settingsDifficulty settings) now1 now2 newMoves w
                   (gameHistory s)
            else gameHistory s)
           (gameStartTime s) (isAIThinking s) newMoves)
    | Thrown _ => (false, s)
    | NoFuel => (false, s)
    end.

(** [setIsAIThinking (false)] alone: what a call of [makeAIMove] does
    when it ends without a move. *)
Definition notThinking (s : HookState) : HookState :=
  mkHookState (gameState s) (gameScore s) (aiMetrics s) (gameSettings s)
    (gameHistory s) (gameStartTime s) false (currentMoves s).

(** The test that opens [makeAIMove]; the effect that calls it makes the
    same test. *)
Definition aiToMove (s : HookState) : bool :=
  bool_decide (gameStatus (gameState s) = Playing)
  && negb (isPlayerTurn (gameState s)) && negb (isAIThinking s).

(** [makeAIMove] up to its [await]: [setIsAIThinking (true)]. *)
Definition makeAIMove_begin (s : HookState) : HookState :=
  if aiToMove s then
    mkHookState (gameState s) (gameScore s) (aiMetrics s) (gameSettings s)
      (gameHistory s) (gameStartTime s) true (currentMoves s)
  else s.

(** [makeAIMove] from its [await] on.  The call reads the state [snap] of
    the render that made it: the board, the settings, the moves and the
    start time are those of [snap], and [setGameState],
    [setCurrentMoves] and [setAIMetrics] store values computed from
    them.  The updates apply to the state [cur] the hook has by then:
    the updaters of the score and of the history read [cur], and the
    cells the call does not set keep their value in [cur].  [engine] is
    the state of the engine singleton.  What is thrown inside the [try]
    is caught. *)
Definition makeAIMove_resume (overBudget : Z -> bool) (random : nat -> Rand)
    (now1 now2 : Z) (engine : AIState) (snap cur : HookState)
  : outcome HookState :=
  let gs := gameState snap in
  let settings := gameSettings snap in
  match getBestMove overBudget random (board gs) (aiSymbol settings)
          (settingsDifficulty settings) engine with
  | NoFuel => NoFuel
  | Thrown _ => Value (notThinking cur)
  | Value (aiResult, _) =>
      match bestMove aiResult with
      | None => Value (notThinking cur)
      | Some mv =>
          match makeMove (board gs) (row mv) (col mv) (aiSymbol settings)
          with
          | NoFuel => NoFuel
          | Thrown _ => Value (notThinking cur)
          | Value newBoard =>
              let w := Rules.winner (checkWinner newBoard) in
              let isDraw := negb (notNull w) && isBoardFull newBoard in
              let newMoves := currentMoves snap ++ [mv] in
              let newGameState :=
                mkGameState newBoard (boardSize gs) (playerSymbol settings)
                  (if notNull w then Won
                   else if isDraw then Draw else Playing)
                  w (Rules.winningLine (checkWinner newBoard)) true
                  (difficulty gs) in
              let ended := notNull w || isDraw in
              Value
                (mkHookState newGameState
                   (if ended then updateGameScore settings w (gameScore cur)
                    else gameScore cur)
                   (metrics aiResult) (gameSettings cur)
                   (if ended
                    then saveGameToHistory (gameStartTime snap)
                           (settingsDifficulty settings) now1 now2
                           newMoves w (gameHistory cur)
                    else gameHistory cur)
                   (gameStartTime cur) false newMoves)
          end
      end
  end.

(** The game state [startNewGame] and [changeBoardSize] set. *)
Definition newGameState (size : Z) (settings : GameSettings) : GameState :=
  mkGameState (createEmptyBoard size) size (playerSymbol settings) Playing
    None None (Player_eqb (playerSymbol settings) X)
    (settingsDifficulty settings).

Definition startNewGame (now : Z) (s : HookState) : HookState :=
  mkHookState
    (newGameState (settingsBoardSize (gameSettings s)) (gameSettings s))
    (gameScore s) DEFAULT_AI_METRICS (gameSettings s) (gameHistory s)
    now false [].

Definition changeDifficulty (difficulty : Difficulty) (s : HookState)
  : HookState :=
  let gs := gameState s in
  let settings := gameSettings s in
  mkHookState
    (mkGameState (board gs) (boardSize gs) (currentPlayer gs) (gameStatus gs)
       (winner gs) (winningLine gs) (isPlayerTurn gs) difficulty)
    (gameScore s) (aiMetrics s)
    (mkGameSettings difficulty (playerSymbol settings) (aiSymbol settings)
       (settingsBoardSize settings))
    (gameHistory s) (gameStartTime s) (isAIThinking s) (currentMoves s).

Definition changeBoardSize (boardSize : Z) (now : Z) (s : HookState)
  : HookState :=
  let settings := gameSettings s in
  if (boardSize <? 3) || (10 <? boardSize) then s
  else
    mkHookState (newGameState boardSize settings) (gameScore s)
      DEFAULT_AI_METRICS
      (mkGameSettings (settingsDifficulty settings) (playerSymbol settings)
         (aiSymbol settings) boardSize)
      (gameHistory s) now false [].

(** [switchPlayerSymbol] queues the new symbols and calls [startNewGame],
    which still reads the settings of the current render. *)
Definition switchPlayerSymbol (now : Z) (s : HookState) : HookState :=
  let settings := gameSettings s in
  let newPlayerSymbol :=
    if Player_eqb (playerSymbol settings) X then O else X in
  let newAISymbol := getOpponent newPlayerSymbol in
  mkHookState
    (newGameState (settingsBoardSize settings) settings)
    (gameScore s) DEFAULT_AI_METRICS
    (mkGameSettings (settingsDifficulty settings) newPlayerSymbol newAISymbol
       (settingsBoardSize settings))
    (gameHistory s) now false [].

Definition resetStats (s : HookState) : HookState :=
  mkHookState (gameState s) DEFAULT_SCORE (aiMetrics s) (gameSettings s) []
    (gameStartTime s) (isAIThinking s) (currentMoves s).

(** The [totalGames] of [getGameStats]. *)
Definition totalGames (gameScore : GameScore) : Z :=
  playerWins gameScore + aiWins gameScore + draws gameScore.

End Hook.

(** ** Vocabulary for the hook *)

Module HookProps.

Import Rules Engine Props.

(** The kind of streak a finished game counts for. *)
Definition outcomeOf (settings : Hook.GameSettings) (w : option Player)
  : Hook.StreakType :=
  if Hook.sameMark w (Hook.playerSymbol settings) then Hook.StreakWin
  else if Hook.sameMark w (Hook.aiSymbol settings) then Hook.StreakLoss
  else Hook.StreakDraw.

(** A configuration of the hook: its state, and the states of the
    renders whose call of [makeAIMove] is waiting at the [await]. *)
Record Config : Type := mkConfig {
  current : Hook.HookState;
  waiting : list Hook.HookState
}.

(** The configuration after the first render and the effect that loads
    [localStorage]. *)
Definition initialConfig (now : Z) (savedScore : option Hook.GameScore)
    (savedSettings : option Hook.GameSettings)
    (savedHistory : option (list Hook.GameHistory)) : Config :=
  mkConfig
    (Hook.loadSaved savedScore savedSettings savedHistory
       (Hook.initialState now))
    [].

(** One step of the hook: a call of a handler, the beginning of a call
    of [makeAIMove] by the effect (whose test is [aiToMove]), or the
    end of a call that was waiting. *)
Inductive handles : Config -> Config -> Prop :=
  | handles_makePlayerMove r c now1 now2 s w :
      handles (mkConfig s w)
        (mkConfig (Hook.makePlayerMove r c now1 now2 s).2 w)
  | handles_makeAIMove_begin s w :
      Hook.aiToMove s = true ->
      handles (mkConfig s w) (mkConfig (Hook.makeAIMove_begin s) (s :: w))
  | handles_makeAIMove_resume clock rnd now1 now2 engine snap s s' w1 w2 :
      Hook.makeAIMove_resume clock rnd now1 now2 engine snap s = Value s' ->
      handles (mkConfig s (w1 ++ snap :: w2)) (mkConfig s' (w1 ++ w2))
  | handles_startNewGame now s w :
      handles (mkConfig s w) (mkConfig (Hook.startNewGame now s) w)
  | handles_changeDifficulty d s w :
      handles (mkConfig s w) (mkConfig (Hook.changeDifficulty d s) w)
  | handles_changeBoardSize n now s w :
      handles (mkConfig s w) (mkConfig (Hook.changeBoardSize n now s) w)
  | handles_switchPlayerSymbol now s w :
      handles (mkConfig s w) (mkConfig (Hook.switchPlayerSymbol now s) w)
  | handles_resetStats s w :
      handles (mkConfig s w) (mkConfig (Hook.resetStats s) w).

(** The settings name a board size from 3 to 10 and two different
    marks. *)
Definition validSettings (settings : Hook.GameSettings) : Prop :=
  3 <= Hook.settingsBoardSize settings <= 10
  /\ Hook.aiSymbol settings = getOpponent (Hook.playerSymbol settings).

(** The history holds the games counted by the score, at most 50 of
    them, and the streak is no longer than the games counted. *)
Definition validStats (gameScore : Hook.GameScore)
    (gameHistory : list Hook.GameHistory) : Prop :=
  Z.of_nat (length gameHistory) = Z.min (Hook.totalGames gameScore) 50
  /\ 0 <= Hook.currentStreak gameScore <= Hook.totalGames gameScore.

(** What the state of the hook says about the game agrees with the
    rules applied to its board. *)
Definition consistent (s : Hook.HookState) : Prop :=
  let gs := Hook.gameState s in
  wf_board (Hook.board gs)
  /\ sizeOf (Hook.board gs) = Hook.boardSize gs
  /\ 3 <= Hook.boardSize gs <= 10
  /\ Hook.winner gs = winner (checkWinner (Hook.board gs))
  /\ Hook.winningLine gs = winningLine (checkWinner (Hook.board gs))
  /\ (Hook.gameStatus gs = Hook.Playing <-> isGameOver (Hook.board gs) = false)
  /\ (Hook.gameStatus gs = Hook.Won <-> Hook.winner gs <> None)
  /\ Z.of_nat (length (getAvailableMoves (Hook.board gs)))
     + Z.of_nat (length (Hook.currentMoves s))
     = Hook.boardSize gs * Hook.boardSize gs
  /\ validSettings (Hook.gameSettings s)
  /\ validStats (Hook.gameScore s) (Hook.gameHistory s).

End HookProps.

(** * Position analysis ([analyzePosition] of [utils/aiEngine.ts]) *)

Module Analysis.

Import Rules Engine.

#[global] Instance Num_eq_dec : EqDecision Num.
Proof. solve_decision. Defined.

(** The five texts of [strategy]: "Game over", "Winning position - going
    for the kill!", "Slight advantage - playing carefully", "Equal
    position - aiming for draw" and "Defending - trying to avoid loss". *)
Inductive Strategy : Type :=
  | GameOver
  | WinningPosition
  | SlightAdvantage
  | EqualPosition
  | Defending.

Record PositionAnalysis : Type := mkPositionAnalysis {
  evaluation : Num;
  bestMoves : list Move;
  strategy : Strategy
}.

Section Analyze.

Variable overBudget : Z -> bool.

(** The [map] over [availableMoves]: one search per move, in order, each
    with the default depth limit 9 of [minimax]. *)
Fixpoint evaluateMoves (board : Board) (aiPlayer : Player)
    (moves : list Move) (st : AIState)
  : outcome (list (Move * Num) * AIState) :=
  match moves with
  | [] => Value ([], st)
  | mv :: rest =>
      newBoard ← makeMove board (row mv) (col mv) aiPlayer;
      '(result, st1) ←
        minimax overBudget (fuelFor 0 9) newBoard 0 false aiPlayer
          NegInf PosInf 9 st;
      '(evaluations, st2) ← evaluateMoves board aiPlayer rest st1;
      Value ((mv, score result) :: evaluations, st2)
  end.

(** [Array.prototype.sort] with the comparator
    [(a, b) => b.score - a.score]: a stable sort by decreasing score. *)
Fixpoint insertByScore (x : Move * Num) (l : list (Move * Num))
  : list (Move * Num) :=
  match l with
  | [] => [x]
  | y :: l' => if Num_ltb x.2 y.2 then y :: insertByScore x l' else x :: l
  end.

Definition sortByScore (l : list (Move * Num)) : list (Move * Num) :=
  foldr insertByScore [] l.

(** [analyzePosition] resets [positionsEvaluated] and leaves the abort
    flag as it is.  [moveEvaluations] has as many elements as
    [availableMoves], which is not empty where [moveEvaluations[0]] is
    read. *)
Definition analyzePosition (board : Board) (aiPlayer : Player)
    (st : AIState) : outcome (PositionAnalysis * AIState) :=
  let st0 := mkAIState 0 (timeoutReached st) in
  let availableMoves := getAvailableMoves board in
  if bool_decide (length availableMoves = 0%nat) then
    Value (mkPositionAnalysis (Fin 0) [] GameOver, st0)
  else
    '(moveEvaluations, st') ←
      evaluateMoves board aiPlayer availableMoves st0;
    let sorted := sortByScore moveEvaluations in
    let bestScore :=
      match sorted with
      | first :: _ => first.2
      | [] => Fin 0
      end in
    let bestMoves :=
      (filter (fun evaluation : Move * Num => evaluation.2 = bestScore)
         sorted).*1 in
    let strategy :=
      if Num_ltb (Fin 5) bestScore then WinningPosition
      else if Num_ltb (Fin 0) bestScore then SlightAdvantage
      else if bool_decide (bestScore = Fin 0) then EqualPosition
      else Defending in
    Value (mkPositionAnalysis bestScore bestMoves strategy, st').

End Analyze.

End Analysis.

Import Rules Engine Props.

(** * Facts about the rules module *)

Section RulesFacts.

Implicit Types (b : Board) (r c : Z) (p : Player) (m : Move).

Lemma index_Some {A : Type} (l : list A) (i : Z) (x : A) :
  index l i = Some x <-> 0 <= i /\ l !! Z.to_nat i = Some x.
Proof.
  unfold index. destruct (Z.leb_spec 0 i); split; intros H1.
  - done.
  - by destruct H1.
  - done.
  - destruct H1; lia.
Qed.

Lemma index_in_range {A : Type} (l : list A) (i : Z) :
  0 <= i < Z.of_nat (length l) -> exists x, index l i = Some x.
Proof.
  intros Hi. destruct (lookup_lt_is_Some_2 l (Z.to_nat i)) as [x Hx]; [lia|].
  exists x. apply index_Some. split; [lia | done].
Qed.

Lemma index_Some_lt {A : Type} (l : list A) (i : Z) (x : A) :
  index l i = Some x -> 0 <= i < Z.of_nat (length l).
Proof.
  intros [H0 Hl]%index_Some. apply lookup_lt_Some in Hl. lia.
Qed.

Lemma cloneBoard_id b : cloneBoard b = b.
Proof. unfold cloneBoard. apply list_fmap_id. Qed.

Lemma cellAt_wf b r c :
  wf_board b -> inBounds (sizeOf b) r c -> exists cell, cellAt b r c = Some cell.
Proof.
  intros Hwf [Hr Hc]. unfold cellAt, sizeOf in *.
  destruct (index_in_range b r Hr) as [line Hline]. rewrite Hline.
  apply index_in_range.
  apply index_Some in Hline as [_ Hline].
  rewrite (proj1 (Forall_lookup _ _) Hwf _ _ Hline). lia.
Qed.

Lemma isValidMove_true b r c :
  isValidMove b r c = true
  <-> inBounds (sizeOf b) r c /\ cellAt b r c = Some None.
Proof.
  unfold isValidMove, inBounds.
  rewrite !andb_true_iff, !Z.leb_le, !Z.ltb_lt.
  unfold isNull. destruct (cellAt b r c) as [[q|]|]; intuition congruence.
Qed.

Lemma elem_of_getAvailableMoves b m :
  m ∈ getAvailableMoves b
  <-> inBounds (sizeOf b) (row m) (col m)
      /\ cellAt b (row m) (col m) = Some None.
Proof.
  unfold getAvailableMoves, inBounds. rewrite list_elem_of_bind. split.
  - intros (r & Hm & Hr). apply list_elem_of_bind in Hm as (c & Hm & Hc).
    apply elem_of_seqZ in Hr, Hc.
    destruct (cellAt b r c) as [[q|]|] eqn:E; simpl in Hm;
      try (by apply elem_of_nil in Hm).
    apply list_elem_of_singleton in Hm. subst m. simpl. rewrite E.
    split; [lia | done].
  - intros [[Hr Hc] Hcell]. exists (row m). split; [|apply elem_of_seqZ; lia].
    apply list_elem_of_bind. exists (col m). split; [|apply elem_of_seqZ; lia].
    rewrite Hcell. simpl. destruct m. apply list_elem_of_singleton. done.
Qed.

Lemma available_valid b m :
  m ∈ getAvailableMoves b <-> isValidMove b (row m) (col m) = true.
Proof. by rewrite elem_of_getAvailableMoves, isValidMove_true. Qed.

Lemma makeMove_Value b r c p b' :
  makeMove b r c p = Value b'
  <-> isValidMove b r c = true /\ b' = setCell b r c p.
Proof.
  unfold makeMove. rewrite cloneBoard_id.
  destruct (isValidMove b r c); simpl; split.
  - intros [= <-]. done.
  - intros [_ ->]. done.
  - done.
  - intros [? _]. done.
Qed.

Lemma makeMove_available b m p :
  m ∈ getAvailableMoves b ->
  makeMove b (row m) (col m) p = Value (setCell b (row m) (col m) p).
Proof. intros Hm%available_valid. by apply makeMove_Value. Qed.

Lemma makeMove_Thrown b r c p e :
  makeMove b r c p = Thrown e
  <-> isValidMove b r c = false /\ e = InvalidMove r c.
Proof.
  unfold makeMove. destruct (isValidMove b r c); simpl; split.
  - done.
  - intros [? _]. done.
  - intros [= <-]. done.
  - intros [_ ->]. done.
Qed.

Lemma makeMove_fuel b r c p : makeMove b r c p <> NoFuel.
Proof. unfold makeMove. by destruct (negb _). Qed.

Lemma length_setCell b r c p : length (setCell b r c p) = length b.
Proof. unfold setCell. apply length_alter. Qed.

Lemma sizeOf_setCell b r c p : sizeOf (setCell b r c p) = sizeOf b.
Proof. unfold sizeOf. by rewrite length_setCell. Qed.

Lemma wf_setCell b r c p : wf_board b -> wf_board (setCell b r c p).
Proof.
  unfold wf_board. rewrite length_setCell. unfold setCell. intros Hwf.
  apply Forall_lookup. intros i line Hi.
  rewrite list_lookup_alter in Hi.
  destruct (decide (Z.to_nat r = i)) as [->|Hne].
  - destruct (b !! i) as [l0|] eqn:E; simplify_eq/=.
    rewrite length_insert. by eapply (proj1 (Forall_lookup _ _) Hwf).
  - by eapply (proj1 (Forall_lookup _ _) Hwf).
Qed.

(** Reading the board after a valid move. *)
Lemma cellAt_setCell b r c p r' c' :
  isValidMove b r c = true ->
  cellAt (setCell b r c p) r' c'
  = if decide (r' = r /\ c' = c) then Some (Some p) else cellAt b r' c'.
Proof.
  intros [[Hr Hc] Hcell]%isValidMove_true.
  unfold cellAt in *. unfold setCell.
  destruct (index b r) as [line|] eqn:Hline; [|done].
  pose proof (index_Some_lt _ _ _ Hcell) as Hclt.
  apply index_Some in Hline as [_ Hline].
  unfold index at 1. unfold index at 2.
  destruct (Z.leb_spec 0 r') as [Hr'|Hr'].
  2:{ rewrite decide_False by lia. done. }
  rewrite list_lookup_alter.
  destruct (decide (Z.to_nat r = Z.to_nat r')) as [Heq|Hne].
  - assert (r' = r) as -> by lia. rewrite Hline. simpl.
    unfold index. destruct (Z.leb_spec 0 c') as [Hc'|Hc'].
    2:{ rewrite decide_False by lia. done. }
    destruct (decide (c' = c)) as [->|Hcne].
    + rewrite decide_True by done.
      apply list_lookup_insert_eq. lia.
    + rewrite decide_False by tauto.
      apply list_lookup_insert_ne. lia.
  - rewrite decide_False by (intros [-> _]; done). done.
Qed.

End RulesFacts.

(** * Line generation *)

Section Lines.

Variable N : Z.

Let rowLine (r : Z) : WinningLine := (fun c => (r, c)) <$> seqZ 0 N.
Let colLine (c : Z) : WinningLine := (fun r => (r, c)) <$> seqZ 0 N.
Let mainLine : WinningLine := (fun i => (i, i)) <$> seqZ 0 N.
Let antiLine : WinningLine := (fun i => (i, N - 1 - i)) <$> seqZ 0 N.

Lemma lines_unfold :
  generateWinningCombinations N
  = (rowLine <$> seqZ 0 N) ++ (colLine <$> seqZ 0 N) ++ [mainLine; antiLine].
Proof. reflexivity. Qed.

Lemma lines_length :
  0 <= N -> Z.of_nat (length (generateWinningCombinations N)) = 2 * N + 2.
Proof.
  intros HN. rewrite lines_unfold.
  rewrite !length_app, !length_fmap, !length_seqZ. simpl. lia.
Qed.

Lemma lines_each_length :
  Forall (fun l : WinningLine => length l = Z.to_nat N)
         (generateWinningCombinations N).
Proof.
  rewrite lines_unfold. rewrite !Forall_app. repeat split.
  - apply Forall_fmap, Forall_forall. intros r _. simpl.
    unfold rowLine. by rewrite length_fmap, length_seqZ.
  - apply Forall_fmap, Forall_forall. intros r _. simpl.
    unfold colLine. by rewrite length_fmap, length_seqZ.
  - repeat constructor; unfold mainLine, antiLine;
      by rewrite length_fmap, length_seqZ.
Qed.

Lemma lines_in_bounds :
  Forall (Forall (fun rc : Z * Z => inBounds N rc.1 rc.2))
         (generateWinningCombinations N).
Proof.
  rewrite lines_unfold. rewrite !Forall_app. repeat split.
  - apply Forall_fmap, Forall_forall. intros r Hr%elem_of_seqZ. simpl.
    apply Forall_fmap, Forall_forall. intros c Hc%elem_of_seqZ. simpl.
    unfold inBounds. lia.
  - apply Forall_fmap, Forall_forall. intros c Hc%elem_of_seqZ. simpl.
    apply Forall_fmap, Forall_forall. intros r Hr%elem_of_seqZ. simpl.
    unfold inBounds. lia.
  - repeat constructor; apply Forall_fmap, Forall_forall;
      intros i Hi%elem_of_seqZ; simpl; unfold inBounds; simpl; lia.
Qed.

Lemma index_fmap_seqZ {A : Type} (f : Z -> A) (i : Z) :
  0 <= i < N -> index (f <$> seqZ 0 N) i = Some (f i).
Proof.
  intros Hi. apply index_Some. split; [lia|].
  rewrite list_lookup_fmap, lookup_seqZ_lt by lia. simpl. f_equal. f_equal. lia.
Qed.

Lemma lines_index_row (i : Z) :
  0 <= i < N -> index (generateWinningCombinations N) i = Some (rowLine i).
Proof.
  intros Hi. rewrite lines_unfold. apply index_Some. split; [lia|].
  rewrite lookup_app_l by (rewrite length_fmap, length_seqZ; lia).
  apply index_Some. by apply index_fmap_seqZ.
Qed.

Lemma lines_index_col (i : Z) :
  0 <= i < N -> index (generateWinningCombinations N) (N + i) = Some (colLine i).
Proof.
  intros Hi. rewrite lines_unfold. apply index_Some. split; [lia|].
  rewrite lookup_app_r by (rewrite length_fmap, length_seqZ; lia).
  rewrite length_fmap, length_seqZ.
  replace (Z.to_nat (N + i) - Z.to_nat N)%nat with (Z.to_nat i) by lia.
  rewrite lookup_app_l by (rewrite length_fmap, length_seqZ; lia).
  apply index_Some. by apply index_fmap_seqZ.
Qed.

Lemma lines_index_diagonals :
  0 <= N ->
  index (generateWinningCombinations N) (2 * N) = Some mainLine
  /\ index (generateWinningCombinations N) (2 * N + 1) = Some antiLine.
Proof.
  intros HN. rewrite lines_unfold. split; apply index_Some; (split; [lia|]).
  - rewrite lookup_app_r by (rewrite length_fmap, length_seqZ; lia).
    rewrite lookup_app_r by (rewrite !length_fmap, !length_seqZ; lia).
    rewrite !length_fmap, !length_seqZ.
    replace (Z.to_nat (2 * N) - Z.to_nat N - Z.to_nat N)%nat with 0%nat by lia.
    done.
  - rewrite lookup_app_r by (rewrite length_fmap, length_seqZ; lia).
    rewrite lookup_app_r by (rewrite !length_fmap, !length_seqZ; lia).
    rewrite !length_fmap, !length_seqZ.
    replace (Z.to_nat (2 * N + 1) - Z.to_nat N - Z.to_nat N)%nat
      with 1%nat by lia.
    done.
Qed.

(** The first two coordinate pairs tell all lines apart once [N >= 2]. *)
Let key (l : WinningLine) : option (Z * Z) * option (Z * Z) :=
  (index l 0, index l 1).

Lemma lines_NoDup : 2 <= N -> NoDup (generateWinningCombinations N).
Proof.
  intros HN. apply (NoDup_fmap_1 key). rewrite lines_unfold.
  rewrite !fmap_app, <- !list_fmap_compose.
  assert (Hrow : forall r, key (rowLine r) = (Some (r, 0), Some (r, 1))).
  { intros r. unfold key, rowLine. by rewrite !index_fmap_seqZ by lia. }
  assert (Hcol : forall c, key (colLine c) = (Some (0, c), Some (1, c))).
  { intros c. unfold key, colLine. by rewrite !index_fmap_seqZ by lia. }
  assert (Hmain : key mainLine = (Some (0, 0), Some (1, 1))).
  { unfold key, mainLine. by rewrite !index_fmap_seqZ by lia. }
  assert (Hanti : key antiLine = (Some (0, N - 1 - 0), Some (1, N - 1 - 1))).
  { unfold key, antiLine. by rewrite !index_fmap_seqZ by lia. }
  apply NoDup_app. split; [|split].
  - apply NoDup_fmap_2_strong; [|apply NoDup_seqZ].
    intros r r' _ _. simpl. rewrite !Hrow. congruence.
  - intros k (r & -> & Hr)%list_elem_of_fmap Hk. simpl in Hk.
    rewrite Hrow in Hk.
    apply elem_of_app in Hk as [(c & Hk & Hc)%list_elem_of_fmap|Hk].
    + simpl in Hk. rewrite Hcol in Hk. simplify_eq.
    + simpl in Hk. rewrite Hmain, Hanti in Hk.
      apply elem_of_cons in Hk as [Hk|Hk]; [simplify_eq|].
      apply list_elem_of_singleton in Hk. simplify_eq; lia.
  - apply NoDup_app. split; [|split].
    + apply NoDup_fmap_2_strong; [|apply NoDup_seqZ].
      intros c c' _ _. simpl. rewrite !Hcol. congruence.
    + intros k (c & -> & Hc)%list_elem_of_fmap Hk. simpl in Hk.
      rewrite Hcol, Hmain, Hanti in Hk.
      apply elem_of_cons in Hk as [Hk|Hk]; [simplify_eq|].
      apply list_elem_of_singleton in Hk. simplify_eq; lia.
    + simpl. rewrite Hmain, Hanti. apply NoDup_cons. split.
      * intros Hk%list_elem_of_singleton. simplify_eq; lia.
      * apply NoDup_singleton.
Qed.

End Lines.

(** C7.  For every N in [3,10], [generateWinningCombinations N] yields
    exactly 2N+2 lines: the N rows (line [i] is row [i]), then the N
    columns (line [N+i] is column [i]), then the main diagonal and the
    anti-diagonal; each line has N coordinate pairs, every pair lies in
    [0,N) x [0,N), and no two lines are equal. *)
Theorem generateWinningCombinations_lines (N : Z) :
  3 <= N <= 10 ->
  let lines := generateWinningCombinations N in
  Z.of_nat (length lines) = 2 * N + 2
  /\ (forall i j, 0 <= i < N -> 0 <= j < N ->
        coordAt lines i j = Some (i, j)
        /\ coordAt lines (N + i) j = Some (j, i))
  /\ (forall j, 0 <= j < N ->
        coordAt lines (2 * N) j = Some (j, j)
        /\ coordAt lines (2 * N + 1) j = Some (j, N - 1 - j))
  /\ Forall (fun l : WinningLine => Z.of_nat (length l) = N) lines
  /\ Forall (Forall (fun rc : Z * Z => inBounds N rc.1 rc.2)) lines
  /\ NoDup lines.
Proof.
  intros HN lines. subst lines. split; [|split; [|split; [|split; [|split]]]].
  - apply lines_length. lia.
  - intros i j Hi Hj. unfold coordAt.
    rewrite lines_index_row, lines_index_col by done.
    by rewrite !index_fmap_seqZ by done.
  - intros j Hj. unfold coordAt.
    destruct (lines_index_diagonals N) as [-> ->]; [lia|].
    by rewrite !index_fmap_seqZ by done.
  - eapply Forall_impl; [apply lines_each_length|]. simpl. intros l Hl. lia.
  - apply lines_in_bounds.
  - apply lines_NoDup. lia.
Qed.

Lemma generateWinningCombinations_lines_witness :
  3 <= 3 <= 10
  /\ Z.of_nat (length (generateWinningCombinations 3)) = 2 * 3 + 2
  /\ NoDup (generateWinningCombinations 3).
Proof.
  split; [lia|].
  pose proof (generateWinningCombinations_lines 3 ltac:(lia)) as H.
  simpl in H. split; [apply H | apply H].
Defined.

(** * Win detection *)

Section Winner.

Implicit Types (b : Board) (l : WinningLine) (p : Player).

Lemma holds_true (v : option Cell) p : holds v p = true <-> v = Some (Some p).
Proof.
  unfold holds. destruct v as [[q|]|]; [|done..].
  destruct q, p; simpl; split; congruence.
Qed.

Lemma lineMark_Some b l p : lineMark b l = Some p <-> complete b l p.
Proof.
  unfold lineMark, complete. split.
  - destruct l as [|[r0 c0] l']; [done|]. simpl firstCell.
    destruct (cellAt b r0 c0) as [[q|]|] eqn:E0; [|done..].
    destruct (forallb _ _) eqn:Hall; [|done]. intros [= ->].
    split; [done|]. intros r c Hin.
    rewrite forallb_forall in Hall.
    apply holds_true, (Hall (r, c)). by apply list_elem_of_In.
  - intros [Hne Hall]. destruct l as [|[r0 c0] l']; [done|]. simpl firstCell.
    rewrite (Hall r0 c0) by apply list_elem_of_here.
    replace (forallb _ _) with true; [done|]. symmetry.
    apply forallb_forall. intros [r c] Hin%list_elem_of_In.
    apply holds_true. by apply Hall.
Qed.

Lemma complete_unique b l p q : complete b l p -> complete b l q -> p = q.
Proof.
  intros [Hne Hp] [_ Hq]. destruct l as [|[r c] l']; [done|].
  specialize (Hp r c (list_elem_of_here _ _)).
  specialize (Hq r c (list_elem_of_here _ _)). congruence.
Qed.

Lemma scanLines_none b (lines : list WinningLine) :
  (forall l p, l ∈ lines -> ~ complete b l p) ->
  scanLines b lines = mkWinnerInfo None None.
Proof.
  induction lines as [|l lines IH]; intros Hnone; [done|]. simpl.
  destruct (lineMark b l) as [p|] eqn:E.
  - apply lineMark_Some in E. destruct (Hnone l p); [left|done].
  - apply IH. intros l' p' Hin. apply Hnone. by right.
Qed.

Lemma scanLines_first b (pre post : list WinningLine) l p :
  complete b l p ->
  (forall l' p', l' ∈ pre -> ~ complete b l' p') ->
  scanLines b (pre ++ l :: post) = mkWinnerInfo (Some p) (Some l).
Proof.
  intros Hl. induction pre as [|l0 pre IH]; intros Hpre; simpl.
  - apply lineMark_Some in Hl. by rewrite Hl.
  - destruct (lineMark b l0) as [p0|] eqn:E.
    + apply lineMark_Some in E. destruct (Hpre l0 p0); [left|done].
    + apply IH. intros l' p' Hin. apply Hpre. by right.
Qed.

(** The result of the scan always is the first complete line, if any. *)
Lemma scanLines_cases b (lines : list WinningLine) :
  (scanLines b lines = mkWinnerInfo None None
   /\ forall l p, l ∈ lines -> ~ complete b l p)
  \/ (exists pre l post p,
        lines = pre ++ l :: post /\ complete b l p
        /\ (forall l' p', l' ∈ pre -> ~ complete b l' p')
        /\ scanLines b lines = mkWinnerInfo (Some p) (Some l)).
Proof.
  induction lines as [|l lines IH]; simpl.
  - left. split; [done|]. intros l p Hin. by apply elem_of_nil in Hin.
  - destruct (lineMark b l) as [p|] eqn:E.
    + right. exists [], l, lines, p. apply lineMark_Some in E.
      split; [done|]. split; [done|]. split; [|done].
      intros l' p' Hin. by apply elem_of_nil in Hin.
    + destruct IH as [[Hs Hnone]|(pre & l1 & post & p & -> & Hc & Hpre & Hs)].
      * left. split; [done|]. intros l' p' [->|Hin]%elem_of_cons.
        -- intros Hc%lineMark_Some. congruence.
        -- by apply Hnone.
      * right. exists (l :: pre), l1, post, p.
        split; [done|]. split; [done|]. split; [|done].
        intros l' p' [->|Hin]%elem_of_cons.
        -- intros Hc'%lineMark_Some. congruence.
        -- by apply Hpre.
Qed.

Lemma cellAt_createEmptyBoard (N r c : Z) (v : Cell) :
  cellAt (createEmptyBoard N) r c = Some v -> v = None.
Proof.
  unfold cellAt, createEmptyBoard.
  destruct (index _ r) as [line|] eqn:Hline; [|done].
  apply index_Some in Hline as [_ [-> _]%lookup_replicate].
  intros [_ [-> _]%lookup_replicate]%index_Some. done.
Qed.

Lemma checkWinner_empty (N : Z) :
  checkWinner (createEmptyBoard N) = mkWinnerInfo None None.
Proof.
  unfold checkWinner. apply scanLines_none. intros l p _ [Hne Hall].
  destruct l as [|[r c] l']; [done|].
  specialize (Hall r c (list_elem_of_here _ _)).
  by apply cellAt_createEmptyBoard in Hall.
Qed.

End Winner.

(** * The lines, cell by cell *)

Section LineCells.

Implicit Types (b : Board) (l : WinningLine) (p : Player).

Lemma listsCells_fmap (N : Z) (cell : Z -> Z * Z) :
  0 <= N -> listsCells N cell (cell <$> seqZ 0 N).
Proof.
  intros HN. split.
  - rewrite length_fmap, length_seqZ. lia.
  - intros j Hj. by apply index_fmap_seqZ.
Qed.

Lemma complete_fmap b (N : Z) (cell : Z -> Z * Z) p :
  1 <= N ->
  complete b (cell <$> seqZ 0 N) p
  <-> forall j, 0 <= j < N -> cellAt b (cell j).1 (cell j).2 = Some (Some p).
Proof.
  intros HN. unfold complete. split.
  - intros [_ Hall] j Hj. destruct (cell j) as [r c] eqn:Hcell. simpl.
    apply Hall. apply list_elem_of_fmap. exists j. split; [done|].
    apply elem_of_seqZ. lia.
  - intros Hall. split.
    + intros Hnil. apply (f_equal length) in Hnil.
      rewrite length_fmap, length_seqZ in Hnil. simpl in Hnil. lia.
    + intros r c (j & Hcell & Hj%elem_of_seqZ)%list_elem_of_fmap.
      specialize (Hall j ltac:(lia)). by rewrite <- Hcell in Hall.
Qed.

(** The lines generated for a board, read as rows, columns and
    diagonals of that board. *)
Lemma complete_row b r p :
  1 <= sizeOf b ->
  complete b ((fun c => (r, c)) <$> seqZ 0 (sizeOf b)) p <-> fullRow b r p.
Proof. intros HN. by rewrite complete_fmap. Qed.

Lemma complete_column b c p :
  1 <= sizeOf b ->
  complete b ((fun r => (r, c)) <$> seqZ 0 (sizeOf b)) p <-> fullColumn b c p.
Proof. intros HN. by rewrite complete_fmap. Qed.

Lemma complete_mainDiagonal b p :
  1 <= sizeOf b ->
  complete b ((fun i => (i, i)) <$> seqZ 0 (sizeOf b)) p
  <-> fullMainDiagonal b p.
Proof. intros HN. by rewrite complete_fmap. Qed.

Lemma complete_antiDiagonal b p :
  1 <= sizeOf b ->
  complete b ((fun i => (i, sizeOf b - 1 - i)) <$> seqZ 0 (sizeOf b)) p
  <-> fullAntiDiagonal b p.
Proof. intros HN. by rewrite complete_fmap. Qed.

Lemma seqZ_split (N k : Z) :
  0 <= k < N -> seqZ 0 N = seqZ 0 k ++ k :: seqZ (k + 1) (N - k - 1).
Proof.
  intros Hk. replace N with (k + (1 + (N - k - 1))) at 1 by lia.
  rewrite seqZ_app by lia. f_equal. rewrite seqZ_app by lia. done.
Qed.

(** A complete line among the rows, or among the columns, is a full row,
    or a full column. *)
Lemma complete_among_rows b (k : Z) l p :
  1 <= sizeOf b ->
  l ∈ (fun r => (fun c => (r, c)) <$> seqZ 0 (sizeOf b)) <$> seqZ 0 k ->
  complete b l p -> exists r, 0 <= r < k /\ fullRow b r p.
Proof.
  intros HN (r & -> & Hr%elem_of_seqZ)%list_elem_of_fmap Hc.
  exists r. split; [lia|]. by apply complete_row.
Qed.

Lemma complete_among_columns b (k : Z) l p :
  1 <= sizeOf b ->
  l ∈ (fun c => (fun r => (r, c)) <$> seqZ 0 (sizeOf b)) <$> seqZ 0 k ->
  complete b l p -> exists c, 0 <= c < k /\ fullColumn b c p.
Proof.
  intros HN (c & -> & Hc%elem_of_seqZ)%list_elem_of_fmap Hcomp.
  exists c. split; [lia|]. by apply complete_column.
Qed.

(** The complete lines of a board are its full rows, columns and
    diagonals. *)
Lemma complete_line_iff b p :
  1 <= sizeOf b ->
  (exists l, l ∈ generateWinningCombinations (sizeOf b) /\ complete b l p)
  <-> (exists r, 0 <= r < sizeOf b /\ fullRow b r p)
      \/ (exists c, 0 <= c < sizeOf b /\ fullColumn b c p)
      \/ fullMainDiagonal b p \/ fullAntiDiagonal b p.
Proof.
  intros HN. rewrite lines_unfold. split.
  - intros (l & Hin & Hc).
    apply elem_of_app in Hin as [Hin|Hin].
    { left. by eapply complete_among_rows. }
    apply elem_of_app in Hin as [Hin|Hin].
    { right. left. by eapply complete_among_columns. }
    apply elem_of_cons in Hin as [->|Hin].
    { right. right. left. by apply complete_mainDiagonal. }
    apply list_elem_of_singleton in Hin as ->.
    right. right. right. by apply complete_antiDiagonal.
  - intros [(r & Hr & Hfull)|[(c & Hc & Hfull)|[Hfull|Hfull]]].
    + eexists. split; [|by apply complete_row].
      apply elem_of_app. left. apply list_elem_of_fmap. exists r.
      split; [done|]. apply elem_of_seqZ. lia.
    + eexists. split; [|by apply complete_column].
      apply elem_of_app. right. apply elem_of_app. left.
      apply list_elem_of_fmap. exists c. split; [done|].
      apply elem_of_seqZ. lia.
    + eexists. split; [|by apply complete_mainDiagonal].
      apply elem_of_app. right. apply elem_of_app. right. left.
    + eexists. split; [|by apply complete_antiDiagonal].
      apply elem_of_app. right. apply elem_of_app. right. right. left.
Qed.

Lemma scanLines_app_none b (pre rest : list WinningLine) :
  (forall l p, l ∈ pre -> ~ complete b l p) ->
  scanLines b (pre ++ rest) = scanLines b rest.
Proof.
  induction pre as [|l0 pre IH]; intros Hpre; simpl; [done|].
  destruct (lineMark b l0) as [p0|] eqn:E.
  - apply lineMark_Some in E. destruct (Hpre l0 p0); [left|done].
  - apply IH. intros l p Hin. apply Hpre. by right.
Qed.

Lemma fmap_seqZ_split {A : Type} (f : Z -> A) (N k : Z) :
  0 <= k < N ->
  f <$> seqZ 0 N
  = (f <$> seqZ 0 k) ++ f k :: (f <$> seqZ (k + 1) (N - k - 1)).
Proof. intros Hk. by rewrite (seqZ_split N k), fmap_app by done. Qed.

(** The scan returns the first full row; without a full row, the first
    full column; without either, the main diagonal when it is full, and
    else the anti-diagonal when it is full. *)
Lemma checkWinner_row b r p :
  1 <= sizeOf b -> 0 <= r < sizeOf b -> fullRow b r p ->
  (forall r' q, 0 <= r' < r -> ~ fullRow b r' q) ->
  checkWinner b
  = mkWinnerInfo (Some p) (Some ((fun c => (r, c)) <$> seqZ 0 (sizeOf b))).
Proof.
  intros HN Hr Hfull Hfirst. unfold checkWinner. rewrite lines_unfold.
  rewrite (fmap_seqZ_split _ (sizeOf b) r) by done.
  rewrite <- app_assoc, <- app_comm_cons.
  apply scanLines_first; [by apply complete_row|].
  intros l q Hin Hc.
  destruct (complete_among_rows b r l q HN Hin Hc) as (r' & Hr' & Hf).
  by apply (Hfirst r' q).
Qed.

Lemma scanLines_no_row b (rest : list WinningLine) :
  1 <= sizeOf b ->
  (forall r q, 0 <= r < sizeOf b -> ~ fullRow b r q) ->
  scanLines b
    (((fun r => (fun c => (r, c)) <$> seqZ 0 (sizeOf b)) <$> seqZ 0 (sizeOf b))
     ++ rest)
  = scanLines b rest.
Proof.
  intros HN Hrows. apply scanLines_app_none. intros l q Hin Hc.
  destruct (complete_among_rows b _ l q HN Hin Hc) as (r' & Hr' & Hf).
  by apply (Hrows r' q).
Qed.

Lemma scanLines_no_column b (rest : list WinningLine) :
  1 <= sizeOf b ->
  (forall c q, 0 <= c < sizeOf b -> ~ fullColumn b c q) ->
  scanLines b
    (((fun c => (fun r => (r, c)) <$> seqZ 0 (sizeOf b)) <$> seqZ 0 (sizeOf b))
     ++ rest)
  = scanLines b rest.
Proof.
  intros HN Hcols. apply scanLines_app_none. intros l q Hin Hc.
  destruct (complete_among_columns b _ l q HN Hin Hc) as (c' & Hc' & Hf).
  by apply (Hcols c' q).
Qed.

Lemma checkWinner_column b c p :
  1 <= sizeOf b -> 0 <= c < sizeOf b -> fullColumn b c p ->
  (forall r q, 0 <= r < sizeOf b -> ~ fullRow b r q) ->
  (forall c' q, 0 <= c' < c -> ~ fullColumn b c' q) ->
  checkWinner b
  = mkWinnerInfo (Some p) (Some ((fun r => (r, c)) <$> seqZ 0 (sizeOf b))).
Proof.
  intros HN Hc Hfull Hrows Hfirst. unfold checkWinner. rewrite lines_unfold.
  rewrite scanLines_no_row by done.
  rewrite (fmap_seqZ_split _ (sizeOf b) c) by done.
  rewrite <- app_assoc, <- app_comm_cons.
  apply scanLines_first; [by apply complete_column|].
  intros l q Hin Hcomp.
  destruct (complete_among_columns b c l q HN Hin Hcomp) as (c' & Hc' & Hf).
  by apply (Hfirst c' q).
Qed.

Lemma checkWinner_mainDiagonal b p :
  1 <= sizeOf b -> fullMainDiagonal b p ->
  (forall r q, 0 <= r < sizeOf b -> ~ fullRow b r q) ->
  (forall c q, 0 <= c < sizeOf b -> ~ fullColumn b c q) ->
  checkWinner b
  = mkWinnerInfo (Some p) (Some ((fun i => (i, i)) <$> seqZ 0 (sizeOf b))).
Proof.
  intros HN Hfull Hrows Hcols. unfold checkWinner. rewrite lines_unfold.
  rewrite scanLines_no_row, scanLines_no_column by done.
  apply (scanLines_first b []); [by apply complete_mainDiagonal|].
  intros l q Hin. by apply elem_of_nil in Hin.
Qed.

Lemma checkWinner_antiDiagonal b p :
  1 <= sizeOf b -> fullAntiDiagonal b p ->
  (forall r q, 0 <= r < sizeOf b -> ~ fullRow b r q) ->
  (forall c q, 0 <= c < sizeOf b -> ~ fullColumn b c q) ->
  (forall q, ~ fullMainDiagonal b q) ->
  checkWinner b
  = mkWinnerInfo (Some p)
      (Some ((fun i => (i, sizeOf b - 1 - i)) <$> seqZ 0 (sizeOf b))).
Proof.
  intros HN Hfull Hrows Hcols Hmain. unfold checkWinner. rewrite lines_unfold.
  rewrite scanLines_no_row, scanLines_no_column by done.
  apply (scanLines_first b [_] []); [by apply complete_antiDiagonal|].
  intros l q Hin%list_elem_of_singleton Hcomp. subst l.
  apply complete_mainDiagonal in Hcomp; [|done]. by apply (Hmain q).
Qed.

End LineCells.

(** C5.  On every board (of size [N] at least 1), [checkWinner] reports a
    winner iff some row, some column, the main diagonal (cells [(i, i)])
    or the anti-diagonal (cells [(i, N - 1 - i)]) has all its [N] cells
    holding the same mark.  The result is the mark and the line of the
    first such line in the order rows (top to bottom), columns (left to
    right), main diagonal, anti-diagonal: the first full row when a row
    is full; else the first full column; else the main diagonal when it
    is full; else the anti-diagonal; the line returned lists the [N]
    cells of that row, column or diagonal in increasing order.  There is
    no winner when none of them is full, in particular on the empty
    board.  These are the lines of [generateWinningCombinations] in its
    order: the result is the first complete generated line, and the
    only complete line when there is exactly one. *)
Theorem checkWinner_first_complete_line (b : Board) :
  1 <= sizeOf b ->
  let N := sizeOf b in
  let lines := generateWinningCombinations N in
  ((exists p, winner (checkWinner b) = Some p)
     <-> exists p,
           (exists r, 0 <= r < N /\ fullRow b r p)
           \/ (exists c, 0 <= c < N /\ fullColumn b c p)
           \/ fullMainDiagonal b p \/ fullAntiDiagonal b p)
  /\ (forall r p,
        0 <= r < N -> fullRow b r p ->
        (forall r' q, 0 <= r' < r -> ~ fullRow b r' q) ->
        exists l, checkWinner b = mkWinnerInfo (Some p) (Some l)
                  /\ listsCells N (fun j => (r, j)) l)
  /\ (forall c p,
        0 <= c < N -> fullColumn b c p ->
        (forall r q, 0 <= r < N -> ~ fullRow b r q) ->
        (forall c' q, 0 <= c' < c -> ~ fullColumn b c' q) ->
        exists l, checkWinner b = mkWinnerInfo (Some p) (Some l)
                  /\ listsCells N (fun j => (j, c)) l)
  /\ (forall p,
        fullMainDiagonal b p ->
        (forall r q, 0 <= r < N -> ~ fullRow b r q) ->
        (forall c q, 0 <= c < N -> ~ fullColumn b c q) ->
        exists l, checkWinner b = mkWinnerInfo (Some p) (Some l)
                  /\ listsCells N (fun j => (j, j)) l)
  /\ (forall p,
        fullAntiDiagonal b p ->
        (forall r q, 0 <= r < N -> ~ fullRow b r q) ->
        (forall c q, 0 <= c < N -> ~ fullColumn b c q) ->
        (forall q, ~ fullMainDiagonal b q) ->
        exists l, checkWinner b = mkWinnerInfo (Some p) (Some l)
                  /\ listsCells N (fun j => (j, N - 1 - j)) l)
  /\ ((forall q, (forall r, 0 <= r < N -> ~ fullRow b r q)
                 /\ (forall c, 0 <= c < N -> ~ fullColumn b c q)
                 /\ ~ fullMainDiagonal b q /\ ~ fullAntiDiagonal b q) ->
        checkWinner b = mkWinnerInfo None None)
  /\ checkWinner (createEmptyBoard N) = mkWinnerInfo None None
  /\ ((exists p, winner (checkWinner b) = Some p)
        <-> exists l p, l ∈ lines /\ complete b l p)
  /\ (forall pre l post p,
        lines = pre ++ l :: post -> complete b l p ->
        (forall l' p', l' ∈ pre -> ~ complete b l' p') ->
        checkWinner b = mkWinnerInfo (Some p) (Some l))
  /\ ((forall l p, l ∈ lines -> ~ complete b l p) ->
        checkWinner b = mkWinnerInfo None None)
  /\ (forall l p,
        l ∈ lines -> complete b l p ->
        (forall l' p', l' ∈ lines -> complete b l' p' -> l' = l) ->
        checkWinner b = mkWinnerInfo (Some p) (Some l)).
Proof.
  intros HN N lines.
  assert (HN0 : 0 <= N) by (subst N; lia).
  assert (Hiff : (exists p, winner (checkWinner b) = Some p)
                 <-> exists l p, l ∈ lines /\ complete b l p).
  { unfold checkWinner. fold N. fold lines.
    destruct (scanLines_cases b lines)
      as [[Hs Hnone]|(pre & l & post & p & Hl & Hc & Hpre & Hs)];
      rewrite Hs; simpl; split.
    + by intros [p ?].
    + intros (l & p & Hin & Hc). by destruct (Hnone l p).
    + intros _. exists l, p. split; [|done]. rewrite Hl.
      apply elem_of_app. right. left.
    + intros _. by exists p. }
  split; [|split; [|split; [|split; [|split; [|split; [|split; [|split;
    [|split; [|split]]]]]]]]].
  - rewrite Hiff. split.
    + intros (l & p & Hin & Hc). exists p. apply complete_line_iff; [done|].
      by exists l.
    + intros (p & Hp). apply complete_line_iff in Hp as (l & Hin & Hc); [|done].
      by exists l, p.
  - intros r p Hr Hfull Hfirst. eexists. split.
    + by apply checkWinner_row.
    + by apply listsCells_fmap.
  - intros c p Hc Hfull Hrows Hfirst. eexists. split.
    + by apply checkWinner_column.
    + by apply listsCells_fmap.
  - intros p Hfull Hrows Hcols. eexists. split.
    + by apply checkWinner_mainDiagonal.
    + by apply listsCells_fmap.
  - intros p Hfull Hrows Hcols Hmain. eexists. split.
    + by apply checkWinner_antiDiagonal.
    + by apply (listsCells_fmap N (fun j => (j, N - 1 - j))).
  - intros Hnone. unfold checkWinner. apply scanLines_none.
    intros l p Hin Hc.
    destruct (Hnone p) as (Hrows & Hcols & Hmain & Hanti).
    destruct (proj1 (complete_line_iff b p HN)) as
      [(r & Hr & Hf)|[(c & Hcc & Hf)|[Hf|Hf]]]; [by exists l|..].
    + by apply (Hrows r).
    + by apply (Hcols c).
    + done.
    + done.
  - apply checkWinner_empty.
  - exact Hiff.
  - intros pre l post p Hl Hc Hpre. unfold checkWinner. fold N. fold lines.
    rewrite Hl. by apply scanLines_first.
  - unfold checkWinner. apply scanLines_none.
  - intros l p Hin Hc Honly. unfold checkWinner. fold N. fold lines.
    destruct (scanLines_cases b lines)
      as [[Hs Hnone]|(pre & l1 & post & p1 & Hl & Hc1 & Hpre & Hs)].
    + by destruct (Hnone l p).
    + assert (l1 = l) as ->.
      { apply (Honly l1 p1); [|done]. rewrite Hl.
        apply elem_of_app. right. left. }
      by rewrite Hs, (complete_unique b l p p1).
Qed.

(** Column 0 and the main diagonal of this board are both full of X, no
    row is: the winner is X with the line of column 0, the earlier of
    the two. *)
Lemma checkWinner_first_complete_line_witness :
  let b := [[Some X; Some O; None]; [Some X; Some X; Some O];
            [Some X; Some O; Some X]] in
  1 <= sizeOf b
  /\ fullColumn b 0 X
  /\ fullMainDiagonal b X
  /\ exists l, checkWinner b = mkWinnerInfo (Some X) (Some l)
               /\ listsCells 3 (fun j => (j, 0)) l.
Proof.
  intros b.
  assert (HN : 1 <= sizeOf b) by by vm_compute.
  assert (Hcells : forall (P : Z -> Prop), P 0 -> P 1 -> P 2 ->
                     forall i, 0 <= i < sizeOf b -> P i).
  { intros P H0 H1 H2 i Hi. change (sizeOf b) with 3 in Hi.
    assert (Hi3 : i = 0 \/ i = 1 \/ i = 2) by lia.
    destruct Hi3 as [-> | [-> | ->]]; done. }
  assert (Hcol : fullColumn b 0 X)
    by (refine (Hcells (fun r => cellAt b r 0 = Some (Some X)) _ _ _);
        reflexivity).
  assert (Hdiag : fullMainDiagonal b X)
    by (refine (Hcells (fun i => cellAt b i i = Some (Some X)) _ _ _);
        reflexivity).
  split; [done|]. split; [done|]. split; [done|].
  destruct (checkWinner_first_complete_line b HN)
    as (_ & _ & Hcolumn & _).
  apply (Hcolumn 0 X); [by vm_compute|done| |].
  - intros r q Hr Hfull. revert r Hr q Hfull.
    apply (Hcells (fun r => forall q, ~ fullRow b r q)); intros q Hfull.
    + pose proof (Hfull 2 ltac:(by vm_compute)) as H2.
      vm_compute in H2. congruence.
    + pose proof (Hfull 0 ltac:(by vm_compute)) as H0.
      pose proof (Hfull 2 ltac:(by vm_compute)) as H2.
      vm_compute in H0, H2. congruence.
    + pose proof (Hfull 0 ltac:(by vm_compute)) as H0.
      pose proof (Hfull 1 ltac:(by vm_compute)) as H1.
      vm_compute in H0, H1. congruence.
  - intros c' q Hc'. lia.
Defined.

(** * Moves *)

(** C6.  On a well-formed board, [makeMove] throws the invalid-move error
    iff the move is not legal, that is iff the coordinates are outside
    [0,size) or the cell is occupied; it never returns the board
    unchanged; and a legal move returns a board of the same size with
    that cell set to the mark and every other cell as before. *)
Theorem makeMove_illegal_iff (b : Board) (r c : Z) (mark : Player) :
  wf_board b ->
  (makeMove b r c mark = Thrown (InvalidMove r c)
     <-> isValidMove b r c = false)
  /\ (makeMove b r c mark = Thrown (InvalidMove r c)
        <-> (~ inBounds (sizeOf b) r c
             \/ exists q, cellAt b r c = Some (Some q)))
  /\ makeMove b r c mark <> Value b
  /\ (isValidMove b r c = true ->
        exists b',
          makeMove b r c mark = Value b'
          /\ cellAt b' r c = Some (Some mark)
          /\ (forall r' c', (r', c') <> (r, c) ->
                cellAt b' r' c' = cellAt b r' c')
          /\ sizeOf b' = sizeOf b /\ wf_board b').
Proof.
  intros Hwf.
  assert (Hthrow : makeMove b r c mark = Thrown (InvalidMove r c)
                   <-> isValidMove b r c = false).
  { rewrite makeMove_Thrown. tauto. }
  split; [done|]. split; [|split].
  - rewrite Hthrow. destruct (isValidMove b r c) eqn:Hv.
    + apply isValidMove_true in Hv as [Hin Hcell]. split; [done|].
      intros [?|[q Hq]]; [done|congruence].
    + split; [|done]. intros _.
      destruct (decide (inBounds (sizeOf b) r c)) as [Hin|Hout]; [|by left].
      right. destruct (cellAt_wf b r c Hwf Hin) as [[q|] Hcell]; [by exists q|].
      assert (isValidMove b r c = true) by by apply isValidMove_true.
      congruence.
  - intros [Hv Heq]%makeMove_Value.
    pose proof (cellAt_setCell b r c mark r c Hv) as Hset.
    rewrite decide_True, <- Heq in Hset by done.
    apply isValidMove_true in Hv as [_ Hcell]. congruence.
  - intros Hv. exists (setCell b r c mark). split; [by apply makeMove_Value|].
    split; [|split; [|split]].
    + rewrite cellAt_setCell by done. by rewrite decide_True.
    + intros r' c' Hne. rewrite cellAt_setCell by done.
      rewrite decide_False; [done|]. intros [-> ->]. done.
    + apply sizeOf_setCell.
    + by apply wf_setCell.
Qed.

Lemma makeMove_illegal_iff_witness :
  let b := [[Some X; None; None]; [None; Some O; None]; [None; None; None]] in
  wf_board b
  /\ makeMove b 1 1 X = Thrown (InvalidMove 1 1)
  /\ makeMove b 0 3 X = Thrown (InvalidMove 0 3)
  /\ makeMove b 2 2 X <> Value b.
Proof.
  intros b.
  assert (Hwf : wf_board b) by (repeat constructor).
  split; [done|]. split; [|split].
  - destruct (makeMove_illegal_iff b 1 1 X Hwf) as [H _]. by apply H.
  - destruct (makeMove_illegal_iff b 0 3 X Hwf) as [H _]. by apply H.
  - by destruct (makeMove_illegal_iff b 2 2 X Hwf) as (_ & _ & H & _).
Defined.

(** * Evaluation *)

Section Evaluate.

Implicit Types (b : Board) (p : Player) (m : Move).

Lemma Player_eqb_eq p q : Player_eqb p q = true <-> p = q.
Proof. destruct p, q; simpl; split; congruence. Qed.

Lemma evaluateBoard_cases b p :
  (winner (checkWinner b) = Some p /\ evaluateBoard b p = 10)
  \/ (winner (checkWinner b) = Some (getOpponent p)
      /\ evaluateBoard b p = -10)
  \/ (winner (checkWinner b) = None /\ evaluateBoard b p = 0).
Proof.
  unfold evaluateBoard. destruct (winner (checkWinner b)) as [w|].
  - destruct w, p; simpl; auto.
  - auto.
Qed.

Lemma getOpponent_ne p : getOpponent p <> p.
Proof. by destruct p. Qed.

Lemma evaluateBoard_pos b p :
  (0 <? evaluateBoard b p) = true <-> winner (checkWinner b) = Some p.
Proof.
  rewrite Z.ltb_lt. pose proof (getOpponent_ne p).
  destruct (evaluateBoard_cases b p) as [[Hw He]|[[Hw He]|[Hw He]]];
    rewrite Hw, He; split; intros; try lia; congruence.
Qed.

Lemma evaluateBoard_neg b p :
  (evaluateBoard b p <? 0) = true
  <-> winner (checkWinner b) = Some (getOpponent p).
Proof.
  rewrite Z.ltb_lt. pose proof (getOpponent_ne p).
  destruct (evaluateBoard_cases b p) as [[Hw He]|[[Hw He]|[Hw He]]];
    rewrite Hw, He; split; intros; try lia; congruence.
Qed.

Lemma isGameOver_winner b p :
  winner (checkWinner b) = Some p -> isGameOver b = true.
Proof. unfold isGameOver. by intros ->. Qed.

Lemma win_test b p :
  isGameOver b && (0 <? evaluateBoard b p) = true
  <-> winner (checkWinner b) = Some p.
Proof.
  rewrite andb_true_iff, evaluateBoard_pos. split; [tauto|].
  intros Hw. split; [by eapply isGameOver_winner | done].
Qed.

Lemma loss_test b p :
  isGameOver b && (evaluateBoard b p <? 0) = true
  <-> winner (checkWinner b) = Some (getOpponent p).
Proof.
  rewrite andb_true_iff, evaluateBoard_neg. split; [tauto|].
  intros Hw. split; [by eapply isGameOver_winner | done].
Qed.

Lemma wins_available b p m :
  m ∈ getAvailableMoves b ->
  wins b p m
  <-> winner (checkWinner (setCell b (row m) (col m) p)) = Some p.
Proof.
  intros Hm. unfold wins. rewrite (makeMove_available b m p Hm). split.
  - intros (b' & [= <-] & Hw). done.
  - intros Hw. eauto.
Qed.

End Evaluate.

(** * Counting the available moves *)

Section Counting.

Lemma bind_length_le {A B : Type} (f : A -> list B) (k : nat) (l : list A) :
  (forall x, x ∈ l -> (length (f x) <= k)%nat) ->
  (length (l ≫= f) <= k * length l)%nat
  /\ (length (l ≫= f) = (k * length l)%nat ->
      forall x, x ∈ l -> length (f x) = k).
Proof.
  induction l as [|a l IH]; intros Hle.
  - split; [simpl; lia|]. intros _ x Hx. by apply elem_of_nil in Hx.
  - rewrite bind_cons, length_app. simpl.
    pose proof (Hle a (list_elem_of_here _ _)) as Ha.
    destruct IH as [IH1 IH2].
    { intros x Hx. apply Hle. by right. }
    split; [lia|]. intros Heq x [->|Hx]%elem_of_cons.
    + lia.
    + apply IH2; [lia|done].
Qed.

Lemma bind_length_eq {A B : Type} (f : A -> list B) (k : nat) (l : list A) :
  (forall x, x ∈ l -> length (f x) = k) ->
  length (l ≫= f) = (k * length l)%nat.
Proof.
  induction l as [|a l IH]; intros Heq; [simpl; lia|].
  rewrite bind_cons, length_app. simpl.
  rewrite (Heq a) by left. rewrite IH; [lia|].
  intros x Hx. apply Heq. by right.
Qed.

Let cellMoves (b : Board) (r c : Z) : list Move :=
  if isNull (cellAt b r c) then [mkMove r c] else [].

Let rowMoves (b : Board) (r : Z) : list Move :=
  seqZ 0 (sizeOf b) ≫= cellMoves b r.

Lemma cellMoves_le b r c : (length (cellMoves b r c) <= 1)%nat.
Proof. unfold cellMoves. destruct (isNull _); simpl; lia. Qed.

Lemma cellMoves_one b r c :
  length (cellMoves b r c) = 1%nat <-> cellAt b r c = Some None.
Proof.
  unfold cellMoves. destruct (cellAt b r c) as [[q|]|]; simpl; split;
    (done || lia).
Qed.

Lemma rowMoves_le b r : (length (rowMoves b r) <= 1 * Z.to_nat (sizeOf b))%nat.
Proof.
  unfold rowMoves.
  destruct (bind_length_le (cellMoves b r) 1 (seqZ 0 (sizeOf b))) as [H _].
  { intros c _. apply cellMoves_le. }
  by rewrite length_seqZ in H.
Qed.

Lemma getAvailableMoves_rows b :
  getAvailableMoves b = seqZ 0 (sizeOf b) ≫= rowMoves b.
Proof. reflexivity. Qed.

(** The board is empty exactly when every one of its [N * N] cells is an
    available move: the test of the opening tier of [getOptimizedMove]. *)
Lemma isEmptyBoard_count b :
  isEmptyBoard b
  <-> Z.of_nat (length (getAvailableMoves b)) = sizeOf b * sizeOf b.
Proof.
  rewrite getAvailableMoves_rows. split.
  - intros Hempty.
    rewrite (bind_length_eq _ (Z.to_nat (sizeOf b))).
    { rewrite length_seqZ. unfold sizeOf. lia. }
    intros r Hr%elem_of_seqZ. unfold rowMoves.
    rewrite (bind_length_eq _ 1%nat).
    { rewrite length_seqZ. lia. }
    intros c Hc%elem_of_seqZ. apply cellMoves_one, Hempty.
    unfold inBounds. lia.
  - intros Hlen r c [Hr Hc].
    destruct (bind_length_le (rowMoves b) (Z.to_nat (sizeOf b))
                (seqZ 0 (sizeOf b))) as [_ Hrows].
    { intros r' _. pose proof (rowMoves_le b r'). lia. }
    rewrite length_seqZ in Hrows.
    specialize (Hrows ltac:(unfold sizeOf in *; lia) r
                  ltac:(apply elem_of_seqZ; lia)).
    destruct (bind_length_le (cellMoves b r) 1 (seqZ 0 (sizeOf b)))
      as [_ Hcells].
    { intros c' _. apply cellMoves_le. }
    rewrite length_seqZ in Hcells. apply cellMoves_one.
    apply Hcells; [|apply elem_of_seqZ; lia].
    unfold rowMoves in Hrows. lia.
Qed.

End Counting.

(** * The heuristic fallback *)

Section Heuristic.

Implicit Types (b : Board) (p ai : Player) (m : Move).

Lemma winningLoop_cases b ai (moves : list Move) :
  (forall m, m ∈ moves -> m ∈ getAvailableMoves b) ->
  (winningLoop b ai moves = Value None
   /\ forall m, m ∈ moves -> ~ wins b ai m)
  \/ (exists m, winningLoop b ai moves = Value (Some m)
                /\ m ∈ moves /\ wins b ai m).
Proof.
  induction moves as [|mv rest IH]; intros Hav; simpl.
  - left. split; [done|]. intros m Hm. by apply elem_of_nil in Hm.
  - pose proof (Hav mv (list_elem_of_here _ _)) as Hmv.
    rewrite (makeMove_available b mv ai Hmv). simpl.
    destruct (isGameOver _ && _) eqn:Htest.
    + right. exists mv. split; [done|]. split; [left|].
      apply wins_available; [done|]. by apply win_test.
    + destruct IH as [[Hres Hnone]|(m & Hres & Hin & Hw)].
      { intros m Hm. apply Hav. by right. }
      * left. split; [done|]. intros m [->|Hm]%elem_of_cons; [|by apply Hnone].
        intros Hw%wins_available; [|done]. apply win_test in Hw. congruence.
      * right. exists m. split; [done|]. split; [by right|done].
Qed.

Lemma blockingLoop_cases b ai (moves : list Move) :
  (forall m, m ∈ moves -> m ∈ getAvailableMoves b) ->
  (blockingLoop b ai moves = Value None
   /\ forall m, m ∈ moves -> ~ wins b (getOpponent ai) m)
  \/ (exists m, blockingLoop b ai moves = Value (Some m)
                /\ m ∈ moves /\ wins b (getOpponent ai) m).
Proof.
  induction moves as [|mv rest IH]; intros Hav; simpl.
  - left. split; [done|]. intros m Hm. by apply elem_of_nil in Hm.
  - pose proof (Hav mv (list_elem_of_here _ _)) as Hmv.
    rewrite (makeMove_available b mv (getOpponent ai) Hmv). simpl.
    destruct (isGameOver _ && _) eqn:Htest.
    + right. exists mv. split; [done|]. split; [left|].
      apply wins_available; [done|]. by apply loss_test.
    + destruct IH as [[Hres Hnone]|(m & Hres & Hin & Hw)].
      { intros m Hm. apply Hav. by right. }
      * left. split; [done|]. intros m [->|Hm]%elem_of_cons; [|by apply Hnone].
        intros Hw%wins_available; [|done]. apply loss_test in Hw. congruence.
      * right. exists m. split; [done|]. split; [by right|done].
Qed.

Lemma countWinning_total b ai (moves : list Move) (acc : Z) :
  (forall m, m ∈ moves -> m ∈ getAvailableMoves b) ->
  exists z, countWinning b ai moves acc = Value z.
Proof.
  revert acc. induction moves as [|mv rest IH]; intros acc Hav; simpl.
  { eauto. }
  rewrite (makeMove_available b mv ai) by (apply Hav; left). simpl.
  apply IH. intros m Hm. apply Hav. by right.
Qed.

Lemma findStrategicMoves_total b ai (moves : list Move) :
  (forall m, m ∈ moves -> m ∈ getAvailableMoves b) ->
  exists l, findStrategicMoves b ai moves = Value l.
Proof.
  induction moves as [|mv rest IH]; intros Hav; simpl.
  { eauto. }
  rewrite (makeMove_available b mv ai) by (apply Hav; left). simpl.
  destruct (countWinning_total (setCell b (row mv) (col mv) ai) ai
              (getAvailableMoves (setCell b (row mv) (col mv) ai)) 0)
    as [z ->]; [done|]. simpl.
  destruct IH as [l ->]; [intros m Hm; apply Hav; by right|]. simpl. eauto.
Qed.

(** The heuristic fallback always returns: its trial moves are legal. *)
Lemma getOptimizedMove_total (random : nat -> Rand) b ai :
  exists mv, getOptimizedMove random b ai = Value mv.
Proof.
  unfold getOptimizedMove.
  destruct (bool_decide _); [eauto|]. destruct (_ =? _); [eauto|].
  destruct (winningLoop_cases b ai (getAvailableMoves b))
    as [[-> _]|(m & -> & _)]; [done| |simpl; eauto]. simpl.
  destruct (blockingLoop_cases b ai (getAvailableMoves b))
    as [[-> _]|(m & -> & _)]; [done| |simpl; eauto]. simpl.
  destruct (findStrategicMoves_total b ai (getAvailableMoves b))
    as [l ->]; [done|]. simpl.
  destruct (0 <? _); [eauto|]. destruct (isValidMove _ _ _); [eauto|].
  destruct (0 <? _); eauto.
Qed.

End Heuristic.

(** C8.  On every board with a move left, for every mover and whatever
    the random draws are: if the board is empty the heuristic fallback
    returns the center cell, the cell in row and column [N div 2] of a
    board of size [N]; otherwise, if some available move wins at once
    for the mover, it returns an available move that wins at once for
    the mover; otherwise, if some available move would win at once for
    the opponent, it returns such a move. *)
Theorem getOptimizedMove_top_tiers (random : nat -> Rand) (b : Board)
    (ai : Player) :
  getAvailableMoves b <> [] ->
  (isEmptyBoard b ->
     getOptimizedMove random b ai
     = Value (Some (mkMove (sizeOf b `div` 2) (sizeOf b `div` 2))))
  /\ (~ isEmptyBoard b ->
      (exists m, m ∈ getAvailableMoves b /\ wins b ai m) ->
      exists m, getOptimizedMove random b ai = Value (Some m)
                /\ m ∈ getAvailableMoves b /\ wins b ai m)
  /\ (~ isEmptyBoard b ->
      (forall m, m ∈ getAvailableMoves b -> ~ wins b ai m) ->
      (exists m, m ∈ getAvailableMoves b /\ wins b (getOpponent ai) m) ->
      exists m, getOptimizedMove random b ai = Value (Some m)
                /\ m ∈ getAvailableMoves b
                /\ wins b (getOpponent ai) m).
Proof.
  intros Hmoves. unfold getOptimizedMove.
  rewrite bool_decide_false
    by (intros Hlen; by apply nil_length_inv in Hlen).
  split; [|split].
  - intros Hempty%isEmptyBoard_count. by rewrite (proj2 (Z.eqb_eq _ _) Hempty).
  - intros Hne (m0 & Hm0 & Hw0).
    rewrite (proj2 (Z.eqb_neq _ _)) by (by rewrite <- isEmptyBoard_count).
    destruct (winningLoop_cases b ai (getAvailableMoves b))
      as [[Hres Hnone]|(m & Hres & Hin & Hw)]; [done|..].
    + by destruct (Hnone m0).
    + rewrite Hres. simpl. by exists m.
  - intros Hne Hnowin (m0 & Hm0 & Hw0).
    rewrite (proj2 (Z.eqb_neq _ _)) by (by rewrite <- isEmptyBoard_count).
    destruct (winningLoop_cases b ai (getAvailableMoves b))
      as [[Hres Hnone]|(m & Hres & Hin & Hw)]; [done|..].
    2:{ by destruct (Hnowin m). }
    rewrite Hres. simpl.
    destruct (blockingLoop_cases b ai (getAvailableMoves b))
      as [[Hres' Hnone']|(m & Hres' & Hin & Hw)]; [done|..].
    + by destruct (Hnone' m0).
    + rewrite Hres'. simpl. by exists m.
Qed.

(** The three tiers on 4 x 4 boards: the empty board gives the cell
    (2,2); on the second board X wins at once at (0,3) and a
    winning move is returned although O threatens at (1,3); on the third
    board X cannot win at once and the threat of O is blocked. *)
Lemma getOptimizedMove_top_tiers_witness :
  let rnd := fun _ : nat => mkRand 0 1 in
  let b1 := createEmptyBoard 4 in
  let b2 := [[Some X; Some X; Some X; None]; [Some O; Some O; Some O; None];
             [None; None; None; None]; [None; None; None; None]] in
  let b3 := [[Some X; Some X; None; None]; [Some O; Some O; Some O; None];
             [None; None; None; None]; [None; None; Some X; None]] in
  getAvailableMoves b1 <> []
  /\ getAvailableMoves b2 <> []
  /\ getAvailableMoves b3 <> []
  /\ getOptimizedMove rnd b1 X = Value (Some (mkMove 2 2))
  /\ (exists m, getOptimizedMove rnd b2 X = Value (Some m)
                /\ m ∈ getAvailableMoves b2 /\ wins b2 X m)
  /\ (exists m, getOptimizedMove rnd b3 X = Value (Some m)
                /\ m ∈ getAvailableMoves b3 /\ wins b3 O m).
Proof.
  intros rnd b1 b2 b3.
  assert (Hne1 : getAvailableMoves b1 <> []) by by vm_compute.
  assert (Hne2 : getAvailableMoves b2 <> []) by by vm_compute.
  assert (Hne3 : getAvailableMoves b3 <> []) by by vm_compute.
  split; [done|]. split; [done|]. split; [done|]. split; [|split].
  - destruct (getOptimizedMove_top_tiers rnd b1 X Hne1) as (Hopen & _ & _).
    apply Hopen. apply isEmptyBoard_count. by vm_compute.
  - destruct (getOptimizedMove_top_tiers rnd b2 X Hne2) as (_ & Hwin & _).
    apply Hwin.
    + intros Hempty. specialize (Hempty 0 0 ltac:(by vm_compute)). done.
    + exists (mkMove 0 3). split; [|apply wins_available]; vm_compute.
      * repeat (first [apply list_elem_of_here | apply list_elem_of_further]).
      * repeat (first [apply list_elem_of_here | apply list_elem_of_further]).
      * done.
  - destruct (getOptimizedMove_top_tiers rnd b3 X Hne3) as (_ & _ & Hblock).
    apply Hblock.
    + intros Hempty. specialize (Hempty 0 0 ltac:(by vm_compute)). done.
    + intros m Hm Hw. apply wins_available in Hw; [|done]. revert m Hm Hw.
      apply (proj1 (Forall_forall
        (fun m => winner (checkWinner (setCell b3 (row m) (col m) X)) = Some X
                  -> False) (getAvailableMoves b3))).
      refine (bool_decide_unpack _ _). by vm_compute.
    + exists (mkMove 1 3). split; [|apply wins_available]; vm_compute.
      * repeat (first [apply list_elem_of_here | apply list_elem_of_further]).
      * repeat (first [apply list_elem_of_here | apply list_elem_of_further]).
      * done.
Defined.

(** * The search: basic facts *)

Section SearchFacts.

Implicit Types (b : Board) (p ai : Player) (m : Move) (st : AIState)
  (rec : searchFn) (clock : Z -> bool).

Lemma bind_Value {A B : Type} (x : outcome A) (k : A -> outcome B) (y : B) :
  x ≫= k = Value y -> exists a, x = Value a /\ k a = Value y.
Proof. destruct x as [a| |]; simpl; [eauto|done..]. Qed.

(** Once set, the abort flag makes both loops return at once. *)
Lemma maxLoop_flag rec b d ai beta maxD moves alpha maxEval best st :
  timeoutReached st = true ->
  maxLoop rec b d ai beta maxD moves alpha maxEval best st
  = Value (maxEval, best, st).
Proof. intros Hflag. destruct moves; simpl; [done|]. by rewrite Hflag. Qed.

Lemma minLoop_flag rec b d ai alpha maxD moves beta minEval best st :
  timeoutReached st = true ->
  minLoop rec b d ai alpha maxD moves beta minEval best st
  = Value (minEval, best, st).
Proof. intros Hflag. destruct moves; simpl; [done|]. by rewrite Hflag. Qed.

Lemma maxLoop_agree f g b d ai beta maxD moves alpha maxEval best st res st' :
  agree f g ->
  maxLoop f b d ai beta maxD moves alpha maxEval best st = Value (res, st') ->
  timeoutReached st' = false ->
  maxLoop g b d ai beta maxD moves alpha maxEval best st = Value (res, st').
Proof.
  intros Hfg. revert alpha maxEval best st.
  induction moves as [|mv rest IH]; intros alpha maxEval best st Hrun Hflag;
    simpl in *; [done|].
  destruct (timeoutReached st) eqn:Hst; [done|].
  destruct (makeMove b (row mv) (col mv) ai) as [nb| |]; simpl in *; [|done..].
  destruct (f nb (d + 1) false ai alpha beta maxD st) as [[ev st1]| |] eqn:Hf;
    simpl in *; [|done..].
  assert (Hst1 : timeoutReached st1 = false).
  { destruct (timeoutReached st1) eqn:E; [|done].
    destruct (Num_ltb maxEval (score ev));
      destruct (Num_leb beta _); simplify_eq; try congruence;
      rewrite maxLoop_flag in Hrun by done; simplify_eq; congruence. }
  rewrite (Hfg _ _ _ _ _ _ _ _ _ _ Hf Hst1). simpl.
  destruct (Num_ltb maxEval (score ev)); destruct (Num_leb beta _);
    try done; by apply IH.
Qed.

Lemma minLoop_agree f g b d ai alpha maxD moves beta minEval best st res st' :
  agree f g ->
  minLoop f b d ai alpha maxD moves beta minEval best st = Value (res, st') ->
  timeoutReached st' = false ->
  minLoop g b d ai alpha maxD moves beta minEval best st = Value (res, st').
Proof.
  intros Hfg. revert beta minEval best st.
  induction moves as [|mv rest IH]; intros beta minEval best st Hrun Hflag;
    simpl in *; [done|].
  destruct (timeoutReached st) eqn:Hst; [done|].
  destruct (makeMove b (row mv) (col mv) (getOpponent ai)) as [nb| |];
    simpl in *; [|done..].
  destruct (f nb (d + 1) true ai alpha beta maxD st) as [[ev st1]| |] eqn:Hf;
    simpl in *; [|done..].
  assert (Hst1 : timeoutReached st1 = false).
  { destruct (timeoutReached st1) eqn:E; [|done].
    destruct (Num_ltb (score ev) minEval);
      destruct (Num_leb _ alpha); simplify_eq; try congruence;
      rewrite minLoop_flag in Hrun by done; simplify_eq; congruence. }
  rewrite (Hfg _ _ _ _ _ _ _ _ _ _ Hf Hst1). simpl.
  destruct (Num_ltb (score ev) minEval); destruct (Num_leb _ alpha);
    try done; by apply IH.
Qed.

Lemma minimax_agree_never clock fuel :
  agree (minimax clock fuel) (minimax never fuel).
Proof.
  induction fuel as [|fuel IH]; [done|].
  intros b d isMax ai alpha beta maxD st r st' Hrun Hflag.
  simpl in *. unfold minimaxBody in *.
  destruct ((_ `mod` 100 =? 0) && clock _) eqn:Habort.
  { by simplify_eq. }
  replace ((_ `mod` 100 =? 0) && never _) with false
    by (unfold never; by rewrite andb_false_r).
  destruct (maxD <=? d); [done|].
  destruct (isGameOver b); [done|].
  destruct (bool_decide _); [done|].
  destruct isMax.
  - apply bind_Value in Hrun as ([[s mv] st1] & Hloop & Hret).
    simpl in Hret. simplify_eq.
    by rewrite (maxLoop_agree _ _ _ _ _ _ _ _ _ _ _ _ _ _ IH Hloop Hflag).
  - apply bind_Value in Hrun as ([[s mv] st1] & Hloop & Hret).
    simpl in Hret. simplify_eq.
    by rewrite (minLoop_agree _ _ _ _ _ _ _ _ _ _ _ _ _ _ IH Hloop Hflag).
Qed.

End SearchFacts.

(** * The search: order of scores and tie-break *)

Section TieBreak.

Implicit Types (b : Board) (ai : Player) (st : AIState) (rec : searchFn).

Lemma Num_ltb_trans (x y z : Num) :
  Num_ltb x y = true -> Num_ltb y z = true -> Num_ltb x z = true.
Proof.
  destruct x, y, z; simpl; try done. rewrite !Z.ltb_lt. lia.
Qed.

Lemma Num_leb_ltb_trans (x y z : Num) :
  Num_leb x y = true -> Num_ltb y z = true -> Num_ltb x z = true.
Proof.
  unfold Num_leb. rewrite negb_true_iff.
  destruct x, y, z; simpl; try done. rewrite Z.ltb_ge, !Z.ltb_lt. lia.
Qed.

Lemma Num_ltb_leb (x y : Num) : Num_ltb x y = true -> Num_leb x y = true.
Proof.
  unfold Num_leb. rewrite negb_true_iff.
  destruct x, y; simpl; try done. rewrite Z.ltb_lt, Z.ltb_ge. lia.
Qed.

Lemma Num_leb_refl (x : Num) : Num_leb x x = true.
Proof.
  unfold Num_leb. rewrite negb_true_iff.
  destruct x; simpl; try done. apply Z.ltb_irrefl.
Qed.

Lemma Num_ltb_false (x y : Num) : Num_ltb x y = false -> Num_leb y x = true.
Proof. unfold Num_leb. by intros ->. Qed.

(** The loop keeps the first move whose score is the final maximum:
    earlier siblings scored strictly less and later ones no more. *)
Lemma maxLoop_first_best rec b d ai beta maxD moves alpha maxEval best st
    s m st' :
  maxLoop rec b d ai beta maxD moves alpha maxEval best st
    = Value (s, m, st') ->
  let evs := maxLoopScores rec b d ai beta maxD moves alpha st in
  (s = maxEval /\ m = best
   /\ Forall (fun e : Move * Num => Num_leb e.2 maxEval = true) evs)
  \/ (exists pre mv post,
        evs = pre ++ (mv, s) :: post /\ m = Some mv
        /\ Num_ltb maxEval s = true
        /\ Forall (fun e : Move * Num => Num_ltb e.2 s = true) pre
        /\ Forall (fun e : Move * Num => Num_leb e.2 s = true) post).
Proof.
  revert alpha maxEval best st.
  induction moves as [|mv rest IH]; intros alpha maxEval best st Hrun;
    simpl in *.
  { simplify_eq. left. by repeat split. }
  destruct (timeoutReached st) eqn:Hst.
  { simplify_eq. left. by repeat split. }
  destruct (makeMove b (row mv) (col mv) ai) as [nb| |]; simpl in *; [|done..].
  destruct (rec nb (d + 1) false ai alpha beta maxD st) as [[ev st1]| |];
    simpl in *; [|done..].
  destruct (Num_ltb maxEval (score ev)) eqn:Hlt;
    destruct (Num_leb beta (Num_max alpha (score ev))) eqn:Hcut.
  - simplify_eq. right. exists [], mv, []. by repeat split.
  - apply IH in Hrun
      as [(-> & -> & Hall)|(pre & mv' & post & -> & -> & Hlt' & Hpre & Hpost)].
    + right. exists [], mv, (maxLoopScores rec b d ai beta maxD rest
                              (Num_max alpha (score ev)) st1).
      by repeat split.
    + right. exists ((mv, score ev) :: pre), mv', post.
      split; [done|]. split; [done|]. split; [by eapply Num_ltb_trans|].
      split; [|done]. by constructor.
  - simplify_eq. left. split; [done|]. split; [done|].
    constructor; [|done]. by apply Num_ltb_false.
  - apply Num_ltb_false in Hlt. apply IH in Hrun
      as [(-> & -> & Hall)|(pre & mv' & post & -> & -> & Hlt' & Hpre & Hpost)].
    + left. split; [done|]. split; [done|]. by constructor.
    + right. exists ((mv, score ev) :: pre), mv', post.
      split; [done|]. split; [done|]. split; [done|]. split; [|done].
      constructor; [|done]. simpl. by eapply Num_leb_ltb_trans.
Qed.

End TieBreak.

(** * The search: termination and the quiet clock *)

Section Termination.

Implicit Types (b : Board) (ai : Player) (st : AIState) (rec : searchFn)
  (clock : Z -> bool).

Lemma maxLoop_total rec b d ai beta maxD moves alpha maxEval best st :
  (forall nb a st0, exists r st1,
      rec nb (d + 1) false ai a beta maxD st0 = Value (r, st1)) ->
  (forall m, m ∈ moves -> m ∈ getAvailableMoves b) ->
  exists res, maxLoop rec b d ai beta maxD moves alpha maxEval best st
              = Value res.
Proof.
  intros Hrec. revert alpha maxEval best st.
  induction moves as [|mv rest IH]; intros alpha maxEval best st Hav; simpl.
  { eauto. }
  destruct (timeoutReached st); [eauto|].
  rewrite (makeMove_available b mv ai) by (apply Hav; left). simpl.
  destruct (Hrec (setCell b (row mv) (col mv) ai) alpha st) as (r & st1 & ->).
  simpl. destruct (Num_ltb maxEval (score r)); destruct (Num_leb beta _);
    eauto; apply IH; intros m Hm; apply Hav; by right.
Qed.

Lemma minLoop_total rec b d ai alpha maxD moves beta minEval best st :
  (forall nb bt st0, exists r st1,
      rec nb (d + 1) true ai alpha bt maxD st0 = Value (r, st1)) ->
  (forall m, m ∈ moves -> m ∈ getAvailableMoves b) ->
  exists res, minLoop rec b d ai alpha maxD moves beta minEval best st
              = Value res.
Proof.
  intros Hrec. revert beta minEval best st.
  induction moves as [|mv rest IH]; intros beta minEval best st Hav; simpl.
  { eauto. }
  destruct (timeoutReached st); [eauto|].
  rewrite (makeMove_available b mv (getOpponent ai)) by (apply Hav; left).
  simpl.
  destruct (Hrec (setCell b (row mv) (col mv) (getOpponent ai)) beta st)
    as (r & st1 & ->).
  simpl. destruct (Num_ltb (score r) minEval); destruct (Num_leb _ alpha);
    eauto; apply IH; intros m Hm; apply Hav; by right.
Qed.

(** The search returns: with more fuel than plies left below the depth
    cap it neither runs out of fuel nor throws. *)
Lemma minimax_total clock fuel b d isMax ai alpha beta maxD st :
  (Z.to_nat (maxD - d) < fuel)%nat ->
  exists r st', minimax clock fuel b d isMax ai alpha beta maxD st
                = Value (r, st').
Proof.
  revert b d isMax alpha beta st.
  induction fuel as [|fuel IH]; intros b d isMax alpha beta st Hfuel; [lia|].
  simpl. unfold minimaxBody.
  destruct (_ && clock _); [eauto|].
  destruct (Z.leb_spec maxD d) as [Hcap|Hcap]; [eauto|].
  destruct (isGameOver b); [eauto|].
  destruct (bool_decide _); [eauto|].
  destruct isMax.
  - destruct (maxLoop_total (minimax clock fuel) b d ai beta maxD
                (getAvailableMoves b) alpha NegInf None
                (mkAIState (positionsEvaluated st + 1) (timeoutReached st)))
      as [[[s mv] st1] ->]; [|done|simpl; eauto].
    intros nb a st0. apply IH. lia.
  - destruct (minLoop_total (minimax clock fuel) b d ai alpha maxD
                (getAvailableMoves b) beta PosInf None
                (mkAIState (positionsEvaluated st + 1) (timeoutReached st)))
      as [[[s mv] st1] ->]; [|done|simpl; eauto].
    intros nb bt st0. apply IH. lia.
Qed.

Lemma maxLoop_quiet rec b d ai beta maxD moves alpha maxEval best st s m st' :
  quiet rec ->
  maxLoop rec b d ai beta maxD moves alpha maxEval best st
    = Value (s, m, st') ->
  timeoutReached st = false ->
  timeoutReached st' = false
  /\ ((exists z, maxEval = Fin z) \/ (maxEval = NegInf /\ moves <> []) ->
      exists z, s = Fin z).
Proof.
  intros Hrec. revert alpha maxEval best st.
  induction moves as [|mv rest IH]; intros alpha maxEval best st Hrun Hst;
    simpl in *.
  { simplify_eq. split; [done|]. intros [?|[_ ?]]; done. }
  rewrite Hst in Hrun.
  destruct (makeMove b (row mv) (col mv) ai) as [nb| |]; simpl in *; [|done..].
  destruct (rec nb (d + 1) false ai alpha beta maxD st) as [[ev st1]| |] eqn:Hr;
    simpl in *; [|done..].
  destruct (Hrec _ _ _ _ _ _ _ _ _ _ Hr Hst) as [Hst1 [z Hz]].
  destruct (Num_ltb maxEval (score ev)) eqn:Hlt;
    destruct (Num_leb beta (Num_max alpha (score ev))).
  - simplify_eq. split; [done|]. eauto.
  - apply IH in Hrun as [Hflag Hfin]; [|done]. split; [done|].
    intros _. apply Hfin. left. eauto.
  - simplify_eq. split; [done|]. intros [?|[-> _]]; [done|].
    by rewrite Hz in Hlt.
  - apply IH in Hrun as [Hflag Hfin]; [|done]. split; [done|].
    intros [?|[-> _]]; [by apply Hfin; left|]. by rewrite Hz in Hlt.
Qed.

Lemma minLoop_quiet rec b d ai alpha maxD moves beta minEval best st s m st' :
  quiet rec ->
  minLoop rec b d ai alpha maxD moves beta minEval best st
    = Value (s, m, st') ->
  timeoutReached st = false ->
  timeoutReached st' = false
  /\ ((exists z, minEval = Fin z) \/ (minEval = PosInf /\ moves <> []) ->
      exists z, s = Fin z).
Proof.
  intros Hrec. revert beta minEval best st.
  induction moves as [|mv rest IH]; intros beta minEval best st Hrun Hst;
    simpl in *.
  { simplify_eq. split; [done|]. intros [?|[_ ?]]; done. }
  rewrite Hst in Hrun.
  destruct (makeMove b (row mv) (col mv) (getOpponent ai)) as [nb| |];
    simpl in *; [|done..].
  destruct (rec nb (d + 1) true ai alpha beta maxD st) as [[ev st1]| |] eqn:Hr;
    simpl in *; [|done..].
  destruct (Hrec _ _ _ _ _ _ _ _ _ _ Hr Hst) as [Hst1 [z Hz]].
  destruct (Num_ltb (score ev) minEval) eqn:Hlt;
    destruct (Num_leb (Num_min beta (score ev)) alpha).
  - simplify_eq. split; [done|]. eauto.
  - apply IH in Hrun as [Hflag Hfin]; [|done]. split; [done|].
    intros _. apply Hfin. left. eauto.
  - simplify_eq. split; [done|]. intros [?|[-> _]]; [done|].
    by rewrite Hz in Hlt.
  - apply IH in Hrun as [Hflag Hfin]; [|done]. split; [done|].
    intros [?|[-> _]]; [by apply Hfin; left|]. by rewrite Hz in Hlt.
Qed.

Lemma minimax_never_quiet fuel : quiet (minimax never fuel).
Proof.
  induction fuel as [|fuel IH]; [done|].
  intros b d isMax ai alpha beta maxD st r st' Hrun Hst.
  simpl in Hrun. unfold minimaxBody in Hrun.
  replace ((_ `mod` 100 =? 0) && never _) with false in Hrun
    by (unfold never; by rewrite andb_false_r).
  destruct (maxD <=? d); [simplify_eq; simpl; eauto|].
  destruct (isGameOver b); [simplify_eq; simpl; eauto|].
  destruct (bool_decide _) eqn:Hnil; [simplify_eq; simpl; eauto|].
  apply bool_decide_eq_false in Hnil.
  assert (Hne : getAvailableMoves b <> [])
    by (intros Hempty; apply Hnil; by rewrite Hempty).
  destruct isMax.
  - apply bind_Value in Hrun as ([[s mv] st1] & Hloop & Hret).
    simpl in Hret. simplify_eq.
    apply maxLoop_quiet in Hloop as [Hflag Hfin]; [|done..].
    split; [done|]. simpl. apply Hfin. by right.
  - apply bind_Value in Hrun as ([[s mv] st1] & Hloop & Hret).
    simpl in Hret. simplify_eq.
    apply minLoop_quiet in Hloop as [Hflag Hfin]; [|done..].
    split; [done|]. simpl. apply Hfin. by right.
Qed.

(** With [beta = Infinity] and a quiet, total search below, the loop
    evaluates every move it is given. *)
Lemma maxLoopScores_all rec b d ai maxD moves alpha st :
  quiet rec ->
  (forall nb a st0, exists r st1,
      rec nb (d + 1) false ai a PosInf maxD st0 = Value (r, st1)) ->
  alpha <> PosInf -> timeoutReached st = false ->
  (forall m, m ∈ moves -> m ∈ getAvailableMoves b) ->
  (maxLoopScores rec b d ai PosInf maxD moves alpha st).*1 = moves.
Proof.
  intros Hq Htot. revert alpha st.
  induction moves as [|mv rest IH]; intros alpha st Halpha Hst Hav; simpl;
    [done|].
  rewrite Hst.
  rewrite (makeMove_available b mv ai) by (apply Hav; left). simpl.
  destruct (Htot (setCell b (row mv) (col mv) ai) alpha st)
    as (r & st1 & Hr). rewrite Hr.
  destruct (Hq _ _ _ _ _ _ _ _ _ _ Hr Hst) as [Hst1 [z Hz]].
  assert (Hmax : Num_max alpha (score r) <> PosInf).
  { unfold Num_max. destruct (Num_ltb _ _); [by rewrite Hz|done]. }
  replace (Num_leb PosInf (Num_max alpha (score r))) with false.
  2:{ unfold Num_leb. by destruct (Num_max alpha (score r)). }
  simpl. f_equal. apply IH; try done. intros m Hm. apply Hav. by right.
Qed.

End Termination.

(** * The search: leaf scores *)

Section Leaves.

Implicit Types (b : Board) (ai : Player) (st : AIState) (clock : Z -> bool).

(** The branches of [minimax] that return without searching. *)
Lemma minimax_abort clock fuel b d isMax ai alpha beta maxD st :
  let n := positionsEvaluated st + 1 in
  (n `mod` 100 =? 0) && clock n = true ->
  minimax clock (S fuel) b d isMax ai alpha beta maxD st
  = Value (mkMinimaxResult (Fin 0) None n, mkAIState n true).
Proof. intros n Habort. simpl. unfold minimaxBody. fold n. by rewrite Habort. Qed.

Lemma minimax_depth_limit clock fuel b d isMax ai alpha beta maxD st :
  let n := positionsEvaluated st + 1 in
  (n `mod` 100 =? 0) && clock n = false ->
  maxD <= d ->
  minimax clock (S fuel) b d isMax ai alpha beta maxD st
  = Value (mkMinimaxResult (Fin (evaluateBoard b ai)) None n,
           mkAIState n (timeoutReached st)).
Proof.
  intros n Habort Hcap. simpl. unfold minimaxBody. fold n. rewrite Habort.
  by rewrite (proj2 (Z.leb_le _ _) Hcap).
Qed.

Lemma minimax_game_over clock fuel b d isMax ai alpha beta maxD st :
  let n := positionsEvaluated st + 1 in
  (n `mod` 100 =? 0) && clock n = false ->
  d < maxD -> isGameOver b = true ->
  minimax clock (S fuel) b d isMax ai alpha beta maxD st
  = Value (mkMinimaxResult
             (Fin (if 0 <? evaluateBoard b ai then evaluateBoard b ai - d
                   else evaluateBoard b ai + d)) None n,
           mkAIState n (timeoutReached st)).
Proof.
  intros n Habort Hcap Hover. simpl. unfold minimaxBody. fold n.
  rewrite Habort. rewrite (proj2 (Z.leb_gt _ _) Hcap). by rewrite Hover.
Qed.

Lemma minimax_no_moves clock fuel b d isMax ai alpha beta maxD st :
  let n := positionsEvaluated st + 1 in
  (n `mod` 100 =? 0) && clock n = false ->
  d < maxD -> isGameOver b = false -> getAvailableMoves b = [] ->
  minimax clock (S fuel) b d isMax ai alpha beta maxD st
  = Value (mkMinimaxResult (Fin 0) None n, mkAIState n (timeoutReached st)).
Proof.
  intros n Habort Hcap Hover Hnil. simpl. unfold minimaxBody. fold n.
  rewrite Habort. rewrite (proj2 (Z.leb_gt _ _) Hcap). rewrite Hover.
  by rewrite Hnil.
Qed.

(** On a well-formed board with no move left every cell is taken, so the
    terminal test holds. *)
Lemma no_moves_full b :
  wf_board b -> getAvailableMoves b = [] -> isBoardFull b = true.
Proof.
  intros Hwf Hnil. unfold isBoardFull.
  apply forallb_forall. intros line Hline%list_elem_of_In.
  apply forallb_forall. intros cell Hcell%list_elem_of_In.
  apply list_elem_of_lookup in Hline as [i Hi].
  apply list_elem_of_lookup in Hcell as [j Hj].
  pose proof (lookup_lt_Some _ _ _ Hi) as Hilt.
  pose proof (lookup_lt_Some _ _ _ Hj) as Hjlt.
  rewrite (proj1 (Forall_lookup _ _) Hwf _ _ Hi) in Hjlt.
  destruct cell as [q|]; [done|].
  assert (Hin : mkMove (Z.of_nat i) (Z.of_nat j) ∈ getAvailableMoves b).
  { apply elem_of_getAvailableMoves. simpl. unfold inBounds, sizeOf.
    split; [lia|]. unfold cellAt.
    replace (index b (Z.of_nat i)) with (Some line)
      by (symmetry; apply index_Some; rewrite Nat2Z.id; split; [lia|done]).
    apply index_Some. rewrite Nat2Z.id. split; [lia|done]. }
  rewrite Hnil in Hin. by apply elem_of_nil in Hin.
Qed.

Lemma no_moves_game_over b :
  wf_board b -> getAvailableMoves b = [] -> isGameOver b = true.
Proof.
  intros Hwf Hnil. unfold isGameOver.
  destruct (winner (checkWinner b)); [done|]. by apply no_moves_full.
Qed.

End Leaves.




(** C10 (as the code has it).  At a node that the time budget does not
    abort and that lies below the depth cap, a full board without winner
    scores [depth]: the adjustment [score + depth] applies to every
    non-positive terminal evaluation, the draw evaluation 0 included, so
    the score is positive at positive depth; the score-0 branch is taken
    when no move remains at a node that the terminal test does not
    classify as over, which cannot happen on a well-formed board. *)
Theorem minimax_terminal_draw_scores_depth (clock : Z -> bool) (fuel : nat)
    (b : Board) (d : Z) (isMax : bool) (ai : Player) (alpha beta : Num)
    (maxD : Z) (st : AIState) :
  let n := positionsEvaluated st + 1 in
  let st1 := mkAIState n (timeoutReached st) in
  let run := minimax clock (S fuel) b d isMax ai alpha beta maxD st in
  (n `mod` 100 =? 0) && clock n = false ->
  d < maxD ->
  (isBoardFull b = true -> winner (checkWinner b) = None ->
     run = Value (mkMinimaxResult (Fin d) None n, st1)
     /\ (0 < d -> Num_ltb (Fin 0) (Fin d) = true))
  /\ (isGameOver b = true -> evaluateBoard b ai <= 0 ->
      run = Value (mkMinimaxResult (Fin (evaluateBoard b ai + d)) None n, st1))
  /\ (isGameOver b = false -> getAvailableMoves b = [] ->
      run = Value (mkMinimaxResult (Fin 0) None n, st1))
  /\ (wf_board b -> getAvailableMoves b = [] -> isGameOver b = true).
Proof.
  intros n st1 run Habort Hcap. subst run. split; [|split; [|split]].
  - intros Hfull Hw.
    assert (Hover : isGameOver b = true)
      by (unfold isGameOver; by rewrite Hw).
    rewrite minimax_game_over by done.
    assert (He : evaluateBoard b ai = 0)
      by (unfold evaluateBoard; by rewrite Hw).
    rewrite He. simpl. split; [done|]. intros Hd. simpl. by apply Z.ltb_lt.
  - intros Hover He. rewrite minimax_game_over by done.
    by rewrite (proj2 (Z.ltb_ge _ _) He).
  - intros Hover Hnil. by apply minimax_no_moves.
  - apply no_moves_game_over.
Qed.

Lemma minimax_terminal_draw_scores_depth_witness :
  let b := [[Some X; Some O; Some X]; [Some X; Some O; Some O];
            [Some O; Some X; Some X]] in
  (1 `mod` 100 =? 0) && never 1 = false /\ 8 < 9
  /\ minimax never 1 b 8 true X NegInf PosInf 9 (mkAIState 0 false)
     = Value (mkMinimaxResult (Fin 8) None 1, mkAIState 1 false).
Proof.
  intros b. split; [reflexivity|]. split; [lia|].
  destruct (minimax_terminal_draw_scores_depth never 0 b 8 true X NegInf
              PosInf 9 (mkAIState 0 false) eq_refl ltac:(lia)) as (Hdraw & _).
  apply Hdraw; reflexivity.
Defined.

(** C10, as stated, fails at the depth cap: a drawn full board met at
    depth 9 of a search capped at 9 (every draw of a search started on the
    empty 3 x 3 board) scores 0, not 9. *)
Lemma minimax_draw_at_cap_scores_zero :
  let b := [[Some X; Some O; Some X]; [Some X; Some O; Some O];
            [Some O; Some X; Some X]] in
  isBoardFull b = true
  /\ winner (checkWinner b) = None
  /\ minimax never 1 b 9 false X NegInf PosInf 9 (mkAIState 8 false)
     = Value (mkMinimaxResult (Fin 0) None 9, mkAIState 9 false)
  /\ Fin 0 <> Fin 9.
Proof. intros b. split; [|split; [|split]]; by vm_compute. Qed.

(** * Hard mode *)

Section HardMode.

Implicit Types (b : Board) (ai : Player) (st : AIState) (rec : searchFn)
  (clock : Z -> bool) (rnd : nat -> Rand).

Lemma maxLoop_counts rec b d ai beta maxD moves alpha maxEval best st res st' :
  counts rec ->
  maxLoop rec b d ai beta maxD moves alpha maxEval best st = Value (res, st') ->
  positionsEvaluated st <= positionsEvaluated st'.
Proof.
  intros Hrec. revert alpha maxEval best st.
  induction moves as [|mv rest IH]; intros alpha maxEval best st Hrun;
    simpl in *; [simplify_eq; lia|].
  destruct (timeoutReached st); [simplify_eq; lia|].
  destruct (makeMove b (row mv) (col mv) ai) as [nb| |]; simpl in *; [|done..].
  destruct (rec nb (d + 1) false ai alpha beta maxD st) as [[ev st1]| |] eqn:Hr;
    simpl in *; [|done..].
  apply Hrec in Hr.
  destruct (Num_ltb maxEval (score ev)); destruct (Num_leb beta _);
    simplify_eq; try lia; apply IH in Hrun; lia.
Qed.

Lemma minLoop_counts rec b d ai alpha maxD moves beta minEval best st res st' :
  counts rec ->
  minLoop rec b d ai alpha maxD moves beta minEval best st = Value (res, st') ->
  positionsEvaluated st <= positionsEvaluated st'.
Proof.
  intros Hrec. revert beta minEval best st.
  induction moves as [|mv rest IH]; intros beta minEval best st Hrun;
    simpl in *; [simplify_eq; lia|].
  destruct (timeoutReached st); [simplify_eq; lia|].
  destruct (makeMove b (row mv) (col mv) (getOpponent ai)) as [nb| |];
    simpl in *; [|done..].
  destruct (rec nb (d + 1) true ai alpha beta maxD st) as [[ev st1]| |] eqn:Hr;
    simpl in *; [|done..].
  apply Hrec in Hr.
  destruct (Num_ltb (score ev) minEval); destruct (Num_leb _ alpha);
    simplify_eq; try lia; apply IH in Hrun; lia.
Qed.

Lemma minimax_counts clock fuel : counts (minimax clock fuel).
Proof.
  induction fuel as [|fuel IH]; [done|].
  intros b d isMax ai alpha beta maxD st r st' Hrun.
  simpl in Hrun. unfold minimaxBody in Hrun.
  destruct (_ && clock _); [simplify_eq; simpl; lia|].
  destruct (maxD <=? d); [simplify_eq; simpl; lia|].
  destruct (isGameOver b); [simplify_eq; simpl; lia|].
  destruct (bool_decide _); [simplify_eq; simpl; lia|].
  destruct isMax.
  - apply bind_Value in Hrun as ([[s mv] st1] & Hloop & Hret).
    simpl in Hret. simplify_eq.
    apply maxLoop_counts in Hloop; [|done]. simpl in Hloop. lia.
  - apply bind_Value in Hrun as ([[s mv] st1] & Hloop & Hret).
    simpl in Hret. simplify_eq.
    apply minLoop_counts in Hloop; [|done]. simpl in Hloop. lia.
Qed.

(** [getBestMove] in hard mode on a board of size 3 is the full-depth
    search started with fresh counters. *)
Lemma getBestMove_hard3 clock rnd b ai st :
  sizeOf b = 3 ->
  getBestMove clock rnd b ai Hard st
  = '(res, st') ←
      minimax clock (fuelFor 0 9) b 0 true ai NegInf PosInf 9
        (mkAIState 0 false);
    Value (mkBestMove (move res)
             (mkMetrics (positionsEvaluated st') (score res)), st').
Proof.
  intros Hsize. unfold getBestMove, getHardMove, maxDepthFor.
  rewrite Hsize. change (3 <? 3) with false. change (3 =? 3) with true.
  cbv iota.
  generalize (minimax clock (fuelFor 0 9) b 0 true ai NegInf PosInf 9
                (mkAIState 0 false)).
  by intros [[res st']| |].
Qed.

Lemma getBestMove_large clock rnd b ai st :
  3 < sizeOf b ->
  getBestMove clock rnd b ai Hard st
  = mv ← getOptimizedMove rnd b ai;
    Value (mkBestMove mv (mkMetrics 0 (Fin 0)), mkAIState 0 false).
Proof.
  intros Hsize. unfold getBestMove.
  rewrite (proj2 (Z.ltb_lt _ _) Hsize).
  by destruct (getOptimizedMove rnd b ai).
Qed.

(** Without an abort, the result of hard mode on a board of size 3 does
    not depend on the clock, the random source or the counters left by an
    earlier call. *)
Lemma getBestMove_hard3_never clock rnd b ai st r st' rnd' st0 :
  sizeOf b = 3 ->
  getBestMove clock rnd b ai Hard st = Value (r, st') ->
  timeoutReached st' = false ->
  getBestMove never rnd' b ai Hard st0 = Value (r, st').
Proof.
  intros Hsize Hrun Hflag. rewrite getBestMove_hard3 in Hrun |- * by done.
  apply bind_Value in Hrun as ([res st1] & Hsearch & Hret).
  simpl in Hret. simplify_eq.
  by rewrite (minimax_agree_never clock _ _ _ _ _ _ _ _ _ _ _ Hsearch Hflag).
Qed.

(** The full-depth search of the empty 3 x 3 board, without abort. *)
Lemma search_empty3 :
  minimax never (fuelFor 0 9) (createEmptyBoard 3) 0 true X NegInf PosInf 9
    (mkAIState 0 false)
  = Value (mkMinimaxResult (Fin 0) (Some (mkMove 0 0)) 21865,
           mkAIState 21865 false).
Proof. by vm_compute. Qed.

End HardMode.

(** C1 (as the code has it).  [getHardMove] implements the size policy
    (size 3: cap 9; size 4: cap 2 when more than 8 moves remain, else 3;
    size 5: cap 2; any other size: the heuristic fallback), but the
    hard-mode entry [getBestMove] reaches it only for boards of size at
    most 3: on a board of size 3 it runs the search capped at 9, which
    returns and visits at least one node; on every larger board, sizes 4
    and 5 included, it returns the move of the heuristic fallback with
    score 0 and no node visited. *)
Theorem getBestMove_hard_size_policy (clock : Z -> bool) (rnd : nat -> Rand)
    (b : Board) (ai : Player) (st : AIState) :
  (sizeOf b = 3 ->
     maxDepthFor b = Some 9
     /\ exists res st',
          minimax clock (fuelFor 0 9) b 0 true ai NegInf PosInf 9
            (mkAIState 0 false) = Value (res, st')
          /\ getBestMove clock rnd b ai Hard st
             = Value (mkBestMove (move res)
                        (mkMetrics (positionsEvaluated st') (score res)), st')
          /\ 1 <= positionsEvaluated st')
  /\ (3 < sizeOf b ->
      exists mv,
        getOptimizedMove rnd b ai = Value mv
        /\ getBestMove clock rnd b ai Hard st
           = Value (mkBestMove mv (mkMetrics 0 (Fin 0)), mkAIState 0 false))
  /\ (sizeOf b = 4 ->
      maxDepthFor b
      = Some (if 8 <? Z.of_nat (length (getAvailableMoves b)) then 2 else 3))
  /\ (sizeOf b = 5 -> maxDepthFor b = Some 2)
  /\ (6 <= sizeOf b -> maxDepthFor b = None)
  /\ (forall maxDepth, maxDepthFor b = Some maxDepth ->
      getHardMove clock rnd b ai st
      = '(result, st') ←
          minimax clock (fuelFor 0 maxDepth) b 0 true ai NegInf PosInf
            maxDepth st;
        Value (move result, score result, st'))
  /\ (maxDepthFor b = None ->
      getHardMove clock rnd b ai st
      = mv ← getOptimizedMove rnd b ai; Value (mv, Fin 0, st)).
Proof.
  split; [|split; [|split; [|split; [|split; [|split]]]]].
  - intros Hsize. split; [unfold maxDepthFor; by rewrite Hsize|].
    destruct (minimax_total clock (fuelFor 0 9) b 0 true ai NegInf PosInf 9
                (mkAIState 0 false)) as (res & st' & Hrun).
    { unfold fuelFor. lia. }
    exists res, st'. split; [done|]. split.
    + rewrite getBestMove_hard3 by done. by rewrite Hrun.
    + apply minimax_counts in Hrun. simpl in Hrun. lia.
  - intros Hsize. destruct (getOptimizedMove_total rnd b ai) as [mv Hmv].
    exists mv. split; [done|]. rewrite getBestMove_large by done.
    by rewrite Hmv.
  - intros Hsize. unfold maxDepthFor. by rewrite Hsize.
  - intros Hsize. unfold maxDepthFor. by rewrite Hsize.
  - intros Hsize. unfold maxDepthFor.
    by rewrite !(proj2 (Z.eqb_neq _ _)) by lia.
  - intros maxDepth Hcap. unfold getHardMove. by rewrite Hcap.
  - intros Hcap. unfold getHardMove. by rewrite Hcap.
Qed.

(** C1, as stated, fails for sizes 4 and 5: on the empty 4 x 4 board hard
    mode returns the center through the heuristic fallback without
    visiting a node, while the search capped at 2 that [getHardMove] would
    run visits 47 nodes and returns the corner. *)
Lemma getBestMove_hard_size4_skips_search :
  let b := createEmptyBoard 4 in
  let rnd := fun _ : nat => mkRand 0 1 in
  sizeOf b = 4
  /\ getBestMove never rnd b X Hard (mkAIState 0 false)
     = Value (mkBestMove (Some (mkMove 2 2)) (mkMetrics 0 (Fin 0)),
              mkAIState 0 false)
  /\ getHardMove never rnd b X (mkAIState 0 false)
     = Value (Some (mkMove 0 0), Fin 0, mkAIState 47 false).
Proof. intros b rnd. split; [|split]; by vm_compute. Qed.

(** C3 (as the code has it).  On the empty 3 x 3 board a hard-mode call
    with mover X always returns; when the time budget does not abort it,
    the move returned is the corner cell (0,0), the first cell in
    enumeration order, with reported score 0, after 21865 positions. *)
Theorem getBestMove_empty3_corner (clock : Z -> bool) (rnd : nat -> Rand)
    (st : AIState) :
  (exists r st',
     getBestMove clock rnd (createEmptyBoard 3) X Hard st = Value (r, st')
     /\ (timeoutReached st' = false ->
         bestMove r = Some (mkMove 0 0)
         /\ lastMoveScore (metrics r) = Fin 0
         /\ metricPositionsEvaluated (metrics r) = 21865))
  /\ getBestMove never rnd (createEmptyBoard 3) X Hard st
     = Value (mkBestMove (Some (mkMove 0 0)) (mkMetrics 21865 (Fin 0)),
              mkAIState 21865 false).
Proof.
  assert (Hnever : forall rnd' st0,
             getBestMove never rnd' (createEmptyBoard 3) X Hard st0
             = Value (mkBestMove (Some (mkMove 0 0)) (mkMetrics 21865 (Fin 0)),
                      mkAIState 21865 false)).
  { intros rnd' st0. rewrite getBestMove_hard3 by done.
    by rewrite search_empty3. }
  split; [|apply Hnever].
  destruct (minimax_total clock (fuelFor 0 9) (createEmptyBoard 3) 0 true X
              NegInf PosInf 9 (mkAIState 0 false)) as (res & st' & Hrun).
  { unfold fuelFor. lia. }
  eexists _, st'. split.
  { rewrite getBestMove_hard3 by done. rewrite Hrun. reflexivity. }
  intros Hflag.
  pose proof (minimax_agree_never clock _ _ _ _ _ _ _ _ _ _ _ Hrun Hflag)
    as Hagree.
  rewrite search_empty3 in Hagree. clear Hrun.
  injection Hagree as <- <-. by repeat split.
Qed.

(** C3, as stated, fails: the move returned on the empty 3 x 3 board is
    (0,0), not the center (1,1). *)
Lemma getBestMove_empty3_not_center :
  getBestMove never (fun _ => mkRand 0 1) (createEmptyBoard 3) X Hard
    (mkAIState 0 false)
  = Value (mkBestMove (Some (mkMove 0 0)) (mkMetrics 21865 (Fin 0)),
           mkAIState 21865 false)
  /\ Some (mkMove 0 0) <> Some (mkMove 1 1).
Proof.
  split; [|done]. rewrite getBestMove_hard3 by done. by rewrite search_empty3.
Qed.

(** On a board of size 3 hard mode always returns, and two calls that
    are not aborted return the same result; the root of the search
    evaluates every available move in order and the move returned is the
    first whose score is the reported score. *)
Lemma getBestMove_hard3_same (b : Board) (ai : Player) :
  sizeOf b = 3 ->
  (forall clock rnd st,
     exists r s, getBestMove clock rnd b ai Hard st = Value (r, s))
  /\ (forall clock1 clock2 rnd1 rnd2 st1 st2 r1 r2 s1 s2,
        getBestMove clock1 rnd1 b ai Hard st1 = Value (r1, s1) ->
        getBestMove clock2 rnd2 b ai Hard st2 = Value (r2, s2) ->
        timeoutReached s1 = false ->
        timeoutReached s2 = false ->
        r1 = r2
        /\ (isGameOver b = false -> getAvailableMoves b <> [] ->
            (rootScores b ai).*1 = getAvailableMoves b
            /\ exists pre mv post,
                 rootScores b ai
                 = pre ++ (mv, lastMoveScore (metrics r1)) :: post
                 /\ bestMove r1 = Some mv
                 /\ Forall (fun e : Move * Num =>
                              Num_ltb e.2 (lastMoveScore (metrics r1)) = true)
                           pre
                 /\ Forall (fun e : Move * Num =>
                              Num_leb e.2 (lastMoveScore (metrics r1)) = true)
                           post)).
Proof.
  intros Hsize. split.
  { intros clock rnd st. rewrite getBestMove_hard3 by done.
    destruct (minimax_total clock (fuelFor 0 9) b 0 true ai NegInf PosInf 9
                (mkAIState 0 false)) as (res & st' & ->).
    { unfold fuelFor. lia. }
    simpl. eauto. }
  intros clock1 clock2 rnd1 rnd2 st1 st2 r1 r2 s1 s2 Hrun1 Hrun2 Hflag1 Hflag2.
  apply (getBestMove_hard3_never _ _ _ _ _ _ _ rnd1 st1) in Hrun1; [|done..].
  apply (getBestMove_hard3_never _ _ _ _ _ _ _ rnd1 st1) in Hrun2; [|done..].
  split; [congruence|]. intros Hover Hmoves. split.
  - unfold rootScores. apply maxLoopScores_all; try done.
    + apply minimax_never_quiet.
    + intros nb a st0. apply minimax_total. lia.
  - rewrite getBestMove_hard3 in Hrun1 by done.
    apply bind_Value in Hrun1 as ([res st'] & Hsearch & Hret).
    simpl in Hret. simplify_eq. simpl.
    change (fuelFor 0 9) with (S 9) in Hsearch.
    change (minimax never (S 9)) with (minimaxBody never (minimax never 9))
      in Hsearch.
    unfold minimaxBody in Hsearch. rewrite Hover in Hsearch.
    change (positionsEvaluated (mkAIState 0 false) + 1) with 1 in Hsearch.
    change ((1 `mod` 100 =? 0) && never 1) with false in Hsearch.
    change (9 <=? 0) with false in Hsearch. cbv iota in Hsearch.
    rewrite bool_decide_false in Hsearch
      by (intros Hlen; by apply nil_length_inv in Hlen).
    apply bind_Value in Hsearch as ([[s m] st1'] & Hloop & Hret).
    simpl in Hret. simplify_eq. simpl.
    pose proof (maxLoop_quiet _ _ _ _ _ _ _ _ _ _ _ _ _ _
                  (minimax_never_quiet 9) Hloop eq_refl) as [_ Hfin].
    destruct Hfin as [z ->]; [by right|].
    apply maxLoop_first_best in Hloop
      as [(? & _)|(pre & mv & post & Hevs & -> & _ & Hpre & Hpost)]; [done|].
    exists pre, mv, post. by repeat split.
Qed.

(** C9, as stated, fails on the larger boards: on a 4 x 4 board whose
    center is taken, hard mode picks a corner with [Math.random], so two
    calls on the same board return different moves for different draws,
    and no time-budget abort is involved. *)
Lemma getBestMove_hard4_depends_on_random :
  let b := [[None; None; None; None]; [None; None; None; None];
            [None; None; Some X; None]; [None; None; None; None]] in
  getBestMove never (fun _ => mkRand 0 1) b O Hard (mkAIState 0 false)
  = Value (mkBestMove (Some (mkMove 0 0)) (mkMetrics 0 (Fin 0)),
           mkAIState 0 false)
  /\ getBestMove never (fun _ => mkRand 1 2) b O Hard (mkAIState 0 false)
     = Value (mkBestMove (Some (mkMove 3 0)) (mkMetrics 0 (Fin 0)),
              mkAIState 0 false)
  /\ Some (mkMove 0 0) <> Some (mkMove 3 0).
Proof. intros b. split; [|split]; by vm_compute. Qed.

(** * Games against hard mode on the 3 x 3 board *)

Section Games.

Implicit Types (b : Board) (ai : Player) (turn : bool).

(** No position is won by the opponent, and the game goes on while it is
    not over. *)
Let good (ai : Player) (s : Board * bool) : Prop :=
  winner (checkWinner s.1) <> Some (getOpponent ai)
  /\ (isGameOver s.1 = false -> exists s', step ai s s').

Lemma safeFrom_sound fuel ai b turn :
  safeFrom fuel ai b turn = true ->
  forall s, rtc (step ai) (b, turn) s -> good ai s.
Proof.
  revert b turn. induction fuel as [|fuel IH]; intros b turn Hsafe; [done|].
  simpl in Hsafe. apply andb_true_iff in Hsafe as [Hsize Hsafe].
  apply Z.eqb_eq in Hsize.
  intros s Hreach. apply rtc_inv in Hreach as [<-|(s1 & Hstep & Hrest)].
  - (* the position itself *)
    unfold good. simpl.
    destruct (winner (checkWinner b)) as [w|] eqn:Hw.
    { apply Player_eqb_eq in Hsafe as ->. split.
      - intros [= Heq]. by destruct (getOpponent_ne ai).
      - unfold isGameOver. by rewrite Hw. }
    split; [done|]. intros Hover.
    assert (Hfull : isBoardFull b = false)
      by (unfold isGameOver in Hover; by rewrite Hw in Hover).
    rewrite Hfull in Hsafe. simpl in Hsafe.
    destruct turn.
    + destruct (getBestMove never _ b ai Hard _) as [[r st']| |] eqn:Hrun;
        [|done..].
      apply andb_true_iff in Hsafe as [Hflag%negb_true_iff Hsafe].
      destruct (bestMove r) as [m|] eqn:Hm; [|done].
      destruct (makeMove b (row m) (col m) ai) as [b'| |] eqn:Hmv; [|done..].
      exists (b', false). by eapply step_ai.
    + destruct (getAvailableMoves b) as [|m moves] eqn:Hmoves; [done|].
      exists (setCell b (row m) (col m) (getOpponent ai), true).
      eapply step_opponent; [done|].
      apply makeMove_available. rewrite Hmoves. left.
  - (* a later position *)
    inversion Hstep as [b0 clock rnd st r st' m b' Hover Hrun Hflag Hm Hmv
                       |b0 r c b' Hover Hmv]; subst.
    + unfold isGameOver in Hover.
      destruct (winner (checkWinner b)); [done|].
      rewrite Hover in Hsafe. simpl in Hsafe.
      rewrite (getBestMove_hard3_never _ _ _ _ _ _ _ (fun _ => mkRand 0 1)
                 (mkAIState 0 false) Hsize Hrun Hflag) in Hsafe.
      rewrite Hflag, Hm, Hmv in Hsafe. simpl in Hsafe.
      by apply (IH b' false).
    + unfold isGameOver in Hover.
      destruct (winner (checkWinner b)); [done|].
      rewrite Hover in Hsafe. simpl in Hsafe.
      apply makeMove_Value in Hmv as [Hvalid ->].
      assert (Hin : mkMove r c ∈ getAvailableMoves b)
        by by apply available_valid.
      assert (Hall : forallb
                (fun m => safeFrom fuel ai
                            (setCell b (row m) (col m) (getOpponent ai)) true)
                (getAvailableMoves b) = true)
        by (destruct (getAvailableMoves b); [done|exact Hsafe]).
      rewrite forallb_forall in Hall.
      apply (IH (setCell b r c (getOpponent ai)) true); [|done].
      apply (Hall (mkMove r c)). by apply list_elem_of_In.
Qed.

Lemma safeFrom_empty3 :
  safeFrom 10 X (createEmptyBoard 3) true = true
  /\ safeFrom 10 X (createEmptyBoard 3) false = true
  /\ safeFrom 10 O (createEmptyBoard 3) true = true
  /\ safeFrom 10 O (createEmptyBoard 3) false = true.
Proof. split; [|split; [|split]]; by vm_compute. Qed.

End Games.




(** * Further properties of the rules module *)

Section MoreRules.

Implicit Types (b : Board) (r c : Z) (p : Player) (m : Move).

Lemma cellAt_createEmptyBoard_in (N r c : Z) :
  inBounds N r c -> cellAt (createEmptyBoard N) r c = Some None.
Proof.
  intros [Hr Hc]. unfold cellAt, createEmptyBoard.
  replace (index (replicate (Z.to_nat N) (replicate (Z.to_nat N) None)) r)
    with (Some (replicate (Z.to_nat N) (None : Cell))).
  - apply index_Some. split; [lia|]. apply lookup_replicate_2. lia.
  - symmetry. apply index_Some. split; [lia|]. apply lookup_replicate_2. lia.
Qed.

Lemma sizeOf_createEmptyBoard (N : Z) :
  0 <= N -> sizeOf (createEmptyBoard N) = N.
Proof.
  intros HN. unfold sizeOf, createEmptyBoard. rewrite length_replicate. lia.
Qed.

Lemma StronglySorted_seqZ (m n : Z) : StronglySorted Z.lt (seqZ m n).
Proof.
  remember (Z.to_nat n) as k eqn:Hk. revert m n Hk.
  induction k as [|k IH]; intros m n Hk.
  - rewrite seqZ_nil by lia. constructor.
  - rewrite seqZ_cons by lia. constructor.
    + apply IH. lia.
    + apply Forall_forall. intros x Hx%elem_of_seqZ. lia.
Qed.

Lemma bind_StronglySorted {A B : Type} (RA : relation A) (RB : relation B)
    (f : A -> list B) (l : list A) :
  StronglySorted RA l ->
  (forall x, x ∈ l -> StronglySorted RB (f x)) ->
  (forall x1 x2 y1 y2,
     RA x1 x2 -> x1 ∈ l -> x2 ∈ l -> y1 ∈ f x1 -> y2 ∈ f x2 -> RB y1 y2) ->
  StronglySorted RB (l ≫= f).
Proof.
  induction 1 as [|x l Hl IH Hx]; intros Hf Hcross.
  - constructor.
  - rewrite bind_cons. apply StronglySorted_app. split; [|split].
    + intros y1 y2 Hy1 (x2 & Hy2 & Hx2)%list_elem_of_bind.
      apply (Hcross x x2); try done.
      * by apply (proj1 (Forall_forall _ _) Hx).
      * left.
      * by right.
    + apply Hf. left.
    + apply IH.
      * intros x' Hx'. apply Hf. by right.
      * intros x1 x2 y1 y2 HR H1 H2. apply Hcross; [done|by right..].
Qed.

Lemma StronglySorted_NoDup {A : Type} (R : relation A) (l : list A) :
  (forall x, ~ R x x) -> StronglySorted R l -> NoDup l.
Proof.
  intros Hirr. induction 1 as [|x l Hl IH Hx]; constructor; [|done].
  intros Hin. apply (Hirr x). by apply (proj1 (Forall_forall _ _) Hx).
Qed.

Lemma StronglySorted_filter {A : Type} (R : relation A) (P : A -> Prop)
    `{!forall x, Decision (P x)} (l : list A) :
  StronglySorted R l -> StronglySorted R (filter P l).
Proof.
  induction 1 as [|x l Hl IH Hx]; [constructor|].
  rewrite filter_cons. destruct (decide (P x)); [|done].
  constructor; [done|]. apply Forall_forall.
  intros y [_ Hy]%list_elem_of_filter.
  by apply (proj1 (Forall_forall _ _) Hx).
Qed.

Lemma getAvailableMoves_sorted b : StronglySorted moveLt (getAvailableMoves b).
Proof.
  unfold getAvailableMoves.
  apply (bind_StronglySorted Z.lt); [apply StronglySorted_seqZ|..].
  - intros r _.
    apply (bind_StronglySorted Z.lt); [apply StronglySorted_seqZ|..].
    + intros c _. destruct (isNull _); repeat constructor.
    + intros c1 c2 m1 m2 Hlt _ _ H1 H2.
      destruct (isNull (cellAt b r c1)); [|by apply elem_of_nil in H1].
      destruct (isNull (cellAt b r c2)); [|by apply elem_of_nil in H2].
      apply list_elem_of_singleton in H1, H2. subst. right. simpl. lia.
  - intros r1 r2 m1 m2 Hlt _ _ (c1 & H1 & _)%list_elem_of_bind
      (c2 & H2 & _)%list_elem_of_bind.
    destruct (isNull (cellAt b r1 c1)); [|by apply elem_of_nil in H1].
    destruct (isNull (cellAt b r2 c2)); [|by apply elem_of_nil in H2].
    apply list_elem_of_singleton in H1, H2. subst. left. simpl. lia.
Qed.

Lemma moveLt_irrefl m : ~ moveLt m m.
Proof. unfold moveLt. lia. Qed.

Lemma getAvailableMoves_NoDup b : NoDup (getAvailableMoves b).
Proof.
  eapply StronglySorted_NoDup; [apply moveLt_irrefl|].
  apply getAvailableMoves_sorted.
Qed.

Lemma Move_eq m1 m2 : row m1 = row m2 -> col m1 = col m2 -> m1 = m2.
Proof. destruct m1, m2. simpl. congruence. Qed.

(** The moves left after a legal move. *)
Lemma getAvailableMoves_setCell b r c p :
  isValidMove b r c = true ->
  getAvailableMoves (setCell b r c p)
  = filter (fun m => m <> mkMove r c) (getAvailableMoves b).
Proof.
  intros Hvalid.
  apply (StronglySorted_unique_strong moveLt).
  - intros m1 m2 _ _. unfold moveLt. intros H1 H2. apply Move_eq; lia.
  - apply getAvailableMoves_sorted.
  - apply StronglySorted_filter, getAvailableMoves_sorted.
  - apply NoDup_Permutation.
    + apply getAvailableMoves_NoDup.
    + apply NoDup_filter, getAvailableMoves_NoDup.
    + intros m. rewrite list_elem_of_filter, !elem_of_getAvailableMoves.
      rewrite sizeOf_setCell, cellAt_setCell by done.
      destruct (decide (row m = r /\ col m = c)) as [[Hr Hc]|Hne].
      * split; [intros [_ ?]; done|]. intros [Hm _]. destruct Hm.
        by apply Move_eq.
      * split; [|tauto]. intros H. split; [|done].
        intros ->. simpl in Hne. tauto.
Qed.

Lemma length_filter_ne {A : Type} `{!EqDecision A} (x : A) (l : list A) :
  NoDup l -> x ∈ l ->
  length l = S (length (filter (fun y => y <> x) l)).
Proof.
  induction 1 as [|y l Hy Hl IH]; intros Hin.
  - by apply elem_of_nil in Hin.
  - rewrite filter_cons. destruct (decide (y <> x)) as [Hne|Heq].
    + simpl. f_equal. apply IH. by apply elem_of_cons in Hin as [->|Hin].
    + assert (y = x) as -> by (destruct (decide (y = x)); tauto).
      simpl. f_equal. f_equal. clear IH Hin Hl.
      induction l as [|z l IH]; [done|].
      rewrite filter_cons. rewrite decide_True.
      * f_equal. apply IH. intros Hx. apply Hy. by right.
      * intros ->. apply Hy. left.
Qed.

End MoreRules.

(** The board [createEmptyBoard] builds. *)
Lemma createEmptyBoard_props (N : Z) :
  0 <= N ->
  let b := createEmptyBoard N in
  sizeOf b = N
  /\ wf_board b
  /\ isEmptyBoard b
  /\ Z.of_nat (length (getAvailableMoves b)) = N * N
  /\ checkWinner b = mkWinnerInfo None None
  /\ (1 <= N -> isBoardFull b = false /\ isGameOver b = false).
Proof.
  intros HN b. subst b.
  assert (Hsize : sizeOf (createEmptyBoard N) = N)
    by by apply sizeOf_createEmptyBoard.
  assert (Hempty : isEmptyBoard (createEmptyBoard N)).
  { intros r c Hin. rewrite Hsize in Hin.
    by apply cellAt_createEmptyBoard_in. }
  split; [done|]. split; [|split; [done|split; [|split]]].
  - unfold wf_board, createEmptyBoard. rewrite length_replicate.
    apply Forall_replicate. by rewrite length_replicate.
  - apply isEmptyBoard_count in Hempty. by rewrite Hempty, Hsize.
  - apply checkWinner_empty.
  - intros HN1.
    assert (Hfull : isBoardFull (createEmptyBoard N) = false).
    { unfold isBoardFull, createEmptyBoard.
      destruct (Z.to_nat N) as [|k] eqn:Hk; [lia|]. done. }
    split; [done|]. unfold isGameOver. by rewrite checkWinner_empty.
Qed.

(** X1.  [createEmptyBoard N], for a size [N >= 1], is a well-formed board
    of size [N] with every cell empty: all [N * N] cells are available
    moves, nobody has won, and it is neither full nor over. *)
Theorem createEmptyBoard_fresh (N : Z) :
  1 <= N ->
  let b := createEmptyBoard N in
  sizeOf b = N
  /\ wf_board b
  /\ isEmptyBoard b
  /\ Z.of_nat (length (getAvailableMoves b)) = N * N
  /\ checkWinner b = mkWinnerInfo None None
  /\ isBoardFull b = false
  /\ isGameOver b = false.
Proof.
  intros HN b.
  destruct (createEmptyBoard_props N ltac:(lia))
    as (H1 & H2 & H3 & H4 & H5 & H6).
  destruct (H6 HN) as [H7 H8]. by repeat split.
Qed.

Lemma createEmptyBoard_fresh_witness :
  1 <= 4
  /\ Z.of_nat (length (getAvailableMoves (createEmptyBoard 4))) = 4 * 4
  /\ isGameOver (createEmptyBoard 4) = false.
Proof.
  split; [lia|].
  destruct (createEmptyBoard_fresh 4 ltac:(lia))
    as (_ & _ & _ & Hn & _ & _ & Hov).
  split; [exact Hn | exact Hov].
Defined.

(** X2.  [getAvailableMoves] lists exactly the legal moves, each once, in
    row-major order. *)
Theorem getAvailableMoves_row_major (b : Board) :
  StronglySorted moveLt (getAvailableMoves b)
  /\ NoDup (getAvailableMoves b)
  /\ forall m, m ∈ getAvailableMoves b
               <-> isValidMove b (row m) (col m) = true.
Proof.
  split; [apply getAvailableMoves_sorted|].
  split; [apply getAvailableMoves_NoDup|]. apply available_valid.
Qed.

(** X3.  After a legal move the cell is occupied for good: it is no longer
    a valid move and a second [makeMove] on it throws, for either mark;
    the legality of every other cell is unchanged, and the available
    moves are the former ones without the move played, one fewer. *)
Theorem makeMove_occupies (b : Board) (r c : Z) (p : Player) (b' : Board) :
  makeMove b r c p = Value b' ->
  isValidMove b' r c = false
  /\ (forall q, makeMove b' r c q = Thrown (InvalidMove r c))
  /\ (forall r' c', (r', c') <> (r, c) ->
        isValidMove b' r' c' = isValidMove b r' c')
  /\ getAvailableMoves b'
     = filter (fun m => m <> mkMove r c) (getAvailableMoves b)
  /\ length (getAvailableMoves b) = S (length (getAvailableMoves b')).
Proof.
  intros [Hvalid ->]%makeMove_Value.
  assert (Hocc : isValidMove (setCell b r c p) r c = false).
  { unfold isValidMove. rewrite cellAt_setCell by done.
    rewrite decide_True by done. simpl. by rewrite !andb_false_r. }
  split; [done|]. split; [|split; [|split]].
  - intros q. by apply makeMove_Thrown.
  - intros r' c' Hne. unfold isValidMove.
    rewrite sizeOf_setCell, cellAt_setCell by done.
    rewrite decide_False; [done|]. intros [-> ->]. done.
  - by apply getAvailableMoves_setCell.
  - rewrite getAvailableMoves_setCell by done.
    apply length_filter_ne; [apply getAvailableMoves_NoDup|].
    by apply available_valid.
Qed.

Lemma makeMove_occupies_witness :
  let b := [[Some X; None; None]; [None; Some O; None]; [None; None; None]] in
  let b' := [[Some X; None; None]; [None; Some O; None];
             [None; None; Some X]] in
  makeMove b 2 2 X = Value b'
  /\ makeMove b' 2 2 O = Thrown (InvalidMove 2 2)
  /\ length (getAvailableMoves b) = S (length (getAvailableMoves b')).
Proof.
  intros b b'. assert (Hmv : makeMove b 2 2 X = Value b') by reflexivity.
  split; [done|].
  destruct (makeMove_occupies b 2 2 X b' Hmv) as (_ & Hthrow & _ & _ & Hlen).
  split; [apply Hthrow | exact Hlen].
Defined.

Lemma full_no_moves (b : Board) :
  isBoardFull b = true -> getAvailableMoves b = [].
Proof.
  intros Hfull. apply elem_of_nil_inv. intros m Hm.
  apply elem_of_getAvailableMoves in Hm as [_ Hcell].
  unfold cellAt in Hcell.
  destruct (index b (row m)) as [line|] eqn:Hline; [|done].
  apply index_Some in Hline as [_ Hline]. apply index_Some in Hcell as [_ Hcell].
  unfold isBoardFull in Hfull. rewrite forallb_forall in Hfull.
  specialize (Hfull line).
  rewrite forallb_forall in Hfull.
  assert (Hnn : notNull None = true); [|done].
  apply Hfull.
  - apply list_elem_of_In. by eapply list_elem_of_lookup_2.
  - apply list_elem_of_In. by eapply list_elem_of_lookup_2.
Qed.

(** X4.  On a well-formed board with at least one row, [isBoardFull]
    holds exactly when no move is available, and [isGameOver] exactly
    when somebody has won or no move is available. *)
Theorem isBoardFull_no_moves (b : Board) :
  wf_board b ->
  1 <= sizeOf b ->
  (isBoardFull b = true <-> getAvailableMoves b = [])
  /\ (isGameOver b = true
      <-> winner (checkWinner b) <> None \/ getAvailableMoves b = []).
Proof.
  intros Hwf _.
  assert (Hfull : isBoardFull b = true <-> getAvailableMoves b = []).
  { split; [apply full_no_moves | by apply no_moves_full]. }
  split; [done|]. unfold isGameOver.
  destruct (winner (checkWinner b)) as [w|].
  - split; [by left|done].
  - rewrite Hfull. split; [by right|]. by intros [?|?].
Qed.

Lemma isBoardFull_no_moves_witness :
  let b := [[Some X; Some O; Some X]; [Some X; Some O; Some O];
            [Some O; Some X; Some X]] in
  wf_board b /\ 1 <= sizeOf b
  /\ isBoardFull b = true /\ getAvailableMoves b = []
  /\ isGameOver b = true.
Proof.
  intros b. assert (Hwf : wf_board b) by (repeat constructor).
  assert (HN : 1 <= sizeOf b) by by vm_compute.
  split; [done|]. split; [done|]. split; [reflexivity|].
  destruct (isBoardFull_no_moves b Hwf HN) as [Hfull Hover].
  split; [by apply Hfull|]. apply Hover. right. by apply Hfull.
Defined.

(** X5.  On a board with at least one row, [evaluateBoard] is
    antisymmetric in the player and takes the value 10 exactly when that
    player has won, -10 exactly when the opponent has, and 0 exactly
    when nobody has. *)
Theorem evaluateBoard_antisymmetric (b : Board) (p : Player) :
  1 <= sizeOf b ->
  evaluateBoard b (getOpponent p) = - evaluateBoard b p
  /\ (evaluateBoard b p = 10 <-> winner (checkWinner b) = Some p)
  /\ (evaluateBoard b p = -10
      <-> winner (checkWinner b) = Some (getOpponent p))
  /\ (evaluateBoard b p = 0 <-> winner (checkWinner b) = None).
Proof.
  intros _.
  pose proof (getOpponent_ne p) as Hne.
  assert (Hopp : getOpponent (getOpponent p) = p) by by destruct p.
  destruct (evaluateBoard_cases b p) as [[Hw He]|[[Hw He]|[Hw He]]];
    destruct (evaluateBoard_cases b (getOpponent p))
      as [[Hw' He']|[[Hw' He']|[Hw' He']]];
    rewrite ?Hopp in *; rewrite He, He'; rewrite Hw in *;
    simplify_eq; repeat split; intros; (lia || congruence || done).
Qed.

(** Row 0 of this board is full of X: the board is worth 10 to X and
    -10 to O. *)
Lemma evaluateBoard_antisymmetric_witness :
  let b := [[Some X; Some X; Some X]; [Some O; Some O; None];
            [None; None; None]] in
  1 <= sizeOf b
  /\ evaluateBoard b X = 10
  /\ evaluateBoard b (getOpponent X) = - evaluateBoard b X.
Proof.
  intros b. assert (HN : 1 <= sizeOf b) by by vm_compute.
  split; [done|].
  destruct (evaluateBoard_antisymmetric b X HN) as (Hanti & H10 & _).
  split; [by apply H10 | exact Hanti].
Defined.

(** * Corners, center and edges *)

Section Geometry.

Variable N : Z.

Lemma elem_of_mainDiagonal (r c : Z) :
  (r, c) ∈ ((fun i => (i, i)) <$> seqZ 0 N) <-> 0 <= r < N /\ c = r.
Proof.
  rewrite list_elem_of_fmap. split.
  - intros (i & [= -> ->] & Hi%elem_of_seqZ). lia.
  - intros [Hr ->]. exists r. split; [done|]. apply elem_of_seqZ. lia.
Qed.

Lemma elem_of_antiDiagonal (r c : Z) :
  (r, c) ∈ ((fun i => (i, N - 1 - i)) <$> seqZ 0 N)
  <-> 0 <= r < N /\ c = N - 1 - r.
Proof.
  rewrite list_elem_of_fmap. split.
  - intros (i & [= -> ->] & Hi%elem_of_seqZ). lia.
  - intros [Hr ->]. exists r. split; [done|]. apply elem_of_seqZ. lia.
Qed.

Lemma elem_of_getEdgePositions (m : Move) :
  m ∈ getEdgePositions N
  <-> (1 <= col m < N - 1 /\ (row m = 0 \/ row m = N - 1))
      \/ (1 <= row m < N - 1 /\ (col m = 0 \/ col m = N - 1)).
Proof.
  unfold getEdgePositions. rewrite elem_of_app, !list_elem_of_bind. split.
  - intros [(c & Hm & Hc%elem_of_seqZ)|(r & Hm & Hr%elem_of_seqZ)].
    + left. apply elem_of_cons in Hm as [->|Hm%list_elem_of_singleton];
        subst; simpl; lia.
    + right. apply elem_of_cons in Hm as [->|Hm%list_elem_of_singleton];
        subst; simpl; lia.
  - destruct m as [r c]. simpl. intros [[Hc [->| ->]]|[Hr [->| ->]]].
    + left. exists c. split; [left|apply elem_of_seqZ; lia].
    + left. exists c. split; [right; left|apply elem_of_seqZ; lia].
    + right. exists r. split; [left|apply elem_of_seqZ; lia].
    + right. exists r. split; [right; left|apply elem_of_seqZ; lia].
Qed.

Lemma length_bind_pair {A B : Type} (f g : A -> B) (l : list A) :
  length (l ≫= fun x => [f x; g x]) = (2 * length l)%nat.
Proof. apply bind_length_eq. done. Qed.

Lemma getEdgePositions_NoDup : NoDup (getEdgePositions N).
Proof.
  unfold getEdgePositions.
  destruct (decide (N - 1 - 1 <= 0)) as [Hsmall|Hbig].
  { rewrite seqZ_nil by done. constructor. }
  apply NoDup_app. split; [|split].
  - apply NoDup_bind; [| |apply NoDup_seqZ].
    + intros c1 c2 m _ _ H1 H2.
      apply elem_of_cons in H1 as [->|H1%list_elem_of_singleton];
        apply elem_of_cons in H2 as [H2|H2%list_elem_of_singleton];
        subst; by simplify_eq.
    + intros c _. apply NoDup_cons. split; [|apply NoDup_singleton].
      intros H%list_elem_of_singleton. simplify_eq. lia.
  - intros m (c & H1 & Hc%elem_of_seqZ)%list_elem_of_bind
      (r & H2 & Hr%elem_of_seqZ)%list_elem_of_bind.
    apply elem_of_cons in H1 as [->|H1%list_elem_of_singleton];
      apply elem_of_cons in H2 as [H2|H2%list_elem_of_singleton];
      subst; simplify_eq; lia.
  - apply NoDup_bind; [| |apply NoDup_seqZ].
    + intros r1 r2 m _ _ H1 H2.
      apply elem_of_cons in H1 as [->|H1%list_elem_of_singleton];
        apply elem_of_cons in H2 as [H2|H2%list_elem_of_singleton];
        subst; by simplify_eq.
    + intros r _. apply NoDup_cons. split; [|apply NoDup_singleton].
      intros H%list_elem_of_singleton. simplify_eq. lia.
Qed.

Lemma elem_of_getCornerPositions (m : Move) :
  m ∈ getCornerPositions N
  <-> (row m = 0 \/ row m = N - 1) /\ (col m = 0 \/ col m = N - 1).
Proof.
  unfold getCornerPositions. rewrite !elem_of_cons, elem_of_nil.
  destruct m as [r c]. simpl. split.
  - intros [H|[H|[H|[H|[]]]]]; simplify_eq; lia.
  - intros [[-> | ->] [-> | ->]]; tauto.
Qed.

End Geometry.

(** X6.  For a size [N >= 1] the four corner positions and the center
    position lie on the board; the corners are pairwise distinct once
    [N >= 2]; every corner lies on the main diagonal or on the
    anti-diagonal line; and the center lies on the main diagonal, and on
    the anti-diagonal exactly when [N] is odd. *)
Theorem corners_and_center_on_diagonals (N : Z) :
  1 <= N ->
  let center := getCenterPosition N in
  exists main anti,
    index (generateWinningCombinations N) (2 * N) = Some main
    /\ index (generateWinningCombinations N) (2 * N + 1) = Some anti
    /\ length (getCornerPositions N) = 4%nat
    /\ Forall (fun m => inBounds N (row m) (col m)) (getCornerPositions N)
    /\ (2 <= N -> NoDup (getCornerPositions N))
    /\ Forall (fun m => (row m, col m) ∈ main \/ (row m, col m) ∈ anti)
              (getCornerPositions N)
    /\ inBounds N (row center) (col center)
    /\ (row center, col center) ∈ main
    /\ ((row center, col center) ∈ anti <-> N `mod` 2 = 1).
Proof.
  intros HN center. subst center.
  destruct (lines_index_diagonals N) as [Hmain Hanti]; [lia|].
  eexists _, _. split; [exact Hmain|]. split; [exact Hanti|].
  split; [done|]. split; [|split; [|split; [|split; [|split]]]].
  - apply Forall_forall. intros m Hm%elem_of_getCornerPositions.
    unfold inBounds. lia.
  - intros HN2. unfold getCornerPositions.
    repeat (apply NoDup_cons; split;
            [rewrite ?elem_of_cons, elem_of_nil; intros H;
             repeat destruct H as [H|H]; simplify_eq; lia|]).
    constructor.
  - apply Forall_forall. intros m Hm%elem_of_getCornerPositions.
    rewrite elem_of_mainDiagonal, elem_of_antiDiagonal. lia.
  - unfold getCenterPosition, inBounds. simpl.
    pose proof (Z.div_pos N 2). pose proof (Z.div_lt_upper_bound N 2 N). lia.
  - apply elem_of_mainDiagonal. unfold getCenterPosition. simpl.
    pose proof (Z.div_pos N 2). pose proof (Z.div_lt_upper_bound N 2 N). lia.
  - rewrite elem_of_antiDiagonal. unfold getCenterPosition. simpl.
    pose proof (Z.div_mod N 2). pose proof (Z.mod_pos_bound N 2). lia.
Qed.

Lemma corners_and_center_on_diagonals_witness :
  1 <= 4
  /\ NoDup (getCornerPositions 4)
  /\ inBounds 4 (row (getCenterPosition 4)) (col (getCenterPosition 4)).
Proof.
  split; [lia|].
  destruct (corners_and_center_on_diagonals 4 ltac:(lia))
    as (main & anti & _ & _ & _ & _ & Hnd & _ & Hc & _).
  split; [apply Hnd; lia | exact Hc].
Defined.

(** X7.  [getEdgePositions N] lists, each once, the border cells that are
    not corners: [4 * (N - 2)] cells for [N >= 2] and none below; together
    with the corners they are exactly the border of the board. *)
Theorem getEdgePositions_border (N : Z) :
  (forall m, m ∈ getEdgePositions N
             <-> (1 <= col m < N - 1 /\ (row m = 0 \/ row m = N - 1))
                 \/ (1 <= row m < N - 1 /\ (col m = 0 \/ col m = N - 1)))
  /\ Z.of_nat (length (getEdgePositions N)) = 4 * Z.max 0 (N - 2)
  /\ NoDup (getEdgePositions N)
  /\ (forall m, m ∈ getEdgePositions N -> m ∉ getCornerPositions N)
  /\ (forall m, inBounds N (row m) (col m) /\ onBorder N m
                <-> (1 <= N /\ m ∈ getCornerPositions N)
                    \/ m ∈ getEdgePositions N).
Proof.
  split; [apply elem_of_getEdgePositions|]. split; [|split; [|split]].
  - unfold getEdgePositions.
    rewrite length_app, !length_bind_pair, length_seqZ. lia.
  - apply getEdgePositions_NoDup.
  - intros m. rewrite elem_of_getEdgePositions, elem_of_getCornerPositions.
    lia.
  - intros m. rewrite elem_of_getEdgePositions, elem_of_getCornerPositions.
    unfold inBounds, onBorder. lia.
Qed.

(** * The winning line *)

Lemma isWinningPosition_Some (r c : Z) (line : WinningLine) :
  isWinningPosition r c (Some line) = true <-> (r, c) ∈ line.
Proof.
  unfold isWinningPosition. rewrite existsb_exists. split.
  - intros ([r' c'] & Hin%list_elem_of_In & Heq). simpl in Heq.
    apply andb_true_iff in Heq as [->%Z.eqb_eq ->%Z.eqb_eq]. done.
  - intros Hin. exists (r, c). split; [by apply list_elem_of_In|].
    simpl. by rewrite !Z.eqb_refl.
Qed.

(** X8.  On a board with at least one row, [checkWinner] returns a
    winner and a winning line together or not at all.  When it returns
    them, the line is one of the generated lines, has as many cells as
    the board has rows, every cell of it holds the winner's mark, and
    [isWinningPosition] holds exactly for the cells of that line;
    without a winner [isWinningPosition] holds for no cell. *)
Theorem checkWinner_line_consistent (b : Board) :
  1 <= sizeOf b ->
  let w := checkWinner b in
  (winner w = None /\ winningLine w = None
   /\ forall r c, isWinningPosition r c (winningLine w) = false)
  \/ (exists p line,
        winner w = Some p /\ winningLine w = Some line
        /\ line ∈ generateWinningCombinations (sizeOf b)
        /\ Z.of_nat (length line) = sizeOf b
        /\ (forall r c, isWinningPosition r c (winningLine w) = true
                        <-> (r, c) ∈ line)
        /\ (forall r c, (r, c) ∈ line -> cellAt b r c = Some (Some p))).
Proof.
  intros _ w. subst w. unfold checkWinner.
  destruct (scanLines_cases b (generateWinningCombinations (sizeOf b)))
    as [[Hs Hnone]|(pre & l & post & p & Hl & Hc & Hpre & Hs)]; rewrite Hs.
  - left. by repeat split.
  - right. exists p, l. simpl.
    assert (Hin : l ∈ generateWinningCombinations (sizeOf b)).
    { rewrite Hl. apply elem_of_app. right. left. }
    split; [done|]. split; [done|]. split; [done|]. split; [|split].
    + pose proof (lines_each_length (sizeOf b)) as Hlen.
      rewrite (proj1 (Forall_forall _ _) Hlen l Hin). unfold sizeOf. lia.
    + intros r c. apply isWinningPosition_Some.
    + apply Hc.
Qed.

(** Row 0 of this board is full of X: the winner comes with a line of
    three cells. *)
Lemma checkWinner_line_consistent_witness :
  let b := [[Some X; Some X; Some X]; [Some O; Some O; None];
            [None; None; None]] in
  1 <= sizeOf b
  /\ exists p line,
       winner (checkWinner b) = Some p
       /\ winningLine (checkWinner b) = Some line
       /\ Z.of_nat (length line) = sizeOf b
       /\ forall r c, (r, c) ∈ line -> cellAt b r c = Some (Some p).
Proof.
  intros b. assert (HN : 1 <= sizeOf b) by by vm_compute.
  split; [done|].
  pose proof (checkWinner_line_consistent b HN) as H. cbv zeta in H.
  destruct H as [(Hw & _)|(p & line & Hw & Hl & _ & Hlen & _ & Hcells)].
  - vm_compute in Hw. discriminate Hw.
  - exists p, line. split; [exact Hw|]. split; [exact Hl|].
    split; [exact Hlen | exact Hcells].
Defined.

(** * Counting the marks of a line *)

Section Counting2.

Implicit Types (b : Board) (l : WinningLine) (p : Player).

(** The rows named by the line exist. *)
Let rowsExist b l : Prop := forall r c, (r, c) ∈ l -> 0 <= r < sizeOf b.

(** The number of cells of the line that hold the mark. *)
Let marks b l p : Z :=
  Z.of_nat (length (filter (fun rc : Z * Z =>
                              cellAt b rc.1 rc.2 = Some (Some p)) l)).

Lemma readCell_Value b r c :
  0 <= r < sizeOf b -> readCell b r c = Value (cellAt b r c).
Proof.
  intros Hr. unfold readCell, cellAt.
  destruct (index_in_range b r) as [line ->]; [by unfold sizeOf in Hr|done].
Qed.

Lemma readCell_Thrown b r c :
  ~ 0 <= r < sizeOf b -> readCell b r c = Thrown TypeError.
Proof.
  intros Hr. unfold readCell.
  destruct (index b r) as [line|] eqn:Hline; [|done].
  apply index_Some_lt in Hline. by destruct Hr.
Qed.

Lemma Thrown_TypeError_bind {A B : Type} (k : A -> outcome B) :
  @Thrown A TypeError ≫= k = Thrown TypeError.
Proof. reflexivity. Qed.

Lemma holds_decide (v : option Cell) p :
  holds v p = bool_decide (v = Some (Some p)).
Proof.
  destruct (holds v p) eqn:Hh.
  - apply holds_true in Hh. by rewrite bool_decide_true.
  - rewrite bool_decide_false; [done|]. intros Hv%holds_true. congruence.
Qed.

Lemma countLoop_Value b p l (count : Z) :
  rowsExist b l -> countLoop b p l count = Value (count + marks b l p).
Proof.
  unfold rowsExist, marks. revert count.
  induction l as [|[r c] l IH]; intros count Hrows; simpl.
  { f_equal. lia. }
  rewrite readCell_Value by (apply (Hrows r c); left). simpl.
  rewrite IH by (intros r' c' Hin; apply (Hrows r' c'); by right).
  f_equal. rewrite filter_cons. simpl. rewrite holds_decide.
  destruct (decide (cellAt b r c = Some (Some p))) as [Hc|Hc].
  - rewrite bool_decide_true by done. simpl. lia.
  - rewrite bool_decide_false by done. lia.
Qed.

Lemma countLoop_Thrown b p l (count : Z) :
  (exists r c, (r, c) ∈ l /\ ~ 0 <= r < sizeOf b) ->
  countLoop b p l count = Thrown TypeError.
Proof.
  revert count. induction l as [|[r0 c0] l IH]; intros count (r & c & Hin & Hr).
  { by apply elem_of_nil in Hin. }
  simpl. destruct (decide (0 <= r0 < sizeOf b)) as [Hr0|Hr0].
  - rewrite readCell_Value by done. simpl. apply IH.
    apply elem_of_cons in Hin as [[= -> ->]|Hin]; [done|eauto].
  - by rewrite readCell_Thrown.
Qed.

Lemma filter_all {A : Type} (P : A -> Prop) `{!forall x, Decision (P x)}
    (xs : list A) :
  (forall x, x ∈ xs -> P x) -> filter P xs = xs.
Proof.
  induction xs as [|x xs IH]; intros Hall; [done|].
  rewrite filter_cons_True by (apply Hall; left).
  f_equal. apply IH. intros y Hy. apply Hall. by right.
Qed.

Lemma filter_none {A : Type} (P : A -> Prop) `{!forall x, Decision (P x)}
    (xs : list A) :
  (forall x, x ∈ xs -> ~ P x) -> filter P xs = [].
Proof.
  induction xs as [|x xs IH]; intros Hall; [done|].
  rewrite filter_cons_False by (apply Hall; left).
  apply IH. intros y Hy. apply Hall. by right.
Qed.

Lemma marks_range b l p :
  0 <= marks b l p
  /\ marks b l p + marks b l (getOpponent p) <= Z.of_nat (length l).
Proof.
  unfold marks. split; [lia|].
  induction l as [|rc l IH]; [simpl; lia|].
  rewrite !filter_cons. simpl length.
  destruct (decide (cellAt b rc.1 rc.2 = Some (Some p))) as [Hp|Hp].
  - rewrite decide_False.
    + simpl. lia.
    + rewrite Hp. intros [= Heq]. by destruct (getOpponent_ne p).
  - destruct (decide _); simpl; lia.
Qed.

Lemma marks_full b l p :
  marks b l p = Z.of_nat (length l)
  <-> forall r c, (r, c) ∈ l -> cellAt b r c = Some (Some p).
Proof.
  unfold marks. split.
  - induction l as [|[r0 c0] l IH]; intros Hlen r c Hin.
    { by apply elem_of_nil in Hin. }
    rewrite filter_cons in Hlen. simpl in Hlen.
    pose proof (length_filter (fun rc : Z * Z =>
                  cellAt b rc.1 rc.2 = Some (Some p)) l) as Hle.
    destruct (decide (cellAt b r0 c0 = Some (Some p))) as [Hc|Hc].
    + apply elem_of_cons in Hin as [[= -> ->]|Hin]; [done|].
      apply IH; [|done]. simpl in Hlen. lia.
    + lia.
  - intros Hall. f_equal. f_equal. apply filter_all.
    intros [r c] Hin. by apply Hall.
Qed.

Lemma marks_zero b l p :
  marks b l p = 0
  <-> forall r c, (r, c) ∈ l -> cellAt b r c <> Some (Some p).
Proof.
  unfold marks. split.
  - intros Hlen r c Hin Hc.
    assert (Hnil : filter (fun rc : Z * Z =>
                             cellAt b rc.1 rc.2 = Some (Some p)) l = [])
      by (apply length_zero_iff_nil; lia).
    assert (Hrc : (r, c) ∈ filter (fun rc : Z * Z =>
                                     cellAt b rc.1 rc.2 = Some (Some p)) l)
      by by apply list_elem_of_filter.
    rewrite Hnil in Hrc. by apply elem_of_nil in Hrc.
  - intros Hall.
    replace (filter _ l) with (@nil (Z * Z)); [done|]. symmetry.
    apply filter_none. intros [r c] Hin. by apply Hall.
Qed.

(** [isLineEmpty] answers at the first cell that is not [null], and
    throws there when the row is missing. *)
Lemma isLineEmpty_all b l :
  (forall r c, (r, c) ∈ l -> cellAt b r c = Some None) ->
  isLineEmpty b l = Value true.
Proof.
  induction l as [|[r c] l IH]; intros Hall; simpl; [done|].
  assert (Hc : cellAt b r c = Some None) by (apply Hall; left).
  assert (Hr : 0 <= r < sizeOf b).
  { unfold cellAt in Hc. destruct (index b r) as [line|] eqn:Hl; [|done].
    by apply index_Some_lt in Hl. }
  rewrite readCell_Value, Hc by done. simpl.
  apply IH. intros r' c' Hin. apply Hall. by right.
Qed.

Lemma isLineEmpty_first b (pre post : WinningLine) r c :
  (forall r' c', (r', c') ∈ pre -> cellAt b r' c' = Some None) ->
  isLineEmpty b (pre ++ (r, c) :: post)
  = if decide (0 <= r < sizeOf b) then
      if isNull (cellAt b r c) then isLineEmpty b post else Value false
    else Thrown TypeError.
Proof.
  induction pre as [|[r0 c0] pre IH]; intros Hpre; simpl.
  - destruct (decide (0 <= r < sizeOf b)) as [Hr|Hr].
    + by rewrite readCell_Value.
    + by rewrite readCell_Thrown.
  - assert (Hc : cellAt b r0 c0 = Some None) by (apply Hpre; left).
    assert (Hr0 : 0 <= r0 < sizeOf b).
    { unfold cellAt in Hc. destruct (index b r0) as [line|] eqn:Hl; [|done].
      by apply index_Some_lt in Hl. }
    rewrite readCell_Value, Hc by done. simpl.
    apply IH. intros r' c' Hin. apply Hpre. by right.
Qed.

Lemma isLineEmpty_Value b l :
  rowsExist b l ->
  isLineEmpty b l
  = Value (forallb (fun rc : Z * Z => isNull (cellAt b rc.1 rc.2)) l).
Proof.
  unfold rowsExist. induction l as [|[r c] l IH]; intros Hrows; simpl; [done|].
  rewrite readCell_Value by (apply (Hrows r c); left). simpl.
  rewrite IH by (intros r' c' Hin; apply (Hrows r' c'); by right).
  by destruct (isNull (cellAt b r c)).
Qed.

Lemma forallb_isNull b l :
  forallb (fun rc : Z * Z => isNull (cellAt b rc.1 rc.2)) l = true
  <-> forall r c, (r, c) ∈ l -> cellAt b r c = Some None.
Proof.
  rewrite forallb_forall. split.
  - intros H r c Hin%list_elem_of_In. specialize (H _ Hin). simpl in H.
    by destruct (cellAt b r c) as [[q|]|].
  - intros H [r c] Hin%list_elem_of_In. simpl. by rewrite (H r c Hin).
Qed.

(** What [countSymbolsInLine] and [isLineEmpty] return on a line whose
    rows exist. *)
Lemma countSymbolsInLine_rows b l p :
  (forall r c, (r, c) ∈ l -> 0 <= r < sizeOf b) ->
  exists n n' e,
    countSymbolsInLine b l p = Value n
    /\ countSymbolsInLine b l (getOpponent p) = Value n'
    /\ isLineEmpty b l = Value e
    /\ 0 <= n /\ 0 <= n' /\ n + n' <= Z.of_nat (length l)
    /\ (n = Z.of_nat (length l)
        <-> forall r c, (r, c) ∈ l -> cellAt b r c = Some (Some p))
    /\ (n = 0 <-> forall r c, (r, c) ∈ l -> cellAt b r c <> Some (Some p))
    /\ (l <> [] -> (lineMark b l = Some p <-> n = Z.of_nat (length l)))
    /\ (e = true <-> forall r c, (r, c) ∈ l -> cellAt b r c = Some None)
    /\ (e = true -> n = 0 /\ n' = 0)
    /\ (wf_board b ->
        Forall (fun rc : Z * Z => inBounds (sizeOf b) rc.1 rc.2) l ->
        n = 0 -> n' = 0 -> e = true).
Proof.
  intros Hrows.
  exists (marks b l p), (marks b l (getOpponent p)),
    (forallb (fun rc : Z * Z => isNull (cellAt b rc.1 rc.2)) l).
  pose proof (marks_range b l p) as [H0 Hle].
  pose proof (marks_range b l (getOpponent p)) as [H0' _].
  unfold countSymbolsInLine. rewrite !countLoop_Value by done.
  rewrite isLineEmpty_Value by done.
  split; [done|]. split; [done|]. split; [done|]. split; [done|].
  split; [done|]. split; [done|]. split; [apply marks_full|].
  split; [apply marks_zero|]. split; [|split; [|split]].
  - intros Hne. rewrite lineMark_Some. unfold complete.
    rewrite marks_full. tauto.
  - apply forallb_isNull.
  - intros Hempty. pose proof (proj1 (forallb_isNull b l) Hempty) as Hnull.
    clear Hempty. rename Hnull into Hempty.
    split; apply marks_zero; intros r c Hin; by rewrite (Hempty r c Hin).
  - intros Hwf Hin HX HO. apply forallb_isNull. intros r c Hrc.
    rewrite marks_zero in HX, HO.
    destruct (cellAt_wf b r c Hwf) as [[q|] Hcell]; [|..|done].
    + by apply (proj1 (Forall_forall _ _) Hin (r, c)).
    + destruct (decide (q = p)) as [->|Hq].
      * by destruct (HX r c Hrc).
      * assert (q = getOpponent p) as -> by (destruct q, p; done).
        by destruct (HO r c Hrc).
Qed.

End Counting2.

(** X9.  On a line whose rows all exist in the board,
    [countSymbolsInLine] and [isLineEmpty] return: the count is the
    number of cells holding the mark, between 0 and the length of the
    line, and the counts of the two marks together do not exceed the
    length; the count is the length exactly when every cell holds the
    mark, so that a line that is not empty passes the test of
    [checkWinner] for a mark exactly when the count of that mark is its
    length; [isLineEmpty]
    answers [true] exactly when every cell is [null], then both marks
    count 0, and on a well-formed board a line within the board that
    counts 0 for both marks is empty.  On a line that names a row
    outside the board the count throws a [TypeError], and so does
    [isLineEmpty] when the cells before the first such pair are all
    [null]; when a cell that is not [null] comes first, [isLineEmpty]
    answers [false] without reading further. *)
Theorem countSymbolsInLine_complete (b : Board) (l : WinningLine)
    (p : Player) :
  ((forall r c, (r, c) ∈ l -> 0 <= r < sizeOf b) ->
   exists n n' e,
     countSymbolsInLine b l p = Value n
     /\ countSymbolsInLine b l (getOpponent p) = Value n'
     /\ isLineEmpty b l = Value e
     /\ 0 <= n /\ 0 <= n' /\ n + n' <= Z.of_nat (length l)
     /\ (n = Z.of_nat (length l)
         <-> forall r c, (r, c) ∈ l -> cellAt b r c = Some (Some p))
     /\ (n = 0 <-> forall r c, (r, c) ∈ l -> cellAt b r c <> Some (Some p))
     /\ (l <> [] -> (lineMark b l = Some p <-> n = Z.of_nat (length l)))
     /\ (e = true <-> forall r c, (r, c) ∈ l -> cellAt b r c = Some None)
     /\ (e = true -> n = 0 /\ n' = 0)
     /\ (wf_board b ->
         Forall (fun rc : Z * Z => inBounds (sizeOf b) rc.1 rc.2) l ->
         n = 0 -> n' = 0 -> e = true))
  /\ ((exists r c, (r, c) ∈ l /\ ~ 0 <= r < sizeOf b) ->
      countSymbolsInLine b l p = Thrown TypeError)
  /\ (forall pre r c post,
        l = pre ++ (r, c) :: post ->
        (forall r' c', (r', c') ∈ pre -> cellAt b r' c' = Some None) ->
        (~ 0 <= r < sizeOf b -> isLineEmpty b l = Thrown TypeError)
        /\ (0 <= r < sizeOf b -> cellAt b r c <> Some None ->
            isLineEmpty b l = Value false)).
Proof.
  split; [apply countSymbolsInLine_rows|]. split.
  - intros Hbad. by apply countLoop_Thrown.
  - intros pre r c post -> Hpre. rewrite isLineEmpty_first by done. split.
    + intros Hr. by rewrite decide_False.
    + intros Hr Hc. rewrite decide_True by done.
      by destruct (cellAt b r c) as [[q|]|].
Qed.

(** On this board the anti-diagonal holds X, O and an empty cell; a line
    that names the row 3 throws. *)
Lemma countSymbolsInLine_complete_witness :
  let b := [[Some X; None; None]; [None; Some O; None]; [Some X; None; None]] in
  let l := [(0, 2); (1, 1); (2, 0)] in
  (forall r c, (r, c) ∈ l -> 0 <= r < sizeOf b)
  /\ countSymbolsInLine b l X = Value 1
  /\ isLineEmpty b l = Value false
  /\ countSymbolsInLine b [(0, 0); (3, 0)] X = Thrown TypeError
  /\ isLineEmpty b [(0, 1); (3, 0)] = Thrown TypeError
  /\ isLineEmpty b [(0, 0); (3, 0)] = Value false.
Proof.
  intros b l.
  assert (Hrows : forall r c, (r, c) ∈ l -> 0 <= r < sizeOf b).
  { intros r c Hin. change (sizeOf b) with 3.
    repeat (apply elem_of_cons in Hin as [[= -> ->]|Hin]; [lia|]).
    by apply elem_of_nil in Hin. }
  split; [exact Hrows|].
  destruct (countSymbolsInLine_complete b l X) as (Hret & _ & _).
  destruct (Hret Hrows) as (n & n' & e & Hn & _ & He & _).
  destruct (countSymbolsInLine_complete b [(0, 0); (3, 0)] X)
    as (_ & Hthrow & Hfirst).
  destruct (countSymbolsInLine_complete b [(0, 1); (3, 0)] X)
    as (_ & _ & Hfirst').
  split; [|split; [|split; [|split]]].
  - rewrite Hn. vm_compute in Hn. by injection Hn as <-.
  - rewrite He. vm_compute in He. by injection He as <-.
  - apply Hthrow. exists 3, 0. split; [right; left|].
    change (sizeOf b) with 3. lia.
  - apply (Hfirst' [(0, 1)] 3 0 []); [reflexivity| |].
    + intros r c Hin. apply list_elem_of_singleton in Hin.
      injection Hin as -> ->. reflexivity.
    + change (sizeOf b) with 3. lia.
  - apply (Hfirst [] 0 0 [(3, 0)]); [reflexivity| | |].
    + intros r c Hin. by apply elem_of_nil in Hin.
    + by vm_compute.
    + by vm_compute.
Defined.

(** * Random moves *)

Section Doubles.

(** Rounding to 53 bits moves a number by less than its 53rd bit. *)
Lemma roundSignificand_bounds (p n : Z) :
  0 <= p -> p < 2 ^ 53 * n ->
  0 <= roundSignificand p < p + n.
Proof.
  intros Hp Hn. unfold roundSignificand.
  set (s := Z.log2 p + 1 - 53).
  destruct (Z.leb_spec s 0) as [Hs|Hs]; [lia|].
  assert (Hpos : 0 < p).
  { destruct (Z.eq_dec p 0) as [->|]; [|lia]. by vm_compute in Hs. }
  pose proof (Z.log2_spec p Hpos) as [Hlo Hhi].
  assert (Hlog : Z.log2 p = 52 + s) by lia.
  rewrite Hlog in Hlo.
  rewrite Z.pow_add_r in Hlo by lia.
  assert (H2s : 2 ^ s = 2 * 2 ^ (s - 1)).
  { replace s with (Z.succ (s - 1)) at 1 by lia. apply Z.pow_succ_r. lia. }
  assert (Hhalf : 0 < 2 ^ (s - 1)) by (apply Z.pow_pos_nonneg; lia).
  pose proof (Z.div_mod p (2 ^ s) ltac:(lia)) as Hdm.
  pose proof (Z.mod_pos_bound p (2 ^ s) ltac:(lia)) as Hrest.
  assert (Hq : 0 <= p `div` 2 ^ s) by (apply Z.div_pos; lia).
  set (q := p `div` 2 ^ s) in *. set (rest := p `mod` 2 ^ s) in *.
  set (h := 2 ^ (s - 1)) in *.
  assert (Hh : h < n).
  { assert (2 ^ 52 * (2 * h) < 2 ^ 53 * n) by lia.
    change (2 ^ 53) with (2 ^ 52 * 2) in H. nia. }
  destruct ((h <? rest) || ((rest =? h) && Z.odd q)) eqn:Hup.
  - assert (Hge : h <= rest).
    { apply orb_true_iff in Hup as [Hup|Hup]; [lia|].
      apply andb_true_iff in Hup as [Hup _]. lia. }
    nia.
  - nia.
Qed.

End Doubles.

Lemma floorTimes_range (u : Rand) (len : Z) :
  validRand u -> 0 < len -> 0 <= floorTimes u len < len.
Proof.
  unfold validRand, floorTimes. intros (Hu & H53 & _ & _) Hlen.
  destruct (roundSignificand_bounds (rnum u * len) len) as [H0 Hlt];
    [nia|nia|].
  split.
  - apply Z.div_pos; lia.
  - apply Z.div_lt_upper_bound; nia.
Qed.

(** The two draws used below: the doubles 0 and 1/2. *)
Lemma validRand_zero : validRand (mkRand 0 1).
Proof. repeat split; by vm_compute. Qed.

Lemma validRand_half : validRand (mkRand 1 2).
Proof. repeat split; by vm_compute. Qed.

Lemma floorTimes_zero (len : Z) : floorTimes (mkRand 0 1) len = 0.
Proof. reflexivity. Qed.

Lemma floorTimes_half (len : Z) : 2 <= len -> 1 <= floorTimes (mkRand 1 2) len.
Proof.
  intros Hlen. unfold floorTimes. simpl rnum. simpl rden.
  rewrite Z.mul_1_l. apply Z.div_le_lower_bound; [lia|].
  unfold roundSignificand. set (s := Z.log2 len + 1 - 53).
  destruct (Z.leb_spec s 0) as [Hs|Hs]; [lia|].
  assert (Hq : 1 <= len `div` 2 ^ s).
  { apply Z.div_le_lower_bound; [apply Z.pow_pos_nonneg; lia|].
    pose proof (Z.log2_spec len ltac:(lia)) as [Hlo _].
    assert (2 ^ s <= 2 ^ Z.log2 len) by (apply Z.pow_le_mono_r; lia). lia. }
  assert (H2s : 2 <= 2 ^ s).
  { change 2 with (2 ^ 1) at 1. apply Z.pow_le_mono_r; lia. }
  destruct (_ || _); nia.
Qed.

Lemma index_random {A : Type} (u : Rand) (l : list A) :
  validRand u -> l <> [] ->
  exists x, index l (floorTimes u (Z.of_nat (length l))) = Some x /\ x ∈ l.
Proof.
  intros Hu Hne.
  assert (Hlen : 0 < Z.of_nat (length l)) by (destruct l; [done|simpl; lia]).
  pose proof (floorTimes_range u _ Hu Hlen) as Hrange.
  destruct (index_in_range l _ Hrange) as [x Hx]. exists x. split; [done|].
  apply index_Some in Hx as [_ Hx]. by eapply list_elem_of_lookup_2.
Qed.

Lemma getRandomMove_pick (u : Rand) (b : Board) :
  validRand u -> getAvailableMoves b <> [] ->
  exists m, getRandomMove u b = Some m /\ m ∈ getAvailableMoves b.
Proof.
  intros Hu Hne. unfold getRandomMove.
  rewrite bool_decide_false.
  2:{ intros E. apply Hne. by apply length_zero_iff_nil. }
  by apply index_random.
Qed.

(** X10.  [getRandomMove] returns no move exactly when no move is
    available; otherwise, for every double in [0, 1) that [Math.random]
    returns, the index [Math.floor (Math.random () * length)], computed
    with the rounded product, is inside the list and the move returned
    is the available (hence legal) move at that index. *)
Theorem getRandomMove_legal (u : Rand) (b : Board) :
  validRand u ->
  (getRandomMove u b = None <-> getAvailableMoves b = [])
  /\ (getAvailableMoves b <> [] ->
      0 <= floorTimes u (Z.of_nat (length (getAvailableMoves b)))
        < Z.of_nat (length (getAvailableMoves b))
      /\ exists m, getRandomMove u b = Some m
                /\ index (getAvailableMoves b)
                     (floorTimes u (Z.of_nat (length (getAvailableMoves b))))
                   = Some m
                /\ m ∈ getAvailableMoves b
                /\ isValidMove b (row m) (col m) = true).
Proof.
  intros Hu. split.
  - split.
    + intros Hnone. destruct (decide (getAvailableMoves b = [])) as [|Hne];
        [done|].
      destruct (getRandomMove_pick u b Hu Hne) as (m & Hm & _). congruence.
    + intros Hnil. unfold getRandomMove. by rewrite Hnil.
  - intros Hne. split.
    { apply floorTimes_range; [done|].
      destruct (getAvailableMoves b); [done|simpl; lia]. }
    destruct (getRandomMove_pick u b Hu Hne) as (m & Hm & Hin).
    exists m. split; [done|]. split; [|split; [done|by apply available_valid]].
    unfold getRandomMove in Hm. rewrite bool_decide_false in Hm; [done|].
    intros E. apply Hne. by apply length_zero_iff_nil.
Qed.

(** With the double nearest to 4/7 and seven free cells the rounded
    product is 4, where the exact product is below 4: the move at the
    index 4 is returned. *)
Lemma getRandomMove_legal_witness :
  let b := [[Some X; None; None]; [None; Some O; None]; [None; None; None]] in
  let u := mkRand 5146971002709138 9007199254740992 in
  validRand u
  /\ rnum u * 7 < 4 * rden u
  /\ floorTimes u 7 = 4
  /\ getRandomMove u b = Some (mkMove 2 0)
  /\ isValidMove b 2 0 = true.
Proof.
  intros b u. assert (Hu : validRand u) by (repeat split; by vm_compute).
  split; [done|]. split; [by vm_compute|]. split; [by vm_compute|].
  destruct (getRandomMove_legal u b Hu) as [_ Hpick].
  destruct Hpick as (_ & m & Hm & _ & _ & Hv); [by vm_compute|].
  assert (Heq : m = mkMove 2 0).
  { assert (Hc : getRandomMove u b = Some (mkMove 2 0)) by by vm_compute.
    congruence. }
  subst m. split; [exact Hm | exact Hv].
Defined.

(** * Legal moves of the engine *)

Section LegalMoves.

Implicit Types (b : Board) (ai : Player) (st : AIState) (rec : searchFn)
  (clock : Z -> bool) (rnd : nat -> Rand).

Lemma center_valid_empty b :
  isEmptyBoard b -> getAvailableMoves b <> [] ->
  isValidMove b (row (getCenterPosition (sizeOf b)))
                (col (getCenterPosition (sizeOf b))) = true.
Proof.
  intros Hempty Hmoves.
  assert (HN : 1 <= sizeOf b).
  { destruct (getAvailableMoves b) as [|m ms] eqn:E; [done|].
    assert (Hm : m ∈ getAvailableMoves b) by (rewrite E; left).
    apply elem_of_getAvailableMoves in Hm as [[Hr _] _]. lia. }
  assert (Hin : inBounds (sizeOf b) (row (getCenterPosition (sizeOf b)))
                         (col (getCenterPosition (sizeOf b)))).
  { unfold getCenterPosition, inBounds. simpl.
    pose proof (Z.div_pos (sizeOf b) 2).
    pose proof (Z.div_lt_upper_bound (sizeOf b) 2 (sizeOf b)). lia. }
  apply isValidMove_true. split; [done|]. by apply Hempty.
Qed.

Lemma corner_pick_valid (u : Rand) b (corners : list Move) :
  validRand u ->
  let availableCorners :=
    filter (fun pos => isValidMove b (row pos) (col pos) = true) corners in
  (0 <? Z.of_nat (length availableCorners)) = true ->
  exists m, index availableCorners
              (floorTimes u (Z.of_nat (length availableCorners))) = Some m
            /\ isValidMove b (row m) (col m) = true.
Proof.
  intros Hu cs Hlen.
  destruct (index_random u cs Hu) as (m & Hm & Hin).
  { intros Hnil. rewrite Hnil in Hlen. done. }
  exists m. split; [done|]. by apply list_elem_of_filter in Hin as [? _].
Qed.

Lemma findStrategicMoves_subset b ai (moves l : list Move) :
  findStrategicMoves b ai moves = Value l -> forall m, m ∈ l -> m ∈ moves.
Proof.
  revert l. induction moves as [|mv rest IH]; intros l Hrun m Hm; simpl in Hrun.
  { simplify_eq. done. }
  destruct (makeMove b (row mv) (col mv) ai) as [tb| |]; simpl in Hrun;
    [|done..].
  destruct (countWinning tb ai (getAvailableMoves tb) 0) as [n| |];
    simpl in Hrun; [|done..].
  destruct (findStrategicMoves b ai rest) as [l'| |]; simpl in Hrun; [|done..].
  simplify_eq. destruct (2 <=? n).
  - apply elem_of_cons in Hm as [->|Hm]; [left|right; by eapply IH].
  - right. by eapply IH.
Qed.

(** The tail shared by the two strategies: center, else a random free
    corner, else a random move. *)
Lemma getOptimizedMove_cases rnd b ai :
  validRand (rnd 0%nat) ->
  (getAvailableMoves b = [] /\ getOptimizedMove rnd b ai = Value None)
  \/ (getAvailableMoves b <> []
      /\ exists m, getOptimizedMove rnd b ai = Value (Some m)
                   /\ isValidMove b (row m) (col m) = true).
Proof.
  intros Hu. unfold getOptimizedMove. cbv zeta.
  destruct (getAvailableMoves b) as [|m0 ms] eqn:Hmoves; [by left|].
  right. split; [done|]. rewrite bool_decide_false by done.
  rewrite <- Hmoves.
  assert (Hne : getAvailableMoves b <> []) by by rewrite Hmoves.
  destruct (_ =? _) eqn:Hopen.
  { apply Z.eqb_eq, isEmptyBoard_count in Hopen.
    eexists. split; [done|]. by apply center_valid_empty. }
  destruct (winningLoop_cases b ai (getAvailableMoves b))
    as [[-> _]|(m & -> & Hin & _)]; [done|simpl|].
  2:{ simpl. exists m. split; [done|]. by apply available_valid. }
  destruct (blockingLoop_cases b ai (getAvailableMoves b))
    as [[-> _]|(m & -> & Hin & _)]; [done|simpl|].
  2:{ simpl. exists m. split; [done|]. by apply available_valid. }
  destruct (findStrategicMoves_total b ai (getAvailableMoves b))
    as [l Hl]; [done|]. rewrite Hl. simpl.
  destruct (0 <? Z.of_nat (length l)) eqn:Hlen.
  { destruct (index_random (rnd 0%nat) l Hu) as (m & Hm & Hin).
    - intros ->. done.
    - exists m. split; [by rewrite Hm|].
      apply available_valid. by eapply findStrategicMoves_subset. }
  destruct (isValidMove b (sizeOf b `div` 2) _) eqn:Hcenter; [eauto|].
  destruct (0 <? Z.of_nat (length (filter _ _))) eqn:Hcorner.
  { destruct (corner_pick_valid (rnd 0%nat) b
                (getCornerPositions (sizeOf b)) Hu Hcorner) as (m & Hm & Hv).
    exists m. split; [by rewrite Hm|done]. }
  destruct (getRandomMove_pick (rnd 0%nat) b Hu Hne) as (m & -> & Hv).
  apply available_valid in Hv. eauto.
Qed.

Lemma getEasyMove_cases rnd b st :
  validRand (rnd 1%nat) ->
  positionsEvaluated (getEasyMove rnd b st).2 = 1
  /\ ((getAvailableMoves b = [] /\ (getEasyMove rnd b st).1 = None)
      \/ (getAvailableMoves b <> []
          /\ exists m, (getEasyMove rnd b st).1 = Some m
                       /\ isValidMove b (row m) (col m) = true)).
Proof.
  intros Hu. unfold getEasyMove. cbv zeta.
  destruct (getAvailableMoves b) as [|m0 ms] eqn:Hmoves; [by split; [|left]|].
  rewrite bool_decide_false by done.
  assert (Hne : getAvailableMoves b <> []) by by rewrite Hmoves.
  destruct (getRandomMove_pick (rnd 1%nat) b Hu Hne) as (m & Hm & Hv).
  apply available_valid in Hv.
  destruct (below07 _).
  { split; [reflexivity|]. right. split; [done|]. simpl. rewrite Hm. eauto. }
  destruct (isValidMove b (row (getCenterPosition (sizeOf b))) _) eqn:Hcenter.
  { split; [reflexivity|]. right. split; [done|]. simpl. eauto. }
  destruct (0 <? Z.of_nat (length (filter _ _))) eqn:Hcorner.
  { destruct (corner_pick_valid (rnd 1%nat) b
                (getCornerPositions (sizeOf b)) Hu Hcorner) as (m' & Hm' & Hv').
    split; [reflexivity|]. right. split; [done|]. simpl. rewrite Hm'. eauto. }
  split; [reflexivity|]. right. split; [done|]. simpl. rewrite Hm. eauto.
Qed.

(** The move of a maximizing loop is the one it started with or one of
    the moves it was given. *)
Lemma maxLoop_move rec b d ai beta maxD moves alpha maxEval best st s m st' :
  maxLoop rec b d ai beta maxD moves alpha maxEval best st
    = Value (s, m, st') ->
  m = best \/ exists mv, m = Some mv /\ mv ∈ moves.
Proof.
  revert alpha maxEval best st.
  induction moves as [|mv rest IH]; intros alpha maxEval best st Hrun;
    simpl in Hrun; [simplify_eq; by left|].
  destruct (timeoutReached st); [simplify_eq; by left|].
  destruct (makeMove b (row mv) (col mv) ai) as [nb| |]; simpl in Hrun;
    [|done..].
  destruct (rec nb (d + 1) false ai alpha beta maxD st) as [[ev st1]| |];
    simpl in Hrun; [|done..].
  destruct (Num_ltb maxEval (score ev)); destruct (Num_leb beta _).
  - simplify_eq. right. exists mv. split; [done|left].
  - apply IH in Hrun as [->|(mv' & -> & Hin)].
    + right. exists mv. split; [done|left].
    + right. exists mv'. split; [done|by right].
  - simplify_eq. by left.
  - apply IH in Hrun as [->|(mv' & -> & Hin)]; [by left|].
    right. exists mv'. split; [done|by right].
Qed.

Lemma maxLoop_finite rec b d ai beta maxD moves alpha maxEval best st s m st' :
  finiteScores rec ->
  maxLoop rec b d ai beta maxD moves alpha maxEval best st
    = Value (s, m, st') ->
  ((exists z, maxEval = Fin z) -> exists z, s = Fin z)
  /\ (maxEval = NegInf -> moves <> [] -> timeoutReached st = false ->
      (exists z, s = Fin z) /\ exists mv, m = Some mv /\ mv ∈ moves).
Proof.
  intros Hrec. revert alpha maxEval best st.
  induction moves as [|mv rest IH]; intros alpha maxEval best st Hrun;
    simpl in Hrun.
  { simplify_eq. split; [done|]. by intros _ []. }
  destruct (timeoutReached st) eqn:Hst.
  { simplify_eq. split; [done|]. done. }
  destruct (makeMove b (row mv) (col mv) ai) as [nb| |]; simpl in Hrun;
    [|done..].
  destruct (rec nb (d + 1) false ai alpha beta maxD st) as [[ev st1]| |] eqn:Hr;
    simpl in Hrun; [|done..].
  destruct (Hrec _ _ _ _ _ _ _ _ _ _ Hr Hst) as [z Hz].
  destruct (Num_ltb maxEval (score ev)) eqn:Hlt;
    destruct (Num_leb beta _).
  - simplify_eq. split; [eauto|]. intros _ _ _. split; [eauto|].
    exists mv. split; [done|left].
  - pose proof (maxLoop_move _ _ _ _ _ _ _ _ _ _ _ _ _ _ Hrun) as Hmove.
    apply IH in Hrun as [Hfin _].
    split; [intros _; apply Hfin; eauto|]. intros _ _ _.
    split; [apply Hfin; eauto|].
    destruct Hmove as [->|(mv' & -> & Hin)].
    + exists mv. split; [done|left].
    + exists mv'. split; [done|by right].
  - simplify_eq. split; [done|]. intros -> _ _. by rewrite Hz in Hlt.
  - apply IH in Hrun as [Hfin _]. split; [done|].
    intros -> _ _. by rewrite Hz in Hlt.
Qed.

Lemma minLoop_finite rec b d ai alpha maxD moves beta minEval best st s m st' :
  finiteScores rec ->
  minLoop rec b d ai alpha maxD moves beta minEval best st
    = Value (s, m, st') ->
  ((exists z, minEval = Fin z) -> exists z, s = Fin z)
  /\ (minEval = PosInf -> moves <> [] -> timeoutReached st = false ->
      exists z, s = Fin z).
Proof.
  intros Hrec. revert beta minEval best st.
  induction moves as [|mv rest IH]; intros beta minEval best st Hrun;
    simpl in Hrun.
  { simplify_eq. split; [done|]. by intros _ []. }
  destruct (timeoutReached st) eqn:Hst.
  { simplify_eq. split; [done|]. done. }
  destruct (makeMove b (row mv) (col mv) (getOpponent ai)) as [nb| |];
    simpl in Hrun; [|done..].
  destruct (rec nb (d + 1) true ai alpha beta maxD st) as [[ev st1]| |] eqn:Hr;
    simpl in Hrun; [|done..].
  destruct (Hrec _ _ _ _ _ _ _ _ _ _ Hr Hst) as [z Hz].
  destruct (Num_ltb (score ev) minEval) eqn:Hlt;
    destruct (Num_leb _ alpha).
  - simplify_eq. split; eauto.
  - apply IH in Hrun as [Hfin _]. split; intros; apply Hfin; eauto.
  - simplify_eq. split; [done|]. intros -> _ _. by rewrite Hz in Hlt.
  - apply IH in Hrun as [Hfin _]. split; [done|].
    intros -> _ _. by rewrite Hz in Hlt.
Qed.

Lemma minimax_finite clock fuel : finiteScores (minimax clock fuel).
Proof.
  induction fuel as [|fuel IH]; [done|].
  intros b d isMax ai alpha beta maxD st r st' Hrun Hst.
  simpl in Hrun. unfold minimaxBody in Hrun.
  destruct (_ && clock _); [simplify_eq; simpl; eauto|].
  destruct (maxD <=? d); [simplify_eq; simpl; eauto|].
  destruct (isGameOver b); [simplify_eq; simpl; eauto|].
  destruct (bool_decide _) eqn:Hnil; [simplify_eq; simpl; eauto|].
  apply bool_decide_eq_false in Hnil.
  assert (Hne : getAvailableMoves b <> [])
    by (intros Hempty; apply Hnil; by rewrite Hempty).
  destruct isMax.
  - apply bind_Value in Hrun as ([[s mv] st1] & Hloop & Hret).
    simpl in Hret. simplify_eq. simpl.
    by apply (maxLoop_finite _ _ _ _ _ _ _ _ _ _ _ _ _ _ IH Hloop).
  - apply bind_Value in Hrun as ([[s mv] st1] & Hloop & Hret).
    simpl in Hret. simplify_eq. simpl.
    by apply (minLoop_finite _ _ _ _ _ _ _ _ _ _ _ _ _ _ IH Hloop).
Qed.

(** The move returned by the search at a maximizing root. *)
Lemma minimax_root_move clock fuel b d ai alpha beta maxD st r st' :
  minimax clock (S fuel) b d true ai alpha beta maxD st = Value (r, st') ->
  timeoutReached st = false ->
  (forall m, move r = Some m -> m ∈ getAvailableMoves b)
  /\ (d < maxD -> isGameOver b = false -> getAvailableMoves b <> [] ->
      ((positionsEvaluated st + 1) `mod` 100 =? 0)
        && clock (positionsEvaluated st + 1) = false ->
      exists m, move r = Some m).
Proof.
  intros Hrun Hst. simpl in Hrun. unfold minimaxBody in Hrun.
  destruct (_ && clock _); [simplify_eq; simpl; split; [done|]; done|].
  destruct (Z.leb_spec maxD d); [simplify_eq; simpl; split; [done|]; lia|].
  destruct (isGameOver b); [simplify_eq; simpl; split; done|].
  destruct (bool_decide _) eqn:Hnil.
  { apply bool_decide_eq_true in Hnil. apply nil_length_inv in Hnil.
    simplify_eq. simpl. split; done. }
  apply bind_Value in Hrun as ([[s mv] st1] & Hloop & Hret).
  simpl in Hret. simplify_eq. simpl. split.
  - intros m ->. apply maxLoop_move in Hloop as [?|(mv' & [= ->] & Hin)]; done.
  - intros _ _ Hne _.
    destruct (maxLoop_finite _ _ _ _ _ _ _ _ _ _ _ _ _ _
                (minimax_finite clock fuel) Hloop) as [_ Hsome].
    destruct Hsome as [_ (m & -> & _)]; eauto.
Qed.

End LegalMoves.

(** X11.  Easy mode never selects an illegal move: for any value of the
    random draw that picks an index, [getEasyMove] returns no move when
    none is available and a legal move otherwise, and it always reports
    one position evaluated.  With a first draw below the double written
    [0.7] the move is the one of [getRandomMove]; with a first draw that
    is not below it, the move is the center, the cell in row and column
    [N div 2], when that cell is free. *)
Theorem getEasyMove_legal (rnd : nat -> Rand) (b : Board) (st : AIState) :
  validRand (rnd 1%nat) ->
  positionsEvaluated (getEasyMove rnd b st).2 = 1
  /\ (getAvailableMoves b = [] -> (getEasyMove rnd b st).1 = None)
  /\ (getAvailableMoves b <> [] ->
      (exists m, (getEasyMove rnd b st).1 = Some m
                 /\ isValidMove b (row m) (col m) = true)
      /\ (rnum (rnd 0%nat) * 2 ^ 53 < 6305039478318694 * rden (rnd 0%nat) ->
          (getEasyMove rnd b st).1 = getRandomMove (rnd 1%nat) b)
      /\ (6305039478318694 * rden (rnd 0%nat) <= rnum (rnd 0%nat) * 2 ^ 53 ->
          isValidMove b (sizeOf b `div` 2) (sizeOf b `div` 2) = true ->
          (getEasyMove rnd b st).1
          = Some (mkMove (sizeOf b `div` 2) (sizeOf b `div` 2)))).
Proof.
  intros Hu.
  destruct (getEasyMove_cases rnd b st Hu) as [Hn [[Hnil Hm]|[Hne Hm]]].
  - split; [done|]. split; [done|]. by intros [].
  - split; [done|]. split; [by intros ?|]. intros _. split; [done|].
    unfold getEasyMove, below07. cbv zeta.
    rewrite bool_decide_false
      by (intros Hlen; by apply nil_length_inv in Hlen).
    split.
    + intros Hlow. by rewrite (proj2 (Z.ltb_lt _ _) Hlow).
    + intros Hhigh Hcenter. rewrite (proj2 (Z.ltb_ge _ _) Hhigh).
      unfold getCenterPosition. cbn [row col]. by rewrite Hcenter.
Qed.

(** With the double written 0.7 as first draw the test [< 0.7] fails and
    the free center is taken. *)
Lemma getEasyMove_legal_witness :
  let b := [[Some X; None; None]; [None; None; None]; [None; None; Some O]] in
  let rnd := fun k : nat => mkRand 6305039478318694 9007199254740992 in
  validRand (rnd 1%nat)
  /\ getAvailableMoves b <> []
  /\ (getEasyMove rnd b (mkAIState 0 false)).1 = Some (mkMove 1 1)
  /\ isValidMove b 1 1 = true.
Proof.
  intros b rnd.
  assert (Hu : validRand (rnd 1%nat)) by (repeat split; by vm_compute).
  assert (Hne : getAvailableMoves b <> []) by by vm_compute.
  split; [done|]. split; [done|].
  destruct (getEasyMove_legal rnd b (mkAIState 0 false) Hu)
    as (_ & _ & Hmove).
  destruct (Hmove Hne) as (_ & _ & Hcenter).
  split; [|reflexivity].
  apply Hcenter; [by vm_compute | reflexivity].
Defined.

(** X12.  The heuristic fallback never throws and never selects an
    illegal move: for any random draw in [0, 1) it returns no move
    exactly when none is available, and a legal move otherwise. *)
Theorem getOptimizedMove_legal (rnd : nat -> Rand) (b : Board) (ai : Player) :
  validRand (rnd 0%nat) ->
  (getOptimizedMove rnd b ai = Value None <-> getAvailableMoves b = [])
  /\ (getAvailableMoves b <> [] ->
      exists m, getOptimizedMove rnd b ai = Value (Some m)
                /\ isValidMove b (row m) (col m) = true).
Proof.
  intros Hu.
  destruct (getOptimizedMove_cases rnd b ai Hu)
    as [[Hnil Hrun]|[Hne (m & Hrun & Hv)]].
  - split; [done|]. by intros [].
  - split; [|eauto]. rewrite Hrun. split; [done|]. by intros ?.
Qed.

Lemma getOptimizedMove_legal_witness :
  let b := [[None; None; None; None]; [None; None; None; None];
            [None; None; Some X; None]; [None; None; None; None]] in
  let rnd := fun k : nat => mkRand 1 2 in
  validRand (rnd 0%nat)
  /\ exists m, getOptimizedMove rnd b O = Value (Some m)
               /\ isValidMove b (row m) (col m) = true.
Proof.
  intros b rnd.
  assert (Hu : validRand (rnd 0%nat)) by (repeat split; by vm_compute).
  split; [done|].
  by apply (getOptimizedMove_legal rnd b O Hu).
Defined.

(** * Strategic moves *)

Section Strategic.

Implicit Types (b : Board) (ai : Player).

Lemma countWinning_filter b ai (moves : list Move) (acc : Z) :
  (forall m, m ∈ moves -> m ∈ getAvailableMoves b) ->
  countWinning b ai moves acc
  = Value (acc + Z.of_nat (length
             (filter (fun n => winner (checkWinner
                                 (setCell b (row n) (col n) ai)) = Some ai)
                     moves))).
Proof.
  revert acc. induction moves as [|mv rest IH]; intros acc Hav; simpl.
  { f_equal. lia. }
  rewrite (makeMove_available b mv ai) by (apply Hav; left). simpl.
  rewrite IH by (intros m Hm; apply Hav; by right).
  rewrite filter_cons. f_equal.
  destruct (isGameOver _ && _) eqn:Htest.
  - apply win_test in Htest. rewrite decide_True by done. simpl. lia.
  - rewrite decide_False; [lia|]. intros Hw%win_test. congruence.
Qed.

Lemma two_elements {A : Type} (l : list A) :
  NoDup l ->
  (2 <= length l)%nat <-> exists x y, x <> y /\ x ∈ l /\ y ∈ l.
Proof.
  intros Hnd. split.
  - destruct l as [|x [|y l]]; simpl; [lia..|]. intros _.
    exists x, y. split; [|split; [left|right; left]].
    apply NoDup_cons in Hnd as [Hx _]. intros ->. apply Hx. left.
  - intros (x & y & Hne & Hx & Hy).
    destruct l as [|a [|c l]]; simpl; [|exfalso|lia].
    + by apply elem_of_nil in Hx.
    + apply list_elem_of_singleton in Hx, Hy. congruence.
Qed.

Lemma findStrategicMoves_spec b ai (moves : list Move) :
  (forall m, m ∈ moves -> m ∈ getAvailableMoves b) ->
  exists l,
    findStrategicMoves b ai moves = Value l
    /\ forall m, m ∈ l <->
         m ∈ moves
         /\ exists n1 n2,
              n1 <> n2
              /\ wins (setCell b (row m) (col m) ai) ai n1
              /\ wins (setCell b (row m) (col m) ai) ai n2.
Proof.
  induction moves as [|mv rest IH]; intros Hav; simpl.
  { exists []. split; [done|]. intros m. split; [by intros ?%elem_of_nil|].
    by intros [?%elem_of_nil _]. }
  rewrite (makeMove_available b mv ai) by (apply Hav; left). simpl.
  set (tb := setCell b (row mv) (col mv) ai).
  rewrite countWinning_filter by done. simpl.
  destruct IH as (l & -> & Hl); [intros m Hm; apply Hav; by right|]. simpl.
  set (ws := filter _ (getAvailableMoves tb)).
  assert (Hfork : (2 <= length ws)%nat
                  <-> exists n1 n2, n1 <> n2 /\ wins tb ai n1 /\ wins tb ai n2).
  { rewrite two_elements by apply NoDup_filter, getAvailableMoves_NoDup.
    split; intros (n1 & n2 & Hne & H1 & H2); exists n1, n2;
      (split; [done|]).
    - apply list_elem_of_filter in H1 as [H1 Hin1].
      apply list_elem_of_filter in H2 as [H2 Hin2].
      split; by apply wins_available.
    - assert (Hin1 : n1 ∈ getAvailableMoves tb).
      { destruct H1 as (? & [? _]%makeMove_Value & _).
        by apply available_valid. }
      assert (Hin2 : n2 ∈ getAvailableMoves tb).
      { destruct H2 as (? & [? _]%makeMove_Value & _).
        by apply available_valid. }
      split; apply list_elem_of_filter; (split; [|done]);
        by apply wins_available. }
  eexists. split; [done|]. intros m.
  destruct (Z.leb_spec 2 (0 + Z.of_nat (length ws))) as [Hge|Hlt].
  - rewrite elem_of_cons, Hl, elem_of_cons. split.
    + intros [->|[Hin Hf]]; [|by split; [right|]].
      split; [by left|]. apply Hfork. lia.
    + intros [[->|Hin] Hf]; [by left|right; by split].
  - rewrite Hl, elem_of_cons. split; [intros [Hin Hf]; by split; [right|]|].
    intros [[->|Hin] Hf]; [|by split].
    apply Hfork in Hf. fold tb in Hf. lia.
Qed.

End Strategic.

(** X13.  [findStrategicMoves] returns exactly the available moves that
    create a fork: the moves after which the mover has two different
    moves that each win at once. *)
Theorem findStrategicMoves_forks (b : Board) (ai : Player) :
  exists l,
    findStrategicMoves b ai (getAvailableMoves b) = Value l
    /\ forall m, m ∈ l <->
         m ∈ getAvailableMoves b
         /\ exists n1 n2,
              n1 <> n2
              /\ wins (setCell b (row m) (col m) ai) ai n1
              /\ wins (setCell b (row m) (col m) ai) ai n2.
Proof. by apply findStrategicMoves_spec. Qed.

(** The cases of [getBestMove]. *)
Lemma getBestMove_cases (clock : Z -> bool) (rnd : nat -> Rand)
    (b : Board) (ai : Player) (difficulty : Difficulty) (st : AIState) :
  validRand (rnd 0%nat) -> validRand (rnd 1%nat) ->
  exists r st',
    getBestMove clock rnd b ai difficulty st = Value (r, st')
    /\ (forall m, bestMove r = Some m -> isValidMove b (row m) (col m) = true)
    /\ (getAvailableMoves b = [] -> bestMove r = None)
    /\ (getAvailableMoves b <> [] ->
        (difficulty = Hard -> sizeOf b = 3 -> isGameOver b = false) ->
        exists m, bestMove r = Some m).
Proof.
  intros Hu0 Hu1.
  assert (Hgoal : exists r st',
    getBestMove clock rnd b ai difficulty st = Value (r, st')
    /\ (forall m, bestMove r = Some m -> isValidMove b (row m) (col m) = true)
    /\ (getAvailableMoves b <> [] ->
        (difficulty = Hard -> sizeOf b = 3 -> isGameOver b = false) ->
        exists m, bestMove r = Some m)).
  2:{ destruct Hgoal as (r & st' & Hrun & Hlegal & Hsome).
      exists r, st'. split; [done|]. split; [done|]. split; [|done].
      intros Hnil. destruct (bestMove r) as [m|] eqn:Hm; [|done].
      specialize (Hlegal m eq_refl). apply available_valid in Hlegal.
      rewrite Hnil in Hlegal. by apply elem_of_nil in Hlegal. }
  assert (Hheur : forall st0 : AIState,
    exists mv, getOptimizedMove rnd b ai = Value mv
      /\ (forall m, mv = Some m -> isValidMove b (row m) (col m) = true)
      /\ (getAvailableMoves b <> [] -> exists m, mv = Some m)).
  { intros _. destruct (getOptimizedMove_cases rnd b ai Hu0)
      as [[Hnil Hrun]|[Hne (m & Hrun & Hv)]].
    - exists None. split; [done|]. split; [done|]. done.
    - exists (Some m). split; [done|]. split; [by intros ? [= <-]|eauto]. }
  unfold getBestMove. destruct difficulty.
  - destruct (getEasyMove_cases rnd b (mkAIState 0 false) Hu1)
      as [_ [[Hnil Hm]|[Hne (m & Hm & Hv)]]];
      destruct (getEasyMove rnd b _) as [mv st1]; simpl in *; subst;
      eexists _, _; (split; [reflexivity|]); simpl.
    + split; done.
    + split; [by intros ? [= <-]|eauto].
  - destruct (Z.ltb_spec 3 (sizeOf b)) as [Hbig|Hsmall].
    { destruct (Hheur st) as (mv & -> & Hlegal & Hsome). simpl.
      eexists _, _. split; [reflexivity|]. simpl. split; [done|].
      intros Hne _. by apply Hsome. }
    unfold getHardMove, maxDepthFor.
    destruct (Z.eqb_spec (sizeOf b) 3) as [Hsize|Hsize].
    2:{ rewrite !(proj2 (Z.eqb_neq _ _)) by lia.
        destruct (Hheur st) as (mv & -> & Hlegal & Hsome). simpl.
        eexists _, _. split; [reflexivity|]. simpl. split; [done|].
        intros Hne _. by apply Hsome. }
    destruct (minimax_total clock (fuelFor 0 9) b 0 true ai NegInf PosInf 9
                (mkAIState 0 false)) as (res & st' & Hrun).
    { unfold fuelFor. lia. }
    rewrite Hrun. simpl.
    eexists _, _. split; [reflexivity|]. simpl.
    change (fuelFor 0 9) with (S 9) in Hrun.
    destruct (minimax_root_move _ _ _ _ _ _ _ _ _ _ _ Hrun eq_refl)
      as [Hlegal Hsome].
    split.
    + intros m Hm. by apply available_valid, Hlegal.
    + intros Hne Hover.
      apply Hsome; first [lia | done | by apply Hover].
Qed.

(** X14.  [getBestMove] never throws and never returns an illegal move,
    in either difficulty, on any board, whatever the clock does and for
    any random draws in [0, 1): it returns no move when none is
    available; and it returns a move whenever one is available, except in
    hard mode on a board of size 3 whose game is over. *)
Theorem getBestMove_legal (clock : Z -> bool) (rnd : nat -> Rand)
    (b : Board) (ai : Player) (difficulty : Difficulty) (st : AIState) :
  validRand (rnd 0%nat) -> validRand (rnd 1%nat) ->
  exists r st',
    getBestMove clock rnd b ai difficulty st = Value (r, st')
    /\ (forall m, bestMove r = Some m -> isValidMove b (row m) (col m) = true)
    /\ (getAvailableMoves b = [] -> bestMove r = None)
    /\ (getAvailableMoves b <> [] ->
        (difficulty = Hard -> sizeOf b = 3 -> isGameOver b = false) ->
        exists m, bestMove r = Some m).
Proof. apply getBestMove_cases. Qed.

Lemma getBestMove_legal_witness :
  let b := [[Some X; Some O; Some X]; [None; Some O; None];
            [None; None; None]] in
  let rnd := fun k : nat => mkRand 1 2 in
  validRand (rnd 0%nat) /\ validRand (rnd 1%nat)
  /\ exists r st',
       getBestMove (fun n => 50 <? n) rnd b X Hard (mkAIState 0 false)
       = Value (r, st')
       /\ forall m, bestMove r = Some m
                    -> isValidMove b (row m) (col m) = true.
Proof.
  intros b rnd.
  assert (Hu : forall k, validRand (rnd k))
    by (intros k; repeat split; by vm_compute).
  split; [done|]. split; [done|].
  destruct (getBestMove_legal (fun n => 50 <? n) rnd b X Hard
              (mkAIState 0 false) (Hu 0%nat) (Hu 1%nat))
    as (r & st' & Hrun & Hlegal & _).
  exists r, st'. split; [exact Hrun | exact Hlegal].
Defined.

(** * The time budget *)

Section Budget.

Implicit Types (b : Board) (ai : Player) (st : AIState) (rec : searchFn)
  (clock : Z -> bool).

Lemma noAbortIn_trans clock lo mid hi :
  noAbortIn clock lo mid -> noAbortIn clock mid hi -> noAbortIn clock lo hi.
Proof.
  intros H1 H2 n Hn Hmod. destruct (decide (n <= mid)).
  - apply H1; [lia|done].
  - apply H2; [lia|done].
Qed.

Lemma budgetTrace_refl clock st :
  timeoutReached st = false -> budgetTrace clock st st.
Proof. intros Hst. unfold budgetTrace. rewrite Hst. intros n Hn. lia. Qed.

Lemma budgetTrace_trans clock st st1 st2 :
  timeoutReached st1 = false ->
  positionsEvaluated st1 <= positionsEvaluated st2 ->
  (timeoutReached st2 = true -> positionsEvaluated st1 < positionsEvaluated st2) ->
  budgetTrace clock st st1 -> budgetTrace clock st1 st2 ->
  budgetTrace clock st st2.
Proof.
  unfold budgetTrace. intros -> Hle Hlt H1 H2.
  destruct (timeoutReached st2).
  - destruct H2 as (H2 & Hmod & Hc). split; [|done].
    eapply noAbortIn_trans; [exact H1|done].
  - by eapply noAbortIn_trans.
Qed.

Lemma maxLoop_budget clock rec b d ai beta maxD moves alpha maxEval best
    st res st' :
  tracesBudget clock rec ->
  maxLoop rec b d ai beta maxD moves alpha maxEval best st = Value (res, st') ->
  timeoutReached st = false ->
  positionsEvaluated st <= positionsEvaluated st'
  /\ (timeoutReached st' = true ->
      positionsEvaluated st < positionsEvaluated st')
  /\ budgetTrace clock st st'.
Proof.
  intros Hrec. revert alpha maxEval best st.
  induction moves as [|mv rest IH]; intros alpha maxEval best st Hrun Hst;
    simpl in Hrun.
  { simplify_eq. split; [lia|]. split; [congruence|].
    by apply budgetTrace_refl. }
  rewrite Hst in Hrun.
  destruct (makeMove b (row mv) (col mv) ai) as [nb| |]; simpl in Hrun;
    [|done..].
  destruct (rec nb (d + 1) false ai alpha beta maxD st) as [[ev st1]| |] eqn:Hr;
    simpl in Hrun; [|done..].
  destruct (Hrec _ _ _ _ _ _ _ _ _ _ Hr Hst) as (Hlt & _ & Htrace).
  assert (Hend : st' = st1 ->
            positionsEvaluated st <= positionsEvaluated st'
            /\ (timeoutReached st' = true ->
                positionsEvaluated st < positionsEvaluated st')
            /\ budgetTrace clock st st').
  { intros ->. split; [lia|]. split; [intros _; lia|done]. }
  destruct (timeoutReached st1) eqn:Hst1.
  { apply Hend.
    destruct (Num_ltb maxEval (score ev)); destruct (Num_leb beta _);
      try (by simplify_eq);
      rewrite maxLoop_flag in Hrun by done; by simplify_eq. }
  destruct (Num_ltb maxEval (score ev)); destruct (Num_leb beta _);
    try (apply Hend; by simplify_eq);
    apply IH in Hrun as (Hle & Hlt' & Htrace'); try done;
    (split; [lia|]); (split; [intros ?; lia|]);
    by eapply budgetTrace_trans.
Qed.

Lemma minLoop_budget clock rec b d ai alpha maxD moves beta minEval best
    st res st' :
  tracesBudget clock rec ->
  minLoop rec b d ai alpha maxD moves beta minEval best st = Value (res, st') ->
  timeoutReached st = false ->
  positionsEvaluated st <= positionsEvaluated st'
  /\ (timeoutReached st' = true ->
      positionsEvaluated st < positionsEvaluated st')
  /\ budgetTrace clock st st'.
Proof.
  intros Hrec. revert beta minEval best st.
  induction moves as [|mv rest IH]; intros beta minEval best st Hrun Hst;
    simpl in Hrun.
  { simplify_eq. split; [lia|]. split; [congruence|].
    by apply budgetTrace_refl. }
  rewrite Hst in Hrun.
  destruct (makeMove b (row mv) (col mv) (getOpponent ai)) as [nb| |];
    simpl in Hrun; [|done..].
  destruct (rec nb (d + 1) true ai alpha beta maxD st) as [[ev st1]| |] eqn:Hr;
    simpl in Hrun; [|done..].
  destruct (Hrec _ _ _ _ _ _ _ _ _ _ Hr Hst) as (Hlt & _ & Htrace).
  assert (Hend : st' = st1 ->
            positionsEvaluated st <= positionsEvaluated st'
            /\ (timeoutReached st' = true ->
                positionsEvaluated st < positionsEvaluated st')
            /\ budgetTrace clock st st').
  { intros ->. split; [lia|]. split; [intros _; lia|done]. }
  destruct (timeoutReached st1) eqn:Hst1.
  { apply Hend.
    destruct (Num_ltb (score ev) minEval); destruct (Num_leb _ alpha);
      try (by simplify_eq);
      rewrite minLoop_flag in Hrun by done; by simplify_eq. }
  destruct (Num_ltb (score ev) minEval); destruct (Num_leb _ alpha);
    try (apply Hend; by simplify_eq);
    apply IH in Hrun as (Hle & Hlt' & Htrace'); try done;
    (split; [lia|]); (split; [intros ?; lia|]);
    by eapply budgetTrace_trans.
Qed.

Lemma minimax_tracesBudget clock fuel : tracesBudget clock (minimax clock fuel).
Proof.
  induction fuel as [|fuel IH]; [done|].
  intros b d isMax ai alpha beta maxD st r st' Hrun Hst.
  simpl in Hrun. unfold minimaxBody in Hrun.
  set (n := positionsEvaluated st + 1) in *.
  assert (Hleaf : forall sc mv,
            (n `mod` 100 =? 0) && clock n = false ->
            positionsEvaluated st < n
            /\ resPositionsEvaluated (mkMinimaxResult sc mv n) = n
            /\ budgetTrace clock st (mkAIState n (timeoutReached st))).
  { intros sc mv Hno. split; [lia|]. split; [done|].
    unfold budgetTrace. simpl. rewrite Hst. intros k Hk Hmod.
    assert (k = n) as -> by lia.
    apply andb_false_iff in Hno as [Hno|Hno]; [|done].
    apply Z.eqb_neq in Hno. done. }
  destruct ((n `mod` 100 =? 0) && clock n) eqn:Habort.
  { simplify_eq. simpl. split; [lia|]. split; [done|].
    apply andb_true_iff in Habort as [Hmod%Z.eqb_eq Hc].
    unfold budgetTrace. simpl. split; [|done]. intros k Hk. lia. }
  destruct (maxD <=? d); [simplify_eq; by apply Hleaf|].
  destruct (isGameOver b); [simplify_eq; by apply Hleaf|].
  destruct (bool_decide _); [simplify_eq; by apply Hleaf|].
  destruct (Hleaf (Fin 0) None eq_refl) as (_ & _ & Hn).
  destruct isMax.
  - apply bind_Value in Hrun as ([[s mv] st1] & Hloop & Hret).
    simpl in Hret. simplify_eq.
    apply (maxLoop_budget clock) in Hloop as (Hle & Hlt & Htrace);
      [|done..]. simpl in *.
    split; [lia|]. split; [done|].
    by eapply budgetTrace_trans; [| | |exact Hn|exact Htrace].
  - apply bind_Value in Hrun as ([[s mv] st1] & Hloop & Hret).
    simpl in Hret. simplify_eq.
    apply (minLoop_budget clock) in Hloop as (Hle & Hlt & Htrace);
      [|done..]. simpl in *.
    split; [lia|]. split; [done|].
    by eapply budgetTrace_trans; [| | |exact Hn|exact Htrace].
Qed.

End Budget.

(** A call on a leaf counts one node. *)
Lemma minimax_leaf_count clock fuel b d isMax ai alpha beta maxD st r st' :
  minimax clock fuel b d isMax ai alpha beta maxD st = Value (r, st') ->
  maxD <= d \/ isGameOver b = true ->
  positionsEvaluated st' = positionsEvaluated st + 1.
Proof.
  intros Hrun Hleaf. destruct fuel as [|fuel]; [done|].
  simpl in Hrun. unfold minimaxBody in Hrun.
  destruct (_ && clock _); [by simplify_eq|].
  destruct (Z.leb_spec maxD d); [by simplify_eq|].
  destruct Hleaf as [?|Hover]; [lia|]. rewrite Hover in Hrun. by simplify_eq.
Qed.

(** X15.  With fuel for the depth that remains, the search returns.
    Every call counts the node it is called on, so [positionsEvaluated]
    grows, by exactly one at a leaf (a node at the depth cap or a
    finished game); the result carries the count.  The search aborts
    exactly at the first node whose count is a multiple of 100 at which
    the budget is exceeded: when the abort flag is set on return, the
    last node counted is that node and every earlier check was negative;
    when it is clear, every check was negative. *)
Theorem minimax_aborts_at_first_expiry (clock : Z -> bool) (fuel : nat)
    (b : Board) (d : Z) (isMax : bool) (ai : Player) (alpha beta : Num)
    (maxD : Z) (st : AIState) :
  (Z.to_nat (maxD - d) < fuel)%nat ->
  timeoutReached st = false ->
  exists r st',
    minimax clock fuel b d isMax ai alpha beta maxD st = Value (r, st')
    /\ positionsEvaluated st < positionsEvaluated st'
    /\ resPositionsEvaluated r = positionsEvaluated st'
    /\ (maxD <= d \/ isGameOver b = true ->
        positionsEvaluated st' = positionsEvaluated st + 1)
    /\ (timeoutReached st' = true ->
        positionsEvaluated st' `mod` 100 = 0
        /\ clock (positionsEvaluated st') = true
        /\ noAbortIn clock (positionsEvaluated st)
             (positionsEvaluated st' - 1))
    /\ (timeoutReached st' = false ->
        noAbortIn clock (positionsEvaluated st) (positionsEvaluated st')).
Proof.
  intros Hfuel Hst.
  destruct (minimax_total clock fuel b d isMax ai alpha beta maxD st Hfuel)
    as (r & st' & Hrun).
  exists r, st'. split; [done|].
  destruct (minimax_tracesBudget clock fuel _ _ _ _ _ _ _ _ _ _ Hrun Hst)
    as (Hlt & Hres & Htrace).
  split; [done|]. split; [done|].
  split; [by apply (minimax_leaf_count _ _ _ _ _ _ _ _ _ _ _ _ Hrun)|].
  unfold budgetTrace in Htrace.
  destruct (timeoutReached st').
  - split; [|done]. intros _. tauto.
  - split; [done|]. by intros _.
Qed.

(** A search whose budget is exceeded from the node 151 on is aborted at
    the node 200, the first multiple of 100 after it. *)
Lemma minimax_aborts_at_first_expiry_witness :
  let b := [[Some X; None; None]; [None; Some O; None]; [None; None; None]] in
  let clock := fun n : Z => 150 <? n in
  let r := mkMinimaxResult (Fin 5) (Some (mkMove 0 1)) 200 in
  (Z.to_nat (9 - 0) < 10)%nat
  /\ timeoutReached (mkAIState 0 false) = false
  /\ minimax clock 10 b 0 true X NegInf PosInf 9 (mkAIState 0 false)
     = Value (r, mkAIState 200 true)
  /\ clock 200 = true /\ clock 100 = false.
Proof.
  intros b clock r.
  assert (Hfuel : (Z.to_nat (9 - 0) < 10)%nat) by (simpl; lia).
  assert (Hrun : minimax clock 10 b 0 true X NegInf PosInf 9
                   (mkAIState 0 false) = Value (r, mkAIState 200 true))
    by by vm_compute.
  split; [exact Hfuel|]. split; [reflexivity|]. split; [exact Hrun|].
  destruct (minimax_aborts_at_first_expiry clock 10 b 0 true X NegInf PosInf 9
              (mkAIState 0 false) Hfuel eq_refl)
    as (r' & st' & Hrun' & _ & _ & _ & Habort & _).
  rewrite Hrun in Hrun'. injection Hrun' as <- <-.
  destruct (Habort eq_refl) as (_ & Hc & Hno).
  split; [exact Hc|]. apply Hno; [simpl; lia|reflexivity].
Defined.

(** * Pruning does not change the result *)

Section NumOrder.

Lemma Num_eq_iff (x y : Num) :
  x = y <-> Num_tag x = Num_tag y /\ Num_val x = Num_val y.
Proof.
  split; [by intros ->|]. destruct x, y; simpl; intros [? ?]; congruence.
Qed.

Lemma Num_max_Fin (x y : Z) : Num_max (Fin x) (Fin y) = Fin (Z.max x y).
Proof. unfold Num_max. simpl. destruct (Z.ltb_spec x y); f_equal; lia. Qed.

Lemma Num_min_Fin (x y : Z) : Num_min (Fin x) (Fin y) = Fin (Z.min x y).
Proof. unfold Num_min. simpl. destruct (Z.ltb_spec y x); f_equal; lia. Qed.

Lemma Num_max_NegInf_l x : Num_max NegInf x = x.
Proof. by destruct x. Qed.

Lemma Num_max_NegInf_r x : Num_max x NegInf = x.
Proof. by destruct x. Qed.

Lemma Num_max_PosInf_l x : Num_max PosInf x = PosInf.
Proof. by destruct x. Qed.

Lemma Num_max_PosInf_r x : Num_max x PosInf = PosInf.
Proof. by destruct x. Qed.

Lemma Num_min_NegInf_l x : Num_min NegInf x = NegInf.
Proof. by destruct x. Qed.

Lemma Num_min_NegInf_r x : Num_min x NegInf = NegInf.
Proof. by destruct x. Qed.

Lemma Num_min_PosInf_l x : Num_min PosInf x = x.
Proof. by destruct x. Qed.

Lemma Num_min_PosInf_r x : Num_min x PosInf = x.
Proof. by destruct x. Qed.

End NumOrder.

Create Rewrite HintDb num.

#[local] Hint Rewrite Num_max_Fin Num_min_Fin Num_max_NegInf_l Num_max_NegInf_r
  Num_max_PosInf_l Num_max_PosInf_r Num_min_NegInf_l Num_min_NegInf_r
  Num_min_PosInf_l Num_min_PosInf_r : num.

(** Decides a statement about the order of [Num]: splits every number
    into its three cases and leaves integer arithmetic. *)
Ltac num_case :=
  unfold failSoft, Num_leb in *;
  autorewrite with num in *;
  repeat match goal with
         | H : context [@eq Num _ _] |- _ => rewrite !Num_eq_iff in H
         end;
  rewrite ?Num_eq_iff;
  simpl in *; try done; try lia.

Ltac num_lia :=
  repeat match goal with x : Num |- _ => destruct x; try done end; num_case.

Section AlphaBeta.

Implicit Types (b : Board) (ai : Player) (st : AIState) (rec : searchFn).

Lemma Num_max_assoc (x y z : Num) :
  Num_max (Num_max x y) z = Num_max x (Num_max y z).
Proof. num_lia. Qed.

Lemma Num_min_assoc (x y z : Num) :
  Num_min (Num_min x y) z = Num_min x (Num_min y z).
Proof. num_lia. Qed.

Lemma failSoft_exact (alpha beta t : Num) : failSoft alpha beta t t.
Proof. num_lia. Qed.

Lemma max_step_break (A M beta R : Num) (zc zr : Z) :
  Num_leb M A = true -> Num_ltb A beta = true ->
  failSoft A beta (Fin zc) (Fin zr) ->
  Num_leb beta (Num_max A (Fin zr)) = true ->
  failSoft A beta (Num_max (Num_max M (Fin zc)) R) (Num_max M (Fin zr)).
Proof. intros H1 H2 H3 H4. num_lia. Qed.

Lemma max_step_continue (A M beta R s : Num) (zc zr : Z) :
  Num_leb M A = true -> Num_ltb A beta = true ->
  failSoft A beta (Fin zc) (Fin zr) ->
  Num_leb beta (Num_max A (Fin zr)) = false ->
  failSoft (Num_max A (Fin zr)) beta (Num_max (Num_max M (Fin zr)) R) s ->
  failSoft A beta (Num_max (Num_max M (Fin zc)) R) s.
Proof. intros H1 H2 H3 H4 H5. num_lia. Qed.

Lemma max_step_inv (A M beta : Num) (zr : Z) :
  Num_leb M A = true ->
  Num_leb beta (Num_max A (Fin zr)) = false ->
  Num_leb (Num_max M (Fin zr)) (Num_max A (Fin zr)) = true
  /\ Num_ltb (Num_max A (Fin zr)) beta = true.
Proof. intros H1 H2. num_lia. Qed.

Lemma min_step_break (a M B R : Num) (zc zr : Z) :
  Num_leb B M = true -> Num_ltb a B = true ->
  failSoft a B (Fin zc) (Fin zr) ->
  Num_leb (Num_min B (Fin zr)) a = true ->
  failSoft a B (Num_min (Num_min M (Fin zc)) R) (Num_min M (Fin zr)).
Proof. intros H1 H2 H3 H4. num_lia. Qed.

Lemma min_step_continue (a M B R s : Num) (zc zr : Z) :
  Num_leb B M = true -> Num_ltb a B = true ->
  failSoft a B (Fin zc) (Fin zr) ->
  Num_leb (Num_min B (Fin zr)) a = false ->
  failSoft a (Num_min B (Fin zr)) (Num_min (Num_min M (Fin zr)) R) s ->
  failSoft a B (Num_min (Num_min M (Fin zc)) R) s.
Proof. intros H1 H2 H3 H4 H5. num_lia. Qed.

Lemma min_step_inv (a M B : Num) (zr : Z) :
  Num_leb B M = true ->
  Num_leb (Num_min B (Fin zr)) a = false ->
  Num_leb (Num_min B (Fin zr)) (Num_min M (Fin zr)) = true
  /\ Num_ltb a (Num_min B (Fin zr)) = true.
Proof. intros H1 H2. num_lia. Qed.

End AlphaBeta.

Section Exhaustive.

Implicit Types (b : Board) (ai : Player) (st : AIState) (rec : searchFn)
  (clock : Z -> bool).

Lemma foldl_ext_in {A B : Type} (f g : B -> A -> B) (x : B) (l : list A) :
  (forall acc a, a ∈ l -> f acc a = g acc a) -> foldl f x l = foldl g x l.
Proof.
  revert x. induction l as [|a l IH]; intros x Hfg; simpl; [done|].
  rewrite Hfg by left. apply IH. intros acc a' Ha'. apply Hfg. by right.
Qed.

Lemma foldl_Num_max {A : Type} (g : A -> Num) (x : Num) (l : list A) :
  foldl (fun acc a => Num_max acc (g a)) x l
  = Num_max x (foldl (fun acc a => Num_max acc (g a)) NegInf l).
Proof.
  revert x. induction l as [|a l IH]; intros x; simpl.
  - by rewrite Num_max_NegInf_r.
  - rewrite IH, (IH (Num_max NegInf (g a))), Num_max_NegInf_l.
    apply Num_max_assoc.
Qed.

Lemma foldl_Num_min {A : Type} (g : A -> Num) (x : Num) (l : list A) :
  foldl (fun acc a => Num_min acc (g a)) x l
  = Num_min x (foldl (fun acc a => Num_min acc (g a)) PosInf l).
Proof.
  revert x. induction l as [|a l IH]; intros x; simpl.
  - by rewrite Num_min_PosInf_r.
  - rewrite IH, (IH (Num_min PosInf (g a))), Num_min_PosInf_l.
    apply Num_min_assoc.
Qed.

Lemma foldl_Num_max_finite {A : Type} (g : A -> Num) (x : Num) (l : list A) :
  (forall a, exists z, g a = Fin z) ->
  (exists z, x = Fin z) \/ (x = NegInf /\ l <> []) ->
  exists z, foldl (fun acc a => Num_max acc (g a)) x l = Fin z.
Proof.
  intros Hg. revert x. induction l as [|a l IH]; intros x Hx; simpl.
  - destruct Hx as [Hx|[_ Hx]]; done.
  - apply IH. left. destruct (Hg a) as [z ->].
    destruct Hx as [[y ->]|[-> _]].
    + rewrite Num_max_Fin. eauto.
    + rewrite Num_max_NegInf_l. eauto.
Qed.

Lemma foldl_Num_min_finite {A : Type} (g : A -> Num) (x : Num) (l : list A) :
  (forall a, exists z, g a = Fin z) ->
  (exists z, x = Fin z) \/ (x = PosInf /\ l <> []) ->
  exists z, foldl (fun acc a => Num_min acc (g a)) x l = Fin z.
Proof.
  intros Hg. revert x. induction l as [|a l IH]; intros x Hx; simpl.
  - destruct Hx as [Hx|[_ Hx]]; done.
  - apply IH. left. destruct (Hg a) as [z ->].
    destruct Hx as [[y ->]|[-> _]].
    + rewrite Num_min_Fin. eauto.
    + rewrite Num_min_PosInf_l. eauto.
Qed.

(** The exhaustive value is a number. *)
Lemma plainScore_finite fuel b d isMax ai maxD :
  exists z, plainScore fuel b d isMax ai maxD = Fin z.
Proof.
  revert b d isMax. induction fuel as [|fuel IH]; intros b d isMax; simpl.
  { eauto. }
  destruct (maxD <=? d); [eauto|].
  destruct (isGameOver b); [eauto|].
  destruct (bool_decide _) eqn:Hlen; [eauto|].
  apply bool_decide_eq_false in Hlen.
  assert (Hne : getAvailableMoves b <> []).
  { intros E. by rewrite E in Hlen. }
  destruct isMax.
  - apply (foldl_Num_max_finite
             (fun mv => plainScore fuel (setCell b (row mv) (col mv) ai)
                          (d + 1) false ai maxD)); [|by right].
    intros mv. apply IH.
  - apply (foldl_Num_min_finite
             (fun mv => plainScore fuel
                          (setCell b (row mv) (col mv) (getOpponent ai))
                          (d + 1) true ai maxD)); [|by right].
    intros mv. apply IH.
Qed.

(** More fuel than the remaining depth does not change the exhaustive
    value. *)
Lemma plainScore_fuel fuel1 fuel2 b d isMax ai maxD :
  (Z.to_nat (maxD - d) < fuel1)%nat -> (Z.to_nat (maxD - d) < fuel2)%nat ->
  plainScore fuel1 b d isMax ai maxD = plainScore fuel2 b d isMax ai maxD.
Proof.
  revert fuel2 b d isMax.
  induction fuel1 as [|fuel1 IH]; intros fuel2 b d isMax H1 H2; [lia|].
  destruct fuel2 as [|fuel2]; [lia|]. simpl.
  destruct (Z.leb_spec maxD d) as [Hd|Hd]; [done|].
  destruct (isGameOver b); [done|].
  destruct (bool_decide _); [done|].
  destruct isMax.
  - apply foldl_ext_in. intros acc mv _. f_equal. apply IH; lia.
  - apply foldl_ext_in. intros acc mv _. f_equal. apply IH; lia.
Qed.

Lemma maxLoop_sound fuel rec b d ai beta maxD moves alpha maxEval best st
    s m st' :
  soundSearch fuel rec -> quiet rec ->
  (forall mv, mv ∈ moves -> mv ∈ getAvailableMoves b) ->
  maxLoop rec b d ai beta maxD moves alpha maxEval best st
    = Value (s, m, st') ->
  timeoutReached st = false ->
  Num_leb maxEval alpha = true -> Num_ltb alpha beta = true ->
  failSoft alpha beta
    (foldl (fun acc mv =>
              Num_max acc
                (plainScore fuel (setCell b (row mv) (col mv) ai)
                   (d + 1) false ai maxD)) maxEval moves) s.
Proof.
  intros Hsound Hquiet. revert alpha maxEval best st s m st'.
  induction moves as [|mv rest IH];
    intros alpha maxEval best st s m st' Hin Hrun Hst HM Hwin; simpl in Hrun.
  { simplify_eq. apply failSoft_exact. }
  rewrite Hst in Hrun.
  rewrite (makeMove_available b mv ai) in Hrun by (apply Hin; left).
  simpl in Hrun.
  destruct (rec _ _ _ _ _ _ _ _) as [[ev st1]| |] eqn:Hrec; simpl in Hrun;
    [|done..].
  destruct (Hquiet _ _ _ _ _ _ _ _ _ _ Hrec Hst) as [Hst1 [zr Hzr]].
  pose proof (Hsound _ _ _ _ _ _ _ _ _ _ Hrec Hst Hwin) as Hchild.
  destruct (plainScore_finite fuel (setCell b (row mv) (col mv) ai)
              (d + 1) false ai maxD) as [zc Hzc].
  rewrite Hzr in Hrun, Hchild. rewrite Hzc in Hchild.
  assert (Hpair : (if Num_ltb maxEval (Fin zr)
                   then (Fin zr, Some mv) else (maxEval, best))
                  = (Num_max maxEval (Fin zr),
                     if Num_ltb maxEval (Fin zr) then Some mv else best)).
  { unfold Num_max. by destruct (Num_ltb maxEval (Fin zr)). }
  rewrite Hpair in Hrun. clear Hpair.
  cbn [foldl]. rewrite foldl_Num_max, Hzc.
  destruct (Num_leb beta (Num_max alpha (Fin zr))) eqn:Hbreak.
  - simplify_eq. by apply max_step_break.
  - destruct (max_step_inv alpha maxEval beta zr HM Hbreak) as [HM' Hwin'].
    eapply max_step_continue; [done..|].
    rewrite <- foldl_Num_max.
    eapply IH; [|exact Hrun|done..].
    intros mv' Hmv'. apply Hin. by right.
Qed.

Lemma minLoop_sound fuel rec b d ai alpha maxD moves beta minEval best st
    s m st' :
  soundSearch fuel rec -> quiet rec ->
  (forall mv, mv ∈ moves -> mv ∈ getAvailableMoves b) ->
  minLoop rec b d ai alpha maxD moves beta minEval best st
    = Value (s, m, st') ->
  timeoutReached st = false ->
  Num_leb beta minEval = true -> Num_ltb alpha beta = true ->
  failSoft alpha beta
    (foldl (fun acc mv =>
              Num_min acc
                (plainScore fuel
                   (setCell b (row mv) (col mv) (getOpponent ai))
                   (d + 1) true ai maxD)) minEval moves) s.
Proof.
  intros Hsound Hquiet. revert beta minEval best st s m st'.
  induction moves as [|mv rest IH];
    intros beta minEval best st s m st' Hin Hrun Hst HM Hwin; simpl in Hrun.
  { simplify_eq. apply failSoft_exact. }
  rewrite Hst in Hrun.
  rewrite (makeMove_available b mv (getOpponent ai)) in Hrun
    by (apply Hin; left).
  simpl in Hrun.
  destruct (rec _ _ _ _ _ _ _ _) as [[ev st1]| |] eqn:Hrec; simpl in Hrun;
    [|done..].
  destruct (Hquiet _ _ _ _ _ _ _ _ _ _ Hrec Hst) as [Hst1 [zr Hzr]].
  pose proof (Hsound _ _ _ _ _ _ _ _ _ _ Hrec Hst Hwin) as Hchild.
  destruct (plainScore_finite fuel
              (setCell b (row mv) (col mv) (getOpponent ai))
              (d + 1) true ai maxD) as [zc Hzc].
  rewrite Hzr in Hrun, Hchild. rewrite Hzc in Hchild.
  assert (Hpair : (if Num_ltb (Fin zr) minEval
                   then (Fin zr, Some mv) else (minEval, best))
                  = (Num_min minEval (Fin zr),
                     if Num_ltb (Fin zr) minEval then Some mv else best)).
  { unfold Num_min. by destruct (Num_ltb (Fin zr) minEval). }
  rewrite Hpair in Hrun. clear Hpair.
  cbn [foldl]. rewrite foldl_Num_min, Hzc.
  destruct (Num_leb (Num_min beta (Fin zr)) alpha) eqn:Hbreak.
  - simplify_eq. by apply min_step_break.
  - destruct (min_step_inv alpha minEval beta zr HM Hbreak) as [HM' Hwin'].
    eapply min_step_continue; [done..|].
    rewrite <- foldl_Num_min.
    eapply IH; [|exact Hrun|done..].
    intros mv' Hmv'. apply Hin. by right.
Qed.

(** With a clock that never expires, the pruned search keeps the
    fail-soft contract with respect to the exhaustive value. *)
Lemma minimax_sound fuel : soundSearch fuel (minimax never fuel).
Proof.
  induction fuel as [|fuel IH];
    intros b d isMax ai alpha beta maxD st r st' Hrun Hst Hwin; [done|].
  change (minimax never (S fuel)) with (minimaxBody never (minimax never fuel))
    in Hrun.
  unfold minimaxBody in Hrun. cbv zeta in Hrun.
  unfold never at 1 in Hrun. rewrite andb_false_r in Hrun.
  cbn [plainScore].
  destruct (maxD <=? d); [simplify_eq; apply failSoft_exact|].
  destruct (isGameOver b); [simplify_eq; apply failSoft_exact|].
  destruct (bool_decide _); [simplify_eq; apply failSoft_exact|].
  destruct isMax.
  - destruct (maxLoop _ _ _ _ _ _ _ _ _ _ _) as [[[s m] st1]| |] eqn:Hloop;
      simpl in Hrun; [|done..].
    simplify_eq. simpl.
    eapply maxLoop_sound;
      [exact IH|apply minimax_never_quiet|done|exact Hloop|done| |done].
    by destruct alpha.
  - destruct (minLoop _ _ _ _ _ _ _ _ _ _ _) as [[[s m] st1]| |] eqn:Hloop;
      simpl in Hrun; [|done..].
    simplify_eq. simpl.
    eapply minLoop_sound;
      [exact IH|apply minimax_never_quiet|done|exact Hloop|done| |done].
    by destruct beta.
Qed.

End Exhaustive.

Section RootMove.

Implicit Types (b : Board) (ai : Player) (st : AIState) (rec : searchFn)
  (clock : Z -> bool) (rnd : nat -> Rand).

Lemma root_step_better (A : Num) (zc zr : Z) :
  A <> PosInf -> failSoft A PosInf (Fin zc) (Fin zr) ->
  Num_ltb A (Fin zr) = true ->
  zr = zc /\ Num_max A (Fin zr) = Fin zr
  /\ Num_leb PosInf (Num_max A (Fin zr)) = false.
Proof. intros H1 H2 H3. num_lia. Qed.

Lemma root_step_worse (A : Num) (zc zr : Z) :
  A <> PosInf -> failSoft A PosInf (Fin zc) (Fin zr) ->
  Num_ltb A (Fin zr) = false ->
  Num_leb (Fin zc) A = true /\ Num_max A (Fin zr) = A
  /\ Num_leb PosInf (Num_max A (Fin zr)) = false.
Proof. intros H1 H2 H3. num_lia. Qed.

(** The maximizing loop at a node whose window is open above: the move
    it keeps is the first one of greatest exhaustive value. *)
Lemma maxLoop_root fuel rec b d ai maxD moves A best st s m st' :
  soundSearch fuel rec -> quiet rec ->
  (forall mv, mv ∈ moves -> mv ∈ getAvailableMoves b) ->
  maxLoop rec b d ai PosInf maxD moves A A best st = Value (s, m, st') ->
  timeoutReached st = false -> A <> PosInf ->
  let v := fun mv => plainScore fuel (setCell b (row mv) (col mv) ai)
                       (d + 1) false ai maxD in
  (s = A /\ m = best /\ Forall (fun mv => Num_leb (v mv) A = true) moves)
  \/ (exists pre mv post,
        moves = pre ++ mv :: post /\ m = Some mv /\ s = v mv
        /\ Num_ltb A s = true
        /\ Forall (fun m' => Num_ltb (v m') s = true) pre
        /\ Forall (fun m' => Num_leb (v m') s = true) post).
Proof.
  intros Hsound Hquiet Hin Hrun Hst HA v.
  revert A best st s m st' Hin Hrun Hst HA.
  induction moves as [|mv rest IH]; intros A best st s m st' Hin Hrun Hst HA;
    simpl in Hrun.
  { simplify_eq. left. by split; [|split]. }
  rewrite Hst in Hrun.
  rewrite (makeMove_available b mv ai) in Hrun by (apply Hin; left).
  simpl in Hrun.
  destruct (rec _ _ _ _ _ _ _ _) as [[ev st1]| |] eqn:Hrec; simpl in Hrun;
    [|done..].
  destruct (Hquiet _ _ _ _ _ _ _ _ _ _ Hrec Hst) as [Hst1 [zr Hzr]].
  assert (Hwin : Num_ltb A PosInf = true) by by destruct A.
  pose proof (Hsound _ _ _ _ _ _ _ _ _ _ Hrec Hst Hwin) as Hchild.
  destruct (plainScore_finite fuel (setCell b (row mv) (col mv) ai)
              (d + 1) false ai maxD) as [zc Hzc].
  rewrite Hzr in Hrun, Hchild. rewrite Hzc in Hchild.
  assert (Hv : v mv = Fin zc) by exact Hzc.
  assert (Hin' : forall mv', mv' ∈ rest -> mv' ∈ getAvailableMoves b).
  { intros mv' Hmv'. apply Hin. by right. }
  destruct (Num_ltb A (Fin zr)) eqn:Hlt.
  - destruct (root_step_better A zc zr HA Hchild Hlt) as (-> & Hmax & Hnb).
    rewrite Hmax in Hrun. simpl in Hrun.
    apply IH in Hrun; [|done..].
    right. destruct Hrun as [(-> & -> & Hall)|
      (pre & mv' & post & -> & -> & -> & Hlt' & Hpre & Hpost)].
    + exists [], mv, rest. rewrite Hv.
      split; [done|]. split; [done|]. split; [done|]. split; [done|].
      split; [by apply Forall_nil|done].
    + exists (mv :: pre), mv', post.
      split; [done|]. split; [done|]. split; [done|].
      split; [exact (Num_ltb_trans _ _ _ Hlt Hlt')|].
      split; [|done]. apply Forall_cons. split; [|done].
      by rewrite Hv.
  - destruct (root_step_worse A zc zr HA Hchild Hlt) as (Hle & Hmax & Hnb).
    rewrite Hnb, Hmax in Hrun.
    apply IH in Hrun; [|done..].
    destruct Hrun as [(-> & -> & Hall)|
      (pre & mv' & post & -> & -> & -> & Hlt' & Hpre & Hpost)].
    + left. split; [done|]. split; [done|].
      apply Forall_cons. split; [|done]. by rewrite Hv.
    + right. exists (mv :: pre), mv', post.
      split; [done|]. split; [done|]. split; [done|]. split; [done|].
      split; [|done]. apply Forall_cons. split; [|done].
      rewrite Hv. exact (Num_leb_ltb_trans _ _ _ Hle Hlt').
Qed.

End RootMove.

(** X16. Started with the abort flag clear and the full window, the
    pruned search returns, and when the time budget did not end it, its
    score is the value of the exhaustive minimax of the same depth: the
    cut-offs never change the score. *)
Theorem minimax_unpruned_value (clock : Z -> bool) (b : Board) (d : Z)
    (isMax : bool) (ai : Player) (maxD : Z) (st : AIState) :
  timeoutReached st = false ->
  exists r st',
    minimax clock (fuelFor d maxD) b d isMax ai NegInf PosInf maxD st
    = Value (r, st')
    /\ (timeoutReached st' = false ->
        score r = plainScore (fuelFor d maxD) b d isMax ai maxD).
Proof.
  intros Hst.
  destruct (minimax_total clock (fuelFor d maxD) b d isMax ai NegInf PosInf
              maxD st) as (r & st' & Hrun); [unfold fuelFor; lia|].
  exists r, st'. split; [done|]. intros Hst'.
  pose proof (minimax_agree_never clock _ _ _ _ _ _ _ _ _ _ _ Hrun Hst')
    as Hnever.
  pose proof (minimax_sound _ _ _ _ _ _ _ _ _ _ _ Hnever Hst eq_refl)
    as (_ & Hmid & _).
  destruct (plainScore_finite (fuelFor d maxD) b d isMax ai maxD) as [z Hz].
  rewrite Hz in *. by apply Hmid.
Qed.

Lemma minimax_unpruned_value_witness :
  exists r st',
    minimax never (fuelFor 0 9)
      [[Some X; Some O; None]; [None; Some X; None]; [None; None; Some O]]
      0 true X NegInf PosInf 9 (mkAIState 0 false) = Value (r, st')
    /\ (timeoutReached st' = false ->
        score r
        = plainScore (fuelFor 0 9)
            [[Some X; Some O; None]; [None; Some X; None];
             [None; None; Some O]] 0 true X 9).
Proof. apply (minimax_unpruned_value never). reflexivity. Defined.

(** The root of the hard-mode search of a 3 x 3 board. *)
Lemma getBestMove_hard3_root (clock : Z -> bool)
    (rnd : nat -> Rand) (b : Board) (ai : Player) (st : AIState) :
  wf_board b -> sizeOf b = 3 -> isGameOver b = false ->
  exists r st',
    getBestMove clock rnd b ai Hard st = Value (r, st')
    /\ (timeoutReached st' = false ->
        exists pre mv post,
          getAvailableMoves b = pre ++ mv :: post
          /\ bestMove r = Some mv
          /\ lastMoveScore (metrics r) = replyScore b ai mv
          /\ Forall (fun m => Num_ltb (replyScore b ai m)
                                (replyScore b ai mv) = true) pre
          /\ Forall (fun m => Num_leb (replyScore b ai m)
                                (replyScore b ai mv) = true) post).
Proof.
  intros Hwf Hsize Hover.
  rewrite (getBestMove_hard3 clock rnd b ai st Hsize).
  destruct (minimax_total clock (fuelFor 0 9) b 0 true ai NegInf PosInf 9
              (mkAIState 0 false)) as (r & st' & Hrun); [unfold fuelFor; lia|].
  rewrite Hrun. simpl. eexists _, st'. split; [done|]. intros Hst'. simpl.
  apply (minimax_agree_never clock _ _ _ _ _ _ _ _ _ _ _) in Hrun; [|done].
  change (minimax never (fuelFor 0 9))
    with (minimaxBody never (minimax never 9)) in Hrun.
  unfold minimaxBody in Hrun. cbv zeta in Hrun.
  unfold never at 1 in Hrun. rewrite andb_false_r in Hrun.
  change (9 <=? 0) with false in Hrun. cbv iota in Hrun.
  rewrite Hover in Hrun.
  assert (Hne : getAvailableMoves b <> []).
  { intros E. apply no_moves_game_over in E; [|done]. congruence. }
  rewrite bool_decide_false in Hrun.
  2:{ intros E. apply Hne. by apply length_zero_iff_nil. }
  destruct (maxLoop _ _ _ _ _ _ _ _ _ _ _) as [[[s m] st1]| |] eqn:Hloop;
    simpl in Hrun; [|done..].
  injection Hrun as <- <-. simpl.
  apply (maxLoop_root 9) in Hloop;
    [|apply minimax_sound|apply minimax_never_quiet|done..].
  destruct Hloop as [(-> & -> & Hall)|
    (pre & mv & post & Hmoves & -> & -> & _ & Hpre & Hpost)].
  - destruct (getAvailableMoves b) as [|mv rest]; [done|].
    apply Forall_cons in Hall as [Hmv _].
    destruct (plainScore_finite 9 (setCell b (row mv) (col mv) ai) (0 + 1)
                false ai 9) as [z Hz].
    rewrite Hz in Hmv. done.
  - exists pre, mv, post. split; [done|]. split; [done|].
    split; [done|]. by split.
Qed.

(** X17. On a 3 x 3 board on which the game is not over, hard mode
    returns, and when the time budget did not end the search, its move
    is the first free cell in row-major order whose exhaustive minimax
    value is greatest, and the reported score is that value. *)
Theorem getBestMove_hard3_first_optimal (clock : Z -> bool)
    (rnd : nat -> Rand) (b : Board) (ai : Player) (st : AIState) :
  wf_board b -> sizeOf b = 3 -> isGameOver b = false ->
  exists r st',
    getBestMove clock rnd b ai Hard st = Value (r, st')
    /\ (timeoutReached st' = false ->
        exists pre mv post,
          getAvailableMoves b = pre ++ mv :: post
          /\ bestMove r = Some mv
          /\ lastMoveScore (metrics r) = replyScore b ai mv
          /\ Forall (fun m => Num_ltb (replyScore b ai m)
                                (replyScore b ai mv) = true) pre
          /\ Forall (fun m => Num_leb (replyScore b ai m)
                                (replyScore b ai mv) = true) post).
Proof. apply getBestMove_hard3_root. Qed.

Lemma getBestMove_hard3_first_optimal_witness :
  let b := [[Some X; Some O; None]; [None; Some X; None];
            [None; None; Some O]] in
  exists r st',
    getBestMove never (fun _ => mkRand 0 1) b X Hard (mkAIState 0 false)
    = Value (r, st')
    /\ (timeoutReached st' = false ->
        exists pre mv post,
          getAvailableMoves b = pre ++ mv :: post
          /\ bestMove r = Some mv
          /\ lastMoveScore (metrics r) = replyScore b X mv
          /\ Forall (fun m => Num_ltb (replyScore b X m)
                                (replyScore b X mv) = true) pre
          /\ Forall (fun m => Num_leb (replyScore b X m)
                                (replyScore b X mv) = true) post).
Proof.
  intros b.
  apply (getBestMove_hard3_first_optimal never (fun _ => mkRand 0 1) b X
           (mkAIState 0 false)).
  - repeat constructor.
  - reflexivity.
  - by vm_compute.
Defined.

(** * What hard mode plays at once *)

Section Bounds.

Implicit Types (b : Board) (ai p : Player) (m : Move).

Lemma available_setCell_length b m p :
  m ∈ getAvailableMoves b ->
  length (getAvailableMoves b)
  = S (length (getAvailableMoves (setCell b (row m) (col m) p))).
Proof.
  intros Hm.
  rewrite getAvailableMoves_setCell by by apply available_valid.
  apply length_filter_ne; [apply getAvailableMoves_NoDup|].
  by destruct m.
Qed.

Lemma available_length_le b :
  (length (getAvailableMoves b)
   <= Z.to_nat (sizeOf b) * Z.to_nat (sizeOf b))%nat.
Proof.
  unfold getAvailableMoves. cbv zeta.
  match goal with
  | |- (length (?l ≫= ?f) <= _)%nat =>
      destruct (bind_length_le f (Z.to_nat (sizeOf b)) l) as [H _]
  end.
  - intros r _.
    match goal with
    | |- (length (?l ≫= ?f) <= _)%nat =>
        destruct (bind_length_le f 1%nat l) as [H _]
    end.
    + intros c _. destruct (isNull _); simpl; lia.
    + rewrite length_seqZ in H. lia.
  - by rewrite length_seqZ in H.
Qed.

Lemma foldl_Num_max_bounds {A : Type} (g : A -> Num) (lo hi : Z) (x : Num)
    (l : list A) :
  (forall a, a ∈ l -> exists z, g a = Fin z /\ lo <= z <= hi) ->
  (x = NegInf /\ l <> []) \/ (exists z, x = Fin z /\ lo <= z <= hi) ->
  exists z, foldl (fun acc a => Num_max acc (g a)) x l = Fin z
            /\ lo <= z <= hi.
Proof.
  revert x. induction l as [|a l IH]; intros x Hg Hx; simpl.
  - destruct Hx as [[_ ?]|?]; done.
  - apply IH. { intros a' Ha'. apply Hg. by right. }
    right. destruct (Hg a) as (z & -> & Hz); [left|].
    destruct Hx as [[-> _]|(y & -> & Hy)].
    + rewrite Num_max_NegInf_l. eauto.
    + rewrite Num_max_Fin. exists (Z.max y z). split; [done|lia].
Qed.

Lemma foldl_Num_min_bounds {A : Type} (g : A -> Num) (lo hi : Z) (x : Num)
    (l : list A) :
  (forall a, a ∈ l -> exists z, g a = Fin z /\ lo <= z <= hi) ->
  (x = PosInf /\ l <> []) \/ (exists z, x = Fin z /\ lo <= z <= hi) ->
  exists z, foldl (fun acc a => Num_min acc (g a)) x l = Fin z
            /\ lo <= z <= hi.
Proof.
  revert x. induction l as [|a l IH]; intros x Hg Hx; simpl.
  - destruct Hx as [[_ ?]|?]; done.
  - apply IH. { intros a' Ha'. apply Hg. by right. }
    right. destruct (Hg a) as (z & -> & Hz); [left|].
    destruct Hx as [[-> _]|(y & -> & Hy)].
    + rewrite Num_min_PosInf_l. eauto.
    + rewrite Num_min_Fin. exists (Z.min y z). split; [done|lia].
Qed.

(** A minimum is at most each of its arguments. *)
Lemma foldl_Num_min_le {A : Type} (g : A -> Num) (x : Num) (l : list A)
    (a : A) :
  a ∈ l ->
  Num_leb (foldl (fun acc a => Num_min acc (g a)) x l) (g a) = true.
Proof.
  revert x. induction l as [|a' l IH]; intros x Ha; [by apply elem_of_nil in Ha|].
  simpl. apply elem_of_cons in Ha as [->|Ha]; [|by apply IH].
  rewrite foldl_Num_min. generalize (foldl (fun acc a => Num_min acc (g a)) PosInf l).
  intros R. generalize (g a'). intros y. num_lia.
Qed.

(** The range of the exhaustive value of a position from which the depth
    limit is out of reach: a win of the searcher at depth [k] counts
    [10 - k], a loss [k - 10] and a draw [k]. *)
Lemma plainScore_bounds fuel b d isMax ai maxD :
  (length (getAvailableMoves b) < fuel)%nat ->
  d + Z.of_nat (length (getAvailableMoves b)) < maxD -> maxD <= 10 ->
  exists z,
    plainScore fuel b d isMax ai maxD = Fin z
    /\ d - 10 <= z
       <= Z.max (10 - d) (d + Z.of_nat (length (getAvailableMoves b)))
    /\ (isGameOver b = false ->
        d - 9 <= z
        <= Z.max (9 - d) (d + Z.of_nat (length (getAvailableMoves b)))).
Proof.
  revert b d isMax.
  induction fuel as [|fuel IH]; intros b d isMax Hfuel Hd HmaxD; [lia|].
  cbn [plainScore].
  destruct (Z.leb_spec maxD d); [lia|].
  destruct (isGameOver b) eqn:Hover.
  { destruct (evaluateBoard_cases b ai) as [[_ ->]|[[_ ->]|[_ ->]]]; simpl;
      eexists; (split; [done|]); (split; [lia|done]). }
  destruct (bool_decide _) eqn:Hlen.
  { apply bool_decide_eq_true in Hlen. exists 0. rewrite Hlen in *.
    split; [done|]. split; [lia|]. intros _. lia. }
  apply bool_decide_eq_false in Hlen.
  assert (Hne : getAvailableMoves b <> []).
  { intros E. by rewrite E in Hlen. }
  assert (Hchild : forall mv p isMax',
    mv ∈ getAvailableMoves b ->
    exists z,
      plainScore fuel (setCell b (row mv) (col mv) p) (d + 1) isMax' ai maxD
      = Fin z
      /\ d - 9 <= z
         <= Z.max (9 - d) (d + Z.of_nat (length (getAvailableMoves b)))).
  { intros mv p isMax' Hmv.
    pose proof (available_setCell_length b mv p Hmv) as Hl.
    destruct (IH (setCell b (row mv) (col mv) p) (d + 1) isMax')
      as (z & Hz & Hb & _); [lia..|].
    exists z. split; [done|]. lia. }
  destruct isMax.
  - destruct (foldl_Num_max_bounds
                (fun mv => plainScore fuel (setCell b (row mv) (col mv) ai)
                             (d + 1) false ai maxD)
                (d - 9)
                (Z.max (9 - d) (d + Z.of_nat (length (getAvailableMoves b))))
                NegInf (getAvailableMoves b)) as (z & Hz & Hb).
    + intros mv Hmv. by apply Hchild.
    + by left.
    + exists z. split; [exact Hz|]. split; [lia|]. intros _. lia.
  - destruct (foldl_Num_min_bounds
                (fun mv => plainScore fuel
                             (setCell b (row mv) (col mv) (getOpponent ai))
                             (d + 1) true ai maxD)
                (d - 9)
                (Z.max (9 - d) (d + Z.of_nat (length (getAvailableMoves b))))
                PosInf (getAvailableMoves b)) as (z & Hz & Hb).
    + intros mv Hmv. by apply Hchild.
    + by left.
    + exists z. split; [exact Hz|]. split; [lia|]. intros _. lia.
Qed.

(** Every line of the 3 x 3 board has a cell other than a given one. *)
Lemma line3_other (l : WinningLine) (r c : Z) :
  l ∈ generateWinningCombinations 3 ->
  exists r' c', (r', c') ∈ l /\ (r', c') <> (r, c).
Proof.
  intros Hl. vm_compute in Hl.
  repeat (apply elem_of_cons in Hl as [->|Hl]);
    [..|by apply elem_of_nil in Hl];
    match goal with
    | |- exists r' c', (r', c') ∈ (?x :: ?y :: _) /\ _ =>
        destruct (decide (x = (r, c))) as [E|E];
          [exists y.1, y.2; split; [right; left|simpl; congruence]
          |exists x.1, x.2; split; [left|exact E]]
    end.
Qed.

(** A move that wins at once is played on a board that already holds a
    mark. *)
Lemma win_not_first b p m :
  sizeOf b = 3 -> m ∈ getAvailableMoves b ->
  winner (checkWinner (setCell b (row m) (col m) p)) = Some p ->
  (length (getAvailableMoves b) < 9)%nat.
Proof.
  intros Hsize Hm Hwin.
  pose proof (available_length_le b) as Hle. rewrite Hsize in Hle.
  assert (Hne : Z.of_nat (length (getAvailableMoves b)) <> sizeOf b * sizeOf b);
    [|rewrite Hsize in Hne; lia].
  intros Hempty%isEmptyBoard_count.
  assert (Hv : isValidMove b (row m) (col m) = true) by by apply available_valid.
  unfold checkWinner in Hwin. rewrite sizeOf_setCell, Hsize in Hwin.
  destruct (scanLines_cases (setCell b (row m) (col m) p)
              (generateWinningCombinations 3))
    as [[E _]|(pre & l & post & q & Hlines & [_ Hl] & _ & E)];
    rewrite E in Hwin; [done|].
  destruct (line3_other l (row m) (col m)) as (r' & c' & Hin & Hneq).
  { rewrite Hlines. apply elem_of_app. right. left. }
  specialize (Hl r' c' Hin). rewrite cellAt_setCell in Hl by done.
  rewrite decide_False in Hl by (intros [-> ->]; done).
  rewrite Hempty in Hl; [done|].
  pose proof (lines_in_bounds 3) as Hb.
  rewrite Forall_forall in Hb. specialize (Hb l).
  rewrite Forall_forall in Hb. rewrite Hsize.
  apply (Hb ltac:(rewrite Hlines; apply elem_of_app; right; left) (r', c') Hin).
Qed.

End Bounds.

(** X18. On a 3 x 3 board on which the game is not over and on which
    some move wins at once, hard mode returns, and when the time budget
    did not end the search, it plays a move that wins at once, with the
    score 9. *)
Theorem getBestMove_hard3_takes_win (clock : Z -> bool) (rnd : nat -> Rand)
    (b : Board) (ai : Player) (st : AIState) (m0 : Move) :
  wf_board b -> sizeOf b = 3 -> isGameOver b = false -> wins b ai m0 ->
  exists r st',
    getBestMove clock rnd b ai Hard st = Value (r, st')
    /\ (timeoutReached st' = false ->
        exists mv, bestMove r = Some mv /\ wins b ai mv
                   /\ lastMoveScore (metrics r) = Fin 9).
Proof.
  intros Hwf Hsize Hover Hwins.
  destruct (getBestMove_hard3_root clock rnd b ai st Hwf Hsize Hover)
    as (r & st' & Hrun & Hroot).
  exists r, st'. split; [exact Hrun|]. intros Hst'.
  destruct (Hroot Hst') as (pre & mv & post & Hmoves & Hbest & Hscore & Hpre
                            & Hpost).
  clear Hroot Hrun.
  assert (Hm0 : m0 ∈ getAvailableMoves b).
  { destruct Hwins as (b' & [Hv _]%makeMove_Value & _).
    by apply available_valid. }
  apply wins_available in Hwins; [|done].
  assert (Hmv : mv ∈ getAvailableMoves b).
  { rewrite Hmoves. apply elem_of_app. right. left. }
  pose proof (win_not_first b ai m0 Hsize Hm0 Hwins) as Hlen.
  (* the value of the winning move *)
  assert (H0 : replyScore b ai m0 = Fin 9).
  { unfold replyScore. cbn [plainScore].
    change (9 <=? 1) with false. cbv iota.
    rewrite (isGameOver_winner _ _ Hwins).
    destruct (evaluateBoard_cases (setCell b (row m0) (col m0) ai) ai)
      as [[_ ->]|[[E _]|[E _]]]; [done|..]; rewrite E in Hwins.
    - injection Hwins as Hp. by apply getOpponent_ne in Hp.
    - done. }
  (* it is at most the value of the move played *)
  assert (Hle : Num_leb (replyScore b ai m0) (replyScore b ai mv) = true).
  { rewrite Hmoves in Hm0.
    apply elem_of_app in Hm0 as [Hin|[->|Hin]%elem_of_cons].
    - rewrite Forall_forall in Hpre. by apply Num_ltb_leb, Hpre.
    - apply Num_leb_refl.
    - rewrite Forall_forall in Hpost. by apply Hpost. }
  rewrite H0 in Hle. rewrite Hscore. clear Hpre Hpost H0.
  exists mv. split; [done|].
  pose proof (available_setCell_length b mv ai Hmv) as Hl.
  unfold replyScore in *.
  destruct (isGameOver (setCell b (row mv) (col mv) ai)) eqn:Hov.
  - cbn [plainScore] in *. change (9 <=? 1) with false in *.
    cbv iota in *. rewrite Hov in *.
    destruct (evaluateBoard_cases (setCell b (row mv) (col mv) ai) ai)
      as [[Hw E]|[[_ E]|[_ E]]]; rewrite E in *; [|done..].
    split; [|done]. by apply wins_available.
  - destruct (plainScore_bounds 9 (setCell b (row mv) (col mv) ai) 1 false
                ai 9) as (z & Hz & _ & Hb); [lia..|].
    rewrite Hz in Hle. specialize (Hb Hov). simpl in Hle.
    apply negb_true_iff, Z.ltb_ge in Hle. lia.
Qed.

Lemma getBestMove_hard3_takes_win_witness :
  let b := [[Some X; Some O; None]; [None; Some X; None];
            [Some O; None; None]] in
  exists r st',
    getBestMove never (fun _ => mkRand 0 1) b X Hard (mkAIState 0 false)
    = Value (r, st')
    /\ (timeoutReached st' = false ->
        exists mv, bestMove r = Some mv /\ wins b X mv
                   /\ lastMoveScore (metrics r) = Fin 9).
Proof.
  intros b.
  apply (getBestMove_hard3_takes_win never (fun _ => mkRand 0 1) b X
           (mkAIState 0 false) (mkMove 2 2)).
  - repeat constructor.
  - reflexivity.
  - by vm_compute.
  - exists [[Some X; Some O; None]; [None; Some X; None];
            [Some O; None; Some X]]. by vm_compute.
Defined.

Section Threats.

Implicit Types (b : Board) (ai p q : Player) (m t : Move) (l : WinningLine).

Lemma winner_None_no_line b l p :
  winner (checkWinner b) = None ->
  l ∈ generateWinningCombinations (sizeOf b) -> ~ complete b l p.
Proof.
  unfold checkWinner. intros Hw Hl.
  destruct (scanLines_cases b (generateWinningCombinations (sizeOf b)))
    as [[_ Hno]|(pre & l' & post & q & _ & _ & _ & E)].
  - by apply Hno.
  - rewrite E in Hw. done.
Qed.

Lemma winner_Some_line b p :
  winner (checkWinner b) = Some p ->
  exists l, l ∈ generateWinningCombinations (sizeOf b) /\ complete b l p.
Proof.
  unfold checkWinner. intros Hw.
  destruct (scanLines_cases b (generateWinningCombinations (sizeOf b)))
    as [[E _]|(pre & l & post & q & Hlines & Hl & _ & E)];
    rewrite E in Hw; [done|].
  simpl in Hw. injection Hw as ->. exists l. split; [|done].
  rewrite Hlines. apply elem_of_app. right. left.
Qed.

Lemma winner_of_lines b p l :
  l ∈ generateWinningCombinations (sizeOf b) -> complete b l p ->
  (forall l' q, l' ∈ generateWinningCombinations (sizeOf b) ->
                complete b l' q -> q = p) ->
  winner (checkWinner b) = Some p.
Proof.
  unfold checkWinner. intros Hl Hc Hall.
  destruct (scanLines_cases b (generateWinningCombinations (sizeOf b)))
    as [[_ Hno]|(pre & l' & post & q & Hlines & Hl' & _ & E)].
  - by destruct (Hno l p Hl).
  - rewrite E. simpl. f_equal. apply (Hall l'); [|done].
    rewrite Hlines. apply elem_of_app. right. left.
Qed.

(** A line complete after a move with another mark was complete before. *)
Lemma complete_before b r c q l p :
  isValidMove b r c = true ->
  complete (setCell b r c q) l p -> p <> q -> complete b l p.
Proof.
  intros Hv [Hne Hl] Hpq. split; [done|]. intros r' c' Hin.
  specialize (Hl r' c' Hin). rewrite cellAt_setCell in Hl by done.
  destruct (decide _); [congruence|done].
Qed.

(** A move on a board without a winner produces no winner other than the
    mover. *)
Lemma move_winner b p m :
  winner (checkWinner b) = None -> m ∈ getAvailableMoves b ->
  winner (checkWinner (setCell b (row m) (col m) p)) = Some p
  \/ winner (checkWinner (setCell b (row m) (col m) p)) = None.
Proof.
  intros Hnone Hm.
  destruct (winner (checkWinner (setCell b (row m) (col m) p)))
    as [q|] eqn:Hw; [|by right].
  destruct (decide (q = p)) as [->|Hq]; [by left|]. exfalso.
  apply winner_Some_line in Hw as (l & Hl & Hc).
  rewrite sizeOf_setCell in Hl.
  apply complete_before in Hc; [|by apply available_valid|done].
  by eapply winner_None_no_line.
Qed.

(** A move of the opponent that wins at once still wins after any other
    move of the searcher that does not win. *)
Lemma threat_stays b ai m t :
  winner (checkWinner b) = None ->
  m ∈ getAvailableMoves b -> t ∈ getAvailableMoves b -> m <> t ->
  winner (checkWinner (setCell b (row m) (col m) ai)) = None ->
  winner (checkWinner (setCell b (row t) (col t) (getOpponent ai)))
  = Some (getOpponent ai) ->
  winner (checkWinner
            (setCell (setCell b (row m) (col m) ai) (row t) (col t)
               (getOpponent ai)))
  = Some (getOpponent ai).
Proof.
  intros Hnone Hm Ht Hmt Hc1 Hthreat.
  assert (Hvm : isValidMove b (row m) (col m) = true)
    by by apply available_valid.
  assert (Hvt : isValidMove b (row t) (col t) = true)
    by by apply available_valid.
  assert (Hvt1 : isValidMove (setCell b (row m) (col m) ai) (row t) (col t)
                 = true).
  { apply available_valid. rewrite getAvailableMoves_setCell by done.
    apply list_elem_of_filter. split; [|done].
    intros ->. by destruct m. }
  apply winner_Some_line in Hthreat as (l & Hl & [Hne Hc]).
  rewrite sizeOf_setCell in Hl.
  apply (winner_of_lines _ _ l).
  - by rewrite !sizeOf_setCell.
  - split; [done|]. intros r c Hin. specialize (Hc r c Hin).
    rewrite cellAt_setCell in Hc by done.
    rewrite cellAt_setCell by done.
    destruct (decide (r = row t /\ c = col t)); [done|].
    rewrite cellAt_setCell by done.
    destruct (decide (r = row m /\ c = col m)) as [[-> ->]|]; [|done].
    apply isValidMove_true in Hvm as [_ Hvm]. rewrite Hvm in Hc. done.
  - intros l' q Hl' Hc'. rewrite !sizeOf_setCell in Hl'.
    destruct (decide (q = getOpponent ai)) as [|Hq]; [done|]. exfalso.
    apply complete_before in Hc'; [|done..].
    eapply (winner_None_no_line _ l' q Hc1); [|done].
    by rewrite sizeOf_setCell.
Qed.

Lemma plainScore_game_over fuel b d isMax ai maxD :
  d < maxD -> isGameOver b = true ->
  plainScore (S fuel) b d isMax ai maxD
  = Fin (if 0 <? evaluateBoard b ai then evaluateBoard b ai - d
         else evaluateBoard b ai + d).
Proof.
  intros Hd Hover. cbn [plainScore].
  destruct (Z.leb_spec maxD d); [lia|]. by rewrite Hover.
Qed.

Lemma plainScore_min_node fuel b d ai maxD :
  d < maxD -> isGameOver b = false -> getAvailableMoves b <> [] ->
  plainScore (S fuel) b d false ai maxD
  = foldl (fun acc mv =>
             Num_min acc
               (plainScore fuel
                  (setCell b (row mv) (col mv) (getOpponent ai))
                  (d + 1) true ai maxD))
      PosInf (getAvailableMoves b).
Proof.
  intros Hd Hover Hne. cbn [plainScore].
  destruct (Z.leb_spec maxD d); [lia|]. rewrite Hover.
  rewrite bool_decide_false; [done|].
  intros E. apply Hne. by apply length_zero_iff_nil.
Qed.

(** A move that leaves the opponent an immediate win is worth -8. *)
Lemma replyScore_unblocked b ai m t :
  sizeOf b = 3 -> isGameOver b = false ->
  m ∈ getAvailableMoves b -> t ∈ getAvailableMoves b -> m <> t ->
  ~ wins b ai m -> wins b (getOpponent ai) t ->
  exists z, replyScore b ai m = Fin z /\ z <= -8.
Proof.
  intros Hsize Hover Hm Ht Hmt Hnw Hthreat.
  assert (Hnone : winner (checkWinner b) = None).
  { unfold isGameOver in Hover. by destruct (winner (checkWinner b)). }
  apply wins_available in Hthreat; [|done].
  assert (Hc1 : winner (checkWinner (setCell b (row m) (col m) ai)) = None).
  { destruct (move_winner b ai m Hnone Hm) as [Hw|Hw]; [|done].
    destruct Hnw. by apply wins_available. }
  assert (Hvm : isValidMove b (row m) (col m) = true)
    by by apply available_valid.
  assert (Ht1 : t ∈ getAvailableMoves (setCell b (row m) (col m) ai)).
  { rewrite getAvailableMoves_setCell by done.
    apply list_elem_of_filter. split; [|done]. intros ->. by destruct m. }
  assert (Hov1 : isGameOver (setCell b (row m) (col m) ai) = false).
  { unfold isGameOver. rewrite Hc1.
    destruct (isBoardFull _) eqn:Hfull; [|done].
    apply full_no_moves in Hfull. rewrite Hfull in Ht1.
    by apply elem_of_nil in Ht1. }
  pose proof (threat_stays b ai m t Hnone Hm Ht Hmt Hc1 Hthreat) as Hc2.
  unfold replyScore.
  rewrite (plainScore_min_node 8) by
    (first [lia | done | intros E; rewrite E in Ht1; by apply elem_of_nil in Ht1]).
  match goal with
  | |- exists z, foldl (fun acc a => Num_min acc (@?g a)) _ ?l = _ /\ _ =>
      pose proof (foldl_Num_min_le g PosInf l t Ht1) as Hle;
      destruct (foldl_Num_min_finite g PosInf l) as [z Hz]
  end.
  { intros mv. apply plainScore_finite. }
  { right. split; [done|]. intros E. rewrite E in Ht1.
    by apply elem_of_nil in Ht1. }
  exists z. split; [exact Hz|].
  cbv beta in Hle. rewrite Hz in Hle.
  rewrite (plainScore_game_over 7) in Hle
    by (first [lia | by eapply isGameOver_winner]).
  destruct (evaluateBoard_cases
              (setCell (setCell b (row m) (col m) ai) (row t) (col t)
                 (getOpponent ai)) ai) as [[E _]|[[_ E]|[E _]]].
  - rewrite E in Hc2. injection Hc2 as Hp. symmetry in Hp.
    by apply getOpponent_ne in Hp.
  - rewrite E in Hle. simpl in Hle.
    apply negb_true_iff, Z.ltb_ge in Hle. lia.
  - rewrite E in Hc2. done.
Qed.

(** The move that takes the cell of the only threat is worth at least
    -7. *)
Lemma replyScore_blocked b ai t :
  sizeOf b = 3 -> isGameOver b = false ->
  t ∈ getAvailableMoves b ->
  (length (getAvailableMoves b) < 9)%nat ->
  (forall m, ~ wins (setCell b (row t) (col t) ai) (getOpponent ai) m) ->
  exists z, replyScore b ai t = Fin z /\ -7 <= z.
Proof.
  intros Hsize Hover Ht Hlen Hsafe.
  assert (Hnone : winner (checkWinner b) = None).
  { unfold isGameOver in Hover. by destruct (winner (checkWinner b)). }
  pose proof (available_setCell_length b t ai Ht) as Hl1.
  unfold replyScore.
  destruct (isGameOver (setCell b (row t) (col t) ai)) eqn:Hov1.
  { rewrite (plainScore_game_over 8) by (first [lia | done]).
    eexists. split; [done|].
    destruct (evaluateBoard_cases (setCell b (row t) (col t) ai) ai)
      as [[_ ->]|[[E _]|[_ ->]]]; [simpl; lia| |simpl; lia].
    destruct (move_winner b ai t Hnone Ht) as [Hw|Hw]; rewrite Hw in E;
      [|done].
    injection E as Hp. by destruct ai. }
  assert (Hc1 : winner (checkWinner (setCell b (row t) (col t) ai)) = None).
  { unfold isGameOver in Hov1.
    by destruct (winner (checkWinner (setCell b (row t) (col t) ai))). }
  destruct (decide (getAvailableMoves (setCell b (row t) (col t) ai) = []))
    as [Hmoves|Hmoves].
  { exists 0. split; [|lia]. cbn [plainScore].
    change (9 <=? 1) with false. cbv iota. rewrite Hov1, Hmoves. done. }
  rewrite (plainScore_min_node 8) by (first [lia | done]).
  destruct (foldl_Num_min_bounds
              (fun mv => plainScore 8
                           (setCell (setCell b (row t) (col t) ai)
                              (row mv) (col mv) (getOpponent ai))
                           (1 + 1) true ai 9)
              (-7) 10 PosInf
              (getAvailableMoves (setCell b (row t) (col t) ai)))
    as (z & Hz & Hb).
  - intros mv Hmv.
    pose proof (available_setCell_length _ mv (getOpponent ai) Hmv) as Hl2.
    destruct (plainScore_bounds 8
                (setCell (setCell b (row t) (col t) ai) (row mv) (col mv)
                   (getOpponent ai)) (1 + 1) true ai 9)
      as (z & Hz & Hb & Hopen); [lia..|].
    exists z. split; [done|].
    destruct (isGameOver (setCell (setCell b (row t) (col t) ai)
                            (row mv) (col mv) (getOpponent ai))) eqn:Hov2.
    + rewrite (plainScore_game_over 7) in Hz by (first [lia | done]).
      injection Hz as <-.
      destruct (evaluateBoard_cases
                  (setCell (setCell b (row t) (col t) ai) (row mv) (col mv)
                     (getOpponent ai)) ai) as [[_ ->]|[[E _]|[_ ->]]];
        [simpl; lia| |simpl; lia].
      destruct (Hsafe mv). by apply wins_available.
    + specialize (Hopen eq_refl). lia.
  - by left.
  - exists z. split; [exact Hz|lia].
Qed.

End Threats.

(** X19. On a 3 x 3 board on which the game is not over, if the
    searcher has no move that wins at once, the opponent would win at
    once on the cell [t], and taking [t] leaves the opponent no move
    that wins at once, then hard mode returns, and when the time budget
    did not end the search, it plays [t]. *)
Theorem getBestMove_hard3_blocks (clock : Z -> bool) (rnd : nat -> Rand)
    (b : Board) (ai : Player) (st : AIState) (t : Move) :
  wf_board b -> sizeOf b = 3 -> isGameOver b = false ->
  (forall m, ~ wins b ai m) ->
  wins b (getOpponent ai) t ->
  (forall m, ~ wins (setCell b (row t) (col t) ai) (getOpponent ai) m) ->
  exists r st',
    getBestMove clock rnd b ai Hard st = Value (r, st')
    /\ (timeoutReached st' = false -> bestMove r = Some t).
Proof.
  intros Hwf Hsize Hover Hnowin Hthreat Hsafe.
  destruct (getBestMove_hard3_root clock rnd b ai st Hwf Hsize Hover)
    as (r & st' & Hrun & Hroot).
  exists r, st'. split; [exact Hrun|]. intros Hst'.
  destruct (Hroot Hst') as (pre & mv & post & Hmoves & Hbest & _ & Hpre
                            & Hpost).
  clear Hroot Hrun. rewrite Hbest. f_equal.
  assert (Ht : t ∈ getAvailableMoves b).
  { destruct Hthreat as (b' & [Hv _]%makeMove_Value & _).
    by apply available_valid. }
  assert (Hmv : mv ∈ getAvailableMoves b).
  { rewrite Hmoves. apply elem_of_app. right. left. }
  assert (Hlen : (length (getAvailableMoves b) < 9)%nat).
  { apply (win_not_first b (getOpponent ai) t); [done..|].
    by apply wins_available. }
  assert (Hle : Num_leb (replyScore b ai t) (replyScore b ai mv) = true).
  { rewrite Hmoves in Ht.
    apply elem_of_app in Ht as [Hin|[->|Hin]%elem_of_cons].
    - rewrite Forall_forall in Hpre. by apply Num_ltb_leb, Hpre.
    - apply Num_leb_refl.
    - rewrite Forall_forall in Hpost. by apply Hpost. }
  destruct (decide (mv = t)) as [|Hne]; [done|]. exfalso.
  destruct (replyScore_blocked b ai t Hsize Hover Ht Hlen Hsafe)
    as (zt & Hzt & Hbt).
  destruct (replyScore_unblocked b ai mv t Hsize Hover Hmv Ht Hne
              (Hnowin mv) Hthreat) as (zm & Hzm & Hbm).
  rewrite Hzt, Hzm in Hle. simpl in Hle.
  apply negb_true_iff, Z.ltb_ge in Hle. lia.
Qed.

Lemma getBestMove_hard3_blocks_witness :
  let b := [[Some X; None; None]; [None; Some O; None];
            [None; None; Some X]] in
  let b1 := [[Some X; Some X; None]; [None; Some O; None];
             [None; None; Some X]] in
  exists r st',
    getBestMove never (fun _ => mkRand 0 1) b1 O Hard (mkAIState 0 false)
    = Value (r, st')
    /\ (timeoutReached st' = false -> bestMove r = Some (mkMove 0 2)).
Proof.
  intros b b1.
  apply (getBestMove_hard3_blocks never (fun _ => mkRand 0 1) b1 O
           (mkAIState 0 false) (mkMove 0 2)).
  - repeat constructor.
  - reflexivity.
  - by vm_compute.
  - intros m (b' & [Hv ->]%makeMove_Value & Hw).
    apply available_valid in Hv. vm_compute in Hv.
    repeat (apply elem_of_cons in Hv as [->|Hv]); try by vm_compute in Hw.
    by apply elem_of_nil in Hv.
  - eexists. split; [reflexivity|]. by vm_compute.
  - intros m (b' & [Hv ->]%makeMove_Value & Hw).
    apply available_valid in Hv. vm_compute in Hv.
    repeat (apply elem_of_cons in Hv as [->|Hv]); try by vm_compute in Hw.
    by apply elem_of_nil in Hv.
Defined.

(** * The game-state hook *)

Section HookFacts.

Implicit Types (s : Hook.HookState) (sc : Hook.GameScore)
  (settings : Hook.GameSettings) (w : option Player).

Lemma updateGameScore_step settings w sc :
  let t := HookProps.outcomeOf settings w in
  let sc' := Hook.updateGameScore settings w sc in
  Hook.streakType sc' = Some t
  /\ Hook.currentStreak sc'
     = (if bool_decide (Hook.streakType sc = Some t)
        then Hook.currentStreak sc else 0) + 1
  /\ Hook.playerWins sc'
     = Hook.playerWins sc + (if bool_decide (t = Hook.StreakWin) then 1 else 0)
  /\ Hook.aiWins sc'
     = Hook.aiWins sc + (if bool_decide (t = Hook.StreakLoss) then 1 else 0)
  /\ Hook.draws sc'
     = Hook.draws sc + (if bool_decide (t = Hook.StreakDraw) then 1 else 0).
Proof.
  unfold HookProps.outcomeOf, Hook.updateGameScore.
  destruct (Hook.sameMark w (Hook.playerSymbol settings));
    [|destruct (Hook.sameMark w (Hook.aiSymbol settings))]; simpl;
    (split; [done|]); (split; [by destruct (bool_decide _)|]);
    repeat split; lia.
Qed.

Lemma updateGameScore_total settings w sc :
  Hook.totalGames (Hook.updateGameScore settings w sc)
  = Hook.totalGames sc + 1.
Proof.
  destruct (updateGameScore_step settings w sc) as (_ & _ & H1 & H2 & H3).
  unfold Hook.totalGames. rewrite H1, H2, H3.
  destruct (HookProps.outcomeOf settings w); simpl; lia.
Qed.

Lemma updateGameScore_streak_le settings w sc :
  0 <= Hook.currentStreak sc <= Hook.totalGames sc ->
  0 <= Hook.currentStreak (Hook.updateGameScore settings w sc)
  <= Hook.totalGames (Hook.updateGameScore settings w sc).
Proof.
  intros Hsc. rewrite updateGameScore_total.
  destruct (updateGameScore_step settings w sc) as (_ & -> & _).
  destruct (bool_decide _); lia.
Qed.

Lemma take_app_take {A : Type} (n : nat) (l y : list A) :
  take n (l ++ take n y) = take n (l ++ y).
Proof.
  rewrite !take_app. f_equal. rewrite take_take. f_equal. lia.
Qed.

Lemma saveGameToHistory_length start diff now1 now2 mvs w
    (prev : list Hook.GameHistory) :
  Z.of_nat (length (Hook.saveGameToHistory start diff now1 now2 mvs w prev))
  = Z.min (Z.of_nat (length prev) + 1) 50.
Proof.
  unfold Hook.saveGameToHistory. simpl. rewrite length_take. lia.
Qed.

End HookFacts.

(** X20. A run of games with the same outcome extends the current
    streak of that kind, or starts it at the length of the run when the
    streak before was of another kind; every game is counted once, in
    the counter of its outcome. *)
Theorem updateGameScore_run (settings : Hook.GameSettings)
    (sc : Hook.GameScore) (run : list (option Player))
    (t : Hook.StreakType) :
  run <> [] ->
  Forall (fun w => HookProps.outcomeOf settings w = t) run ->
  let sc' := foldl (fun acc w => Hook.updateGameScore settings w acc) sc run in
  let n := Z.of_nat (length run) in
  Hook.streakType sc' = Some t
  /\ Hook.currentStreak sc'
     = (if bool_decide (Hook.streakType sc = Some t)
        then Hook.currentStreak sc else 0) + n
  /\ Hook.playerWins sc'
     = Hook.playerWins sc + (if bool_decide (t = Hook.StreakWin) then n else 0)
  /\ Hook.aiWins sc'
     = Hook.aiWins sc + (if bool_decide (t = Hook.StreakLoss) then n else 0)
  /\ Hook.draws sc'
     = Hook.draws sc + (if bool_decide (t = Hook.StreakDraw) then n else 0)
  /\ Hook.totalGames sc' = Hook.totalGames sc + n.
Proof.
  intros Hne Hall. cbv zeta.
  assert (Hgen : forall sc0,
    let sc' := foldl (fun acc w => Hook.updateGameScore settings w acc)
                 sc0 run in
    let n := Z.of_nat (length run) in
    Hook.streakType sc' = Some t
    /\ Hook.currentStreak sc'
       = (if bool_decide (Hook.streakType sc0 = Some t)
          then Hook.currentStreak sc0 else 0) + n
    /\ Hook.playerWins sc'
       = Hook.playerWins sc0
         + (if bool_decide (t = Hook.StreakWin) then n else 0)
    /\ Hook.aiWins sc'
       = Hook.aiWins sc0
         + (if bool_decide (t = Hook.StreakLoss) then n else 0)
    /\ Hook.draws sc'
       = Hook.draws sc0
         + (if bool_decide (t = Hook.StreakDraw) then n else 0)).
  { induction run as [|w run IH]; [done|]. intros sc0. cbv zeta.
    apply Forall_cons in Hall as [Hw Hall].
    destruct (updateGameScore_step settings w sc0)
      as (Ht & Hs & Hp & Ha & Hd).
    rewrite Hw in *. cbn [foldl].
    destruct run as [|w' run'].
    { simpl. split; [done|]. split; [done|]. split; [by destruct (bool_decide (t = _))|].
      split; by destruct (bool_decide (t = _)). }
    destruct (IH ltac:(done) Hall (Hook.updateGameScore settings w sc0))
      as (Ht' & Hs' & Hp' & Ha' & Hd').
    split; [done|].
    rewrite Hs', Hp', Ha', Hd', Hs, Hp, Ha, Hd.
    rewrite (bool_decide_true _ Ht).
    change (length (w :: w' :: run')) with (S (length (w' :: run'))).
    rewrite Nat2Z.inj_succ.
    repeat split; repeat destruct (bool_decide _); lia. }
  destruct (Hgen sc) as (H1 & H2 & H3 & H4 & H5).
  split; [done|]. split; [done|]. split; [done|]. split; [done|].
  split; [done|]. unfold Hook.totalGames. rewrite H3, H4, H5.
  destruct t; simpl; lia.
Qed.

Lemma updateGameScore_run_witness :
  let sc' := foldl (fun acc w =>
                      Hook.updateGameScore Hook.DEFAULT_GAME_SETTINGS w acc)
               (Hook.mkGameScore 3 1 0 1 (Some Hook.StreakLoss))
               [Some X; Some X] in
  Hook.streakType sc' = Some Hook.StreakWin
  /\ Hook.currentStreak sc' = 2
  /\ Hook.totalGames sc' = 6.
Proof.
  destruct (updateGameScore_run Hook.DEFAULT_GAME_SETTINGS
              (Hook.mkGameScore 3 1 0 1 (Some Hook.StreakLoss))
              [Some X; Some X] Hook.StreakWin)
    as (H1 & H2 & _ & _ & _ & H6).
  - done.
  - by repeat constructor.
  - split; [exact H1|]. split; [exact H2|exact H6].
Defined.

(** X21. After any number of saves the history holds the games saved,
    newest first, followed by the history it started from, cut to 50
    entries. *)
Theorem saveGameToHistory_last_50
    (saves : list (Z * Difficulty * Z * Z * list Move * option Player))
    (h0 : list Hook.GameHistory) :
  foldl (fun h '(start, diff, now1, now2, mvs, w) =>
           Hook.saveGameToHistory start diff now1 now2 mvs w h) h0 saves
  = if bool_decide (saves = []) then h0
    else take 50
           (reverse
              ((fun '(start, diff, now1, now2, mvs, w) =>
                  Hook.mkGameHistory mvs (now1 - start) w diff now2)
                 <$> saves) ++ h0).
Proof.
  revert h0. induction saves as [|[[[[[start diff] now1] now2] mvs] w] rest IH];
    intros h0; [done|].
  rewrite bool_decide_false by done. cbn [foldl]. rewrite IH.
  rewrite fmap_cons, reverse_cons, <- app_assoc. cbn [app].
  unfold Hook.saveGameToHistory.
  change (?e :: take 49 h0) with (take 50 (e :: h0)).
  destruct rest as [|a rest'].
  - by rewrite bool_decide_true by done.
  - rewrite bool_decide_false by done. apply take_app_take.
Qed.

(** X22. [makePlayerMove] refuses, and changes nothing, unless the game
    is being played, it is the turn of the player, the engine is not
    thinking and the cell is a valid move.  Otherwise it puts the mark of
    the player on that cell, passes the turn, and records the game in
    the score and the history exactly when the move ends it. *)
Theorem makePlayerMove_accepts (r c now1 now2 : Z) (s : Hook.HookState) :
  let gs := Hook.gameState s in
  let res := Hook.makePlayerMove r c now1 now2 s in
  let gs' := Hook.gameState res.2 in
  (res.1 = true
   <-> Hook.gameStatus gs = Hook.Playing /\ Hook.isPlayerTurn gs = true
       /\ Hook.isAIThinking s = false
       /\ isValidMove (Hook.board gs) r c = true)
  /\ (res.1 = false -> res.2 = s)
  /\ (res.1 = true ->
      Hook.board gs'
      = setCell (Hook.board gs) r c (Hook.playerSymbol (Hook.gameSettings s))
      /\ Hook.isPlayerTurn gs' = false
      /\ Hook.currentMoves res.2 = Hook.currentMoves s ++ [mkMove r c]
      /\ (Hook.gameStatus gs' = Hook.Playing
          <-> isGameOver (Hook.board gs') = false)
      /\ (Hook.gameStatus gs' = Hook.Playing ->
          Hook.gameScore res.2 = Hook.gameScore s
          /\ Hook.gameHistory res.2 = Hook.gameHistory s)
      /\ (Hook.gameStatus gs' <> Hook.Playing ->
          Hook.totalGames (Hook.gameScore res.2)
          = Hook.totalGames (Hook.gameScore s) + 1
          /\ exists e,
               Hook.gameHistory res.2 = e :: take 49 (Hook.gameHistory s)
               /\ Hook.moves e = Hook.currentMoves res.2
               /\ Hook.historyWinner e = Hook.winner gs')).
Proof.
  cbv zeta. unfold Hook.makePlayerMove. cbv zeta.
  destruct (decide (Hook.gameStatus (Hook.gameState s) = Hook.Playing))
    as [Hplay|Hplay].
  2:{ rewrite (bool_decide_false _ Hplay). simpl.
      split; [|split; [done|done]]. split; [done|]. by intros [? _]. }
  rewrite (bool_decide_true _ Hplay). simpl.
  destruct (Hook.isPlayerTurn (Hook.gameState s)) eqn:Hturn; simpl.
  2:{ split; [|split; [done|done]]. split; [done|]. by intros (_ & ? & _). }
  destruct (Hook.isAIThinking s) eqn:Hthink; simpl.
  { split; [|split; [done|done]]. split; [done|]. by intros (_ & _ & ? & _). }
  unfold makeMove.
  destruct (isValidMove (Hook.board (Hook.gameState s)) r c) eqn:Hv; simpl.
  2:{ split; [|split; [done|done]]. split; [done|]. by intros (_ & _ & _ & ?). }
  rewrite cloneBoard_id.
  split; [by split|]. split; [done|]. intros _.
  split; [done|]. split; [done|]. split; [done|].
  set (b' := setCell _ r c _).
  unfold isGameOver.
  destruct (winner (checkWinner b')) as [p|] eqn:Hw; simpl.
  { split; [by split|]. split; [done|]. intros _.
    split; [apply updateGameScore_total|]. eexists. by split; [|split]. }
  destruct (isBoardFull b') eqn:Hfull; simpl.
  { split; [by split|]. split; [done|]. intros _.
    split; [apply updateGameScore_total|]. eexists. by split; [|split]. }
  split; [by split|]. split; [done|]. done.
Qed.

Section HookInvariant.

Implicit Types (s snap cur : Hook.HookState).

Lemma newGameState_consistent (N : Z) (settings : Hook.GameSettings) :
  3 <= N <= 10 ->
  let gs := Hook.newGameState N settings in
  wf_board (Hook.board gs)
  /\ sizeOf (Hook.board gs) = N
  /\ Hook.winner gs = winner (checkWinner (Hook.board gs))
  /\ Hook.winningLine gs = winningLine (checkWinner (Hook.board gs))
  /\ isGameOver (Hook.board gs) = false
  /\ Z.of_nat (length (getAvailableMoves (Hook.board gs))) = N * N.
Proof.
  intros HN. cbv zeta. simpl.
  destruct (createEmptyBoard_props N ltac:(lia))
    as (Hsize & Hwf & _ & Hlen & Hw & Hover).
  rewrite Hw. split; [done|]. split; [done|]. split; [done|].
  split; [done|]. split; [|done]. apply Hover. lia.
Qed.

Lemma validStats_update settings w (sc : Hook.GameScore)
    (history : list Hook.GameHistory) start diff now1 now2 mvs :
  HookProps.validStats sc history ->
  HookProps.validStats (Hook.updateGameScore settings w sc)
    (Hook.saveGameToHistory start diff now1 now2 mvs w history).
Proof.
  intros [Hhist Hstreak]. split; [|by apply updateGameScore_streak_le].
  rewrite saveGameToHistory_length, updateGameScore_total. lia.
Qed.

(** The state after a move that was accepted: the move is computed from
    the state [snap], and the updates meet the state [cur]. *)
Lemma moved_consistent snap cur (r c : Z) (p other : Player) now1 now2
    (turn : bool) (m : Metrics) (thinking : bool) :
  HookProps.consistent snap ->
  HookProps.consistent cur ->
  isValidMove (Hook.board (Hook.gameState snap)) r c = true ->
  let gs := Hook.gameState snap in
  let settings := Hook.gameSettings snap in
  let newBoard := setCell (Hook.board gs) r c p in
  let w := winner (checkWinner newBoard) in
  let isDraw := negb (notNull w) && isBoardFull newBoard in
  let newMoves := Hook.currentMoves snap ++ [mkMove r c] in
  let ended := notNull w || isDraw in
  HookProps.consistent
    (Hook.mkHookState
       (Hook.mkGameState newBoard (Hook.boardSize gs) other
          (if notNull w then Hook.Won
           else if isDraw then Hook.Draw else Hook.Playing)
          w (winningLine (checkWinner newBoard)) turn (Hook.difficulty gs))
       (if ended then Hook.updateGameScore settings w (Hook.gameScore cur)
        else Hook.gameScore cur)
       m (Hook.gameSettings cur)
       (if ended
        then Hook.saveGameToHistory (Hook.gameStartTime snap)
               (Hook.settingsDifficulty settings) now1 now2 newMoves w
               (Hook.gameHistory cur)
        else Hook.gameHistory cur)
       (Hook.gameStartTime cur) thinking newMoves).
Proof.
  intros (Hwf & Hsize & Hrange & Hwin & Hline & Hplay & Hwon & Hcount & _ & _)
         (_ & _ & _ & _ & _ & _ & _ & _ & Hsettings & Hstats) Hv.
  cbv zeta. unfold HookProps.consistent. cbn -[Z.mul Z.min].
  pose proof (available_setCell_length (Hook.board (Hook.gameState snap))
                (mkMove r c) p ltac:(by apply available_valid)) as Hlen.
  cbn [row col] in Hlen.
  split; [by apply wf_setCell|]. split; [by rewrite sizeOf_setCell|].
  set (b' := setCell (Hook.board (Hook.gameState snap)) r c p) in *.
  split; [done|]. split; [done|]. split; [done|].
  assert (Hmoves : Z.of_nat (length (getAvailableMoves b'))
                   + Z.of_nat (length (Hook.currentMoves snap ++ [mkMove r c]))
                   = Hook.boardSize (Hook.gameState snap)
                     * Hook.boardSize (Hook.gameState snap)).
  { rewrite length_app. simpl. lia. }
  pose proof (validStats_update (Hook.gameSettings snap)
                (winner (checkWinner b')) _ _ (Hook.gameStartTime snap)
                (Hook.settingsDifficulty (Hook.gameSettings snap)) now1 now2
                (Hook.currentMoves snap ++ [mkMove r c]) Hstats) as Hended.
  unfold isGameOver.
  destruct (winner (checkWinner b')) as [q|] eqn:Hw; simpl.
  { split; [by split|]. split; [by split|]. split; [done|]. done. }
  destruct (isBoardFull b') eqn:Hfull; simpl.
  { split; [by split|]. split; [by split|]. split; [done|]. done. }
  split; [by split|]. split; [by split|]. split; [done|]. done.
Qed.

Lemma notThinking_consistent s :
  HookProps.consistent s -> HookProps.consistent (Hook.notThinking s).
Proof. done. Qed.

Lemma makeAIMove_begin_consistent s :
  HookProps.consistent s -> HookProps.consistent (Hook.makeAIMove_begin s).
Proof. unfold Hook.makeAIMove_begin. by destruct (Hook.aiToMove s). Qed.

(** The state after the first render and the load of [localStorage],
    when what was saved is valid. *)
Lemma consistent_initial (now : Z) savedScore savedSettings savedHistory :
  let s0 :=
    Hook.loadSaved savedScore savedSettings savedHistory
      (Hook.initialState now) in
  HookProps.validSettings (Hook.gameSettings s0) ->
  HookProps.validStats (Hook.gameScore s0) (Hook.gameHistory s0) ->
  HookProps.consistent s0.
Proof.
  intros s0 Hsettings Hstats. unfold HookProps.consistent.
  split; [repeat constructor|]. split; [done|]. split; [simpl; lia|].
  split; [done|]. split; [done|]. split; [by split|]. split; [by split|].
  split; [done|]. done.
Qed.

Lemma makeAIMove_resume_consistent clock rnd now1 now2 engine snap cur s' :
  HookProps.consistent snap -> HookProps.consistent cur ->
  Hook.makeAIMove_resume clock rnd now1 now2 engine snap cur = Value s' ->
  HookProps.consistent s'.
Proof.
  intros Hsnap Hcur Hrun.
  unfold Hook.makeAIMove_resume in Hrun. cbv zeta in Hrun.
  destruct (getBestMove _ _ _ _ _ _) as [[res st]| |];
    [|by simplify_eq|done].
  destruct (bestMove res) as [mv|]; [|by simplify_eq].
  unfold makeMove in Hrun.
  destruct (isValidMove _ (row mv) (col mv)) eqn:Hv; simpl in Hrun;
    [|by simplify_eq].
  rewrite cloneBoard_id in Hrun. injection Hrun as <-.
  pose proof (moved_consistent snap cur (row mv) (col mv)
                (Hook.aiSymbol (Hook.gameSettings snap))
                (Hook.playerSymbol (Hook.gameSettings snap)) now1 now2 true
                (metrics res) false Hsnap Hcur Hv) as H.
  by destruct mv.
Qed.

(** The synchronous handlers. *)
Lemma makePlayerMove_consistent r c now1 now2 s :
  HookProps.consistent s ->
  HookProps.consistent (Hook.makePlayerMove r c now1 now2 s).2.
Proof.
  intros Hs. unfold Hook.makePlayerMove. cbv zeta.
  destruct (_ || _); [done|]. unfold makeMove.
  destruct (isValidMove _ r c) eqn:Hv; simpl; [|done].
  rewrite cloneBoard_id. by apply moved_consistent.
Qed.

Lemma startNewGame_consistent now s :
  HookProps.consistent s -> HookProps.consistent (Hook.startNewGame now s).
Proof.
  intros (Hwf & Hsize & Hrange & Hwin & Hline & Hplay & Hwon & Hcount
          & Hsettings & Hstats).
  destruct (newGameState_consistent _ (Hook.gameSettings s) (proj1 Hsettings))
    as (H1 & H2 & H3 & H4 & H5 & H6).
  destruct Hsettings as [Hsz Hsym].
  unfold HookProps.consistent, Hook.startNewGame. cbn -[Z.mul Z.min].
  cbn -[Z.mul] in H1, H2, H3, H4, H5, H6.
  split; [done|]. split; [done|]. split; [done|]. split; [done|].
  split; [done|]. split; [by split|]. split; [by split|]. split; [lia|].
  done.
Qed.

Lemma changeDifficulty_consistent d s :
  HookProps.consistent s -> HookProps.consistent (Hook.changeDifficulty d s).
Proof.
  intros (Hwf & Hsize & Hrange & Hwin & Hline & Hplay & Hwon & Hcount
          & Hsettings & Hstats).
  unfold HookProps.consistent, Hook.changeDifficulty. cbn -[Z.mul Z.min].
  done.
Qed.

Lemma changeBoardSize_consistent n now s :
  HookProps.consistent s -> HookProps.consistent (Hook.changeBoardSize n now s).
Proof.
  intros Hs. unfold Hook.changeBoardSize. cbv zeta.
  destruct (Z.ltb_spec n 3); [done|]. destruct (Z.ltb_spec 10 n); [done|].
  simpl.
  destruct Hs as (Hwf & Hsize & Hrange & Hwin & Hline & Hplay & Hwon & Hcount
                  & [Hsz Hsym] & Hstats).
  destruct (newGameState_consistent n (Hook.gameSettings s) ltac:(lia))
    as (H1 & H2 & H3 & H4 & H5 & H6).
  unfold HookProps.consistent, HookProps.validSettings. cbn -[Z.mul Z.min].
  cbn -[Z.mul] in H1, H2, H3, H4, H5, H6.
  split; [done|]. split; [done|]. split; [lia|]. split; [done|].
  split; [done|]. split; [by split|]. split; [by split|]. split; [lia|].
  split; [|done]. split; [lia|done].
Qed.

Lemma switchPlayerSymbol_consistent now s :
  HookProps.consistent s ->
  HookProps.consistent (Hook.switchPlayerSymbol now s).
Proof.
  intros (Hwf & Hsize & Hrange & Hwin & Hline & Hplay & Hwon & Hcount
          & [Hsz Hsym] & Hstats).
  destruct (newGameState_consistent _ (Hook.gameSettings s) Hsz)
    as (H1 & H2 & H3 & H4 & H5 & H6).
  unfold HookProps.consistent, HookProps.validSettings,
    Hook.switchPlayerSymbol.
  cbn -[Z.mul Z.min]. cbn -[Z.mul] in H1, H2, H3, H4, H5, H6.
  split; [done|]. split; [done|]. split; [done|]. split; [done|].
  split; [done|]. split; [by split|]. split; [by split|]. split; [lia|].
  done.
Qed.

Lemma resetStats_consistent s :
  HookProps.consistent s -> HookProps.consistent (Hook.resetStats s).
Proof.
  intros (Hwf & Hsize & Hrange & Hwin & Hline & Hplay & Hwon & Hcount
          & Hsettings & Hstats).
  unfold HookProps.consistent, HookProps.validStats, Hook.resetStats.
  cbn -[Z.mul Z.min].
  split; [done|]. split; [done|]. split; [done|]. split; [done|].
  split; [done|]. split; [done|]. split; [done|]. split; [done|].
  split; [done|]. unfold Hook.totalGames. simpl. split; [done|lia].
Qed.

(** The invariant of a configuration: the state and the renders of the
    calls that wait are consistent. *)
Let invariant (c : HookProps.Config) : Prop :=
  HookProps.consistent (HookProps.current c)
  /\ Forall HookProps.consistent (HookProps.waiting c).

Lemma handles_consistent (c c' : HookProps.Config) :
  invariant c -> HookProps.handles c c' -> invariant c'.
Proof.
  unfold invariant. intros [Hs Hw] Hstep.
  destruct Hstep as
    [r c0 now1 now2 s w|s w Hgo|clock rnd now1 now2 engine snap s s' w1 w2 Hrun
    |now s w|d s w|n now s w|now s w|s w]; simpl in *.
  - split; [by apply makePlayerMove_consistent|done].
  - split; [by apply makeAIMove_begin_consistent|by constructor].
  - apply Forall_app in Hw as [Hw1 Hw2]. apply Forall_cons in Hw2 as [Hsnap Hw2].
    split; [|by apply Forall_app].
    exact (makeAIMove_resume_consistent _ _ _ _ _ _ _ _ Hsnap Hs Hrun).
  - split; [by apply startNewGame_consistent|done].
  - split; [by apply changeDifficulty_consistent|done].
  - split; [by apply changeBoardSize_consistent|done].
  - split; [by apply switchPlayerSymbol_consistent|done].
  - split; [by apply resetStats_consistent|done].
Qed.

Lemma reachable_consistent (now : Z) savedScore savedSettings savedHistory
    (c : HookProps.Config) :
  let c0 := HookProps.initialConfig now savedScore savedSettings savedHistory in
  HookProps.validSettings (Hook.gameSettings (HookProps.current c0)) ->
  HookProps.validStats (Hook.gameScore (HookProps.current c0))
    (Hook.gameHistory (HookProps.current c0)) ->
  rtc HookProps.handles c0 c ->
  HookProps.consistent (HookProps.current c)
  /\ Forall HookProps.consistent (HookProps.waiting c).
Proof.
  intros c0 Hsettings Hstats. revert c. apply rtc_ind_r.
  - split; [by apply consistent_initial|constructor].
  - intros c1 c2 _ Hstep IH. by eapply handles_consistent.
Qed.

End HookInvariant.

(** X23. The hook starts from the first render and the load of
    [localStorage]; then its handlers are called, the effect begins a
    call of [makeAIMove] when it is the turn of the engine, and a call
    that waits ends, in any order: a call of [makeAIMove] may end after
    other handlers have changed the state, and then stores the game it
    computed from the render that began it.  When the settings, the
    score and the history that were loaded are valid (a board size from
    3 to 10, two different marks, a history of as many games as were
    counted, up to 50, a streak no longer than the games counted), in
    every state the hook reaches the game state agrees with the rules
    applied to its board: the board is square, of the size the game
    state records, between 3 and 10; the winner and the winning line are
    those of [checkWinner]; the status is "playing" exactly when
    [isGameOver] is false and "won" exactly when there is a winner; the
    moves recorded and the free cells make up the board; and the
    settings, the score and the history stay valid.  (The size and the
    difficulty of the game may differ from those of the settings, see
    the example that follows X24.) *)
Theorem hook_state_consistent (now : Z)
    (savedScore : option Hook.GameScore)
    (savedSettings : option Hook.GameSettings)
    (savedHistory : option (list Hook.GameHistory))
    (c : HookProps.Config) :
  let c0 := HookProps.initialConfig now savedScore savedSettings savedHistory in
  HookProps.validSettings (Hook.gameSettings (HookProps.current c0)) ->
  HookProps.validStats (Hook.gameScore (HookProps.current c0))
    (Hook.gameHistory (HookProps.current c0)) ->
  rtc HookProps.handles c0 c ->
  HookProps.consistent (HookProps.current c)
  /\ Forall HookProps.consistent (HookProps.waiting c).
Proof. apply reachable_consistent. Qed.

(** The settings saved name the size 4 and give O to the player; the
    player moves, the effect begins a call of [makeAIMove], and the
    board size is changed to 5 while the call waits. *)
Lemma hook_state_consistent_witness :
  let saved := Hook.mkGameSettings Hard O X 4 in
  let c0 := HookProps.initialConfig 0 None (Some saved) None in
  let s1 := (Hook.makePlayerMove 1 1 5 6 (HookProps.current c0)).2 in
  let s2 := Hook.makeAIMove_begin s1 in
  let s3 := Hook.changeBoardSize 5 7 s2 in
  HookProps.validSettings (Hook.gameSettings (HookProps.current c0))
  /\ HookProps.validStats (Hook.gameScore (HookProps.current c0))
       (Hook.gameHistory (HookProps.current c0))
  /\ rtc HookProps.handles c0 (HookProps.mkConfig s3 [s1])
  /\ HookProps.consistent s3.
Proof.
  intros saved c0 s1 s2 s3.
  assert (Hsettings : HookProps.validSettings
                        (Hook.gameSettings (HookProps.current c0)))
    by (split; [simpl; lia|reflexivity]).
  assert (Hstats : HookProps.validStats
                     (Hook.gameScore (HookProps.current c0))
                     (Hook.gameHistory (HookProps.current c0)))
    by (split; [reflexivity|by vm_compute]).
  assert (Hreach : rtc HookProps.handles c0 (HookProps.mkConfig s3 [s1])).
  { eapply rtc_l; [apply (HookProps.handles_makePlayerMove 1 1 5 6)|].
    eapply rtc_l; [by apply HookProps.handles_makeAIMove_begin|].
    eapply rtc_l; [apply (HookProps.handles_changeBoardSize 5 7)|].
    apply rtc_refl. }
  split; [exact Hsettings|]. split; [exact Hstats|]. split; [exact Hreach|].
  exact (proj1 (hook_state_consistent 0 None (Some saved) None _
                  Hsettings Hstats Hreach)).
Defined.

(** X24. A call of [makeAIMove] begins, in a render [snap] whose game is
    being played with the engine to move, by setting [isAIThinking].
    When it goes on after its wait, for any clock and any random draws
    (doubles in [0, 1)) the engine returns a move and the call does not
    end in its [catch]: the move is valid on the board of [snap], and
    the game state stored is the one computed from [snap], with the mark
    of the engine on that cell, the turn passed to the player and the
    move appended to the moves of [snap], whatever the state [cur] of
    the hook has become in the meantime; of [cur] the settings and the
    start time are kept, and its score and history are the ones
    updated.  The state that results is consistent when [cur] is. *)
Theorem makeAIMove_moves (clock : Z -> bool) (rnd : nat -> Rand)
    (now1 now2 : Z) (engine : AIState) (snap cur : Hook.HookState) :
  validRand (rnd 0%nat) -> validRand (rnd 1%nat) ->
  HookProps.consistent snap ->
  Hook.aiToMove snap = true ->
  Hook.isAIThinking (Hook.makeAIMove_begin snap) = true
  /\ Hook.gameState (Hook.makeAIMove_begin snap) = Hook.gameState snap
  /\ exists mv s',
       Hook.makeAIMove_resume clock rnd now1 now2 engine snap cur = Value s'
       /\ isValidMove (Hook.board (Hook.gameState snap)) (row mv) (col mv)
          = true
       /\ Hook.board (Hook.gameState s')
          = setCell (Hook.board (Hook.gameState snap)) (row mv) (col mv)
              (Hook.aiSymbol (Hook.gameSettings snap))
       /\ Hook.boardSize (Hook.gameState s')
          = Hook.boardSize (Hook.gameState snap)
       /\ Hook.difficulty (Hook.gameState s')
          = Hook.difficulty (Hook.gameState snap)
       /\ Hook.currentPlayer (Hook.gameState s')
          = Hook.playerSymbol (Hook.gameSettings snap)
       /\ Hook.isPlayerTurn (Hook.gameState s') = true
       /\ Hook.isAIThinking s' = false
       /\ Hook.currentMoves s' = Hook.currentMoves snap ++ [mv]
       /\ Hook.gameSettings s' = Hook.gameSettings cur
       /\ Hook.gameStartTime s' = Hook.gameStartTime cur
       /\ (Hook.gameStatus (Hook.gameState s') = Hook.Playing ->
           Hook.gameScore s' = Hook.gameScore cur
           /\ Hook.gameHistory s' = Hook.gameHistory cur)
       /\ (Hook.gameStatus (Hook.gameState s') <> Hook.Playing ->
           Hook.gameScore s'
           = Hook.updateGameScore (Hook.gameSettings snap)
               (Hook.winner (Hook.gameState s')) (Hook.gameScore cur)
           /\ Hook.gameHistory s'
              = Hook.saveGameToHistory (Hook.gameStartTime snap)
                  (Hook.settingsDifficulty (Hook.gameSettings snap))
                  now1 now2 (Hook.currentMoves s')
                  (Hook.winner (Hook.gameState s')) (Hook.gameHistory cur))
       /\ (HookProps.consistent cur -> HookProps.consistent s').
Proof.
  intros Hu0 Hu1 Hs Hgo.
  split; [unfold Hook.makeAIMove_begin; by rewrite Hgo|].
  split; [unfold Hook.makeAIMove_begin; by rewrite Hgo|].
  assert (Hplay : Hook.gameStatus (Hook.gameState snap) = Hook.Playing).
  { unfold Hook.aiToMove in Hgo.
    apply andb_true_iff in Hgo as [[Hp _]%andb_true_iff _].
    by apply bool_decide_eq_true in Hp. }
  assert (Hs' := Hs).
  destruct Hs' as (Hwf & Hsize & Hrange & Hwin & Hline & Hover & _).
  apply Hover in Hplay as Hopen.
  assert (Hne : getAvailableMoves (Hook.board (Hook.gameState snap)) <> []).
  { intros E. apply no_moves_game_over in E; [|done]. congruence. }
  destruct (getBestMove_cases clock rnd (Hook.board (Hook.gameState snap))
              (Hook.aiSymbol (Hook.gameSettings snap))
              (Hook.settingsDifficulty (Hook.gameSettings snap)) engine
              Hu0 Hu1)
    as (res & st' & Hrun & Hlegal & _ & Hsome).
  destruct (Hsome Hne ltac:(done)) as [mv Hmv].
  specialize (Hlegal mv Hmv).
  assert (Hstep : exists s',
    Hook.makeAIMove_resume clock rnd now1 now2 engine snap cur = Value s'
    /\ s' = let gs := Hook.gameState snap in
            let settings := Hook.gameSettings snap in
            let newBoard :=
              setCell (Hook.board gs) (row mv) (col mv)
                (Hook.aiSymbol settings) in
            let w := winner (checkWinner newBoard) in
            let isDraw := negb (notNull w) && isBoardFull newBoard in
            let newMoves := Hook.currentMoves snap ++ [mv] in
            let ended := notNull w || isDraw in
            Hook.mkHookState
              (Hook.mkGameState newBoard (Hook.boardSize gs)
                 (Hook.playerSymbol settings)
                 (if notNull w then Hook.Won
                  else if isDraw then Hook.Draw else Hook.Playing)
                 w (winningLine (checkWinner newBoard)) true
                 (Hook.difficulty gs))
              (if ended
               then Hook.updateGameScore settings w (Hook.gameScore cur)
               else Hook.gameScore cur)
              (metrics res) (Hook.gameSettings cur)
              (if ended
               then Hook.saveGameToHistory (Hook.gameStartTime snap)
                      (Hook.settingsDifficulty settings) now1 now2
                      newMoves w (Hook.gameHistory cur)
               else Hook.gameHistory cur)
              (Hook.gameStartTime cur) false newMoves).
  { unfold Hook.makeAIMove_resume. cbv zeta.
    rewrite Hrun, Hmv. unfold makeMove. rewrite Hlegal. simpl.
    rewrite cloneBoard_id. eexists. split; reflexivity. }
  destruct Hstep as (s' & Hs' & Heq).
  exists mv, s'. split; [done|]. split; [done|].
  split; [by rewrite Heq|]. split; [by rewrite Heq|]. split; [by rewrite Heq|].
  split; [by rewrite Heq|]. split; [by rewrite Heq|]. split; [by rewrite Heq|].
  split; [by rewrite Heq|]. split; [by rewrite Heq|]. split; [by rewrite Heq|].
  split; [|split].
  - rewrite Heq. cbv zeta. cbn -[setCell checkWinner isBoardFull].
    destruct (notNull _); [done|]. simpl.
    destruct (isBoardFull _); [done|]. done.
  - rewrite Heq. cbv zeta. cbn -[setCell checkWinner isBoardFull].
    destruct (notNull _); [done|]. simpl.
    destruct (isBoardFull _); [done|]. done.
  - intros Hcur.
    exact (makeAIMove_resume_consistent _ _ _ _ _ _ _ _ Hs Hcur Hs').
Qed.

(** The player takes the center of the 3 x 3 board, the effect begins a
    call of [makeAIMove], and the board size is changed to 4 while the
    call waits.  When the call goes on, it stores the game it computed
    from the render that began it: the hook ends with a 3 x 3 board and
    the size 4 in its settings. *)
Lemma makeAIMove_moves_witness :
  let rnd := fun _ : nat => mkRand 1 2 in
  let snap := (Hook.makePlayerMove 1 1 5 6 (Hook.initialState 0)).2 in
  let cur := Hook.changeBoardSize 4 7 (Hook.makeAIMove_begin snap) in
  validRand (rnd 0%nat) /\ validRand (rnd 1%nat)
  /\ HookProps.consistent snap
  /\ Hook.aiToMove snap = true
  /\ sizeOf (Hook.board (Hook.gameState cur)) = 4
  /\ exists s',
       Hook.makeAIMove_resume never rnd 8 9 (mkAIState 0 false) snap cur
       = Value s'
       /\ sizeOf (Hook.board (Hook.gameState s')) = 3
       /\ Hook.settingsBoardSize (Hook.gameSettings s') = 4
       /\ Hook.isPlayerTurn (Hook.gameState s') = true.
Proof.
  intros rnd snap cur.
  assert (Hu : forall k, validRand (rnd k)) by (intros k; apply validRand_half).
  assert (Hsnap : HookProps.consistent snap).
  { apply makePlayerMove_consistent.
    apply (consistent_initial 0 None None None).
    - split; [simpl; lia|reflexivity].
    - split; [reflexivity|by vm_compute]. }
  split; [apply Hu|]. split; [apply Hu|]. split; [exact Hsnap|].
  split; [reflexivity|]. split; [reflexivity|].
  destruct (makeAIMove_moves never rnd 8 9 (mkAIState 0 false) snap cur
              (Hu 0%nat) (Hu 1%nat) Hsnap eq_refl)
    as (_ & _ & mv & s' & Hrun & _ & Hboard & _ & _ & _ & Hturn & _ & _
        & Hset & _).
  exists s'. split; [exact Hrun|]. split; [|split; [|exact Hturn]].
  - rewrite Hboard. apply sizeOf_setCell.
  - rewrite Hset. reflexivity.
Defined.

(** X25. [startNewGame] gives the first turn to the side that holds X.
    [switchPlayerSymbol] exchanges the two symbols in the settings, but
    the game it starts is set up from the symbols before the exchange: in
    that game the first turn goes to the side that now holds O, and
    [currentPlayer] is the symbol the engine now holds. *)
Theorem switchPlayerSymbol_first_turn (now : Z) (s : Hook.HookState) :
  let fresh := Hook.startNewGame now s in
  let switched := Hook.switchPlayerSymbol now s in
  (Hook.isPlayerTurn (Hook.gameState fresh) = true
   <-> Hook.playerSymbol (Hook.gameSettings fresh) = X)
  /\ Hook.playerSymbol (Hook.gameSettings switched)
     = getOpponent (Hook.playerSymbol (Hook.gameSettings s))
  /\ Hook.aiSymbol (Hook.gameSettings switched)
     = Hook.playerSymbol (Hook.gameSettings s)
  /\ Hook.currentPlayer (Hook.gameState switched)
     = Hook.aiSymbol (Hook.gameSettings switched)
  /\ (Hook.isPlayerTurn (Hook.gameState switched) = true
      <-> Hook.playerSymbol (Hook.gameSettings switched) = O)
  /\ Hook.gameState switched = Hook.gameState fresh.
Proof.
  cbv zeta. unfold Hook.startNewGame, Hook.switchPlayerSymbol. simpl.
  destruct (Hook.playerSymbol (Hook.gameSettings s)); simpl;
    repeat split; done.
Qed.

(** * Position analysis *)

Section AnalysisFacts.

Implicit Types (b : Board) (ai : Player) (st : AIState) (rec : searchFn)
  (clock : Z -> bool) (l : list (Move * Num)).

Lemma insertByScore_filter (v : Num) (x : Move * Num) l :
  filter (fun e : Move * Num => e.2 = v) (Analysis.insertByScore x l)
  = filter (fun e : Move * Num => e.2 = v) (x :: l).
Proof.
  induction l as [|y l IH]; [done|]. simpl.
  destruct (Num_ltb x.2 y.2) eqn:Hlt; [|done].
  rewrite !filter_cons, IH, !filter_cons.
  destruct (decide (y.2 = v)) as [Hy|Hy], (decide (x.2 = v)) as [Hx|Hx];
    try done.
  rewrite <- Hy in Hx. rewrite Hx in Hlt. by destruct (y.2); simpl in Hlt;
    try rewrite Z.ltb_irrefl in Hlt.
Qed.

(** The sort is stable: it keeps the order of the elements of equal
    score. *)
Lemma sortByScore_filter (v : Num) l :
  filter (fun e : Move * Num => e.2 = v) (Analysis.sortByScore l)
  = filter (fun e : Move * Num => e.2 = v) l.
Proof.
  induction l as [|x l IH]; [done|]. unfold Analysis.sortByScore in *.
  cbn [foldr]. by rewrite insertByScore_filter, !filter_cons, IH.
Qed.

Lemma Num_leb_trans (x y z : Num) :
  Num_leb x y = true -> Num_leb y z = true -> Num_leb x z = true.
Proof. intros H1 H2. num_lia. Qed.

(** The first element of the sorted list has the greatest score. *)
Lemma sortByScore_head l :
  l <> [] ->
  exists h t, Analysis.sortByScore l = h :: t /\ h ∈ l
              /\ Forall (fun e : Move * Num => Num_leb e.2 h.2 = true) l.
Proof.
  induction l as [|x l IH]; [done|]. intros _.
  unfold Analysis.sortByScore in *. cbn [foldr].
  destruct l as [|y l'].
  { exists x, []. split; [done|]. split; [left|].
    apply Forall_cons. split; [apply Num_leb_refl|done]. }
  destruct (IH ltac:(done)) as (h & t & -> & Hin & Hall). simpl.
  destruct (Num_ltb x.2 h.2) eqn:Hlt.
  - exists h, (Analysis.insertByScore x t). split; [done|].
    split; [by right|]. apply Forall_cons. split; [by apply Num_ltb_leb|done].
  - exists x, (h :: t). split; [done|]. split; [left|].
    apply Forall_cons. split; [apply Num_leb_refl|].
    apply Num_ltb_false in Hlt.
    eapply Forall_impl; [exact Hall|]. intros e He. simpl in He.
    by eapply Num_leb_trans.
Qed.

Lemma maxLoop_flag_stays rec b d ai beta maxD moves alpha maxEval best st
    res st' :
  maxLoop rec b d ai beta maxD moves alpha maxEval best st = Value (res, st') ->
  timeoutReached st = true -> timeoutReached st' = true.
Proof.
  intros Hrun Hst. rewrite maxLoop_flag in Hrun by done. by simplify_eq.
Qed.

Lemma minLoop_flag_stays rec b d ai alpha maxD moves beta minEval best st
    res st' :
  minLoop rec b d ai alpha maxD moves beta minEval best st = Value (res, st') ->
  timeoutReached st = true -> timeoutReached st' = true.
Proof.
  intros Hrun Hst. rewrite minLoop_flag in Hrun by done. by simplify_eq.
Qed.

(** The abort flag is never cleared by a search. *)
Lemma minimax_flag_stays clock fuel b d isMax ai alpha beta maxD st r st' :
  minimax clock fuel b d isMax ai alpha beta maxD st = Value (r, st') ->
  timeoutReached st = true -> timeoutReached st' = true.
Proof.
  destruct fuel as [|fuel]; [done|]. intros Hrun Hst.
  change (minimax clock (S fuel)) with (minimaxBody clock (minimax clock fuel))
    in Hrun.
  unfold minimaxBody in Hrun. cbv zeta in Hrun.
  destruct (_ && _); [by simplify_eq|].
  destruct (maxD <=? d); [by simplify_eq|].
  destruct (isGameOver b); [by simplify_eq|].
  destruct (bool_decide _); [by simplify_eq|].
  destruct isMax.
  - destruct (maxLoop _ _ _ _ _ _ _ _ _ _ _) as [[[s m] st1]| |] eqn:Hloop;
      simpl in Hrun; [|done..].
    simplify_eq. by eapply maxLoop_flag_stays.
  - destruct (minLoop _ _ _ _ _ _ _ _ _ _ _) as [[[s m] st1]| |] eqn:Hloop;
      simpl in Hrun; [|done..].
    simplify_eq. by eapply minLoop_flag_stays.
Qed.

Lemma evaluateMoves_total clock b ai (moves : list Move) st :
  (forall m, m ∈ moves -> m ∈ getAvailableMoves b) ->
  exists evs st', Analysis.evaluateMoves clock b ai moves st = Value (evs, st').
Proof.
  revert st. induction moves as [|mv rest IH]; intros st Hin;
    cbn [Analysis.evaluateMoves]; [eauto|].
  rewrite (makeMove_available b mv ai) by (apply Hin; left).
  unfold mbind, outcome_bind. cbv beta iota.
  destruct (minimax_total clock (fuelFor 0 9)
              (setCell b (row mv) (col mv) ai) 0 false ai NegInf PosInf 9 st)
    as (r & st1 & ->); [unfold fuelFor; lia|]. cbv beta iota.
  destruct (IH st1) as (evs & st2 & ->).
  { intros m Hm. apply Hin. by right. }
  cbv beta iota. eauto.
Qed.

(** When the flag is clear after the searches, it was clear before, and
    every score is the exhaustive value of its move. *)
Lemma evaluateMoves_scores clock b ai (moves : list Move) st evs st' :
  (forall m, m ∈ moves -> m ∈ getAvailableMoves b) ->
  Analysis.evaluateMoves clock b ai moves st = Value (evs, st') ->
  timeoutReached st' = false ->
  timeoutReached st = false
  /\ evs = (fun mv => (mv, plainScore (fuelFor 0 9)
                             (setCell b (row mv) (col mv) ai) 0 false ai 9))
           <$> moves.
Proof.
  revert st evs. induction moves as [|mv rest IH]; intros st evs Hin Hrun Hst';
    cbn [Analysis.evaluateMoves] in Hrun.
  { by simplify_eq. }
  rewrite (makeMove_available b mv ai) in Hrun by (apply Hin; left).
  unfold mbind, outcome_bind in Hrun. cbv beta iota in Hrun.
  destruct (minimax _ _ _ _ _ _ _ _ _ _) as [[r st1]| |] eqn:Hsearch;
    cbv beta iota in Hrun; [|done..].
  destruct (Analysis.evaluateMoves _ _ _ _ _) as [[evs' st2]| |] eqn:Hrest;
    cbv beta iota in Hrun; [|done..].
  injection Hrun as <- <-.
  destruct (IH st1 evs') as [Hst1 ->]; [|done..|].
  { intros m Hm. apply Hin. by right. }
  assert (Hst : timeoutReached st = false).
  { destruct (timeoutReached st) eqn:E; [|done].
    pose proof (minimax_flag_stays _ _ _ _ _ _ _ _ _ _ _ _ Hsearch E).
    congruence. }
  split; [done|]. rewrite fmap_cons. f_equal. f_equal.
  pose proof (minimax_agree_never clock _ _ _ _ _ _ _ _ _ _ _ Hsearch Hst1)
    as Hnever.
  pose proof (minimax_sound _ _ _ _ _ _ _ _ _ _ _ Hnever Hst eq_refl)
    as (_ & Hmid & _).
  destruct (plainScore_finite (fuelFor 0 9) (setCell b (row mv) (col mv) ai)
              0 false ai 9) as [z Hz].
  rewrite Hz in *. by apply Hmid.
Qed.

End AnalysisFacts.

(** X26. [analyzePosition] never throws.  Without an available move it
    reports the evaluation 0, no move and "Game over".  Otherwise, when
    the abort flag is clear after its searches, its evaluation is the
    greatest exhaustive minimax value of the available moves (each valued
    by a search of the position after it, the opponent to move), and its
    best moves are exactly the available moves of that value, in row-major
    order; there is at least one. *)
Theorem analyzePosition_best (clock : Z -> bool) (b : Board) (ai : Player)
    (st : AIState) :
  exists res st',
    Analysis.analyzePosition clock b ai st = Value (res, st')
    /\ (getAvailableMoves b = [] ->
        res = Analysis.mkPositionAnalysis (Fin 0) [] Analysis.GameOver)
    /\ (getAvailableMoves b <> [] -> timeoutReached st' = false ->
        let v := fun mv => plainScore (fuelFor 0 9)
                             (setCell b (row mv) (col mv) ai) 0 false ai 9 in
        Forall (fun mv => Num_leb (v mv) (Analysis.evaluation res) = true)
          (getAvailableMoves b)
        /\ Analysis.bestMoves res
           = filter (fun mv => v mv = Analysis.evaluation res)
               (getAvailableMoves b)
        /\ Analysis.bestMoves res <> []).
Proof.
  unfold Analysis.analyzePosition. cbv zeta.
  destruct (getAvailableMoves b) as [|m0 ms] eqn:Hmoves.
  { eexists _, _. split; [reflexivity|]. split; done. }
  rewrite bool_decide_false by done. rewrite <- Hmoves.
  destruct (evaluateMoves_total clock b ai (getAvailableMoves b)
              (mkAIState 0 (timeoutReached st))) as (evs & st' & Hrun);
    [done|].
  rewrite Hrun. unfold mbind, outcome_bind. cbv beta iota.
  eexists _, st'. split; [reflexivity|].
  split; [by rewrite Hmoves|]. intros _ Hst'.
  cbn [Analysis.evaluation Analysis.bestMoves].
  apply evaluateMoves_scores in Hrun as [_ ->]; [|done..].
  set (evs := (fun mv => (mv, plainScore (fuelFor 0 9)
                                (setCell b (row mv) (col mv) ai) 0 false
                                ai 9)) <$> getAvailableMoves b).
  destruct (sortByScore_head evs) as (h & t & Hsort & Hin & Hall).
  { unfold evs. rewrite Hmoves. done. }
  rewrite Hsort. cbv iota. rewrite <- Hsort.
  rewrite sortByScore_filter.
  assert (Hfilter :
    (filter (fun e : Move * Num => e.2 = h.2) evs).*1
    = filter (fun mv => plainScore (fuelFor 0 9)
                          (setCell b (row mv) (col mv) ai) 0 false ai 9
                        = h.2) (getAvailableMoves b)).
  { unfold evs. clear. induction (getAvailableMoves b) as [|mv l IH]; [done|].
    rewrite fmap_cons, !filter_cons. cbn [snd].
    destruct (decide (_ = h.2)); [rewrite fmap_cons; cbn [fst]|];
      by rewrite IH. }
  split; [|split; [exact Hfilter|]].
  - unfold evs in Hall. rewrite Forall_fmap in Hall. exact Hall.
  - rewrite Hfilter. unfold evs in Hin.
    apply list_elem_of_fmap in Hin as (mv & -> & Hmv). cbn [snd].
    intros Hnil.
    assert (Hmem : mv ∈ filter
      (fun mv0 => plainScore (fuelFor 0 9)
                    (setCell b (row mv0) (col mv0) ai) 0 false ai 9
                  = plainScore (fuelFor 0 9)
                      (setCell b (row mv) (col mv) ai) 0 false ai 9)
      (getAvailableMoves b)).
    { by apply list_elem_of_filter. }
    rewrite Hnil in Hmem. by apply elem_of_nil in Hmem.
Qed.

(** * The two marks are treated alike *)

Section Symmetry.

Implicit Types (b : Board) (p ai : Player) (r c : Z) (st : AIState)
  (rec : searchFn) (clock : Z -> bool) (rnd : nat -> Rand).

Lemma index_fmap {A B : Type} (f : A -> B) (l : list A) (i : Z) :
  index (f <$> l) i = f <$> index l i.
Proof. unfold index. destruct (0 <=? i); [apply list_lookup_fmap|done]. Qed.

Lemma getOpponent_involutive p : getOpponent (getOpponent p) = p.
Proof. by destruct p. Qed.

Lemma sizeOf_swapMarks b : sizeOf (swapMarks b) = sizeOf b.
Proof. unfold sizeOf, swapMarks. by rewrite length_fmap. Qed.

Lemma cellAt_swapMarks b r c :
  cellAt (swapMarks b) r c
  = (fun cell : Cell => getOpponent <$> cell) <$> cellAt b r c.
Proof.
  unfold cellAt, swapMarks. rewrite index_fmap.
  destruct (index b r) as [line|]; simpl; [apply index_fmap|done].
Qed.

Lemma isNull_swapMarks b r c :
  isNull (cellAt (swapMarks b) r c) = isNull (cellAt b r c).
Proof. rewrite cellAt_swapMarks. by destruct (cellAt b r c) as [[q|]|]. Qed.

Lemma holds_swapMarks b r c p :
  holds (cellAt (swapMarks b) r c) (getOpponent p) = holds (cellAt b r c) p.
Proof.
  rewrite cellAt_swapMarks. destruct (cellAt b r c) as [[q|]|]; simpl;
    [by destruct q, p|done..].
Qed.

Lemma isValidMove_swapMarks b r c :
  isValidMove (swapMarks b) r c = isValidMove b r c.
Proof.
  unfold isValidMove. by rewrite sizeOf_swapMarks, isNull_swapMarks.
Qed.

Lemma getAvailableMoves_swapMarks b :
  getAvailableMoves (swapMarks b) = getAvailableMoves b.
Proof.
  unfold getAvailableMoves. rewrite sizeOf_swapMarks.
  apply list_bind_ext; [|done]. intros r.
  apply list_bind_ext; [|done]. intros c. by rewrite isNull_swapMarks.
Qed.

Lemma forallb_ext_all {A : Type} (f g : A -> bool) (l : list A) :
  (forall x, f x = g x) -> forallb f l = forallb g l.
Proof. intros Hfg. induction l as [|x l IH]; simpl; [done|]. by rewrite Hfg, IH. Qed.

Lemma forallb_fmap {A B : Type} (f : A -> B) (g : B -> bool) (l : list A) :
  forallb g (f <$> l) = forallb (fun x => g (f x)) l.
Proof. induction l as [|x l IH]; simpl; [done|]. f_equal. exact IH. Qed.

Lemma lineMark_swapMarks b (l : WinningLine) :
  lineMark (swapMarks b) l = getOpponent <$> lineMark b l.
Proof.
  unfold lineMark, firstCell. destruct l as [|[r c] l]; [done|].
  rewrite cellAt_swapMarks.
  destruct (cellAt b r c) as [[q|]|] eqn:Hcell; simpl; [|done..].
  rewrite !holds_swapMarks.
  rewrite (forallb_ext_all
             (fun rc : Z * Z => holds (cellAt (swapMarks b) rc.1 rc.2)
                                  (getOpponent q))
             (fun rc : Z * Z => holds (cellAt b rc.1 rc.2) q))
    by (intros rc; apply holds_swapMarks).
  by destruct (_ && _).
Qed.

Lemma scanLines_swapMarks b (lines : list WinningLine) :
  scanLines (swapMarks b) lines
  = mkWinnerInfo (getOpponent <$> winner (scanLines b lines))
      (winningLine (scanLines b lines)).
Proof.
  induction lines as [|l lines IH]; [done|]. simpl.
  rewrite lineMark_swapMarks. by destruct (lineMark b l).
Qed.

Lemma winner_swapMarks b :
  winner (checkWinner (swapMarks b)) = getOpponent <$> winner (checkWinner b).
Proof.
  unfold checkWinner. by rewrite sizeOf_swapMarks, scanLines_swapMarks.
Qed.

Lemma isBoardFull_swapMarks b : isBoardFull (swapMarks b) = isBoardFull b.
Proof.
  unfold isBoardFull, swapMarks. rewrite forallb_fmap.
  apply forallb_ext_all. intros line. rewrite forallb_fmap.
  apply forallb_ext_all. by intros [q|].
Qed.

Lemma isGameOver_swapMarks b : isGameOver (swapMarks b) = isGameOver b.
Proof.
  unfold isGameOver. rewrite winner_swapMarks, isBoardFull_swapMarks.
  by destruct (winner (checkWinner b)).
Qed.

Lemma evaluateBoard_swapMarks b p :
  evaluateBoard (swapMarks b) (getOpponent p) = evaluateBoard b p.
Proof.
  unfold evaluateBoard. rewrite winner_swapMarks.
  destruct (winner (checkWinner b)) as [w|]; [|done]. by destruct w, p.
Qed.

Lemma setCell_swapMarks b r c p :
  setCell (swapMarks b) r c (getOpponent p) = swapMarks (setCell b r c p).
Proof.
  unfold setCell, swapMarks. symmetry. apply list_fmap_alter.
  apply Forall_forall. intros line _. by rewrite list_fmap_insert.
Qed.

Lemma makeMove_swapMarks b r c p :
  makeMove (swapMarks b) r c (getOpponent p)
  = match makeMove b r c p with
    | Value nb => Value (swapMarks nb)
    | Thrown e => Thrown e
    | NoFuel => NoFuel
    end.
Proof.
  unfold makeMove. rewrite isValidMove_swapMarks.
  destruct (isValidMove b r c); simpl; [|done].
  by rewrite !cloneBoard_id, setCell_swapMarks.
Qed.

Lemma maxLoop_swapMarks rec rec' b d ai beta maxD moves alpha maxEval best st :
  (forall nb d' isMax a be st0,
      rec' (swapMarks nb) d' isMax (getOpponent ai) a be maxD st0
      = rec nb d' isMax ai a be maxD st0) ->
  maxLoop rec' (swapMarks b) d (getOpponent ai) beta maxD moves alpha maxEval
    best st
  = maxLoop rec b d ai beta maxD moves alpha maxEval best st.
Proof.
  intros Hrec. revert alpha maxEval best st.
  induction moves as [|mv rest IH]; intros alpha maxEval best st; simpl;
    [done|].
  destruct (timeoutReached st); [done|].
  rewrite makeMove_swapMarks.
  destruct (makeMove b (row mv) (col mv) ai) as [nb| |]; simpl; [|done..].
  rewrite Hrec.
  destruct (rec nb (d + 1) false ai alpha beta maxD st) as [[ev st1]| |];
    simpl; [|done..].
  destruct (Num_ltb maxEval (score ev)); destruct (Num_leb beta _);
    by rewrite ?IH.
Qed.

Lemma minLoop_swapMarks rec rec' b d ai alpha maxD moves beta minEval best st :
  (forall nb d' isMax a be st0,
      rec' (swapMarks nb) d' isMax (getOpponent ai) a be maxD st0
      = rec nb d' isMax ai a be maxD st0) ->
  minLoop rec' (swapMarks b) d (getOpponent ai) alpha maxD moves beta minEval
    best st
  = minLoop rec b d ai alpha maxD moves beta minEval best st.
Proof.
  intros Hrec. revert beta minEval best st.
  induction moves as [|mv rest IH]; intros beta minEval best st; simpl;
    [done|].
  destruct (timeoutReached st); [done|].
  rewrite makeMove_swapMarks.
  destruct (makeMove b (row mv) (col mv) (getOpponent ai)) as [nb| |]; simpl;
    [|done..].
  rewrite Hrec.
  destruct (rec nb (d + 1) true ai alpha beta maxD st) as [[ev st1]| |];
    simpl; [|done..].
  destruct (Num_ltb (score ev) minEval); destruct (Num_leb _ alpha);
    by rewrite ?IH.
Qed.

Lemma minimax_swapMarks clock fuel b d isMax ai alpha beta maxD st :
  minimax clock fuel (swapMarks b) d isMax (getOpponent ai) alpha beta maxD st
  = minimax clock fuel b d isMax ai alpha beta maxD st.
Proof.
  revert b d isMax alpha beta st.
  induction fuel as [|fuel IH]; intros b d isMax alpha beta st; [done|].
  change (minimax clock (S fuel)) with (minimaxBody clock (minimax clock fuel)).
  unfold minimaxBody. cbv zeta.
  rewrite evaluateBoard_swapMarks, isGameOver_swapMarks,
    getAvailableMoves_swapMarks.
  destruct (_ && _); [done|]. destruct (maxD <=? d); [done|].
  destruct (isGameOver b); [done|]. destruct (bool_decide _); [done|].
  destruct isMax.
  - by rewrite (maxLoop_swapMarks (minimax clock fuel) (minimax clock fuel)).
  - by rewrite (minLoop_swapMarks (minimax clock fuel) (minimax clock fuel)).
Qed.

Lemma winningLoop_swapMarks b ai (moves : list Move) :
  winningLoop (swapMarks b) (getOpponent ai) moves = winningLoop b ai moves.
Proof.
  induction moves as [|mv rest IH]; simpl; [done|].
  rewrite makeMove_swapMarks.
  destruct (makeMove b (row mv) (col mv) ai) as [nb| |]; simpl; [|done..].
  by rewrite isGameOver_swapMarks, evaluateBoard_swapMarks, IH.
Qed.

Lemma blockingLoop_swapMarks b ai (moves : list Move) :
  blockingLoop (swapMarks b) (getOpponent ai) moves = blockingLoop b ai moves.
Proof.
  induction moves as [|mv rest IH]; simpl; [done|].
  rewrite makeMove_swapMarks.
  destruct (makeMove b (row mv) (col mv) (getOpponent ai)) as [nb| |]; simpl;
    [|done..].
  by rewrite isGameOver_swapMarks, evaluateBoard_swapMarks, IH.
Qed.

Lemma countWinning_swapMarks b ai (moves : list Move) (n : Z) :
  countWinning (swapMarks b) (getOpponent ai) moves n
  = countWinning b ai moves n.
Proof.
  revert n. induction moves as [|mv rest IH]; intros n; simpl; [done|].
  rewrite makeMove_swapMarks.
  destruct (makeMove b (row mv) (col mv) ai) as [nb| |]; simpl; [|done..].
  by rewrite isGameOver_swapMarks, evaluateBoard_swapMarks, IH.
Qed.

Lemma findStrategicMoves_swapMarks b ai (moves : list Move) :
  findStrategicMoves (swapMarks b) (getOpponent ai) moves
  = findStrategicMoves b ai moves.
Proof.
  induction moves as [|mv rest IH]; simpl; [done|].
  rewrite makeMove_swapMarks.
  destruct (makeMove b (row mv) (col mv) ai) as [nb| |]; simpl; [|done..].
  by rewrite getAvailableMoves_swapMarks, countWinning_swapMarks, IH.
Qed.

Lemma corners_swapMarks b (corners : list Move) :
  filter (fun pos => isValidMove (swapMarks b) (row pos) (col pos) = true)
    corners
  = filter (fun pos => isValidMove b (row pos) (col pos) = true) corners.
Proof.
  apply list_filter_iff. intros pos. by rewrite isValidMove_swapMarks.
Qed.

Lemma getRandomMove_swapMarks (u : Rand) b :
  getRandomMove u (swapMarks b) = getRandomMove u b.
Proof. unfold getRandomMove. by rewrite getAvailableMoves_swapMarks. Qed.

Lemma getOptimizedMove_swapMarks rnd b ai :
  getOptimizedMove rnd (swapMarks b) (getOpponent ai)
  = getOptimizedMove rnd b ai.
Proof.
  unfold getOptimizedMove.
  by rewrite sizeOf_swapMarks, getAvailableMoves_swapMarks,
    winningLoop_swapMarks, blockingLoop_swapMarks,
    findStrategicMoves_swapMarks, isValidMove_swapMarks, corners_swapMarks,
    getRandomMove_swapMarks.
Qed.

Lemma getEasyMove_swapMarks rnd b st :
  getEasyMove rnd (swapMarks b) st = getEasyMove rnd b st.
Proof.
  unfold getEasyMove.
  by rewrite sizeOf_swapMarks, getAvailableMoves_swapMarks,
    isValidMove_swapMarks, corners_swapMarks, getRandomMove_swapMarks.
Qed.

End Symmetry.

(** X27. The engine treats the two marks alike: exchanging X and O on
    the board and in the mark the engine plays changes nothing of what
    [getBestMove] returns, in either difficulty, for the same clock and
    the same random draws: the same move, score and count, or the same
    exception. *)
Theorem getBestMove_swapMarks (clock : Z -> bool) (rnd : nat -> Rand)
    (b : Board) (ai : Player) (difficulty : Difficulty) (st : AIState) :
  getBestMove clock rnd (swapMarks b) (getOpponent ai) difficulty st
  = getBestMove clock rnd b ai difficulty st.
Proof.
  unfold getBestMove, getHardMove, maxDepthFor.
  rewrite sizeOf_swapMarks, getAvailableMoves_swapMarks,
    getEasyMove_swapMarks, getOptimizedMove_swapMarks.
  destruct difficulty; [done|].
  destruct (3 <? sizeOf b); [done|].
  destruct (sizeOf b =? 3); [by rewrite minimax_swapMarks|].
  destruct (sizeOf b =? 4); [by rewrite minimax_swapMarks|].
  destruct (sizeOf b =? 5); [by rewrite minimax_swapMarks|done].
Qed.

(** * The tiers of the heuristic fallback *)

Section Tiers.

Implicit Types (b : Board) (ai : Player) (rnd : nat -> Rand)
  (clock : Z -> bool) (st : AIState).

(** Hard mode on a board whose size is not 3 returns the move of the
    heuristic fallback, with score 0 and no node counted. *)
Lemma getBestMove_heuristic clock rnd b ai st :
  sizeOf b <> 3 ->
  getBestMove clock rnd b ai Hard st
  = mv ← getOptimizedMove rnd b ai;
    Value (mkBestMove mv (mkMetrics 0 (Fin 0)), mkAIState 0 false).
Proof.
  intros Hsize. destruct (Z.ltb_spec 3 (sizeOf b)) as [Hbig|Hsmall].
  { by apply getBestMove_large. }
  unfold getBestMove. rewrite (proj2 (Z.ltb_ge _ _)) by lia.
  unfold getHardMove, maxDepthFor.
  rewrite !(proj2 (Z.eqb_neq _ _)) by lia.
  by destruct (getOptimizedMove rnd b ai).
Qed.

(** In its four first cases the heuristic fallback makes no draw. *)
Lemma getOptimizedMove_top_independent rnd1 rnd2 b ai :
  getAvailableMoves b = [] \/ isEmptyBoard b
  \/ (exists m, m ∈ getAvailableMoves b /\ wins b ai m)
  \/ (exists m, m ∈ getAvailableMoves b /\ wins b (getOpponent ai) m) ->
  getOptimizedMove rnd1 b ai = getOptimizedMove rnd2 b ai.
Proof.
  intros Hcase. unfold getOptimizedMove. cbv zeta.
  destruct (bool_decide (length (getAvailableMoves b) = 0%nat)) eqn:Hnil;
    [done|].
  destruct (_ =? _) eqn:Hopen; [done|].
  destruct (winningLoop_cases b ai (getAvailableMoves b))
    as [[-> Hnowin]|(m & -> & _)]; [done| |done].
  simpl.
  destruct (blockingLoop_cases b ai (getAvailableMoves b))
    as [[Hres Hnoblock]|(m & -> & _)]; [done| |done].
  exfalso. destruct Hcase as [Hmoves|[Hempty|[(m & Hm & Hw)|(m & Hm & Hw)]]].
  - rewrite Hmoves in Hnil. done.
  - apply isEmptyBoard_count in Hempty. apply Z.eqb_neq in Hopen. done.
  - by apply (Hnowin m).
  - by apply (Hnoblock m).
Qed.

Lemma findStrategicMoves_sublist b ai (moves l : list Move) :
  findStrategicMoves b ai moves = Value l -> l `sublist_of` moves.
Proof.
  revert l. induction moves as [|mv rest IH]; intros l Hrun; simpl in Hrun.
  { by simplify_eq. }
  destruct (makeMove b (row mv) (col mv) ai) as [tb| |]; simpl in Hrun;
    [|done..].
  destruct (countWinning tb ai (getAvailableMoves tb) 0) as [n| |];
    simpl in Hrun; [|done..].
  destruct (findStrategicMoves b ai rest) as [l'| |]; simpl in Hrun; [|done..].
  simplify_eq. destruct (2 <=? n).
  - apply sublist_skip. by apply IH.
  - apply sublist_cons. by apply IH.
Qed.

Lemma getCornerPositions_NoDup (N : Z) :
  2 <= N -> NoDup (getCornerPositions N).
Proof.
  intros HN. unfold getCornerPositions.
  repeat (apply NoDup_cons; split;
          [rewrite ?elem_of_cons, elem_of_nil;
           intros H; repeat destruct H as [H|H]; try done;
           injection H; lia|]).
  apply NoDup_nil_2.
Qed.

(** A board that is not empty and has a free cell has two rows or
    more. *)
Lemma used_board_size b :
  getAvailableMoves b <> [] -> ~ isEmptyBoard b -> 2 <= sizeOf b.
Proof.
  intros Hne Hused.
  destruct (getAvailableMoves b) as [|m ms] eqn:E; [done|].
  assert (Hm : m ∈ getAvailableMoves b) by (rewrite E; left).
  apply elem_of_getAvailableMoves in Hm as [[Hr Hc] Hcell].
  destruct (decide (sizeOf b = 1)) as [H1|]; [|lia].
  destruct Hused. intros r c [Hr' Hc'].
  assert (r = row m) as -> by lia. assert (c = col m) as -> by lia. done.
Qed.

Lemma floorTimes_one (u : Rand) : validRand u -> floorTimes u 1 = 0.
Proof. intros Hu. pose proof (floorTimes_range u 1 Hu). lia. Qed.

Lemma getOptimizedMove_lower b ai :
  getAvailableMoves b <> [] -> ~ isEmptyBoard b ->
  (forall m, m ∈ getAvailableMoves b -> ~ wins b ai m) ->
  (forall m, m ∈ getAvailableMoves b -> ~ wins b (getOpponent ai) m) ->
  exists forkMoves,
    findStrategicMoves b ai (getAvailableMoves b) = Value forkMoves
    /\ (forall m, m ∈ forkMoves <-> forks b ai m)
    /\ NoDup (lowerTierMoves b forkMoves)
    /\ lowerTierMoves b forkMoves <> []
    /\ (forall m, m ∈ lowerTierMoves b forkMoves ->
                  isValidMove b (row m) (col m) = true)
    /\ forall rnd,
         validRand (rnd 0%nat) ->
         getOptimizedMove rnd b ai
         = Value (index (lowerTierMoves b forkMoves)
                    (floorTimes (rnd 0%nat)
                       (Z.of_nat (length (lowerTierMoves b forkMoves))))).
Proof.
  intros Hne Hused Hnowin Hnoblock.
  destruct (findStrategicMoves_spec b ai (getAvailableMoves b))
    as (l & Hl & Hforks); [done|].
  exists l. split; [done|]. split; [exact Hforks|].
  pose proof (findStrategicMoves_sublist _ _ _ _ Hl) as Hsub.
  assert (Hnd : NoDup l)
    by (eapply sublist_NoDup; [apply getAvailableMoves_NoDup|exact Hsub]).
  pose proof (used_board_size b Hne Hused) as HN.
  assert (Hshape :
    NoDup (lowerTierMoves b l) /\ lowerTierMoves b l <> []
    /\ (forall m, m ∈ lowerTierMoves b l -> isValidMove b (row m) (col m) = true)).
  { unfold lowerTierMoves. destruct l as [|f fs]; [|split; [done|split; [done|]]].
    2:{ intros m Hm. apply available_valid.
        apply (proj1 (Hforks m)) in Hm. by destruct Hm. }
    destruct (isValidMove b (sizeOf b `div` 2) _) eqn:Hcenter.
    { split; [apply NoDup_singleton|]. split; [done|].
      by intros m ->%list_elem_of_singleton. }
    remember (filter (fun pos => isValidMove b (row pos) (col pos) = true)
                [mkMove 0 0; mkMove 0 (sizeOf b - 1);
                 mkMove (sizeOf b - 1) 0;
                 mkMove (sizeOf b - 1) (sizeOf b - 1)]) as cs eqn:Hcs.
    destruct cs as [|x xs].
    - split; [apply getAvailableMoves_NoDup|]. split; [done|].
      intros m Hm. by apply available_valid.
    - rewrite Hcs. split; [|split].
      + apply NoDup_filter. by apply (getCornerPositions_NoDup (sizeOf b)).
      + by rewrite <- Hcs.
      + intros m Hm. by apply list_elem_of_filter in Hm as [? _]. }
  split; [apply Hshape|]. split; [apply Hshape|]. split; [apply Hshape|].
  intros rnd Hu. unfold getOptimizedMove. cbv zeta.
  rewrite bool_decide_false
    by (intros Hlen; by apply nil_length_inv in Hlen).
  rewrite (proj2 (Z.eqb_neq _ _)) by (by rewrite <- isEmptyBoard_count).
  destruct (winningLoop_cases b ai (getAvailableMoves b))
    as [[-> _]|(m & _ & Hin & Hw)]; [done| |by destruct (Hnowin m)].
  simpl.
  destruct (blockingLoop_cases b ai (getAvailableMoves b))
    as [[-> _]|(m & _ & Hin & Hw)]; [done| |by destruct (Hnoblock m)].
  simpl. rewrite Hl. simpl. unfold lowerTierMoves.
  destruct l as [|f fs]; [|done].
  change (0 <? Z.of_nat (length (@nil Move))) with false. cbv iota.
  unfold getCenterPosition, getCornerPositions. cbn [row col].
  destruct (isValidMove b (sizeOf b `div` 2) _) eqn:Hcenter.
  { simpl length. by rewrite floorTimes_one. }
  remember (filter (fun pos => isValidMove b (row pos) (col pos) = true)
              [mkMove 0 0; mkMove 0 (sizeOf b - 1);
               mkMove (sizeOf b - 1) 0;
               mkMove (sizeOf b - 1) (sizeOf b - 1)]) as cs eqn:Hcs.
  destruct cs as [|x xs]; [|done].
  change (0 <? Z.of_nat (length (@nil Move))) with false. cbv iota.
  unfold getRandomMove.
  rewrite bool_decide_false; [done|].
  intros Hlen. by apply nil_length_inv in Hlen.
Qed.

(** Two draws that choose different elements of a list of two or more
    different elements. *)
Lemma index_two_draws {A : Type} (l : list A) :
  NoDup l -> (2 <= length l)%nat ->
  exists x y,
    index l (floorTimes (mkRand 0 1) (Z.of_nat (length l))) = Some x
    /\ index l (floorTimes (mkRand 1 2) (Z.of_nat (length l))) = Some y
    /\ x <> y.
Proof.
  intros Hnd Hlen.
  pose proof (floorTimes_range (mkRand 1 2) (Z.of_nat (length l))
                validRand_half ltac:(lia)) as Hrange.
  pose proof (floorTimes_half (Z.of_nat (length l)) ltac:(lia)) as Hge.
  rewrite floorTimes_zero.
  destruct (index_in_range l 0 ltac:(lia)) as [x Hx].
  destruct (index_in_range l _ Hrange) as [y Hy].
  exists x, y. split; [done|]. split; [done|]. intros ->.
  apply index_Some in Hx as [_ Hx]. apply index_Some in Hy as [_ Hy].
  pose proof (NoDup_lookup l _ _ y Hnd Hx Hy) as Heq.
  change (Z.to_nat 0) with 0%nat in Heq. lia.
Qed.

End Tiers.

(** X28. On a board that is not empty and on which neither side has a
    move that wins at once, the heuristic fallback chooses among the
    moves of the first of these tiers that is not empty: the moves that
    make a fork for the engine, as [findStrategicMoves] returns them;
    the center, the cell in row and column [N div 2], when it is free;
    the free ones of the four corners; all the available moves.  For
    every double in [0, 1) that [Math.random] returns, the index
    [Math.floor (Math.random () * count)], computed with the rounded
    product, is inside that list, and the move returned is the move at
    that index, a valid move. *)
Theorem getOptimizedMove_lower_tiers (b : Board) (ai : Player) :
  getAvailableMoves b <> [] -> ~ isEmptyBoard b ->
  (forall m, m ∈ getAvailableMoves b -> ~ wins b ai m) ->
  (forall m, m ∈ getAvailableMoves b -> ~ wins b (getOpponent ai) m) ->
  let N := sizeOf b in
  let center := mkMove (N `div` 2) (N `div` 2) in
  let corners :=
    [mkMove 0 0; mkMove 0 (N - 1); mkMove (N - 1) 0; mkMove (N - 1) (N - 1)] in
  exists forkMoves,
    findStrategicMoves b ai (getAvailableMoves b) = Value forkMoves
    /\ (forall m, m ∈ forkMoves <-> forks b ai m)
    /\ NoDup (lowerTierMoves b forkMoves)
    /\ lowerTierMoves b forkMoves <> []
    /\ (forall m, m ∈ lowerTierMoves b forkMoves ->
                  isValidMove b (row m) (col m) = true)
    /\ (forall rnd,
          validRand (rnd 0%nat) ->
          0 <= floorTimes (rnd 0%nat)
                 (Z.of_nat (length (lowerTierMoves b forkMoves)))
            < Z.of_nat (length (lowerTierMoves b forkMoves))
          /\ exists m,
               index (lowerTierMoves b forkMoves)
                 (floorTimes (rnd 0%nat)
                    (Z.of_nat (length (lowerTierMoves b forkMoves))))
               = Some m
               /\ getOptimizedMove rnd b ai = Value (Some m)
               /\ isValidMove b (row m) (col m) = true)
    /\ ((exists m, forks b ai m) ->
        forall m, m ∈ lowerTierMoves b forkMoves <-> forks b ai m)
    /\ ((forall m, ~ forks b ai m) ->
        (isValidMove b (row center) (col center) = true ->
         lowerTierMoves b forkMoves = [center])
        /\ (isValidMove b (row center) (col center) = false ->
            (exists c, c ∈ corners /\ isValidMove b (row c) (col c) = true) ->
            forall m, m ∈ lowerTierMoves b forkMoves
                      <-> m ∈ corners /\ isValidMove b (row m) (col m) = true)
        /\ (isValidMove b (row center) (col center) = false ->
            (forall c, c ∈ corners -> isValidMove b (row c) (col c) = false) ->
            lowerTierMoves b forkMoves = getAvailableMoves b)).
Proof.
  intros Hne Hused Hnowin Hnoblock N center corners.
  destruct (getOptimizedMove_lower b ai Hne Hused Hnowin Hnoblock)
    as (l & Hl & Hforks & Hnd & Hnil & Hvalid & Hpick).
  exists l. split; [done|]. split; [done|]. split; [done|]. split; [done|].
  split; [done|]. split; [|split].
  - intros rnd Hu.
    assert (Hlen : 0 < Z.of_nat (length (lowerTierMoves b l)))
      by (destruct (lowerTierMoves b l); [done|simpl; lia]).
    pose proof (floorTimes_range _ _ Hu Hlen) as Hrange.
    split; [done|].
    destruct (index_in_range _ _ Hrange) as [m Hm].
    exists m. split; [done|]. split; [by rewrite Hpick, Hm|].
    apply Hvalid. apply index_Some in Hm as [_ Hm].
    by eapply list_elem_of_lookup_2.
  - intros [m0 Hm0] m. apply Hforks in Hm0.
    unfold lowerTierMoves. destruct l as [|f fs]; [|apply Hforks].
    by apply elem_of_nil in Hm0.
  - intros Hnone.
    assert (l = []) as ->.
    { destruct l as [|f fs]; [done|].
      destruct (Hnone f). apply Hforks. left. }
    unfold lowerTierMoves. subst center corners N. cbn [row col].
    split; [by intros ->|]. split.
    + intros -> (c & Hc & Hv) m.
      remember (filter (fun pos => isValidMove b (row pos) (col pos) = true)
                  [mkMove 0 0; mkMove 0 (sizeOf b - 1);
                   mkMove (sizeOf b - 1) 0;
                   mkMove (sizeOf b - 1) (sizeOf b - 1)]) as cs eqn:Hcs.
      destruct cs as [|x xs].
      * assert (Hin : c ∈ @nil Move)
          by (rewrite Hcs; by apply list_elem_of_filter).
        by apply elem_of_nil in Hin.
      * rewrite Hcs. rewrite list_elem_of_filter. tauto.
    + intros -> Hnocorner.
      rewrite (filter_none _ _); [done|].
      intros c Hc. rewrite (Hnocorner c Hc). done.
Qed.

(** On the first board X makes a fork at (0,0), the only one, and that
    move is returned.  On the second board, of size 4, nobody can make a
    fork and the center (2,2) is taken: with the double 1/2 the third
    of the four free corners is returned. *)
Lemma getOptimizedMove_lower_tiers_witness :
  let rnd := fun _ : nat => mkRand 1 2 in
  let b1 := [[None; Some X; None]; [Some X; Some O; Some O];
             [None; None; None]] in
  let b2 := [[None; None; None; None]; [None; None; None; None];
             [None; None; Some X; None]; [None; None; None; None]] in
  getAvailableMoves b1 <> [] /\ ~ isEmptyBoard b1
  /\ (forall m, m ∈ getAvailableMoves b1 -> ~ wins b1 X m)
  /\ (forall m, m ∈ getAvailableMoves b1 -> ~ wins b1 (getOpponent X) m)
  /\ forks b1 X (mkMove 0 0)
  /\ getOptimizedMove rnd b1 X = Value (Some (mkMove 0 0))
  /\ getOptimizedMove rnd b2 O = Value (Some (mkMove 3 0))
  /\ exists forkMoves,
       lowerTierMoves b2 forkMoves
       = [mkMove 0 0; mkMove 0 3; mkMove 3 0; mkMove 3 3].
Proof.
  intros rnd b1 b2.
  assert (Hnowins : forall (b : Board) (p : Player),
            forallb (fun m => negb (bool_decide
                      (winner (checkWinner (setCell b (row m) (col m) p))
                       = Some p))) (getAvailableMoves b) = true ->
            forall m, m ∈ getAvailableMoves b -> ~ wins b p m).
  { intros b p Hall m Hm Hw. apply wins_available in Hw; [|done].
    rewrite forallb_forall in Hall.
    specialize (Hall m (proj1 (list_elem_of_In _ _) Hm)).
    apply negb_true_iff, bool_decide_eq_false in Hall. done. }
  assert (Hne1 : getAvailableMoves b1 <> []) by by vm_compute.
  assert (Hused1 : ~ isEmptyBoard b1).
  { intros Hempty. specialize (Hempty 0 1 ltac:(by vm_compute)). done. }
  assert (Hnowin1 : forall m, m ∈ getAvailableMoves b1 -> ~ wins b1 X m)
    by (apply Hnowins; by vm_compute).
  assert (Hnoblock1 : forall m, m ∈ getAvailableMoves b1
                                -> ~ wins b1 (getOpponent X) m)
    by (apply Hnowins; by vm_compute).
  assert (Hne2 : getAvailableMoves b2 <> []) by by vm_compute.
  assert (Hused2 : ~ isEmptyBoard b2).
  { intros Hempty. specialize (Hempty 2 2 ltac:(by vm_compute)). done. }
  assert (Hnowin2 : forall m, m ∈ getAvailableMoves b2 -> ~ wins b2 O m)
    by (apply Hnowins; by vm_compute).
  assert (Hnoblock2 : forall m, m ∈ getAvailableMoves b2
                                -> ~ wins b2 (getOpponent O) m)
    by (apply Hnowins; by vm_compute).
  split; [done|]. split; [done|]. split; [done|]. split; [done|].
  destruct (getOptimizedMove_lower_tiers b1 X Hne1 Hused1 Hnowin1 Hnoblock1)
    as (l1 & Hl1 & Hforks1 & _ & _ & _ & Hpick1 & _).
  destruct (getOptimizedMove_lower_tiers b2 O Hne2 Hused2 Hnowin2 Hnoblock2)
    as (l2 & Hl2 & _ & _ & _ & _ & Hpick2 & _).
  assert (Heq1 : l1 = [mkMove 0 0]).
  { assert (Hc : findStrategicMoves b1 X (getAvailableMoves b1)
                 = Value [mkMove 0 0]) by by vm_compute.
    congruence. }
  assert (Heq2 : l2 = []).
  { assert (Hc : findStrategicMoves b2 O (getAvailableMoves b2) = Value [])
      by by vm_compute.
    congruence. }
  subst l1 l2.
  split; [apply Hforks1; left|].
  destruct (Hpick1 rnd validRand_half) as (_ & m1 & Hm1 & Hrun1 & _).
  destruct (Hpick2 rnd validRand_half) as (_ & m2 & Hm2 & Hrun2 & _).
  vm_compute in Hm1. injection Hm1 as <-.
  vm_compute in Hm2. injection Hm2 as <-.
  split; [exact Hrun1|]. split; [exact Hrun2|].
  exists []. reflexivity.
Defined.

(** C9 (as the code has it).  On a board of size 3 hard mode always
    returns and is deterministic: two calls that are not aborted return
    the same move, score and node count, whatever the clocks, the random
    sources and the counters left by earlier calls; and when the game is
    not over, the root of the search evaluates every available move in
    order and the move returned is the first whose score is the reported
    score, earlier moves scoring strictly less and later ones no more.
    On a board of any other size hard mode returns the move of the
    heuristic fallback, with score 0 and no node counted, and the clock
    plays no part.  That move does not depend on the random source when
    no move is available, when the board is empty, when some move wins
    at once for the mover, or when some move would win at once for the
    opponent.  Otherwise the move is the one at the index
    [Math.floor (Math.random () * count)] among the moves of the tier
    reached (the fork moves; else the free center; else the free
    corners; else all available moves): with one such move the result
    is the same for all draws, and with two or more there are two draws
    for which hard mode returns different moves. *)
Theorem getBestMove_hard_deterministic (b : Board) (ai : Player) :
  (sizeOf b = 3 ->
   (forall clock rnd st,
      exists r s, getBestMove clock rnd b ai Hard st = Value (r, s))
   /\ (forall clock1 clock2 rnd1 rnd2 st1 st2 r1 r2 s1 s2,
         getBestMove clock1 rnd1 b ai Hard st1 = Value (r1, s1) ->
         getBestMove clock2 rnd2 b ai Hard st2 = Value (r2, s2) ->
         timeoutReached s1 = false ->
         timeoutReached s2 = false ->
         r1 = r2
         /\ (isGameOver b = false -> getAvailableMoves b <> [] ->
             (rootScores b ai).*1 = getAvailableMoves b
             /\ exists pre mv post,
                  rootScores b ai
                  = pre ++ (mv, lastMoveScore (metrics r1)) :: post
                  /\ bestMove r1 = Some mv
                  /\ Forall (fun e : Move * Num =>
                               Num_ltb e.2 (lastMoveScore (metrics r1)) = true)
                            pre
                  /\ Forall (fun e : Move * Num =>
                               Num_leb e.2 (lastMoveScore (metrics r1)) = true)
                            post)))
  /\ (sizeOf b <> 3 ->
      (forall clock rnd st,
         exists mv,
           getOptimizedMove rnd b ai = Value mv
           /\ getBestMove clock rnd b ai Hard st
              = Value (mkBestMove mv (mkMetrics 0 (Fin 0)), mkAIState 0 false))
      /\ (getAvailableMoves b = [] \/ isEmptyBoard b
          \/ (exists m, m ∈ getAvailableMoves b /\ wins b ai m)
          \/ (exists m, m ∈ getAvailableMoves b
                        /\ wins b (getOpponent ai) m) ->
          forall clock1 clock2 rnd1 rnd2 st1 st2,
            getBestMove clock1 rnd1 b ai Hard st1
            = getBestMove clock2 rnd2 b ai Hard st2)
      /\ (getAvailableMoves b <> [] -> ~ isEmptyBoard b ->
          (forall m, m ∈ getAvailableMoves b -> ~ wins b ai m) ->
          (forall m, m ∈ getAvailableMoves b -> ~ wins b (getOpponent ai) m) ->
          exists forkMoves,
            findStrategicMoves b ai (getAvailableMoves b) = Value forkMoves
            /\ (forall m, m ∈ forkMoves <-> forks b ai m)
            /\ (forall clock rnd st,
                  validRand (rnd 0%nat) ->
                  exists m,
                    index (lowerTierMoves b forkMoves)
                      (floorTimes (rnd 0%nat)
                         (Z.of_nat (length (lowerTierMoves b forkMoves))))
                    = Some m
                    /\ getBestMove clock rnd b ai Hard st
                       = Value (mkBestMove (Some m) (mkMetrics 0 (Fin 0)),
                                mkAIState 0 false))
            /\ (length (lowerTierMoves b forkMoves) = 1%nat ->
                forall clock1 clock2 rnd1 rnd2 st1 st2,
                  validRand (rnd1 0%nat) -> validRand (rnd2 0%nat) ->
                  getBestMove clock1 rnd1 b ai Hard st1
                  = getBestMove clock2 rnd2 b ai Hard st2)
            /\ ((2 <= length (lowerTierMoves b forkMoves))%nat ->
                exists rnd1 rnd2 m1 m2,
                  validRand (rnd1 0%nat) /\ validRand (rnd2 0%nat)
                  /\ m1 <> m2
                  /\ forall clock st,
                       getBestMove clock rnd1 b ai Hard st
                       = Value (mkBestMove (Some m1) (mkMetrics 0 (Fin 0)),
                                mkAIState 0 false)
                       /\ getBestMove clock rnd2 b ai Hard st
                          = Value (mkBestMove (Some m2) (mkMetrics 0 (Fin 0)),
                                   mkAIState 0 false)))).
Proof.
  split; [apply getBestMove_hard3_same|].
  intros Hsize. split; [|split].
  - intros clock rnd st. destruct (getOptimizedMove_total rnd b ai) as [mv Hmv].
    exists mv. split; [done|]. rewrite getBestMove_heuristic by done.
    by rewrite Hmv.
  - intros Hcase clock1 clock2 rnd1 rnd2 st1 st2.
    rewrite !getBestMove_heuristic by done.
    by rewrite (getOptimizedMove_top_independent rnd1 rnd2 b ai Hcase).
  - intros Hne Hused Hnowin Hnoblock.
    destruct (getOptimizedMove_lower b ai Hne Hused Hnowin Hnoblock)
      as (l & Hl & Hforks & Hnd & Hnil & Hvalid & Hpick).
    exists l. split; [done|]. split; [done|].
    assert (Hlen : 0 < Z.of_nat (length (lowerTierMoves b l)))
      by (destruct (lowerTierMoves b l); [done|simpl; lia]).
    assert (Hrun : forall clock rnd st,
              validRand (rnd 0%nat) ->
              getBestMove clock rnd b ai Hard st
              = Value (mkBestMove
                         (index (lowerTierMoves b l)
                            (floorTimes (rnd 0%nat)
                               (Z.of_nat (length (lowerTierMoves b l)))))
                         (mkMetrics 0 (Fin 0)), mkAIState 0 false)).
    { intros clock rnd st Hu. rewrite getBestMove_heuristic by done.
      by rewrite (Hpick rnd Hu). }
    split; [|split].
    + intros clock rnd st Hu.
      pose proof (floorTimes_range _ _ Hu Hlen) as Hrange.
      destruct (index_in_range _ _ Hrange) as [m Hm].
      exists m. split; [done|]. by rewrite Hrun, Hm.
    + intros Hone clock1 clock2 rnd1 rnd2 st1 st2 Hu1 Hu2.
      rewrite !Hrun by done. rewrite Hone.
      by rewrite !floorTimes_one.
    + intros Htwo.
      destruct (index_two_draws _ Hnd Htwo) as (m1 & m2 & Hm1 & Hm2 & Hdiff).
      exists (fun _ => mkRand 0 1), (fun _ => mkRand 1 2), m1, m2.
      split; [apply validRand_zero|]. split; [apply validRand_half|].
      split; [done|]. intros clock st.
      rewrite !Hrun by (apply validRand_zero || apply validRand_half).
      by rewrite Hm1, Hm2.
Qed.

(** Two calls on a 3 x 3 board, with different clocks, random sources
    and counters, return the same result; on a 4 x 4 board on which X
    wins at once, hard mode returns the same move for two random
    sources. *)
Lemma getBestMove_hard_deterministic_witness :
  let b := [[Some X; Some O; Some X]; [None; Some O; None];
            [None; None; None]] in
  let late := fun n : Z => 100000 <? n in
  let rndA := fun _ : nat => mkRand 0 1 in
  let rndB := fun _ : nat => mkRand 1 2 in
  let r := mkBestMove (Some (mkMove 2 1)) (mkMetrics 110 (Fin 5)) in
  let b4 := [[Some X; Some X; Some X; None]; [Some O; Some O; None; None];
             [None; None; None; None]; [None; None; Some O; None]] in
  sizeOf b = 3
  /\ getBestMove never rndA b X Hard (mkAIState 0 false)
     = Value (r, mkAIState 110 false)
  /\ getBestMove late rndB b X Hard (mkAIState 7 true)
     = Value (r, mkAIState 110 false)
  /\ (rootScores b X).*1 = getAvailableMoves b
  /\ sizeOf b4 <> 3
  /\ wins b4 X (mkMove 0 3)
  /\ getBestMove never rndA b4 X Hard (mkAIState 0 false)
     = getBestMove late rndB b4 X Hard (mkAIState 7 true).
Proof.
  intros b late rndA rndB r b4.
  assert (H1 : getBestMove never rndA b X Hard (mkAIState 0 false)
               = Value (r, mkAIState 110 false)) by by vm_compute.
  assert (H2 : getBestMove late rndB b X Hard (mkAIState 7 true)
               = Value (r, mkAIState 110 false)) by by vm_compute.
  assert (Hsize4 : sizeOf b4 <> 3) by by vm_compute.
  assert (Hwin : wins b4 X (mkMove 0 3)).
  { apply wins_available; vm_compute; [|done].
    repeat (first [apply list_elem_of_here | apply list_elem_of_further]). }
  split; [done|]. split; [done|]. split; [done|].
  destruct (getBestMove_hard_deterministic b X) as [H3 _].
  destruct (H3 eq_refl) as [_ Hdet].
  destruct (Hdet never late rndA rndB (mkAIState 0 false) (mkAIState 7 true)
              r r (mkAIState 110 false) (mkAIState 110 false)
              H1 H2 eq_refl eq_refl) as [_ Htie].
  split; [apply Htie; by vm_compute|].
  split; [done|]. split; [done|].
  destruct (getBestMove_hard_deterministic b4 X) as [_ H4].
  destruct (H4 Hsize4) as (_ & Htop & _).
  apply Htop. right. right. left. exists (mkMove 0 3). split; [|done].
  vm_compute.
  repeat (first [apply list_elem_of_here | apply list_elem_of_further]).
Defined.

(** * The size of the search *)

Section Nodes.

Implicit Types (b : Board) (ai p : Player) (st : AIState) (rec : searchFn)
  (clock : Z -> bool).

Lemma searchNodes_pos (e : nat) : 1 <= searchNodes e.
Proof. induction e as [|e IH]; simpl; [done|]. nia. Qed.

Lemma maxLoop_nodes rec b d ai beta maxD moves alpha maxEval best st res st'
    (bound : Z) :
  0 <= bound ->
  (forall mv isMax a be st0 r st1,
      mv ∈ getAvailableMoves b ->
      rec (setCell b (row mv) (col mv) ai) (d + 1) isMax ai a be maxD st0
      = Value (r, st1) ->
      positionsEvaluated st1 <= positionsEvaluated st0 + bound) ->
  (forall mv, mv ∈ moves -> mv ∈ getAvailableMoves b) ->
  maxLoop rec b d ai beta maxD moves alpha maxEval best st = Value (res, st') ->
  positionsEvaluated st'
  <= positionsEvaluated st + Z.of_nat (length moves) * bound.
Proof.
  intros Hb Hrec. revert alpha maxEval best st.
  induction moves as [|mv rest IH]; intros alpha maxEval best st Hin Hrun;
    simpl in Hrun.
  { simplify_eq. simpl. lia. }
  destruct (timeoutReached st); [simplify_eq; simpl length; nia|].
  rewrite (makeMove_available b mv ai) in Hrun by (apply Hin; left).
  simpl in Hrun.
  destruct (rec _ _ _ _ _ _ _ _) as [[ev st1]| |] eqn:Hcall; simpl in Hrun;
    [|done..].
  apply Hrec in Hcall; [|apply Hin; left].
  assert (Hrest : forall mv', mv' ∈ rest -> mv' ∈ getAvailableMoves b).
  { intros mv' Hmv'. apply Hin. by right. }
  simpl length. rewrite Nat2Z.inj_succ.
  destruct (Num_ltb maxEval (score ev)); destruct (Num_leb beta _);
    first [ simplify_eq; nia | apply IH in Hrun; [nia|done] ].
Qed.

Lemma minLoop_nodes rec b d ai alpha maxD moves beta minEval best st res st'
    (bound : Z) :
  0 <= bound ->
  (forall mv isMax a be st0 r st1,
      mv ∈ getAvailableMoves b ->
      rec (setCell b (row mv) (col mv) (getOpponent ai)) (d + 1) isMax ai a be
        maxD st0
      = Value (r, st1) ->
      positionsEvaluated st1 <= positionsEvaluated st0 + bound) ->
  (forall mv, mv ∈ moves -> mv ∈ getAvailableMoves b) ->
  minLoop rec b d ai alpha maxD moves beta minEval best st = Value (res, st') ->
  positionsEvaluated st'
  <= positionsEvaluated st + Z.of_nat (length moves) * bound.
Proof.
  intros Hb Hrec. revert beta minEval best st.
  induction moves as [|mv rest IH]; intros beta minEval best st Hin Hrun;
    simpl in Hrun.
  { simplify_eq. simpl. lia. }
  destruct (timeoutReached st); [simplify_eq; simpl length; nia|].
  rewrite (makeMove_available b mv (getOpponent ai)) in Hrun
    by (apply Hin; left).
  simpl in Hrun.
  destruct (rec _ _ _ _ _ _ _ _) as [[ev st1]| |] eqn:Hcall; simpl in Hrun;
    [|done..].
  apply Hrec in Hcall; [|apply Hin; left].
  assert (Hrest : forall mv', mv' ∈ rest -> mv' ∈ getAvailableMoves b).
  { intros mv' Hmv'. apply Hin. by right. }
  simpl length. rewrite Nat2Z.inj_succ.
  destruct (Num_ltb (score ev) minEval); destruct (Num_leb _ alpha);
    first [ simplify_eq; nia | apply IH in Hrun; [nia|done] ].
Qed.

(** A search visits at most the nodes of the full game tree. *)
Lemma minimax_nodes clock fuel b d isMax ai alpha beta maxD st r st' :
  minimax clock fuel b d isMax ai alpha beta maxD st = Value (r, st') ->
  positionsEvaluated st'
  <= positionsEvaluated st + searchNodes (length (getAvailableMoves b)).
Proof.
  revert b d isMax alpha beta st r st'.
  induction fuel as [|fuel IH]; intros b d isMax alpha beta st r st' Hrun;
    [done|].
  change (minimax clock (S fuel)) with (minimaxBody clock (minimax clock fuel))
    in Hrun.
  unfold minimaxBody in Hrun. cbv zeta in Hrun.
  pose proof (searchNodes_pos (length (getAvailableMoves b))) as Hpos.
  destruct (_ && _); [simplify_eq; simpl; lia|].
  destruct (maxD <=? d); [simplify_eq; simpl; lia|].
  destruct (isGameOver b); [simplify_eq; simpl; lia|].
  destruct (bool_decide _) eqn:Hlen; [simplify_eq; simpl; lia|].
  apply bool_decide_eq_false in Hlen.
  destruct (length (getAvailableMoves b)) as [|e] eqn:He; [done|].
  assert (Hchild : forall p mv isMax' a be st0 r0 st1,
    mv ∈ getAvailableMoves b ->
    minimax clock fuel (setCell b (row mv) (col mv) p) (d + 1) isMax' ai a be
      maxD st0 = Value (r0, st1) ->
    positionsEvaluated st1 <= positionsEvaluated st0 + searchNodes e).
  { intros p mv isMax' a be st0 r0 st1 Hmv Hcall.
    apply IH in Hcall.
    pose proof (available_setCell_length b mv p Hmv) as Hl.
    rewrite He in Hl. injection Hl as Hl. by rewrite <- Hl in Hcall. }
  pose proof (searchNodes_pos e) as Hpos'.
  destruct isMax.
  - destruct (maxLoop _ _ _ _ _ _ _ _ _ _ _) as [[[s m] st1]| |] eqn:Hloop;
      simpl in Hrun; [|done..].
    injection Hrun as <- <-.
    apply (maxLoop_nodes _ _ _ _ _ _ _ _ _ _ _ _ _ (searchNodes e)) in Hloop;
      [|lia|by apply Hchild|done].
    rewrite He in Hloop. simpl in Hloop. cbn [searchNodes]. lia.
  - destruct (minLoop _ _ _ _ _ _ _ _ _ _ _) as [[[s m] st1]| |] eqn:Hloop;
      simpl in Hrun; [|done..].
    injection Hrun as <- <-.
    apply (minLoop_nodes _ _ _ _ _ _ _ _ _ _ _ _ _ (searchNodes e)) in Hloop;
      [|lia|by apply Hchild|done].
    rewrite He in Hloop. simpl in Hloop. cbn [searchNodes]. lia.
Qed.

Lemma searchNodes_9 (e : nat) : (e <= 9)%nat -> searchNodes e <= 986410.
Proof.
  intros He. do 10 (destruct e as [|e]; [by vm_compute|]). lia.
Qed.

End Nodes.

(** X29. On a board of size 3, hard mode returns and reports at least
    one position evaluated and at most as many as the full game tree of
    the free cells has nodes, which is at most 986410, whatever the
    clock does. *)
Theorem getBestMove_hard3_node_bound (clock : Z -> bool) (rnd : nat -> Rand)
    (b : Board) (ai : Player) (st : AIState) :
  sizeOf b = 3 ->
  exists r st',
    getBestMove clock rnd b ai Hard st = Value (r, st')
    /\ 1 <= metricPositionsEvaluated (metrics r)
       <= searchNodes (length (getAvailableMoves b))
    /\ searchNodes (length (getAvailableMoves b)) <= 986410.
Proof.
  intros Hsize.
  rewrite (getBestMove_hard3 clock rnd b ai st Hsize).
  destruct (minimax_total clock (fuelFor 0 9) b 0 true ai NegInf PosInf 9
              (mkAIState 0 false)) as (r & st' & Hrun); [unfold fuelFor; lia|].
  rewrite Hrun. unfold mbind, outcome_bind. cbv beta iota.
  eexists _, st'. split; [reflexivity|].
  cbn [metrics metricPositionsEvaluated].
  pose proof (minimax_counts clock _ _ _ _ _ _ _ _ _ _ _ Hrun) as Hlow.
  pose proof (minimax_nodes _ _ _ _ _ _ _ _ _ _ _ _ Hrun) as Hhigh.
  cbn [positionsEvaluated] in Hlow, Hhigh.
  split; [lia|]. apply searchNodes_9.
  pose proof (available_length_le b) as Hle. rewrite Hsize in Hle.
  change (Z.to_nat 3 * Z.to_nat 3)%nat with 9%nat in Hle. exact Hle.
Qed.

Lemma getBestMove_hard3_node_bound_witness :
  let b := [[Some X; Some O; None]; [None; Some X; None];
            [None; None; Some O]] in
  exists r st',
    getBestMove (fun n => 200 <? n) (fun _ => mkRand 0 1) b X Hard
      (mkAIState 0 false) = Value (r, st')
    /\ 1 <= metricPositionsEvaluated (metrics r)
       <= searchNodes (length (getAvailableMoves b))
    /\ searchNodes (length (getAvailableMoves b)) <= 986410.
Proof.
  intros b.
  apply (getBestMove_hard3_node_bound (fun n => 200 <? n)
           (fun _ => mkRand 0 1) b X (mkAIState 0 false)).
  reflexivity.
Defined.
